(** * Segmented tensors and the per-round term update

    A shallow embedding of [SegmentedTensor.h] (the compressed
    piecewise-constant tensor and its algebra) and of the control flow of
    [GenerateTermUpdate.cpp].

    Conventions of the embedding.
    - A heap buffer is a list holding every allocated cell; a pointer into
      a buffer is the index of the cell it designates, so [&a[n]] is [n]
      and the buffer's own address is [0].
    - The header is followed in the build that keeps [EBM_ASSERT] (the one
      in which [IsEqual] exists).  A run that fails an assertion, reads or
      writes outside a buffer, or moves a pointer before the start of its
      buffer has no result: the operation yields [None].
    - An operation that reports failure by returning [true] yields
      [Some (true, t)], with [t] the state it leaves behind.
    - Sizes are natural numbers checked against [size_max]; unguarded
      [size_t] arithmetic wraps modulo [size_max + 1]. *)

From Stdlib Require Import NArith ZArith Lia Floats Sorted.
From stdpp Require Import base option list sorting.

Set Default Proof Using "Type".
Open Scope nat_scope.

(** ** The platform *)

(** What the header takes from its environment: the range of [size_t],
    the sizes of the template arguments and of the two structs,
    the compile-time bound [k_cDimensionsMax], the allocator's answer to a
    request of a given number of bytes, and the content of a division cell
    that [malloc] or [realloc] hands out. *)
Class Platform := {
  size_max : N;
  sizeof_TValues : nat;
  sizeof_TDivisions : nat;
  sizeof_DimensionInfo : nat;
  sizeof_SegmentedTensor : nat;
  k_cDimensionsMax : nat;
  heap_grants : nat -> bool;
  division_indeterminate : nat;
  sizeof_TValues_pos : 1 <= sizeof_TValues;
  sizeof_TDivisions_wide : 2 <= sizeof_TDivisions
}.

(** The template argument [TValues]: its all-zero bit pattern, [+], [*],
    the built-in [!=], and the content of a fresh cell. *)
Class Scores (T : Type) := {
  score_zero : T;
  score_add : T -> T -> T;
  score_mul : T -> T -> T;
  score_neq : T -> T -> bool;
  score_indeterminate : T
}.

(** ** Pointers and buffers *)

Definition ptr_sub (p n : nat) : option nat :=
  if decide (n <= p) then Some (p - n) else None.

Definition load {A} (buf : list A) (p : nat) : option A := buf !! p.

Definition store {A} (buf : list A) (p : nat) (x : A) : option (list A) :=
  if decide (p < length buf) then Some (<[p:=x]> buf) else None.

Definition assert (b : bool) : option unit := if b then Some tt else None.

(** [realloc]: the first [n] cells keep their content, the rest is fresh. *)
Definition realloc {A} (fresh : A) (buf : list A) (n : nat) : list A :=
  take n buf ++ replicate (n - length buf) fresh.

(** [memcpy (dst, src, n)] on cells. *)
Definition memcpy {A} (dst src : list A) (n : nat) : option (list A) :=
  if decide (n <= length dst /\ n <= length src)
  then Some (take n src ++ drop n dst) else None.

(** The first [n] cells of an array, when it has that many. *)
Definition cells {A} (n : nat) (a : list A) : option (list A) :=
  if decide (n <= length a) then Some (take n a) else None.

(** [&a[n]] for an array [a] of [len] cells: a cell of the array, or its
    end when [n = len]. *)
Definition ptr_at (len n : nat) : option nat :=
  if decide (n <= len) then Some n else None.

(** ** The data *)

Record DimensionInfo := {
  m_cDivisions : nat;
  m_aDivisions : list nat;
  m_cDivisionCapacity : nat
}.

Record SegmentedTensor {T : Type} := {
  m_cValueCapacity : nat;
  m_cVectorLength : nat;
  m_cDimensionsMax : nat;
  m_cDimensions : nat;
  m_aValues : list T;
  m_bExpanded : bool;
  m_aDimensions : list DimensionInfo
}.
Arguments SegmentedTensor : clear implicits.

Module DimensionInfoStack.
Record t := {
  m_pDivision1 : nat;
  m_pDivision2 : nat;
  m_cNewDivisions : nat
}.
End DimensionInfoStack.

Module DimensionInfoStackExpand.
Record t := {
  m_pDivision1 : nat;
  m_iDivision2 : nat;
  m_cNewDivisions : nat
}.
End DimensionInfoStackExpand.

Definition set_cDivisions (c : nat) (d : DimensionInfo) : DimensionInfo :=
  {| m_cDivisions := c;
     m_aDivisions := m_aDivisions d;
     m_cDivisionCapacity := m_cDivisionCapacity d |}.

Definition set_aDivisions (a : list nat) (d : DimensionInfo) : DimensionInfo :=
  {| m_cDivisions := m_cDivisions d;
     m_aDivisions := a;
     m_cDivisionCapacity := m_cDivisionCapacity d |}.

Section Tensor.
Context `{PF : Platform} {T : Type} `{SC : Scores T}.

Local Abbreviation Tensor := (SegmentedTensor T).

(** *** Overflow-checked arithmetic *)

(** Modelled from the spec: [IsMultiplyError] and [IsAddError] are
    declared in [EbmInternal.h], which is not among the sources; the
    spec calls them [multOverflows (a, b)] and [addOverflows (a, b)] on
    the machine-word unsigned integer. *)
Definition IsMultiplyError (a b : nat) : bool :=
  (size_max <? N.of_nat a * N.of_nat b)%N.

Definition IsAddError (a b : nat) : bool :=
  (size_max <? N.of_nat a + N.of_nat b)%N.

Definition wrap (n : N) : nat := N.to_nat (n mod (size_max + 1))%N.

Definition size_mul (a b : nat) : nat := wrap (N.of_nat a * N.of_nat b).
Definition size_add (a b : nat) : nat := wrap (N.of_nat a + N.of_nat b).
Definition size_sub (a b : nat) : nat :=
  wrap (N.of_nat a + (size_max + 1) - N.of_nat b mod (size_max + 1)).

(** *** Field updates *)

Definition with_values (cap : nat) (a : list T) (t : Tensor) : Tensor :=
  {| m_cValueCapacity := cap;
     m_cVectorLength := m_cVectorLength t;
     m_cDimensionsMax := m_cDimensionsMax t;
     m_cDimensions := m_cDimensions t;
     m_aValues := a;
     m_bExpanded := m_bExpanded t;
     m_aDimensions := m_aDimensions t |}.

Definition with_dimensions (ds : list DimensionInfo) (t : Tensor) : Tensor :=
  {| m_cValueCapacity := m_cValueCapacity t;
     m_cVectorLength := m_cVectorLength t;
     m_cDimensionsMax := m_cDimensionsMax t;
     m_cDimensions := m_cDimensions t;
     m_aValues := m_aValues t;
     m_bExpanded := m_bExpanded t;
     m_aDimensions := ds |}.

Definition with_expanded (b : bool) (t : Tensor) : Tensor :=
  {| m_cValueCapacity := m_cValueCapacity t;
     m_cVectorLength := m_cVectorLength t;
     m_cDimensionsMax := m_cDimensionsMax t;
     m_cDimensions := m_cDimensions t;
     m_aValues := m_aValues t;
     m_bExpanded := b;
     m_aDimensions := m_aDimensions t |}.

(** *** Allocate *)

(** The [do ... while (iDimension < cDimensionsMax)] loop that gives every
    dimension its first division buffer; [None] is the path that frees
    everything and returns [nullptr]. *)
Fixpoint Allocate_dimensions (todo : nat) : option (list DimensionInfo) :=
  match todo with
  | 0 => Some []
  | S todo' =>
      if heap_grants (sizeof_TDivisions * 1)
      then ds ← Allocate_dimensions todo';
           Some ({| m_cDivisions := 0;
                    m_aDivisions := replicate 1 division_indeterminate;
                    m_cDivisionCapacity := 1 |} :: ds)
      else None
  end.

(** [Allocate]: the outer option is the run, the inner one the returned
    pointer ([None] for [nullptr]). *)
Definition Allocate (cDimensionsMax cVectorLength : nat) : option (option Tensor) :=
  assert (bool_decide (cDimensionsMax <= k_cDimensionsMax));;
  assert (bool_decide (1 <= cVectorLength));;
  if IsMultiplyError cVectorLength 2 then Some None else
  let cValueCapacity := cVectorLength * 2 in
  if IsMultiplyError sizeof_TValues cValueCapacity then Some None else
  let cBytesValues := sizeof_TValues * cValueCapacity in
  let cBytesSegmentedRegion :=
    size_add (size_sub sizeof_SegmentedTensor sizeof_DimensionInfo)
             (size_mul sizeof_DimensionInfo cDimensionsMax) in
  if negb (heap_grants cBytesSegmentedRegion) then Some None else
  if negb (heap_grants cBytesValues) then Some None else
  let aValues :=
    replicate cVectorLength score_zero
    ++ replicate (cValueCapacity - cVectorLength) score_indeterminate in
  match Allocate_dimensions cDimensionsMax with
  | None => Some None
  | Some ds =>
      Some (Some {| m_cValueCapacity := cValueCapacity;
                    m_cVectorLength := cVectorLength;
                    m_cDimensionsMax := cDimensionsMax;
                    m_cDimensions := cDimensionsMax;
                    m_aValues := aValues;
                    m_bExpanded := false;
                    m_aDimensions := ds |})
  end.

(** *** SetCountDimensions, Reset *)

Definition SetCountDimensions (cDimensions : nat) (t : Tensor) : option Tensor :=
  assert (bool_decide (cDimensions <= m_cDimensionsMax t));;
  Some {| m_cValueCapacity := m_cValueCapacity t;
          m_cVectorLength := m_cVectorLength t;
          m_cDimensionsMax := m_cDimensionsMax t;
          m_cDimensions := cDimensions;
          m_aValues := m_aValues t;
          m_bExpanded := m_bExpanded t;
          m_aDimensions := m_aDimensions t |}.

(** The [for] loop of [Reset], from [iDimension] on. *)
Fixpoint Reset_dimensions (todo iDimension : nat) (ds : list DimensionInfo)
  : option (list DimensionInfo) :=
  match todo with
  | 0 => Some ds
  | S todo' =>
      d ← load ds iDimension;
      ds' ← store ds iDimension (set_cDivisions 0 d);
      Reset_dimensions todo' (iDimension + 1) ds'
  end.

(** [memset (a, 0, sizeof (TValues) * n)]. *)
Definition memset_zero (a : list T) (n : nat) : option (list T) :=
  if decide (n <= length a)
  then Some (replicate n score_zero ++ drop n a) else None.

Definition Reset (t : Tensor) : option Tensor :=
  ds ← Reset_dimensions (m_cDimensions t) 0 (m_aDimensions t);
  a ← memset_zero (m_aValues t) (m_cVectorLength t);
  Some {| m_cValueCapacity := m_cValueCapacity t;
          m_cVectorLength := m_cVectorLength t;
          m_cDimensionsMax := m_cDimensionsMax t;
          m_cDimensions := m_cDimensions t;
          m_aValues := a;
          m_bExpanded := false;
          m_aDimensions := ds |}.

(** *** SetCountDivisions, EnsureValueCapacity *)

Definition SetCountDivisions (iDimension cDivisions : nat) (t : Tensor)
  : option (bool * Tensor) :=
  assert (bool_decide (iDimension < m_cDimensions t));;
  pDimension ← load (m_aDimensions t) iDimension;
  assert (negb (m_bExpanded t) || bool_decide (cDivisions <= m_cDivisions pDimension));;
  if bool_decide (m_cDivisionCapacity pDimension < cDivisions) then
    assert (negb (m_bExpanded t));;
    if IsAddError cDivisions (cDivisions / 2) then Some (true, t) else
    let cNewDivisionCapacity := cDivisions + cDivisions / 2 in
    if IsMultiplyError sizeof_TDivisions cNewDivisionCapacity then Some (true, t) else
    let cBytes := sizeof_TDivisions * cNewDivisionCapacity in
    if negb (heap_grants cBytes) then Some (true, t) else
    let aNewDivisions :=
      realloc division_indeterminate (m_aDivisions pDimension) cNewDivisionCapacity in
    ds ← store (m_aDimensions t) iDimension
           {| m_cDivisions := cDivisions;
              m_aDivisions := aNewDivisions;
              m_cDivisionCapacity := cNewDivisionCapacity |};
    Some (false, with_dimensions ds t)
  else
    ds ← store (m_aDimensions t) iDimension (set_cDivisions cDivisions pDimension);
    Some (false, with_dimensions ds t).

Definition EnsureValueCapacity (cValues : nat) (t : Tensor) : option (bool * Tensor) :=
  if bool_decide (m_cValueCapacity t < cValues) then
    assert (negb (m_bExpanded t));;
    if IsAddError cValues (cValues / 2) then Some (true, t) else
    let cNewValueCapacity := cValues + cValues / 2 in
    if IsMultiplyError sizeof_TValues cNewValueCapacity then Some (true, t) else
    let cBytes := sizeof_TValues * cNewValueCapacity in
    if negb (heap_grants cBytes) then Some (true, t) else
    Some (false, with_values cNewValueCapacity
                   (realloc score_indeterminate (m_aValues t) cNewValueCapacity) t)
  else Some (false, t).

(** *** Multiply *)

(** The [do ... while (pEnd != pCur)] loop of [Multiply]. *)
Fixpoint Multiply_cells (fuel : nat) (v : T) (pCur pEnd : nat) (a : list T)
  : option (list T) :=
  match fuel with
  | 0 => None
  | S fuel' =>
      x ← load a pCur;
      a ← store a pCur (score_mul x v);
      let pCur := pCur + 1 in
      if bool_decide (pEnd ≠ pCur) then Multiply_cells fuel' v pCur pEnd a
      else Some a
  end.

(** The [for] loop that multiplies the segment counts of the active
    dimensions. *)
Fixpoint Multiply_count (todo iDimension : nat) (ds : list DimensionInfo) (cValues : nat)
  : option nat :=
  match todo with
  | 0 => Some cValues
  | S todo' =>
      d ← load ds iDimension;
      assert (negb (IsMultiplyError cValues (size_add (m_cDivisions d) 1)));;
      Multiply_count todo' (iDimension + 1) ds (cValues * size_add (m_cDivisions d) 1)
  end.

Definition Multiply (v : T) (t : Tensor) : option Tensor :=
  cValues ← Multiply_count (m_cDimensions t) 0 (m_aDimensions t) 1;
  let pEnd := size_mul cValues (m_cVectorLength t) in
  a ← Multiply_cells pEnd v 0 pEnd (m_aValues t);
  Some (with_values (m_cValueCapacity t) a t).

End Tensor.

(** ** Expand *)

Section Expand.
Context `{PF : Platform} {T : Type} `{SC : Scores T}.
Import DimensionInfoStackExpand.

Local Abbreviation Tensor := (SegmentedTensor T).

(** The first loop of [Expand]: segment counts, and one stack entry per
    dimension. *)
Fixpoint Expand_count (ds : list DimensionInfo) (pcValuesPerDimension : list nat)
    (cValues1 cNewValues : nat)
  : option (list DimensionInfoStackExpand.t * nat * nat) :=
  match ds with
  | [] => Some ([], cValues1, cNewValues)
  | pDimensionFirst1 :: ds' =>
      let cDivisions1 := m_cDivisions pDimensionFirst1 in
      assert (negb (IsMultiplyError cValues1 (size_add cDivisions1 1)));;
      let cValues1 := cValues1 * size_add cDivisions1 1 in
      cValuesPerDimension ← head pcValuesPerDimension;
      assert (negb (IsMultiplyError cNewValues cValuesPerDimension));;
      let cNewValues := cNewValues * cValuesPerDimension in
      let cNewDivisions := size_sub cValuesPerDimension 1 in
      '(stack, cValues1, cNewValues) ←
        Expand_count ds' (tail pcValuesPerDimension) cValues1 cNewValues;
      Some ({| m_pDivision1 := cDivisions1;
               m_iDivision2 := cNewDivisions;
               m_cNewDivisions := cNewDivisions |} :: stack, cValues1, cNewValues)
  end.

(** The [do ... while (pValueTopEnd != pValueTop)] loop that copies one
    score vector from [pValue1Move] down to [pValueTop]. *)
Fixpoint Expand_cell (fuel : nat) (pValue1Move pValueTop pValueTopEnd : nat)
    (aValues : list T) : option (nat * list T) :=
  match fuel with
  | 0 => None
  | S fuel' =>
      pValue1Move ← ptr_sub pValue1Move 1;
      pValueTop ← ptr_sub pValueTop 1;
      x ← load aValues pValue1Move;
      aValues ← store aValues pValueTop x;
      if bool_decide (pValueTopEnd ≠ pValueTop)
      then Expand_cell fuel' pValue1Move pValueTop pValueTopEnd aValues
      else Some (pValueTop, aValues)
  end.

(** The inner [while (true)] of [Expand]: move the cursors to the next
    lower cell.  The stack and the dimensions are walked together. *)
Fixpoint Expand_next (stack : list DimensionInfoStackExpand.t)
    (ds : list DimensionInfo) (pValue1 multiplication1 : nat)
  : option (list DimensionInfoStackExpand.t * nat) :=
  match stack, ds with
  | pDimensionInfoStackSecond :: stack', pDimensionSecond1 :: ds' =>
      let pDivision1 := m_pDivision1 pDimensionInfoStackSecond in
      let iDivision2 := m_iDivision2 pDimensionInfoStackSecond in
      let aDivisions1 := m_aDivisions pDimensionSecond1 in
      if bool_decide (0 < pDivision1) then
        assert (bool_decide (0 < iDivision2));;
        pDivision1MinusOne ← ptr_sub pDivision1 1;
        d1 ← load aDivisions1 pDivision1MinusOne;
        let iDivision2 := size_sub iDivision2 1 in
        let bMove := bool_decide (iDivision2 <= d1) in
        pValue1 ← (if bMove then ptr_sub pValue1 multiplication1 else Some pValue1);
        Some ({| m_pDivision1 := if bMove then pDivision1MinusOne else pDivision1;
                 m_iDivision2 := iDivision2;
                 m_cNewDivisions := m_cNewDivisions pDimensionInfoStackSecond |}
                :: stack', pValue1)
      else if bool_decide (0 < iDivision2) then
        Some ({| m_pDivision1 := pDivision1;
                 m_iDivision2 := size_sub iDivision2 1;
                 m_cNewDivisions := m_cNewDivisions pDimensionInfoStackSecond |}
                :: stack', pValue1)
      else
        pValue1 ← ptr_sub pValue1 multiplication1;
        let cDivisions1 := m_cDivisions pDimensionSecond1 in
        assert (negb (IsMultiplyError multiplication1 (size_add 1 cDivisions1)));;
        let multiplication1 := multiplication1 * size_add 1 cDivisions1 in
        let pValue1 := pValue1 + multiplication1 in
        '(stack', pValue1) ← Expand_next stack' ds' pValue1 multiplication1;
        Some ({| m_pDivision1 := cDivisions1;
                 m_iDivision2 := m_cNewDivisions pDimensionInfoStackSecond;
                 m_cNewDivisions := m_cNewDivisions pDimensionInfoStackSecond |}
                :: stack', pValue1)
  | _, _ => None
  end.

(** The outer [while (true)] of [Expand]; every round writes one cell, so
    the number of cells bounds the rounds. *)
Fixpoint Expand_values (fuel : nat) (cVectorLength : nat)
    (stack : list DimensionInfoStackExpand.t) (ds : list DimensionInfo)
    (pValue1 pValueTop : nat) (aValues : list T) : option (nat * list T) :=
  match fuel with
  | 0 => None
  | S fuel' =>
      pValueTopEnd ← ptr_sub pValueTop cVectorLength;
      '(pValueTop, aValues) ←
        Expand_cell cVectorLength pValue1 pValueTop pValueTopEnd aValues;
      if bool_decide (0 = pValueTop) then Some (pValue1, aValues)
      else
        '(stack, pValue1) ← Expand_next stack ds pValue1 cVectorLength;
        Expand_values fuel' cVectorLength stack ds pValue1 pValueTop aValues
  end.

(** [for (iDivision = 0; iDivision < cDivisions; ++iDivision) a[iDivision] = iDivision]. *)
Fixpoint Expand_identity (todo iDivision : nat) (a : list nat) : option (list nat) :=
  match todo with
  | 0 => Some a
  | S todo' =>
      a ← store a iDivision iDivision;
      Expand_identity todo' (iDivision + 1) a
  end.

(** The last loop of [Expand]: one identity division sequence per
    dimension whose count changes. *)
Fixpoint Expand_divisions (todo iDimension : nat) (acValuesPerDimension : list nat)
    (t : Tensor) : option (bool * Tensor) :=
  match todo with
  | 0 => Some (false, t)
  | S todo' =>
      cValuesPerDimension ← load acValuesPerDimension iDimension;
      let cDivisions := size_sub cValuesPerDimension 1 in
      d ← load (m_aDimensions t) iDimension;
      if bool_decide (cDivisions = m_cDivisions d)
      then Expand_divisions todo' (iDimension + 1) acValuesPerDimension t
      else
        '(bad, t) ← SetCountDivisions iDimension cDivisions t;
        if bad : bool then Some (true, t) else
        d ← load (m_aDimensions t) iDimension;
        a ← Expand_identity cDivisions 0 (m_aDivisions d);
        ds ← store (m_aDimensions t) iDimension (set_aDivisions a d);
        Expand_divisions todo' (iDimension + 1) acValuesPerDimension
                         (with_dimensions ds t)
  end.

Definition Expand (acValuesPerDimension : list nat) (t : Tensor)
  : option (bool * Tensor) :=
  assert (bool_decide (1 <= m_cDimensions t));;
  if m_bExpanded t then Some (false, t) else
  assert (bool_decide (m_cDimensions t <= k_cDimensionsMax));;
  ds ← cells (m_cDimensions t) (m_aDimensions t);
  '(stack, cValues1, cNewValues) ← Expand_count ds acValuesPerDimension 1 1;
  if IsMultiplyError cNewValues (m_cVectorLength t) then Some (true, t) else
  let cVectoredNewValues := cNewValues * m_cVectorLength t in
  '(bad, t) ← EnsureValueCapacity cVectoredNewValues t;
  if bad : bool then Some (true, t) else
  assert (bool_decide (cValues1 <= cNewValues));;
  assert (negb (IsMultiplyError (m_cVectorLength t) cValues1));;
  let pValue1 := m_cVectorLength t * cValues1 in
  let pValueTop := cVectoredNewValues in
  '(pValue1, aValues) ←
    Expand_values cNewValues (m_cVectorLength t) stack ds pValue1 pValueTop (m_aValues t);
  assert (bool_decide (pValue1 = m_cVectorLength t));;
  '(bad, t) ← Expand_divisions (m_cDimensions t) 0 acValuesPerDimension
                (with_values (m_cValueCapacity t) aValues t);
  if bad : bool then Some (true, t) else
  Some (false, with_expanded true t).

End Expand.

(** ** Add *)

Section Add.
Context `{PF : Platform} {T : Type} `{SC : Scores T}.
Import DimensionInfoStack.

Local Abbreviation Tensor := (SegmentedTensor T).

(** The [D = 0] branch: [do { *pTo += *pFrom; } while (pToEnd != pTo)]. *)
Fixpoint Add_scores (fuel : nat) (pTo pFrom pToEnd : nat) (aTo aFrom : list T)
  : option (list T) :=
  match fuel with
  | 0 => None
  | S fuel' =>
      x ← load aTo pTo;
      y ← load aFrom pFrom;
      aTo ← store aTo pTo (score_add x y);
      let pTo := pTo + 1 in
      let pFrom := pFrom + 1 in
      if bool_decide (pToEnd ≠ pTo) then Add_scores fuel' pTo pFrom pToEnd aTo aFrom
      else Some aTo
  end.

(** The forward two-pointer walk that counts the divisions of the union
    along one dimension. *)
Fixpoint Add_count_divisions (fuel : nat) (aDivisions1 aDivisions2 : list nat)
    (p1End p2End p1Cur p2Cur cNewSingleDimensionDivisions : nat) : option nat :=
  match fuel with
  | 0 => None
  | S fuel' =>
      if bool_decide (p2End = p2Cur)
      then Some (size_add cNewSingleDimensionDivisions (p1End - p1Cur))
      else if bool_decide (p1End = p1Cur)
      then Some (size_add cNewSingleDimensionDivisions (p2End - p2Cur))
      else
        let cNewSingleDimensionDivisions := size_add cNewSingleDimensionDivisions 1 in
        d1 ← load aDivisions1 p1Cur;
        d2 ← load aDivisions2 p2Cur;
        let p1Cur := if bool_decide (d1 <= d2) then p1Cur + 1 else p1Cur in
        let p2Cur := if bool_decide (d2 <= d1) then p2Cur + 1 else p2Cur in
        Add_count_divisions fuel' aDivisions1 aDivisions2 p1End p2End p1Cur p2Cur
                            cNewSingleDimensionDivisions
  end.

(** The first loop of [Add]: segment counts of both operands and of the
    result, and one stack entry per dimension.  The entries are those of
    [dimensionStack] before [pDimensionInfoStackEnd], which [Add] takes
    within the array before it calls the loop. *)
Fixpoint Add_count (ds1 ds2 : list DimensionInfo) (cValues1 cValues2 cNewValues : nat)
  : option (list DimensionInfoStack.t * nat * nat * nat) :=
  match ds1, ds2 with
  | [], [] => Some ([], cValues1, cValues2, cNewValues)
  | pDimensionFirst1 :: ds1', pDimensionFirst2 :: ds2' =>
      let cDivisions1 := m_cDivisions pDimensionFirst1 in
      let cDivisions2 := m_cDivisions pDimensionFirst2 in
      let cValues1 := size_mul cValues1 (size_add cDivisions1 1) in
      let cValues2 := size_mul cValues2 (size_add cDivisions2 1) in
      let p1End := cDivisions1 in
      let p2End := cDivisions2 in
      cNewSingleDimensionDivisions ←
        Add_count_divisions (cDivisions1 + cDivisions2 + 1)
          (m_aDivisions pDimensionFirst1) (m_aDivisions pDimensionFirst2)
          p1End p2End 0 0 0;
      assert (negb (IsMultiplyError cNewValues (size_add cNewSingleDimensionDivisions 1)));;
      let cNewValues := cNewValues * size_add cNewSingleDimensionDivisions 1 in
      '(stack, cValues1, cValues2, cNewValues) ←
        Add_count ds1' ds2' cValues1 cValues2 cNewValues;
      Some ({| m_pDivision1 := p1End;
               m_pDivision2 := p2End;
               m_cNewDivisions := cNewSingleDimensionDivisions |} :: stack,
            cValues1, cValues2, cNewValues)
  | _, _ => None
  end.

(** The [do ... while (pValueTopEnd != pValueTop)] loop that writes the
    sum of one score vector of each operand at [pValueTop].  The first
    operand is read from the buffer that is being written. *)
Fixpoint Add_cell (fuel : nat) (pValue1Move pValue2Move pValueTop pValueTopEnd : nat)
    (aValues aValues2 : list T) : option (nat * list T) :=
  match fuel with
  | 0 => None
  | S fuel' =>
      pValue1Move ← ptr_sub pValue1Move 1;
      pValue2Move ← ptr_sub pValue2Move 1;
      pValueTop ← ptr_sub pValueTop 1;
      x ← load aValues pValue1Move;
      y ← load aValues2 pValue2Move;
      aValues ← store aValues pValueTop (score_add x y);
      if bool_decide (pValueTopEnd ≠ pValueTop)
      then Add_cell fuel' pValue1Move pValue2Move pValueTop pValueTopEnd aValues aValues2
      else Some (pValueTop, aValues)
  end.

(** The inner [while (true)] of [Add]: move the cursor pairs to the next
    lower cell.  The stack and both dimension arrays are walked together. *)
Fixpoint Add_next (stack : list DimensionInfoStack.t) (ds1 ds2 : list DimensionInfo)
    (pValue1 pValue2 multiplication1 multiplication2 : nat)
  : option (list DimensionInfoStack.t * nat * nat) :=
  match stack, ds1, ds2 with
  | pDimensionInfoStackSecond :: stack',
    pDimensionSecond1 :: ds1', pDimensionSecond2 :: ds2' =>
      let pDivision1 := m_pDivision1 pDimensionInfoStackSecond in
      let pDivision2 := m_pDivision2 pDimensionInfoStackSecond in
      let cNew := m_cNewDivisions pDimensionInfoStackSecond in
      let aDivisions1 := m_aDivisions pDimensionSecond1 in
      let aDivisions2 := m_aDivisions pDimensionSecond2 in
      if bool_decide (0 < pDivision1) then
        if bool_decide (0 < pDivision2) then
          pDivision1MinusOne ← ptr_sub pDivision1 1;
          pDivision2MinusOne ← ptr_sub pDivision2 1;
          d1 ← load aDivisions1 pDivision1MinusOne;
          d2 ← load aDivisions2 pDivision2MinusOne;
          let bMove1 := bool_decide (d2 <= d1) in
          pValue1 ← (if bMove1 then ptr_sub pValue1 multiplication1 else Some pValue1);
          let bMove2 := bool_decide (d1 <= d2) in
          pValue2 ← (if bMove2 then ptr_sub pValue2 multiplication2 else Some pValue2);
          Some ({| m_pDivision1 := if bMove1 then pDivision1MinusOne else pDivision1;
                   m_pDivision2 := if bMove2 then pDivision2MinusOne else pDivision2;
                   m_cNewDivisions := cNew |} :: stack', pValue1, pValue2)
        else
          pValue1 ← ptr_sub pValue1 multiplication1;
          pDivision1MinusOne ← ptr_sub pDivision1 1;
          Some ({| m_pDivision1 := pDivision1MinusOne;
                   m_pDivision2 := pDivision2;
                   m_cNewDivisions := cNew |} :: stack', pValue1, pValue2)
      else
        if bool_decide (0 < pDivision2) then
          pValue2 ← ptr_sub pValue2 multiplication2;
          pDivision2MinusOne ← ptr_sub pDivision2 1;
          Some ({| m_pDivision1 := pDivision1;
                   m_pDivision2 := pDivision2MinusOne;
                   m_cNewDivisions := cNew |} :: stack', pValue1, pValue2)
        else
          pValue1 ← ptr_sub pValue1 multiplication1;
          pValue2 ← ptr_sub pValue2 multiplication2;
          let cDivisions1 := m_cDivisions pDimensionSecond1 in
          let cDivisions2 := m_cDivisions pDimensionSecond2 in
          assert (negb (IsMultiplyError multiplication1 (size_add 1 cDivisions1)));;
          let multiplication1 := multiplication1 * size_add 1 cDivisions1 in
          assert (negb (IsMultiplyError multiplication2 (size_add 1 cDivisions2)));;
          let multiplication2 := multiplication2 * size_add 1 cDivisions2 in
          let pValue1 := pValue1 + multiplication1 in
          let pValue2 := pValue2 + multiplication2 in
          '(stack', pValue1, pValue2) ←
            Add_next stack' ds1' ds2' pValue1 pValue2 multiplication1 multiplication2;
          Some ({| m_pDivision1 := cDivisions1;
                   m_pDivision2 := cDivisions2;
                   m_cNewDivisions := cNew |} :: stack', pValue1, pValue2)
  | _, _, _ => None
  end.

(** The outer [while (true)] of [Add]; every round writes one cell of the
    result, so the number of cells bounds the rounds. *)
Fixpoint Add_values (fuel : nat) (cVectorLength : nat)
    (stack : list DimensionInfoStack.t) (ds1 ds2 : list DimensionInfo)
    (pValue1 pValue2 pValueTop : nat) (aValues aValues2 : list T)
  : option (list DimensionInfoStack.t * nat * nat * list T) :=
  match fuel with
  | 0 => None
  | S fuel' =>
      pValueTopEnd ← ptr_sub pValueTop cVectorLength;
      '(pValueTop, aValues) ←
        Add_cell cVectorLength pValue1 pValue2 pValueTop pValueTopEnd aValues aValues2;
      if bool_decide (0 = pValueTop) then Some (stack, pValue1, pValue2, aValues)
      else
        '(stack, pValue1, pValue2) ←
          Add_next stack ds1 ds2 pValue1 pValue2 cVectorLength cVectorLength;
        Add_values fuel' cVectorLength stack ds1 ds2 pValue1 pValue2 pValueTop
                   aValues aValues2
  end.

(** The backward merge that rewrites one dimension's divisions in place. *)
Fixpoint Add_merge_divisions (fuel : nat) (aDivisions1 aDivisions2 : list nat)
    (p1Cur p2Cur pTopCur : nat) : option (list nat) :=
  match fuel with
  | 0 => None
  | S fuel' =>
      assert (bool_decide (p1Cur <= pTopCur));;
      assert (bool_decide (p2Cur <= pTopCur));;
      if bool_decide (pTopCur = p1Cur) then Some aDivisions1
      else if bool_decide (pTopCur = p2Cur) then
        assert (bool_decide (0 < pTopCur));;
        memcpy aDivisions1 aDivisions2 pTopCur
      else
        p1CurMinusOne ← ptr_sub p1Cur 1;
        p2CurMinusOne ← ptr_sub p2Cur 1;
        d1 ← load aDivisions1 p1CurMinusOne;
        d2 ← load aDivisions2 p2CurMinusOne;
        let p1Cur := if bool_decide (d2 <= d1) then p1CurMinusOne else p1Cur in
        let p2Cur := if bool_decide (d1 <= d2) then p2CurMinusOne else p2Cur in
        let d := if bool_decide (d1 <= d2) then d2 else d1 in
        pTopCur ← ptr_sub pTopCur 1;
        aDivisions1 ← store aDivisions1 pTopCur d;
        Add_merge_divisions fuel' aDivisions1 aDivisions2 p1Cur p2Cur pTopCur
  end.

(** The last loop of [Add]: the divisions of every dimension become the
    union. *)
Fixpoint Add_divisions (todo iDimension : nat) (stack : list DimensionInfoStack.t)
    (aDimension2 : list DimensionInfo) (t : Tensor) : option (bool * Tensor) :=
  match todo with
  | 0 => Some (false, t)
  | S todo' =>
      pDimensionInfoStackCur ← load stack iDimension;
      pDimension1Cur ← load (m_aDimensions t) iDimension;
      pDimension2Cur ← load aDimension2 iDimension;
      let cNewDivisions := m_cNewDivisions pDimensionInfoStackCur in
      let cOriginalDivisionsBeforeSetting := m_cDivisions pDimension1Cur in
      '(bad, t) ← SetCountDivisions iDimension cNewDivisions t;
      if bad : bool then Some (true, t) else
      pDimension1Cur ← load (m_aDimensions t) iDimension;
      a ← Add_merge_divisions (cNewDivisions + 1)
            (m_aDivisions pDimension1Cur) (m_aDivisions pDimension2Cur)
            cOriginalDivisionsBeforeSetting (m_cDivisions pDimension2Cur) cNewDivisions;
      ds ← store (m_aDimensions t) iDimension (set_aDivisions a pDimension1Cur);
      Add_divisions todo' (iDimension + 1) stack aDimension2 (with_dimensions ds t)
  end.

Definition Add (this rhs : Tensor) : option (bool * Tensor) :=
  assert (bool_decide (m_cDimensions this = m_cDimensions rhs));;
  if bool_decide (0 = m_cDimensions this) then
    assert (bool_decide (1 <= m_cValueCapacity this));;
    a ← Add_scores (m_cVectorLength this) 0 0 (m_cVectorLength this)
          (m_aValues this) (m_aValues rhs);
    Some (false, with_values (m_cValueCapacity this) a this)
  else
    ds1 ← cells (m_cDimensions this) (m_aDimensions this);
    ds2 ← cells (m_cDimensions this) (m_aDimensions rhs);
    pDimensionInfoStackEnd ← ptr_at k_cDimensionsMax (m_cDimensions this);
    '(stack, cValues1, cValues2, cNewValues) ← Add_count ds1 ds2 1 1 1;
    if IsMultiplyError cNewValues (m_cVectorLength this) then Some (true, this) else
    '(bad, this) ← EnsureValueCapacity (cNewValues * m_cVectorLength this) this;
    if bad : bool then Some (true, this) else
    let pValue2 := size_mul (m_cVectorLength this) cValues2 in
    let pValue1 := size_mul (m_cVectorLength this) cValues1 in
    let pValueTop := size_mul (m_cVectorLength this) cNewValues in
    '(stack, pValue1, pValue2, aValues) ←
      Add_values cNewValues (m_cVectorLength this) stack ds1 ds2
                 pValue1 pValue2 pValueTop (m_aValues this) (m_aValues rhs);
    assert (bool_decide (pValue1 = m_cVectorLength this));;
    assert (bool_decide (pValue2 = m_cVectorLength this));;
    Add_divisions (m_cDimensions this) 0 stack (m_aDimensions rhs)
                  (with_values (m_cValueCapacity this) aValues this).

End Add.

(** ** IsEqual *)

Section IsEqual.
Context `{PF : Platform} {T : Type} `{SC : Scores T}.

Local Abbreviation Tensor := (SegmentedTensor T).

(** The [do ... while (pD1End != pD1Cur)] loop over one division sequence;
    [Some false] is the early return. *)
Fixpoint IsEqual_divisions (fuel : nat) (a1 a2 : list nat) (pD1Cur pD2Cur pD1End : nat)
  : option bool :=
  match fuel with
  | 0 => None
  | S fuel' =>
      x ← load a1 pD1Cur;
      y ← load a2 pD2Cur;
      if bool_decide (x ≠ y) then Some false else
      let pD1Cur := pD1Cur + 1 in
      let pD2Cur := pD2Cur + 1 in
      if bool_decide (pD1End ≠ pD1Cur)
      then IsEqual_divisions fuel' a1 a2 pD1Cur pD2Cur pD1End
      else Some true
  end.

(** The [for] loop over the dimensions; the inner [None] is
    [return false], the inner [Some] carries [cValues]. *)
Fixpoint IsEqual_dimensions (todo iDimension : nat) (ds1 ds2 : list DimensionInfo)
    (cValues : nat) : option (option nat) :=
  match todo with
  | 0 => Some (Some cValues)
  | S todo' =>
      pDimension1 ← load ds1 iDimension;
      pDimension2 ← load ds2 iDimension;
      let cDivisions := m_cDivisions pDimension1 in
      if bool_decide (cDivisions ≠ m_cDivisions pDimension2) then Some None else
      if bool_decide (0 ≠ cDivisions) then
        assert (negb (IsMultiplyError cValues (size_add cDivisions 1)));;
        let cValues := cValues * size_add cDivisions 1 in
        same ← IsEqual_divisions cDivisions (m_aDivisions pDimension1)
                 (m_aDivisions pDimension2) 0 0 cDivisions;
        if same : bool
        then IsEqual_dimensions todo' (iDimension + 1) ds1 ds2 cValues
        else Some None
      else IsEqual_dimensions todo' (iDimension + 1) ds1 ds2 cValues
  end.

(** The [do ... while (pV1End != pV1Cur)] loop over the scores. *)
Fixpoint IsEqual_values (fuel : nat) (a1 a2 : list T) (pV1Cur pV2Cur pV1End : nat)
  : option bool :=
  match fuel with
  | 0 => None
  | S fuel' =>
      x ← load a1 pV1Cur;
      y ← load a2 pV2Cur;
      if score_neq x y then Some false else
      let pV1Cur := pV1Cur + 1 in
      let pV2Cur := pV2Cur + 1 in
      if bool_decide (pV1End ≠ pV1Cur)
      then IsEqual_values fuel' a1 a2 pV1Cur pV2Cur pV1End
      else Some true
  end.

Definition IsEqual (this rhs : Tensor) : option bool :=
  if bool_decide (m_cDimensions this ≠ m_cDimensions rhs) then Some false else
  r ← IsEqual_dimensions (m_cDimensions this) 0 (m_aDimensions this)
        (m_aDimensions rhs) (m_cVectorLength this);
  match r with
  | None => Some false
  | Some cValues =>
      IsEqual_values cValues (m_aValues this) (m_aValues rhs) 0 0 cValues
  end.

End IsEqual.

(** ** Copy, AddExpanded *)

Section Copy.
Context `{PF : Platform} {T : Type} `{SC : Scores T}.

Local Abbreviation Tensor := (SegmentedTensor T).

(** The [for] loop of [Copy] over the dimensions: every dimension takes
    the count and the divisions of [rhs]; the loop yields [cValues]. *)
Fixpoint Copy_dimensions (todo iDimension : nat) (aDimension2 : list DimensionInfo)
    (cValues : nat) (t : Tensor) : option (bool * nat * Tensor) :=
  match todo with
  | 0 => Some (false, cValues, t)
  | S todo' =>
      pDimension ← load aDimension2 iDimension;
      let cDivisions := m_cDivisions pDimension in
      assert (negb (IsMultiplyError cValues (size_add cDivisions 1)));;
      let cValues := cValues * size_add cDivisions 1 in
      '(bad, t) ← SetCountDivisions iDimension cDivisions t;
      if bad : bool then Some (true, cValues, t) else
      assert (negb (IsMultiplyError sizeof_TDivisions cDivisions));;
      d ← load (m_aDimensions t) iDimension;
      a ← memcpy (m_aDivisions d) (m_aDivisions pDimension) cDivisions;
      ds ← store (m_aDimensions t) iDimension (set_aDivisions a d);
      Copy_dimensions todo' (iDimension + 1) aDimension2 cValues (with_dimensions ds t)
  end.

Definition Copy (this rhs : Tensor) : option (bool * Tensor) :=
  assert (bool_decide (m_cDimensions this = m_cDimensions rhs));;
  '(bad, cValues, this) ←
    Copy_dimensions (m_cDimensions this) 0 (m_aDimensions rhs) (m_cVectorLength this) this;
  if bad : bool then Some (true, this) else
  '(bad, this) ← EnsureValueCapacity cValues this;
  if bad : bool then Some (true, this) else
  assert (negb (IsMultiplyError sizeof_TValues cValues));;
  a ← memcpy (m_aValues this) (m_aValues rhs) cValues;
  Some (false, with_expanded (m_bExpanded rhs) (with_values (m_cValueCapacity this) a this)).

(** The [for] loop of [AddExpanded] that counts the scores; the
    multiplication is not guarded. *)
Fixpoint AddExpanded_count (todo iDimension : nat) (ds : list DimensionInfo) (cItems : nat)
  : option nat :=
  match todo with
  | 0 => Some cItems
  | S todo' =>
      d ← load ds iDimension;
      AddExpanded_count todo' (iDimension + 1) ds
        (size_mul cItems (size_add (m_cDivisions d) 1))
  end.

(** [do { *pToValue += *pFromValue; ... } while (pToValueEnd != pToValue)]. *)
Fixpoint AddExpanded_scores (fuel : nat) (pFromValue pToValue pToValueEnd : nat)
    (aFromValues aValues : list T) : option (list T) :=
  match fuel with
  | 0 => None
  | S fuel' =>
      x ← load aValues pToValue;
      y ← load aFromValues pFromValue;
      aValues ← store aValues pToValue (score_add x y);
      let pFromValue := pFromValue + 1 in
      let pToValue := pToValue + 1 in
      if bool_decide (pToValueEnd ≠ pToValue)
      then AddExpanded_scores fuel' pFromValue pToValue pToValueEnd aFromValues aValues
      else Some aValues
  end.

Definition AddExpanded (aFromValues : list T) (t : Tensor) : option Tensor :=
  assert (m_bExpanded t);;
  cItems ← AddExpanded_count (m_cDimensions t) 0 (m_aDimensions t) (m_cVectorLength t);
  a ← AddExpanded_scores cItems 0 0 cItems aFromValues (m_aValues t);
  Some (with_values (m_cValueCapacity t) a t).

End Copy.

(** ** A 64-bit platform and IEEE doubles as scores *)

(** [size_t] and [TDivisions] take 8 bytes, [DimensionInfo] is three words,
    [SegmentedTensor] five words, a [bool] padded to a word and one
    [DimensionInfo]; [k_cDimensionsMax] is "around 64".  The allocator and
    the content of fresh cells stay arbitrary. *)
Definition lp64 (grants : nat -> bool) (fresh_division : nat) : Platform :=
  {| size_max := 2 ^ 64 - 1;
     sizeof_TValues := 8;
     sizeof_TDivisions := 8;
     sizeof_DimensionInfo := 24;
     sizeof_SegmentedTensor := 72;
     k_cDimensionsMax := 64;
     heap_grants := grants;
     division_indeterminate := fresh_division;
     sizeof_TValues_pos := ltac:(lia);
     sizeof_TDivisions_wide := ltac:(lia) |}.

Definition double_scores (fresh_score : float) : Scores float :=
  {| score_zero := 0%float;
     score_add := PrimFloat.add;
     score_mul := PrimFloat.mul;
     score_neq := fun a b => negb (PrimFloat.eqb a b);
     score_indeterminate := fresh_score |}.

(** A heap that grants every request. *)
Definition roomy : nat -> bool := fun _ => true.

(** The first [m_cDivisions] cells of a dimension's buffer: its division
    sequence. *)
Definition divisions (d : DimensionInfo) : list nat :=
  take (m_cDivisions d) (m_aDivisions d).

(** The number of segments of a list of dimensions, [Π (K_i + 1)]. *)
Definition segments (ds : list DimensionInfo) : nat :=
  foldr (fun d n => (m_cDivisions d + 1) * n) 1 ds.

(** The active dimensions of a tensor. *)
Definition active {T} (t : SegmentedTensor T) : list DimensionInfo :=
  take (m_cDimensions t) (m_aDimensions t).

(** The meaningful scores of a tensor: the first [L · Π (K_i + 1)]. *)
Definition scores {T} (t : SegmentedTensor T) : list T :=
  take (m_cVectorLength t * segments (active t)) (m_aValues t).

(** ** The round orchestrator: data *)

(** Modelled from the spec: [ErrorEbm] is declared in [libebm.h], which is
    not among the sources; these are the error codes the spec lists as
    observable at the boundary. *)
Inductive ErrorEbm :=
  | Error_None
  | Error_OutOfMemory
  | Error_UnexpectedInternal
  | Error_IllegalParamVal.

Global Instance ErrorEbm_eq_dec : EqDecision ErrorEbm.
Proof. solve_decision. Defined.

(** The classes [GenerateTermUpdate] reads are declared in headers that are
    not among the sources.  Each is a record of the getters the function
    calls, named as it calls them. *)
Module FeatureBoosting.
Record t := { GetCountBins : nat }.
End FeatureBoosting.

Module Term.
Record t := {
  GetCountDimensions : nat;
  GetCountRealDimensions : nat;
  GetCountTensorBins : nat;
  GetCountAuxillaryBins : nat;
  GetBitsRequiredMin : Z;
  GetTermFeatures : list FeatureBoosting.t
}.
End Term.

Module ObjectiveWrapper.
Record t := {
  m_cUIntBytes : nat;
  m_cFloatBytes : nat;
  m_cSIMDPack : nat
}.
End ObjectiveWrapper.

Module DataSubsetBoosting.
Record t := {
  GetCountSamples : nat;
  GetObjectiveWrapper : ObjectiveWrapper.t
}.
End DataSubsetBoosting.

Module DataSetBoosting.
Record t := {
  GetCountSamples : nat;
  GetSubsets : list DataSubsetBoosting.t;
  GetBagWeightTotal : nat -> float
}.
End DataSetBoosting.

Module BoosterCore.
Record t := {
  GetCountTerms : nat;
  GetTerms : list Term.t;
  GetCountScores : nat;
  GetCountInnerBags : nat;
  IsHessian : bool;
  GetTrainingSet : DataSetBoosting.t;
  GradientConstant : float;
  HessianConstant : float;
  LearningRateAdjustmentDifferentialPrivacy : float;
  LearningRateAdjustmentGradientBoosting : float;
  LearningRateAdjustmentHessianBoosting : float;
  GainAdjustmentGradientBoosting : float;
  GainAdjustmentHessianBoosting : float
}.
End BoosterCore.

Module BoosterShell.
Record t {tensor : Type} := {
  GetBoosterCore : BoosterCore.t;
  m_iTerm : nat;
  GetTermUpdate : tensor;
  GetInnerTermUpdate : tensor
}.
Arguments t : clear implicits.

Definition SetTermIndex {tensor} (i : nat) (s : t tensor) : t tensor :=
  {| GetBoosterCore := GetBoosterCore s;
     m_iTerm := i;
     GetTermUpdate := GetTermUpdate s;
     GetInnerTermUpdate := GetInnerTermUpdate s |}.

Definition SetTermUpdate {tensor} (u : tensor) (s : t tensor) : t tensor :=
  {| GetBoosterCore := GetBoosterCore s;
     m_iTerm := m_iTerm s;
     GetTermUpdate := u;
     GetInnerTermUpdate := GetInnerTermUpdate s |}.

Definition SetInnerTermUpdate {tensor} (u : tensor) (s : t tensor) : t tensor :=
  {| GetBoosterCore := GetBoosterCore s;
     m_iTerm := m_iTerm s;
     GetTermUpdate := GetTermUpdate s;
     GetInnerTermUpdate := u |}.
End BoosterShell.

Module BinSumsBoostingBridge.
Record t := {
  m_bParallelBins : bool;
  m_bHessian : bool;
  m_cScores : nat;
  m_cPack : Z;
  m_cSamples : nat;
  m_cBytesFastBins : nat
}.
End BinSumsBoostingBridge.

(** The class [Tensor] of [Tensor.hpp] (not among the sources), by the
    methods [GenerateTermUpdate] calls.  [None] is a run without result. *)
Class TensorOps (tensor : Type) := {
  Tensor_SetCountDimensions : nat -> tensor -> option tensor;
  Tensor_Reset : tensor -> option tensor;
  Tensor_Add : tensor -> tensor -> option (ErrorEbm * tensor);
  Tensor_MultiplyAndCheckForIssues : float -> tensor -> option (bool * tensor);
  Tensor_StoreScore : nat -> float -> tensor -> option tensor
}.

(** What [std::random_device] does when a seed is drawn. *)
Inductive SeedOutcome :=
  | Seeded (seed : Z)
  | Threw_bad_alloc
  | Threw_other.

(** The constants and collaborators declared outside the sources.  The
    bins, the data set and everything else the collaborators keep between
    calls make up [world]; a collaborator that writes it returns the new
    one.  A partitioner also returns the inner update tensor it wrote. *)
Class Collaborators (tensor world rng : Type) := {
  k_illegalGainDouble : float;
  uninitialized_double : float;
  k_illegalTermIndex : nat;
  k_cItemsPerBitPackUndefined : Z;
  MONOTONE_NONE : Z;
  TermBoostFlags_DisableNewtonGain : Z;
  TermBoostFlags_DisableNewtonUpdate : Z;
  TermBoostFlags_GradientSums : Z;
  TermBoostFlags_RandomSplits : Z;
  HESSIAN_PARALLEL_BIN_BYTES_MAX : nat;
  GRADIENT_PARALLEL_BIN_BYTES_MAX : nat;
  MULTISCORE_PARALLEL_BIN_BYTES_MAX : nat;
  sizeof_UIntBig : nat;
  sizeof_UIntSmall : nat;
  sizeof_UIntMain : nat;
  sizeof_FloatBig : nat;
  sizeof_FloatSmall : nat;
  sizeof_FloatMain : nat;
  UIntMain_is_uint64_t : bool;
  FloatMain_is_double : bool;
  GetBinSize : nat -> nat -> bool -> bool -> bool -> nat -> nat;
  GetCountItemsBitPacked : Z -> nat -> Z;
  RandomNondeterministic_Next : world -> SeedOutcome;
  RandomDeterministic_Initialize : Z -> rng;
  memset_MainBins : nat -> world -> world;
  ZeroMem_FastBins : nat -> nat -> world -> world;
  ZeroMem_AuxiliaryBins : nat -> nat -> nat -> world -> world;
  BinSumsBoosting :
    BinSumsBoostingBridge.t -> nat -> nat -> nat -> world -> ErrorEbm * world;
  ConvertAddBin :
    nat -> bool -> nat -> bool -> bool -> bool -> bool -> nat ->
    option (bool * nat * nat) -> bool -> bool -> world -> world;
  TensorTotalsBuild : bool -> nat -> nat -> list nat -> world -> world;
  MainBin_sumGradients : world -> nat -> float;
  MainBin_GetHess : world -> nat -> float;
  MainBin_GetWeight : world -> float;
  ComputeSinglePartitionUpdate : float -> float -> float;
  ComputeSinglePartitionUpdateGradientSum : float -> float;
  PartitionOneDimensionalBoosting :
    rng -> Z -> nat -> nat -> nat -> float -> nat -> Z -> nat -> float ->
    world -> tensor -> ErrorEbm * float * rng * world * tensor;
  PartitionTwoDimensionalBoosting :
    Z -> Term.t -> list nat -> nat -> float ->
    world -> tensor -> ErrorEbm * float * world * tensor;
  PartitionRandomBoosting :
    rng -> Term.t -> Z -> option (list Z) -> Z ->
    world -> tensor -> ErrorEbm * float * rng * world * tensor
}.

(** ** A monad for a function that returns early *)

(** A step of the function body either goes on with a value or leaves the
    function with an error code; [None] is a failed assertion or an access
    outside an array. *)
Inductive Flow (A : Type) :=
  | Next (a : A)
  | Leave (e : ErrorEbm).
Arguments Next {A} a.
Arguments Leave {A} e.

Definition Run (S A : Type) : Type := S -> option (Flow A * S).

Global Instance Run_ret {S} : MRet (Run S) := fun A a s => Some (Next a, s).

Global Instance Run_bind {S} : MBind (Run S) := fun A B f m s =>
  match m s with
  | Some (Next a, s') => f a s'
  | Some (Leave e, s') => Some (Leave e, s')
  | None => None
  end.

Definition leave {S A} (e : ErrorEbm) : Run S A := fun s => Some (Leave e, s).
Definition EBM_ASSERT {S} (b : bool) : Run S unit :=
  fun s => if b then Some (Next tt, s) else None.
Definition read {S A} (f : S -> A) : Run S A := fun s => Some (Next (f s), s).
Definition write {S} (f : S -> S) : Run S unit := fun s => Some (Next tt, f s).
Definition lift {S A} (o : option A) : Run S A :=
  fun s => match o with Some a => Some (Next a, s) | None => None end.
Definition when {S} (b : bool) (m : Run S unit) : Run S unit :=
  if b then m else mret tt.

(** ** Doubles and 64-bit integers *)

(** [std::numeric_limits<double>::max ()] and [min ()]. *)
Definition double_max : float := Eval compute in PrimFloat.next_down PrimFloat.infinity.
Definition double_min : float := (0x1p-1022)%float.

(** [static_cast<double>] of a count; exact below [2^53], and every count
    here is a number of objects in memory. *)
Definition double_of_size_t (n : nat) : float :=
  PrimFloat.of_uint63 (Uint63.of_Z (Z.of_nat n)).

(** [static_cast<IntEbm>] of a [size_t], with [IntEbm] the 64-bit signed
    integer. *)
Definition IntEbm_of_size_t (n : nat) : Z :=
  ((Z.of_nat n + 2 ^ 63) mod 2 ^ 64 - 2 ^ 63)%Z.

(** ** The round orchestrator: [GenerateTermUpdate.cpp] *)

(** The locals of [GenerateTermUpdate] that are set when it reaches
    [double gainAvg = 0.0] (line 659) and that the rest of the function
    reads. *)
Module Locals.
Record t := {
  pBoosterCore : BoosterCore.t;
  iTerm : nat;
  pTerm : Term.t;
  cSamplesLeafMin : nat;
  minHessian : float;
  cScores : nat;
  cTensorBins : nat;
  cInnerBagsAfterZero : nat;
  cRealDimensions : nat;
  cDimensions : nat;
  lastDimensionLeavesMax : Z;
  cSignificantBinCount : nat;
  significantDirection : Z;
  iDimensionImportant : nat
}.
End Locals.

Section Orchestrator.
Context `{PF : Platform} {tensor world rng : Type}.
Context `{TO : TensorOps tensor} `{CO : Collaborators tensor world rng}.

(** What the call can change: the shell behind the handle, the
    collaborators' world, the generator [pRng] points to once it is set,
    and the cell [avgGainOut] points to ([None] for [nullptr]). *)
Record Memory := {
  pBoosterShell : BoosterShell.t tensor;
  the_world : world;
  pRng : option rng;
  avgGainOut : option float
}.

Definition with_shell (f : BoosterShell.t tensor -> BoosterShell.t tensor)
    (m : Memory) : Memory :=
  {| pBoosterShell := f (pBoosterShell m); the_world := the_world m;
     pRng := pRng m; avgGainOut := avgGainOut m |}.
Definition with_world (f : world -> world) (m : Memory) : Memory :=
  {| pBoosterShell := pBoosterShell m; the_world := f (the_world m);
     pRng := pRng m; avgGainOut := avgGainOut m |}.
Definition with_rng (r : rng) (m : Memory) : Memory :=
  {| pBoosterShell := pBoosterShell m; the_world := the_world m;
     pRng := Some r; avgGainOut := avgGainOut m |}.
(** [if (nullptr != avgGainOut) *avgGainOut = v]. *)
Definition with_avgGainOut (v : float) (m : Memory) : Memory :=
  {| pBoosterShell := pBoosterShell m; the_world := the_world m;
     pRng := pRng m; avgGainOut := (fun _ => v) <$> avgGainOut m |}.

Definition flag_set (flag flags : Z) : bool := negb (Z.land flag flags =? 0)%Z.

(** [IsConvertError<size_t>] of an [IntEbm] (declared outside the
    sources): the value is not one of [size_t]. *)
Definition IsConvertError_size_t (v : Z) : bool :=
  ((v <? 0) || (Z.of_N size_max <? v))%Z.

Definition size_t_of_IntEbm (v : Z) : nat :=
  Z.to_nat (v mod (Z.of_N size_max + 1)).

Definition size_t_max : nat := N.to_nat size_max.

Definition GetCore : Run Memory BoosterCore.t :=
  read (fun m => BoosterShell.GetBoosterCore (pBoosterShell m)).

(** *** BoostZeroDimensional *)

(** [for (iScore = 0; iScore < cScores; ++iScore) aUpdateScores[iScore] = f (iScore)]
    on the inner update tensor. *)
Fixpoint BoostZeroDimensional_scores (todo iScore : nat) (f : nat -> float)
  : Run Memory unit :=
  match todo with
  | 0 => mret tt
  | S todo' =>
      inner ← read (fun m => BoosterShell.GetInnerTermUpdate (pBoosterShell m));
      inner ← lift (Tensor_StoreScore iScore (f iScore) inner);
      write (with_shell (BoosterShell.SetInnerTermUpdate inner));;
      BoostZeroDimensional_scores todo' (iScore + 1) f
  end.

Definition BoostZeroDimensional (flags : Z) : Run Memory unit :=
  pBoosterCore ← GetCore;
  w ← read the_world;
  let cScores := BoosterCore.GetCountScores pBoosterCore in
  if BoosterCore.IsHessian pBoosterCore then
    if flag_set TermBoostFlags_GradientSums flags then
      BoostZeroDimensional_scores cScores 0 (fun iScore =>
        ComputeSinglePartitionUpdateGradientSum (MainBin_sumGradients w iScore))
    else
      let weight := MainBin_GetWeight w in
      BoostZeroDimensional_scores cScores 0 (fun iScore =>
        ComputeSinglePartitionUpdate (MainBin_sumGradients w iScore)
          (if flag_set TermBoostFlags_DisableNewtonUpdate flags
           then weight else MainBin_GetHess w iScore))
  else
    if flag_set TermBoostFlags_GradientSums flags then
      BoostZeroDimensional_scores cScores 0 (fun iScore =>
        ComputeSinglePartitionUpdateGradientSum (MainBin_sumGradients w iScore))
    else
      let weight := MainBin_GetWeight w in
      BoostZeroDimensional_scores cScores 0 (fun iScore =>
        ComputeSinglePartitionUpdate (MainBin_sumGradients w iScore) weight).

(** *** BoostSingleDimensional, BoostMultiDimensional, BoostRandom *)

(** Each returns its error code and what it left in [*pTotalGain]. *)
Definition BoostSingleDimensional (flags : Z) (cBins : nat) (weightTotal : float)
    (iDimension cSamplesLeafMin : nat) (hessianMin : float) (countLeavesMax : Z)
    (direction : Z) : Run Memory (ErrorEbm * float) :=
  EBM_ASSERT (2 <=? countLeavesMax)%Z;;
  let cSplitsMax :=
    if IsConvertError_size_t countLeavesMax then size_t_max
    else size_sub (size_t_of_IntEbm countLeavesMax) 1 in
  pBoosterCore ← GetCore;
  let cSamples := DataSetBoosting.GetCountSamples (BoosterCore.GetTrainingSet pBoosterCore) in
  EBM_ASSERT (bool_decide (1 <= cSamples));;
  r ← read pRng;
  r ← lift r;
  w ← read the_world;
  inner ← read (fun m => BoosterShell.GetInnerTermUpdate (pBoosterShell m));
  let '(error, gain, r, w, inner) :=
    PartitionOneDimensionalBoosting r flags cBins iDimension cSamplesLeafMin hessianMin
      cSplitsMax direction cSamples weightTotal w inner in
  write (with_rng r);;
  write (with_world (fun _ => w));;
  write (with_shell (BoosterShell.SetInnerTermUpdate inner));;
  mret (error, gain).

(** The [do ... while] loop that collects the bin counts of the
    dimensions with more than one bin. *)
Fixpoint BoostMultiDimensional_bins (features : list FeatureBoosting.t)
  : Run Memory (list nat) :=
  match features with
  | [] => mret []
  | pFeature :: features' =>
      let cBins := FeatureBoosting.GetCountBins pFeature in
      EBM_ASSERT (bool_decide (1 <= cBins));;
      acBins ← BoostMultiDimensional_bins features';
      mret (if bool_decide (1 < cBins) then cBins :: acBins else acBins)
  end.

Definition BoostMultiDimensional (flags : Z) (iTerm cSamplesLeafMin : nat)
    (hessianMin : float) (gain : float) : Run Memory (ErrorEbm * float) :=
  pBoosterCore ← GetCore;
  EBM_ASSERT (bool_decide (iTerm < BoosterCore.GetCountTerms pBoosterCore));;
  pTerm ← lift (BoosterCore.GetTerms pBoosterCore !! iTerm);
  EBM_ASSERT (bool_decide (2 <= Term.GetCountDimensions pTerm));;
  EBM_ASSERT (bool_decide (2 <= Term.GetCountRealDimensions pTerm));;
  let cTensorBins := Term.GetCountTensorBins pTerm in
  EBM_ASSERT (bool_decide (1 <= cTensorBins));;
  features ← lift (cells (Term.GetCountDimensions pTerm) (Term.GetTermFeatures pTerm));
  acBins ← BoostMultiDimensional_bins features;
  let cScores := BoosterCore.GetCountScores pBoosterCore in
  let cAuxillaryBins := Term.GetCountAuxillaryBins pTerm in
  let cBytesPerMainBin :=
    GetBinSize sizeof_FloatMain sizeof_UIntMain true true
               (BoosterCore.IsHessian pBoosterCore) cScores in
  write (with_world (ZeroMem_AuxiliaryBins cBytesPerMainBin cAuxillaryBins cTensorBins));;
  write (with_world (TensorTotalsBuild (BoosterCore.IsHessian pBoosterCore) cScores
                       (Term.GetCountRealDimensions pTerm) acBins));;
  if bool_decide (2 = Term.GetCountRealDimensions pTerm) then
    w ← read the_world;
    inner ← read (fun m => BoosterShell.GetInnerTermUpdate (pBoosterShell m));
    let '(error, gain, w, inner) :=
      PartitionTwoDimensionalBoosting flags pTerm acBins cSamplesLeafMin hessianMin
        w inner in
    write (with_world (fun _ => w));;
    write (with_shell (BoosterShell.SetInnerTermUpdate inner));;
    if bool_decide (Error_None ≠ error) then mret (error, gain) else
    EBM_ASSERT (negb (PrimFloat.is_nan gain));;
    EBM_ASSERT (PrimFloat.leb 0 gain);;
    mret (Error_None, gain)
  else
    EBM_ASSERT false;;
    mret (Error_UnexpectedInternal, gain).

Definition BoostRandom (iTerm : nat) (flags : Z) (aLeavesMax : option (list Z))
    (significantDirection : Z) : Run Memory (ErrorEbm * float) :=
  pBoosterCore ← GetCore;
  EBM_ASSERT (bool_decide (iTerm < BoosterCore.GetCountTerms pBoosterCore));;
  pTerm ← lift (BoosterCore.GetTerms pBoosterCore !! iTerm);
  r ← read pRng;
  r ← lift r;
  w ← read the_world;
  inner ← read (fun m => BoosterShell.GetInnerTermUpdate (pBoosterShell m));
  let '(error, gain, r, w, inner) :=
    PartitionRandomBoosting r pTerm flags aLeavesMax significantDirection w inner in
  write (with_rng r);;
  write (with_world (fun _ => w));;
  write (with_shell (BoosterShell.SetInnerTermUpdate inner));;
  if bool_decide (Error_None ≠ error) then mret (error, gain) else
  EBM_ASSERT (negb (PrimFloat.is_nan gain));;
  EBM_ASSERT (PrimFloat.leb 0 gain);;
  mret (Error_None, gain).

(** *** GenerateTermUpdate *)

(** The [do ... while] loop over the term's features that finds the
    significant dimension (lines 622-650).  The accumulator is
    [lastDimensionLeavesMax], [cSignificantBinCount],
    [significantDirection], [iDimensionImportant]. *)
Fixpoint GenerateTermUpdate_dimensions (features : list FeatureBoosting.t)
    (pLeavesMax : list Z) (direction : option (list Z)) (iDimensionInit : nat)
    (cTensorBins cRealDimensions : nat) (acc : Z * nat * Z * nat)
  : Run Memory (Z * nat * Z * nat) :=
  match features with
  | [] => mret acc
  | pFeature :: features' =>
      let '(lastDimensionLeavesMax, cSignificantBinCount, significantDirection,
            iDimensionImportant) := acc in
      let cBins := FeatureBoosting.GetCountBins pFeature in
      featureDirection ←
        match direction with
        | None => mret MONOTONE_NONE
        | Some d => lift (head d)
        end;
      let direction := tail <$> direction in
      acc ←
        (if bool_decide (1 < cBins) then
           EBM_ASSERT (bool_decide (2 <= cTensorBins));;
           EBM_ASSERT (bool_decide (2 <= cRealDimensions)
                       || (0 =? lastDimensionLeavesMax)%Z);;
           let iDimensionImportant := iDimensionInit in
           let cSignificantBinCount := cBins in
           let significantDirection := Z.lor significantDirection featureDirection in
           countLeavesMax ← lift (head pLeavesMax);
           let lastDimensionLeavesMax :=
             if (countLeavesMax <=? 1)%Z then lastDimensionLeavesMax
             else countLeavesMax in
           mret (lastDimensionLeavesMax, cSignificantBinCount, significantDirection,
                 iDimensionImportant)
         else mret acc);
      GenerateTermUpdate_dimensions features' (tail pLeavesMax) direction
        (iDimensionInit + 1) cTensorBins cRealDimensions acc
  end.

(** The [for] loop over the SIMD lanes that adds the fast bins into the
    main bins (lines 850-882); [bLast] is [pSubsetsEnd == pSubset]. *)
Fixpoint GenerateTermUpdate_lanes (todo i : nat) (bLast bParallelBins : bool)
    (cScores cTensorBins cBytesPerFastBin cSIMDPack iTerm iBag : nat)
    (bUInt64Src bDoubleSrc : bool) (pFastBins : nat) : Run Memory unit :=
  match todo with
  | 0 => mret tt
  | S todo' =>
      pBoosterCore ← GetCore;
      let totals :=
        if bLast && (negb bParallelBins || bool_decide (i = size_sub cSIMDPack 1))
        then Some (bool_decide (1 = cTensorBins), iTerm, iBag) else None in
      write (with_world
               (ConvertAddBin cScores (BoosterCore.IsHessian pBoosterCore) cTensorBins
                  bUInt64Src bDoubleSrc false false pFastBins totals
                  UIntMain_is_uint64_t FloatMain_is_double));;
      if negb bParallelBins then mret tt else
      GenerateTermUpdate_lanes todo' (i + 1) bLast bParallelBins cScores cTensorBins
        cBytesPerFastBin cSIMDPack iTerm iBag bUInt64Src bDoubleSrc
        (pFastBins + cBytesPerFastBin * cTensorBins)
  end.

(** The [do ... while (pSubsetsEnd != pSubset)] loop over the data
    subsets (lines 758-883). *)
Fixpoint GenerateTermUpdate_subsets (subsets : list DataSubsetBoosting.t)
    (iSubset : nat) (pTerm : Term.t) (cScores cTensorBins iTerm iBag : nat)
  : Run Memory unit :=
  match subsets with
  | [] => lift None
  | pSubset :: subsets' =>
      pBoosterCore ← GetCore;
      let wrapper := DataSubsetBoosting.GetObjectiveWrapper pSubset in
      let cUIntBytes := ObjectiveWrapper.m_cUIntBytes wrapper in
      let cFloatBytes := ObjectiveWrapper.m_cFloatBytes wrapper in
      cPack ←
        (if bool_decide (1 = cTensorBins) then mret k_cItemsPerBitPackUndefined
         else
           EBM_ASSERT (1 <=? Term.GetBitsRequiredMin pTerm)%Z;;
           mret (GetCountItemsBitPacked (Term.GetBitsRequiredMin pTerm) cUIntBytes));
      let bHessian := BoosterCore.IsHessian pBoosterCore in
      cBytesPerFastBin ←
        (if bool_decide (sizeof_UIntBig = cUIntBytes) then
           if bool_decide (sizeof_FloatBig = cFloatBytes)
           then mret (GetBinSize sizeof_FloatBig sizeof_UIntBig false false bHessian cScores)
           else
             EBM_ASSERT (bool_decide (sizeof_FloatSmall = cFloatBytes));;
             mret (GetBinSize sizeof_FloatSmall sizeof_UIntBig false false bHessian cScores)
         else
           EBM_ASSERT (bool_decide (sizeof_UIntSmall = cUIntBytes));;
           if bool_decide (sizeof_FloatBig = cFloatBytes)
           then mret (GetBinSize sizeof_FloatBig sizeof_UIntSmall false false bHessian cScores)
           else
             EBM_ASSERT (bool_decide (sizeof_FloatSmall = cFloatBytes));;
             mret (GetBinSize sizeof_FloatSmall sizeof_UIntSmall false false bHessian cScores));
      EBM_ASSERT (negb (IsMultiplyError cBytesPerFastBin cTensorBins));;
      let cSIMDPack := ObjectiveWrapper.m_cSIMDPack wrapper in
      let enabled :=
        bool_decide (0 < HESSIAN_PARALLEL_BIN_BYTES_MAX)
        || bool_decide (0 < GRADIENT_PARALLEL_BIN_BYTES_MAX)
        || bool_decide (0 < MULTISCORE_PARALLEL_BIN_BYTES_MAX) in
      let cBytesParallelMax :=
        if bHessian then
          if bool_decide (1 = cScores) then HESSIAN_PARALLEL_BIN_BYTES_MAX
          else MULTISCORE_PARALLEL_BIN_BYTES_MAX
        else
          if bool_decide (1 = cScores) then GRADIENT_PARALLEL_BIN_BYTES_MAX else 0 in
      let bParallelBins :=
        enabled && bool_decide (1 ≠ cSIMDPack) && bool_decide (1 ≠ cTensorBins)
        && bool_decide (size_mul (size_mul cBytesPerFastBin cTensorBins) cSIMDPack
                        <= cBytesParallelMax) in
      let cParallelTensorBins :=
        if bParallelBins then size_mul cTensorBins cSIMDPack else cTensorBins in
      write (with_world (ZeroMem_FastBins cBytesPerFastBin cParallelTensorBins));;
      let params :=
        {| BinSumsBoostingBridge.m_bParallelBins := bParallelBins;
           BinSumsBoostingBridge.m_bHessian := bHessian;
           BinSumsBoostingBridge.m_cScores := cScores;
           BinSumsBoostingBridge.m_cPack := cPack;
           BinSumsBoostingBridge.m_cSamples := DataSubsetBoosting.GetCountSamples pSubset;
           BinSumsBoostingBridge.m_cBytesFastBins := cBytesPerFastBin * cTensorBins |} in
      w ← read the_world;
      let '(error, w) := BinSumsBoosting params iSubset iBag iTerm w in
      write (with_world (fun _ => w));;
      if bool_decide (Error_None ≠ error) then leave error else
      let bUInt64Src := bool_decide (sizeof_UIntBig = cUIntBytes) in
      let bDoubleSrc := bool_decide (sizeof_FloatBig = cFloatBytes) in
      let bLast := bool_decide (subsets' = []) in
      GenerateTermUpdate_lanes cSIMDPack 0 bLast bParallelBins cScores cTensorBins
        cBytesPerFastBin cSIMDPack iTerm iBag bUInt64Src bDoubleSrc 0;;
      if bLast then mret tt
      else GenerateTermUpdate_subsets subsets' (iSubset + 1) pTerm cScores cTensorBins
             iTerm iBag
  end.

Definition GetTermUpdate : Run Memory tensor :=
  read (fun m => BoosterShell.GetTermUpdate (pBoosterShell m)).
Definition GetInnerTermUpdate : Run Memory tensor :=
  read (fun m => BoosterShell.GetInnerTermUpdate (pBoosterShell m)).

(** The [do ... while (cInnerBagsAfterZero != iBag)] loop over the inner
    bags (lines 752-959); it yields [gainAvg]. *)
Fixpoint GenerateTermUpdate_bags (todo iBag : nat) (pTerm : Term.t)
    (iTerm cScores cTensorBins cInnerBagsAfterZero cRealDimensions : nat)
    (cBytesMainBins : nat) (flags : Z) (leavesMax : option (list Z))
    (significantDirection : Z) (cSignificantBinCount iDimensionImportant : nat)
    (cSamplesLeafMin : nat) (minHessian : float) (lastDimensionLeavesMax : Z)
    (gainMultiple gainAvg : float) : Run Memory float :=
  match todo with
  | 0 => lift None
  | S todo' =>
      write (with_world (memset_MainBins cBytesMainBins));;
      pBoosterCore ← GetCore;
      let subsets := DataSetBoosting.GetSubsets (BoosterCore.GetTrainingSet pBoosterCore) in
      EBM_ASSERT (bool_decide (1 <= length subsets));;
      GenerateTermUpdate_subsets subsets 0 pTerm cScores cTensorBins iTerm iBag;;
      gainAvg ←
        (if bool_decide (1 = cTensorBins) then
           BoostZeroDimensional flags;;
           mret gainAvg
         else
           let weightTotal :=
             DataSetBoosting.GetBagWeightTotal
               (BoosterCore.GetTrainingSet pBoosterCore) iBag in
           EBM_ASSERT (PrimFloat.ltb 0 weightTotal);;
           '(error, gain) ←
             (if flag_set TermBoostFlags_RandomSplits flags
                 || bool_decide (2 < cRealDimensions)
              then BoostRandom iTerm flags leavesMax significantDirection
              else if bool_decide (1 = cRealDimensions) then
                EBM_ASSERT (bool_decide (is_Some leavesMax));;
                EBM_ASSERT (2 <=? lastDimensionLeavesMax)%Z;;
                EBM_ASSERT (bool_decide (2 <= cSignificantBinCount));;
                EBM_ASSERT (bool_decide (1 = Term.GetCountRealDimensions pTerm));;
                EBM_ASSERT (bool_decide
                              (cSignificantBinCount = Term.GetCountTensorBins pTerm));;
                EBM_ASSERT (bool_decide (0 = Term.GetCountAuxillaryBins pTerm));;
                BoostSingleDimensional flags cSignificantBinCount weightTotal
                  iDimensionImportant cSamplesLeafMin minHessian
                  lastDimensionLeavesMax significantDirection
              else
                BoostMultiDimensional flags iTerm cSamplesLeafMin minHessian
                  uninitialized_double);
           if bool_decide (Error_None ≠ error) then leave error else
           EBM_ASSERT (negb (PrimFloat.is_nan gain));;
           EBM_ASSERT (PrimFloat.leb 0 gain);;
           let gain := PrimFloat.mul (PrimFloat.div gain weightTotal) gainMultiple in
           let gainAvg := PrimFloat.add gainAvg gain in
           EBM_ASSERT (negb (PrimFloat.is_nan gainAvg));;
           EBM_ASSERT (PrimFloat.leb 0 gainAvg);;
           mret gainAvg);
      update ← GetTermUpdate;
      inner ← GetInnerTermUpdate;
      '(error, update) ← lift (Tensor_Add update inner);
      write (with_shell (BoosterShell.SetTermUpdate update));;
      if bool_decide (Error_None ≠ error) then leave error else
      let iBag := iBag + 1 in
      if bool_decide (cInnerBagsAfterZero ≠ iBag)
      then GenerateTermUpdate_bags todo' iBag pTerm iTerm cScores cTensorBins
             cInnerBagsAfterZero cRealDimensions cBytesMainBins flags leavesMax
             significantDirection cSignificantBinCount iDimensionImportant
             cSamplesLeafMin minHessian lastDimensionLeavesMax gainMultiple gainAvg
      else mret gainAvg
  end.

(** [SetCountDimensions (cDimensions)] then [Reset ()] on the round update
    tensor. *)
Definition GenerateTermUpdate_reset_update (cDimensions : nat) : Run Memory unit :=
  update ← GetTermUpdate;
  update ← lift (Tensor_SetCountDimensions cDimensions update);
  write (with_shell (BoosterShell.SetTermUpdate update));;
  update ← GetTermUpdate;
  update ← lift (Tensor_Reset update);
  write (with_shell (BoosterShell.SetTermUpdate update)).

(** What follows the loop over the inner bags, up to the end of the
    [if (0 != cSamples)] block (lines 961-1026); it yields [gainAvg]. *)
Definition GenerateTermUpdate_finish (cDimensions cScores : nat)
    (multiple gainAvg : float) : Run Memory float :=
  EBM_ASSERT (negb (PrimFloat.is_nan gainAvg));;
  EBM_ASSERT (PrimFloat.leb 0 gainAvg);;
  gainAvg ←
    (if negb (PrimFloat.leb gainAvg double_max) then mret k_illegalGainDouble
     else
       EBM_ASSERT (negb (PrimFloat.is_nan gainAvg));;
       EBM_ASSERT (negb (PrimFloat.is_infinity gainAvg));;
       EBM_ASSERT (PrimFloat.leb 0 gainAvg);;
       mret gainAvg);
  update ← GetTermUpdate;
  '(bBad, update) ←
    lift (if bool_decide (2 = cScores)
          then Tensor_MultiplyAndCheckForIssues (PrimFloat.mul multiple 0.5) update
          else Tensor_MultiplyAndCheckForIssues multiple update);
  write (with_shell (BoosterShell.SetTermUpdate update));;
  if bBad : bool then
    GenerateTermUpdate_reset_update cDimensions;;
    mret k_illegalGainDouble
  else mret gainAvg.

(** The [if (0 != cSamples)] block up to the end of the loop over the
    inner bags (lines 663-959); it yields [multiple] and [gainAvg]. *)
Definition GenerateTermUpdate_gains (rng_in : option rng) (l : Locals.t)
    (flags : Z) (learningRate : float) (leavesMax : option (list Z))
  : Run Memory (float * float) :=
  let pTerm := Locals.pTerm l in
  let iTerm := Locals.iTerm l in
  let cScores := Locals.cScores l in
  let cTensorBins := Locals.cTensorBins l in
  let cInnerBagsAfterZero := Locals.cInnerBagsAfterZero l in
  let cRealDimensions := Locals.cRealDimensions l in
  let cDimensions := Locals.cDimensions l in
  let lastDimensionLeavesMax := Locals.lastDimensionLeavesMax l in
  let cSignificantBinCount := Locals.cSignificantBinCount l in
  let significantDirection := Locals.significantDirection l in
  let iDimensionImportant := Locals.iDimensionImportant l in
  let cSamplesLeafMin := Locals.cSamplesLeafMin l in
  let minHessian := Locals.minHessian l in
  pBoosterCore ← GetCore;
  let gradientConstant := BoosterCore.GradientConstant pBoosterCore in
  let multipleCommon :=
    PrimFloat.div gradientConstant (double_of_size_t cInnerBagsAfterZero) in
  let multiple :=
    if flag_set TermBoostFlags_GradientSums flags then
      PrimFloat.mul multipleCommon
        (BoosterCore.LearningRateAdjustmentDifferentialPrivacy pBoosterCore)
    else if flag_set TermBoostFlags_DisableNewtonUpdate flags then
      PrimFloat.mul multipleCommon
        (BoosterCore.LearningRateAdjustmentGradientBoosting pBoosterCore)
    else
      PrimFloat.mul
        (PrimFloat.div multipleCommon (BoosterCore.HessianConstant pBoosterCore))
        (BoosterCore.LearningRateAdjustmentHessianBoosting pBoosterCore) in
  let gainMultiple :=
    if flag_set TermBoostFlags_DisableNewtonGain flags then
      PrimFloat.mul multipleCommon
        (BoosterCore.GainAdjustmentGradientBoosting pBoosterCore)
    else
      PrimFloat.mul
        (PrimFloat.div multipleCommon (BoosterCore.HessianConstant pBoosterCore))
        (BoosterCore.GainAdjustmentHessianBoosting pBoosterCore) in
  let multiple := PrimFloat.mul multiple learningRate in
  let gainMultiple := PrimFloat.mul gainMultiple gradientConstant in
  match rng_in with
  | Some r => write (with_rng r)
  | None =>
      w ← read the_world;
      match RandomNondeterministic_Next w with
      | Seeded seed => write (with_rng (RandomDeterministic_Initialize seed))
      | Threw_bad_alloc => leave Error_OutOfMemory
      | Threw_other => leave Error_UnexpectedInternal
      end
  end;;
  inner ← GetInnerTermUpdate;
  inner ← lift (Tensor_SetCountDimensions cDimensions inner);
  inner ← lift (Tensor_Reset inner);
  write (with_shell (BoosterShell.SetInnerTermUpdate inner));;
  let cTensorBins :=
    if (0 =? lastDimensionLeavesMax)%Z
       || (bool_decide (1 ≠ cRealDimensions)
           && negb (MONOTONE_NONE =? significantDirection)%Z)
    then 1 else cTensorBins in
  let cBytesPerMainBin :=
    GetBinSize sizeof_FloatMain sizeof_UIntMain true true
               (BoosterCore.IsHessian pBoosterCore) cScores in
  EBM_ASSERT (negb (IsMultiplyError cBytesPerMainBin cTensorBins));;
  let cBytesMainBins := cBytesPerMainBin * cTensorBins in
  let cAuxillaryBins :=
    if flag_set TermBoostFlags_RandomSplits flags || bool_decide (2 < cRealDimensions)
    then 0 else Term.GetCountAuxillaryBins pTerm in
  EBM_ASSERT (negb (IsAddError cTensorBins cAuxillaryBins));;
  EBM_ASSERT (negb (IsMultiplyError cBytesPerMainBin (cTensorBins + cAuxillaryBins)));;
  EBM_ASSERT (bool_decide (1 <= cInnerBagsAfterZero));;
  gainAvg ←
    GenerateTermUpdate_bags cInnerBagsAfterZero 0 pTerm iTerm cScores cTensorBins
      cInnerBagsAfterZero cRealDimensions cBytesMainBins flags leavesMax
      significantDirection cSignificantBinCount iDimensionImportant
      cSamplesLeafMin minHessian lastDimensionLeavesMax gainMultiple 0;
  mret (multiple, gainAvg).

(** The [if (0 != cSamples)] block (lines 663-1027); it yields
    [gainAvg]. *)
Definition GenerateTermUpdate_boost (rng_in : option rng) (l : Locals.t)
    (flags : Z) (learningRate : float) (leavesMax : option (list Z))
  : Run Memory float :=
  '(multiple, gainAvg) ← GenerateTermUpdate_gains rng_in l flags learningRate leavesMax;
  GenerateTermUpdate_finish (Locals.cDimensions l) (Locals.cScores l) multiple gainAvg.

(** The end of the function (lines 1029-1046): the term index is
    committed, the gain is written through [avgGainOut], and the call
    returns [Error_None]. *)
Definition GenerateTermUpdate_return (iTerm : nat) (gainAvg : float)
  : Run Memory ErrorEbm :=
  write (with_shell (BoosterShell.SetTermIndex iTerm));;
  EBM_ASSERT (negb (PrimFloat.is_nan gainAvg));;
  EBM_ASSERT (negb (PrimFloat.eqb PrimFloat.infinity gainAvg));;
  EBM_ASSERT (PrimFloat.eqb k_illegalGainDouble gainAvg || PrimFloat.leb 0 gainAvg);;
  write (with_avgGainOut gainAvg);;
  mret Error_None.

(** The function body from the shell behind the handle to the reset of
    the round update tensor (lines 507-657); it yields the locals.  The
    two early returns with [Error_None] are in it. *)
Definition GenerateTermUpdate_begin (indexTerm minSamplesLeaf : Z) (minHessian : float)
    (leavesMax direction : option (list Z)) : Run Memory Locals.t :=
  write (with_shell (BoosterShell.SetTermIndex k_illegalTermIndex));;
  (if (indexTerm <? 0)%Z then leave Error_IllegalParamVal else mret tt);;
  pBoosterCore ← GetCore;
  (if (IntEbm_of_size_t (BoosterCore.GetCountTerms pBoosterCore) <=? indexTerm)%Z
   then leave Error_IllegalParamVal else mret tt);;
  let iTerm := Z.to_nat indexTerm in
  pTerm ← lift (BoosterCore.GetTerms pBoosterCore !! iTerm);
  let cSamplesLeafMin :=
    if (0 <=? minSamplesLeaf)%Z then
      if IsConvertError_size_t minSamplesLeaf then size_t_max
      else size_t_of_IntEbm minSamplesLeaf
    else 0 in
  let minHessian :=
    if PrimFloat.is_nan minHessian || PrimFloat.leb minHessian 0
    then double_min else minHessian in
  let cScores := BoosterCore.GetCountScores pBoosterCore in
  (if bool_decide (0 = cScores) then
     write (with_avgGainOut 0);;
     write (with_shell (BoosterShell.SetTermIndex iTerm));;
     leave Error_None
   else mret tt);;
  let cTensorBins := Term.GetCountTensorBins pTerm in
  (if bool_decide (0 = cTensorBins) then
     write (with_avgGainOut 0);;
     write (with_shell (BoosterShell.SetTermIndex iTerm));;
     leave Error_None
   else mret tt);;
  let cInnerBagsAfterZero :=
    if bool_decide (0 = BoosterCore.GetCountInnerBags pBoosterCore) then 1
    else BoosterCore.GetCountInnerBags pBoosterCore in
  let cRealDimensions := Term.GetCountRealDimensions pTerm in
  let cDimensions := Term.GetCountDimensions pTerm in
  '(lastDimensionLeavesMax, cSignificantBinCount, significantDirection,
    iDimensionImportant) ←
    match leavesMax with
    | None => mret (0%Z, 0, MONOTONE_NONE, 0)
    | Some pLeavesMax =>
        if bool_decide (0 ≠ cRealDimensions) then
          EBM_ASSERT (bool_decide (1 <= cDimensions));;
          features ← lift (cells cDimensions (Term.GetTermFeatures pTerm));
          acc ← GenerateTermUpdate_dimensions features pLeavesMax direction 0
                  cTensorBins cRealDimensions (0%Z, 0, MONOTONE_NONE, 0);
          EBM_ASSERT (bool_decide (2 <= acc.1.1.2));;
          mret acc
        else mret (0%Z, 0, MONOTONE_NONE, 0)
    end;
  EBM_ASSERT (bool_decide (1 <= cTensorBins));;
  EBM_ASSERT (bool_decide (2 <= cTensorBins) || (0 =? lastDimensionLeavesMax)%Z);;
  GenerateTermUpdate_reset_update cDimensions;;
  mret {| Locals.pBoosterCore := pBoosterCore;
          Locals.iTerm := iTerm;
          Locals.pTerm := pTerm;
          Locals.cSamplesLeafMin := cSamplesLeafMin;
          Locals.minHessian := minHessian;
          Locals.cScores := cScores;
          Locals.cTensorBins := cTensorBins;
          Locals.cInnerBagsAfterZero := cInnerBagsAfterZero;
          Locals.cRealDimensions := cRealDimensions;
          Locals.cDimensions := cDimensions;
          Locals.lastDimensionLeavesMax := lastDimensionLeavesMax;
          Locals.cSignificantBinCount := cSignificantBinCount;
          Locals.significantDirection := significantDirection;
          Locals.iDimensionImportant := iDimensionImportant |}.

(** The function body once the shell behind the handle is known
    (lines 507-1046); it yields the returned code. *)
Definition GenerateTermUpdate_body (rng_in : option rng) (indexTerm flags : Z)
    (learningRate : float) (minSamplesLeaf : Z) (minHessian : float)
    (leavesMax direction : option (list Z)) : Run Memory ErrorEbm :=
  l ← GenerateTermUpdate_begin indexTerm minSamplesLeaf minHessian leavesMax direction;
  gainAvg ←
    (if bool_decide
          (0 ≠ DataSetBoosting.GetCountSamples
                 (BoosterCore.GetTrainingSet (Locals.pBoosterCore l)))
     then GenerateTermUpdate_boost rng_in l flags learningRate leavesMax
     else mret 0%float);
  GenerateTermUpdate_return (Locals.iTerm l) gainAvg.

(** What a call leaves behind: the returned code, the shell behind the
    handle (if there is one), the world, the generator [pRng] pointed to
    (if it was set), and the cell behind [avgGainOut]. *)
Record Outcome := {
  returned : ErrorEbm;
  shell_after : option (BoosterShell.t tensor);
  world_after : world;
  rng_after : option rng;
  avgGainOut_after : option float
}.

(** [boosterHandle] is given by what [GetBoosterShellFromHandle] makes of
    it: [None] for [nullptr]. *)
Definition GenerateTermUpdate (rng_in : option rng)
    (boosterHandle : option (BoosterShell.t tensor)) (w : world)
    (indexTerm flags : Z) (learningRate : float) (minSamplesLeaf : Z)
    (minHessian : float) (leavesMax direction : option (list Z))
    (avgGainOut_in : option float) : option Outcome :=
  let avgGainOut_in := (fun _ => k_illegalGainDouble) <$> avgGainOut_in in
  match boosterHandle with
  | None =>
      Some {| returned := Error_IllegalParamVal; shell_after := None;
              world_after := w; rng_after := None;
              avgGainOut_after := avgGainOut_in |}
  | Some shell =>
      r ← GenerateTermUpdate_body rng_in indexTerm flags learningRate minSamplesLeaf
            minHessian leavesMax direction
            {| pBoosterShell := shell; the_world := w; pRng := None;
               avgGainOut := avgGainOut_in |};
      let '(flow, m) := r in
      Some {| returned := match flow with Next e => e | Leave e => e end;
              shell_after := Some (pBoosterShell m);
              world_after := the_world m;
              rng_after := pRng m;
              avgGainOut_after := avgGainOut m |}
  end.

End Orchestrator.

(** ** What the round keeps *)

Section Kept.
Context `{PF : Platform} {tensor world rng : Type}.
Context `{TO : TensorOps tensor} `{CO : Collaborators tensor world rng}.

(** What only the first and the last lines of [GenerateTermUpdate] write:
    the booster core, the term index of the shell and the cell behind
    [avgGainOut]. *)
Definition kept (s s' : Memory (tensor := tensor) (world := world) (rng := rng)) : Prop :=
  BoosterShell.GetBoosterCore (pBoosterShell s') = BoosterShell.GetBoosterCore (pBoosterShell s)
  /\ BoosterShell.m_iTerm (pBoosterShell s') = BoosterShell.m_iTerm (pBoosterShell s)
  /\ avgGainOut s' = avgGainOut s.

(** A piece of the function body that changes the memory within [R] only,
    and that leaves the function only with an error. *)
Definition frames (R : relation (Memory (tensor := tensor) (world := world) (rng := rng)))
    {A} (m : Run (Memory (tensor := tensor) (world := world) (rng := rng)) A) : Prop :=
  forall s r s', m s = Some (r, s') -> R s s' /\ r <> Leave Error_None.

(** The rest of the function body from some point on: whatever it returns,
    the booster core is the one it found; an error leaves the term index
    and the output cell as they were; [Error_None] comes with the term
    index [iTerm] and a gain in the output cell. *)
Definition settles (iTerm : nat)
    (m : Run (Memory (tensor := tensor) (world := world) (rng := rng)) ErrorEbm) : Prop :=
  forall s r s', m s = Some (r, s') ->
    BoosterShell.GetBoosterCore (pBoosterShell s') = BoosterShell.GetBoosterCore (pBoosterShell s)
    /\ (match r with Next e | Leave e => e end <> Error_None ->
        BoosterShell.m_iTerm (pBoosterShell s') = BoosterShell.m_iTerm (pBoosterShell s)
        /\ avgGainOut s' = avgGainOut s)
    /\ (match r with Next e | Leave e => e end = Error_None ->
        BoosterShell.m_iTerm (pBoosterShell s') = iTerm
        /\ exists gain, avgGainOut s' = (fun _ => gain) <$> avgGainOut s).

End Kept.

(** ** Segmented tensors of doubles as the orchestrator's [Tensor] *)

(** Modelled from the spec: [MultiplyAndCheckForIssues] is a method of
    [Tensor.hpp], which is not among the sources.  The spec: as
    [Multiply], returning [true] iff any resulting score is NaN or
    infinite. *)
Definition MultiplyAndCheckForIssues `{PF : Platform} (fresh_score : float)
    (v : float) (t : SegmentedTensor float) : option (bool * SegmentedTensor float) :=
  t ← Multiply (SC := double_scores fresh_score) v t;
  Some (existsb (fun x => PrimFloat.is_nan x || PrimFloat.is_infinity x) (scores t), t).

(** Modelled from the spec: the methods of [Tensor.hpp] that
    [GenerateTermUpdate] calls, taken from [SegmentedTensor.h] where it
    has them; a failed [Add] is an allocation failure. *)
Definition SegmentedTensor_ops `{PF : Platform} (fresh_score : float)
  : TensorOps (SegmentedTensor float) :=
  {| Tensor_SetCountDimensions := SetCountDimensions;
     Tensor_Reset := Reset (SC := double_scores fresh_score);
     Tensor_Add := fun this rhs =>
       '(bad, t) ← Add (SC := double_scores fresh_score) this rhs;
       Some (if bad : bool then Error_OutOfMemory else Error_None, t);
     Tensor_MultiplyAndCheckForIssues := MultiplyAndCheckForIssues fresh_score;
     Tensor_StoreScore := fun i v t =>
       a ← store (m_aValues t) i v;
       Some (with_values (m_cValueCapacity t) a t) |}.

(** ** The tensors of the spec's scenarios *)

(** Scenario C: one dimension, [divisions = [1]], [values = [7, 9]]. *)
Definition scenario_C : SegmentedTensor float :=
  {| m_cValueCapacity := 2; m_cVectorLength := 1;
     m_cDimensionsMax := 1; m_cDimensions := 1;
     m_aValues := [7; 9]%float; m_bExpanded := false;
     m_aDimensions :=
       [ {| m_cDivisions := 1; m_aDivisions := [1]; m_cDivisionCapacity := 1 |} ] |}.

(** Scenario D: two dimensions; [A] has [divs0 = [1]], [divs1 = []] and
    [values = [1, 2]], [B] has [divs0 = []], [divs1 = [3]] and
    [values = [10, 20]].  An empty sequence sits in the one-cell buffer
    [Allocate] gives it. *)
Definition scenario_D_A : SegmentedTensor float :=
  {| m_cValueCapacity := 2; m_cVectorLength := 1;
     m_cDimensionsMax := 2; m_cDimensions := 2;
     m_aValues := [1; 2]%float; m_bExpanded := false;
     m_aDimensions :=
       [ {| m_cDivisions := 1; m_aDivisions := [1]; m_cDivisionCapacity := 1 |};
         {| m_cDivisions := 0; m_aDivisions := [0]; m_cDivisionCapacity := 1 |} ] |}.

Definition scenario_D_B : SegmentedTensor float :=
  {| m_cValueCapacity := 2; m_cVectorLength := 1;
     m_cDimensionsMax := 2; m_cDimensions := 2;
     m_aValues := [10; 20]%float; m_bExpanded := false;
     m_aDimensions :=
       [ {| m_cDivisions := 0; m_aDivisions := [0]; m_cDivisionCapacity := 1 |};
         {| m_cDivisions := 1; m_aDivisions := [3]; m_cDivisionCapacity := 1 |} ] |}.

(** ** Well-formed tensors *)

(** A dimension whose division count fits its buffer, whose recorded
    capacity is the size of the buffer, and whose buffer takes fewer than
    [size_max] bytes. *)
Definition well_formed_dimension `{PF : Platform} (d : DimensionInfo) : Prop :=
  m_cDivisions d <= length (m_aDivisions d)
  /\ m_cDivisionCapacity d = length (m_aDivisions d)
  /\ (N.of_nat (sizeof_TDivisions * length (m_aDivisions d)) < size_max)%N.

(** The invariants of the data model that do not depend on the order of
    the divisions: a positive vector length, the active dimensions present
    and well formed, and [L · Π (K_i + 1)] scores within a buffer whose
    size is the recorded capacity. *)
Record well_formed `{PF : Platform} {T : Type} (t : SegmentedTensor T) : Prop := {
  wf_vector : 1 <= m_cVectorLength t;
  wf_dimensions : m_cDimensions t <= length (m_aDimensions t);
  wf_divisions : Forall well_formed_dimension (active t);
  wf_capacity : m_cValueCapacity t = length (m_aValues t);
  wf_values : m_cVectorLength t * segments (active t) <= length (m_aValues t);
  wf_values_bytes : (N.of_nat (sizeof_TValues * length (m_aValues t)) <= size_max)%N
}.

(** Two dimensions with the same division count and the same division
    sequence, each within its buffer. *)
Definition same_dimension (d1 d2 : DimensionInfo) : Prop :=
  m_cDivisions d1 = m_cDivisions d2
  /\ m_cDivisions d1 <= length (m_aDivisions d1)
  /\ m_cDivisions d2 <= length (m_aDivisions d2)
  /\ divisions d1 = divisions d2.

(** Two tensors with the same dimension count, the same division counts
    and sequences, and meaningful scores that [!=] does not tell apart. *)
Definition agree {T : Type} `{SC : Scores T} (this rhs : SegmentedTensor T) : Prop :=
  m_cDimensions this = m_cDimensions rhs
  /\ Forall2 same_dimension (active this) (active rhs)
  /\ Forall2 (fun x y => score_neq x y = false) (scores this)
       (take (m_cVectorLength this * segments (active this)) (m_aValues rhs)).

(** Scenario C again, with the expanded flag set, more capacity than it
    needs and a spare dimension. *)
Definition scenario_C_roomy : SegmentedTensor float :=
  {| m_cValueCapacity := 5; m_cVectorLength := 1;
     m_cDimensionsMax := 2; m_cDimensions := 1;
     m_aValues := [7; 9; 3; 3; 3]%float; m_bExpanded := true;
     m_aDimensions :=
       [ {| m_cDivisions := 1; m_aDivisions := [1; 8; 8]; m_cDivisionCapacity := 3 |};
         {| m_cDivisions := 0; m_aDivisions := [8]; m_cDivisionCapacity := 1 |} ] |}.

(** ** Merging division sequences *)

(** What the merge loops of [Add] compute, as predicates and functions on
    division sequences.  None of this is code of the header; the
    properties of [Add] relate its loops to them. *)

(** Strictly increasing. *)
Definition increasing (l : list nat) : Prop := StronglySorted lt l.

(** [r] is the sorted union of [a] and [b]: strictly increasing, with the
    division points of [a] and of [b] and no other. *)
Definition sorted_union (a b r : list nat) : Prop :=
  increasing r /\ forall x, x ∈ r <-> x ∈ a \/ x ∈ b.

(** The forward two-pointer merge of [Add]'s first loop, as a function on
    sequences: the head of the first moves when [d1 <= d2], the head of
    the second when [d2 <= d1]. *)
Fixpoint fmerge (l1 : list nat) : list nat -> list nat :=
  fix aux (l2 : list nat) : list nat :=
    match l1, l2 with
    | [], _ => l2
    | _, [] => l1
    | d1 :: l1', d2 :: l2' =>
        if bool_decide (d1 <= d2) then
          if bool_decide (d2 <= d1) then d1 :: fmerge l1' l2'
          else d1 :: fmerge l1' l2
        else d2 :: aux l2'
    end.

(** The backward merge of [Add]'s other loops, on the sequences read from
    their ends: the first moves when [d2 <= d1], the second when
    [d1 <= d2], and the larger division is the one produced. *)
Fixpoint rmerge (l1 : list nat) : list nat -> list nat :=
  fix aux (l2 : list nat) : list nat :=
    match l1, l2 with
    | [], _ => l2
    | _, [] => l1
    | d1 :: l1', d2 :: l2' =>
        if bool_decide (d2 <= d1) then
          if bool_decide (d1 <= d2) then d2 :: rmerge l1' l2'
          else d1 :: rmerge l1' l2
        else d2 :: aux l2'
    end.

(** ** The cursors of [Add] *)

(** Quantities that the loops of [Add] keep without computing them: where
    the cursor stack stands in each operand and in the result. *)

(** The number of divisions of the union below a pair of cursors: what
    the backward merge still has to produce. *)
Definition rlen (a1 a2 : list nat) (p1 p2 : nat) : nat :=
  length (rmerge (reverse (take p1 a1)) (reverse (take p2 a2))).

(** A stack entry with the two cursors exchanged: the entry of the run
    with the operands exchanged. *)
Definition swap (e : DimensionInfoStack.t) : DimensionInfoStack.t :=
  {| DimensionInfoStack.m_pDivision1 := DimensionInfoStack.m_pDivision2 e;
     DimensionInfoStack.m_pDivision2 := DimensionInfoStack.m_pDivision1 e;
     DimensionInfoStack.m_cNewDivisions := DimensionInfoStack.m_cNewDivisions e |}.

(** A stack entry that belongs to a pair of dimensions: both cursors
    within the division sequences, the sequences within their buffers and
    short of [size_max], and the count of the union as the forward walk
    leaves it. *)
Definition valid `{PF : Platform} (e : DimensionInfoStack.t) (d1 d2 : DimensionInfo) : Prop :=
  DimensionInfoStack.m_pDivision1 e <= m_cDivisions d1
  /\ DimensionInfoStack.m_pDivision2 e <= m_cDivisions d2
  /\ m_cDivisions d1 <= length (m_aDivisions d1)
  /\ m_cDivisions d2 <= length (m_aDivisions d2)
  /\ (N.of_nat (m_cDivisions d1 + m_cDivisions d2) < size_max)%N
  /\ DimensionInfoStack.m_cNewDivisions e
     = rlen (m_aDivisions d1) (m_aDivisions d2) (m_cDivisions d1) (m_cDivisions d2).

Inductive valid_stack `{PF : Platform}
  : list DimensionInfoStack.t -> list DimensionInfo -> list DimensionInfo -> Prop :=
  | valid_nil : valid_stack [] [] []
  | valid_cons e d1 d2 stack ds1 ds2 :
      valid e d1 d2 -> valid_stack stack ds1 ds2 ->
      valid_stack (e :: stack) (d1 :: ds1) (d2 :: ds2).

(** The offset of the first operand's cell under the cursors, in scores,
    when a step along the first dimension of [ds1] is worth [m] scores. *)
Fixpoint offset1 (stack : list DimensionInfoStack.t) (ds1 : list DimensionInfo) (m : nat)
  : nat :=
  match stack, ds1 with
  | e :: stack', d :: ds1' =>
      DimensionInfoStack.m_pDivision1 e * m + offset1 stack' ds1' (m * (1 + m_cDivisions d))
  | _, _ => 0
  end.

(** The offset of the result's cell under the cursors. *)
Fixpoint offsetTop (stack : list DimensionInfoStack.t) (ds1 ds2 : list DimensionInfo)
    (m : nat) : nat :=
  match stack, ds1, ds2 with
  | e :: stack', d1 :: ds1', d2 :: ds2' =>
      rlen (m_aDivisions d1) (m_aDivisions d2)
           (DimensionInfoStack.m_pDivision1 e) (DimensionInfoStack.m_pDivision2 e) * m
      + offsetTop stack' ds1' ds2' (m * (1 + DimensionInfoStack.m_cNewDivisions e))
  | _, _, _ => 0
  end.

(** The stack as the first loop of [Add] leaves it on strictly increasing
    sequences: both cursors at the end of the division sequences, and the
    length of the union as the count. *)
Definition initial_stack (ds1 ds2 : list DimensionInfo) : list DimensionInfoStack.t :=
  zip_with (fun d1 d2 =>
    {| DimensionInfoStack.m_pDivision1 := m_cDivisions d1;
       DimensionInfoStack.m_pDivision2 := m_cDivisions d2;
       DimensionInfoStack.m_cNewDivisions :=
         rlen (m_aDivisions d1) (m_aDivisions d2) (m_cDivisions d1) (m_cDivisions d2) |})
    ds1 ds2.

(** The number of segments of the result, from the counts on the stack. *)
Definition segments_top (stack : list DimensionInfoStack.t) : nat :=
  foldr (fun e n => (DimensionInfoStack.m_cNewDivisions e + 1) * n) 1 stack.

(** A dimension [Add] can read: the division sequence within its buffer,
    strictly increasing, and short of half of [size_max]. *)
Definition readable `{PF : Platform} (d : DimensionInfo) : Prop :=
  m_cDivisions d <= length (m_aDivisions d)
  /\ (N.of_nat (2 * m_cDivisions d) < size_max)%N
  /\ increasing (divisions d).

(** ** A small booster *)

(** A one-dimensional tensor with a single segment. *)
Definition demo_tensor (score : float) : SegmentedTensor float :=
  {| m_cValueCapacity := 2; m_cVectorLength := 1;
     m_cDimensionsMax := 1; m_cDimensions := 1;
     m_aValues := [score; 0]%float; m_bExpanded := false;
     m_aDimensions :=
       [ {| m_cDivisions := 0; m_aDivisions := [0]; m_cDivisionCapacity := 1 |} ] |}.

(** Collaborators that leave the world alone; the one-dimensional
    partitioner reports [gain] and writes [score] in the inner update. *)
Definition demo_collaborators (gain score : float)
  : Collaborators (SegmentedTensor float) unit unit :=
  {| k_illegalGainDouble := PrimFloat.opp double_max;
     uninitialized_double := 0;
     k_illegalTermIndex := 0;
     k_cItemsPerBitPackUndefined := 0;
     MONOTONE_NONE := 0;
     TermBoostFlags_DisableNewtonGain := 1;
     TermBoostFlags_DisableNewtonUpdate := 2;
     TermBoostFlags_GradientSums := 4;
     TermBoostFlags_RandomSplits := 8;
     HESSIAN_PARALLEL_BIN_BYTES_MAX := 0;
     GRADIENT_PARALLEL_BIN_BYTES_MAX := 0;
     MULTISCORE_PARALLEL_BIN_BYTES_MAX := 0;
     sizeof_UIntBig := 8;
     sizeof_UIntSmall := 4;
     sizeof_UIntMain := 8;
     sizeof_FloatBig := 8;
     sizeof_FloatSmall := 4;
     sizeof_FloatMain := 8;
     UIntMain_is_uint64_t := true;
     FloatMain_is_double := true;
     GetBinSize := fun _ _ _ _ _ _ => 32;
     GetCountItemsBitPacked := fun _ _ => 64%Z;
     RandomNondeterministic_Next := fun _ => Seeded 0;
     RandomDeterministic_Initialize := fun _ => tt;
     memset_MainBins := fun _ w => w;
     ZeroMem_FastBins := fun _ _ w => w;
     ZeroMem_AuxiliaryBins := fun _ _ _ w => w;
     BinSumsBoosting := fun _ _ _ _ w => (Error_None, w);
     ConvertAddBin := fun _ _ _ _ _ _ _ _ _ _ _ w => w;
     TensorTotalsBuild := fun _ _ _ _ w => w;
     MainBin_sumGradients := fun _ _ => 0%float;
     MainBin_GetHess := fun _ _ => 1%float;
     MainBin_GetWeight := fun _ => 1%float;
     ComputeSinglePartitionUpdate := fun g h => PrimFloat.opp (PrimFloat.div g h);
     ComputeSinglePartitionUpdateGradientSum := fun g => PrimFloat.opp g;
     PartitionOneDimensionalBoosting := fun r _ _ _ _ _ _ _ _ _ w _ =>
       (Error_None, gain, r, w, demo_tensor score);
     PartitionTwoDimensionalBoosting := fun _ _ _ _ _ w inner =>
       (Error_UnexpectedInternal, 0%float, w, inner);
     PartitionRandomBoosting := fun r _ _ _ _ w inner =>
       (Error_UnexpectedInternal, 0%float, r, w, inner) |}.

(** One term over one feature of two bins. *)
Definition demo_term : Term.t :=
  {| Term.GetCountDimensions := 1;
     Term.GetCountRealDimensions := 1;
     Term.GetCountTensorBins := 2;
     Term.GetCountAuxillaryBins := 0;
     Term.GetBitsRequiredMin := 1;
     Term.GetTermFeatures := [ {| FeatureBoosting.GetCountBins := 2 |} ] |}.

(** One score, one subset of one sample, every constant 1. *)
Definition demo_core : BoosterCore.t :=
  {| BoosterCore.GetCountTerms := 1;
     BoosterCore.GetTerms := [demo_term];
     BoosterCore.GetCountScores := 1;
     BoosterCore.GetCountInnerBags := 0;
     BoosterCore.IsHessian := true;
     BoosterCore.GetTrainingSet :=
       {| DataSetBoosting.GetCountSamples := 1;
          DataSetBoosting.GetSubsets :=
            [ {| DataSubsetBoosting.GetCountSamples := 1;
                 DataSubsetBoosting.GetObjectiveWrapper :=
                   {| ObjectiveWrapper.m_cUIntBytes := 8;
                      ObjectiveWrapper.m_cFloatBytes := 8;
                      ObjectiveWrapper.m_cSIMDPack := 1 |} |} ];
          DataSetBoosting.GetBagWeightTotal := fun _ => 1%float |};
     BoosterCore.GradientConstant := 1;
     BoosterCore.HessianConstant := 1;
     BoosterCore.LearningRateAdjustmentDifferentialPrivacy := 1;
     BoosterCore.LearningRateAdjustmentGradientBoosting := 1;
     BoosterCore.LearningRateAdjustmentHessianBoosting := 1;
     BoosterCore.GainAdjustmentGradientBoosting := 1;
     BoosterCore.GainAdjustmentHessianBoosting := 1 |}.

Definition demo_shell : BoosterShell.t (SegmentedTensor float) :=
  {| BoosterShell.GetBoosterCore := demo_core;
     BoosterShell.m_iTerm := 0;
     BoosterShell.GetTermUpdate := demo_tensor 5;
     BoosterShell.GetInnerTermUpdate := demo_tensor 6 |}.

(** A whole call on term 0, with [leavesMax = [2]] and an output cell. *)
Definition demo_run (gain score learningRate : float) :=
  GenerateTermUpdate (PF := lp64 roomy 0) (TO := SegmentedTensor_ops (PF := lp64 roomy 0) 0)
    (CO := demo_collaborators gain score)
    None (Some demo_shell) tt 0 0 learningRate 1 1 (Some [2%Z]) None (Some 123%float).


(** The memory at the start of the loop over the inner bags in such a
    call: both tensors reset, the sentinel in the output cell. *)
Definition demo_memory : Memory (tensor := SegmentedTensor float) (world := unit) (rng := unit) :=
  {| pBoosterShell :=
       {| BoosterShell.GetBoosterCore := demo_core;
          BoosterShell.m_iTerm := 0;
          BoosterShell.GetTermUpdate := demo_tensor 0;
          BoosterShell.GetInnerTermUpdate := demo_tensor 0 |};
     the_world := tt;
     pRng := Some tt;
     avgGainOut := Some (PrimFloat.opp double_max) |}.

(** The loop over the inner bags in such a call. *)
Definition demo_bags (gain score : float) :=
  GenerateTermUpdate_bags (PF := lp64 roomy 0)
    (TO := SegmentedTensor_ops (PF := lp64 roomy 0) 0)
    (CO := demo_collaborators gain score)
    1 0 demo_term 0 1 2 1 1 64 0 (Some [2%Z]) 0 2 0 1 1 2 1 0 demo_memory.

(** What follows the loop in such a call. *)
Definition demo_end (gain score learningRate gainAvg : float) :=
  gainAvg ← GenerateTermUpdate_finish
              (TO := SegmentedTensor_ops (PF := lp64 roomy 0) 0)
              (CO := demo_collaborators gain score) 1 1 learningRate gainAvg;
  GenerateTermUpdate_return (CO := demo_collaborators gain score) 0 gainAvg.

(** A tensor without dimensions: one cell of one score. *)
Definition demo_scalar (score : float) : SegmentedTensor float :=
  {| m_cValueCapacity := 2; m_cVectorLength := 1;
     m_cDimensionsMax := 1; m_cDimensions := 0;
     m_aValues := [score; 0]%float; m_bExpanded := false;
     m_aDimensions :=
       [ {| m_cDivisions := 0; m_aDivisions := [0]; m_cDivisionCapacity := 1 |} ] |}.

(** The small booster with another number of scores and of samples. *)
Definition demo_core_with (cScores cSamples : nat) : BoosterCore.t :=
  {| BoosterCore.GetCountTerms := 1;
     BoosterCore.GetTerms := [demo_term];
     BoosterCore.GetCountScores := cScores;
     BoosterCore.GetCountInnerBags := 0;
     BoosterCore.IsHessian := true;
     BoosterCore.GetTrainingSet :=
       {| DataSetBoosting.GetCountSamples := cSamples;
          DataSetBoosting.GetSubsets :=
            DataSetBoosting.GetSubsets (BoosterCore.GetTrainingSet demo_core);
          DataSetBoosting.GetBagWeightTotal := fun _ => 1%float |};
     BoosterCore.GradientConstant := 1;
     BoosterCore.HessianConstant := 1;
     BoosterCore.LearningRateAdjustmentDifferentialPrivacy := 1;
     BoosterCore.LearningRateAdjustmentGradientBoosting := 1;
     BoosterCore.LearningRateAdjustmentHessianBoosting := 1;
     BoosterCore.GainAdjustmentGradientBoosting := 1;
     BoosterCore.GainAdjustmentHessianBoosting := 1 |}.

Definition demo_shell_with (cScores cSamples : nat)
  : BoosterShell.t (SegmentedTensor float) :=
  {| BoosterShell.GetBoosterCore := demo_core_with cScores cSamples;
     BoosterShell.m_iTerm := 7;
     BoosterShell.GetTermUpdate := demo_tensor 5;
     BoosterShell.GetInnerTermUpdate := demo_tensor 6 |}.

(** The collaborators of the small booster, with [std::random_device]
    answering [seed]. *)
Definition demo_collaborators_seed (seed : SeedOutcome)
  : Collaborators (SegmentedTensor float) unit unit :=
  let CO := demo_collaborators 3 4 in
  {| k_illegalGainDouble := k_illegalGainDouble;
     uninitialized_double := uninitialized_double;
     k_illegalTermIndex := 9;
     k_cItemsPerBitPackUndefined := k_cItemsPerBitPackUndefined;
     MONOTONE_NONE := MONOTONE_NONE;
     TermBoostFlags_DisableNewtonGain := TermBoostFlags_DisableNewtonGain;
     TermBoostFlags_DisableNewtonUpdate := TermBoostFlags_DisableNewtonUpdate;
     TermBoostFlags_GradientSums := TermBoostFlags_GradientSums;
     TermBoostFlags_RandomSplits := TermBoostFlags_RandomSplits;
     HESSIAN_PARALLEL_BIN_BYTES_MAX := HESSIAN_PARALLEL_BIN_BYTES_MAX;
     GRADIENT_PARALLEL_BIN_BYTES_MAX := GRADIENT_PARALLEL_BIN_BYTES_MAX;
     MULTISCORE_PARALLEL_BIN_BYTES_MAX := MULTISCORE_PARALLEL_BIN_BYTES_MAX;
     sizeof_UIntBig := sizeof_UIntBig;
     sizeof_UIntSmall := sizeof_UIntSmall;
     sizeof_UIntMain := sizeof_UIntMain;
     sizeof_FloatBig := sizeof_FloatBig;
     sizeof_FloatSmall := sizeof_FloatSmall;
     sizeof_FloatMain := sizeof_FloatMain;
     UIntMain_is_uint64_t := UIntMain_is_uint64_t;
     FloatMain_is_double := FloatMain_is_double;
     GetBinSize := GetBinSize;
     GetCountItemsBitPacked := GetCountItemsBitPacked;
     RandomNondeterministic_Next := fun _ => seed;
     RandomDeterministic_Initialize := RandomDeterministic_Initialize;
     memset_MainBins := memset_MainBins;
     ZeroMem_FastBins := ZeroMem_FastBins;
     ZeroMem_AuxiliaryBins := ZeroMem_AuxiliaryBins;
     BinSumsBoosting := BinSumsBoosting;
     ConvertAddBin := ConvertAddBin;
     TensorTotalsBuild := TensorTotalsBuild;
     MainBin_sumGradients := MainBin_sumGradients;
     MainBin_GetHess := MainBin_GetHess;
     MainBin_GetWeight := MainBin_GetWeight;
     ComputeSinglePartitionUpdate := ComputeSinglePartitionUpdate;
     ComputeSinglePartitionUpdateGradientSum := ComputeSinglePartitionUpdateGradientSum;
     PartitionOneDimensionalBoosting := PartitionOneDimensionalBoosting;
     PartitionTwoDimensionalBoosting := PartitionTwoDimensionalBoosting;
     PartitionRandomBoosting := PartitionRandomBoosting |}.

(** A call on term 0 of such a booster, with [leavesMax = [2]] and an
    output cell. *)
Definition demo_call (seed : SeedOutcome) (cScores cSamples : nat) (indexTerm : Z) :=
  GenerateTermUpdate (PF := lp64 roomy 0) (TO := SegmentedTensor_ops (PF := lp64 roomy 0) 0)
    (CO := demo_collaborators_seed seed)
    None (Some (demo_shell_with cScores cSamples)) tt indexTerm 0 0.5 1 1 (Some [2%Z]) None
    (Some 123%float).

(** ** The cells of [Expand] *)

(** What [Expand] computes, as functions on bins and cells.  None of this
    is code of the header; the properties of [Expand] relate its loops to
    them. *)

(** The segment that holds bin [b]: the number of divisions below [b] (a
    division is the last bin of its segment). *)
Definition segment_of (divs : list nat) (b : nat) : nat :=
  length (filter (fun d => d < b) divs).

(** The flat index of the cell [idx] of a grid with [radix_k] cells along
    dimension [k]; dimension 0 varies fastest. *)
Fixpoint flat (radix idx : list nat) : nat :=
  match radix, idx with
  | r :: radix', i :: idx' => i + r * flat radix' idx'
  | _, _ => 0
  end.

(** A stack entry of [Expand] that belongs to a dimension: the bin cursor
    within the new bins, the division cursor at the segment of that bin,
    and the divisions strictly increasing, within their buffer and below
    the last new bin. *)
Definition expand_valid `{PF : Platform} (e : DimensionInfoStackExpand.t) (d : DimensionInfo)
  : Prop :=
  DimensionInfoStackExpand.m_iDivision2 e <= DimensionInfoStackExpand.m_cNewDivisions e
  /\ DimensionInfoStackExpand.m_pDivision1 e
     = segment_of (divisions d) (DimensionInfoStackExpand.m_iDivision2 e)
  /\ increasing (divisions d)
  /\ Forall (fun x => x < DimensionInfoStackExpand.m_cNewDivisions e) (divisions d)
  /\ m_cDivisions d <= length (m_aDivisions d)
  /\ (N.of_nat (DimensionInfoStackExpand.m_cNewDivisions e) < size_max)%N
  /\ (N.of_nat (m_cDivisions d) < size_max)%N.

(** ** The cells of [Add] *)

(** What [Add] computes, as functions on segments and cells.  None of
    this is code of the header; the properties of [Add] relate its loops
    to them. *)

(** The segment of [divs] that holds segment [j] of a tensor with the
    divisions [divsR]: the segment of its last bin, or the last segment
    when [j] is the last one. *)
Definition segment_at (divs divsR : list nat) (j : nat) : nat :=
  match divsR !! j with
  | Some b => segment_of divs b
  | None => length divs
  end.

(** Along every dimension, the segments of [ds] that hold the segments
    [idx] of [dsR]. *)
Fixpoint segments_at (ds dsR : list DimensionInfo) (idx : list nat) : list nat :=
  match ds, dsR, idx with
  | d :: ds', dR :: dsR', j :: idx' =>
      segment_at (divisions d) (divisions dR) j :: segments_at ds' dsR' idx'
  | _, _, _ => []
  end.

(** The flat index of a cell of a tensor with the dimensions [ds]. *)
Definition cell_of (ds : list DimensionInfo) (idx : list nat) : nat :=
  flat (map (fun d => S (m_cDivisions d)) ds) idx.

(** A stack entry of [Add] at segment [r] of the result: both cursors at
    the segments of the operands that hold it. *)
Definition add_aligned `{PF : Platform} (e : DimensionInfoStack.t) (d1 d2 : DimensionInfo)
    (r : nat) : Prop :=
  r <= length (fmerge (divisions d1) (divisions d2))
  /\ DimensionInfoStack.m_cNewDivisions e = length (fmerge (divisions d1) (divisions d2))
  /\ DimensionInfoStack.m_pDivision1 e
     = segment_at (divisions d1) (fmerge (divisions d1) (divisions d2)) r
  /\ DimensionInfoStack.m_pDivision2 e
     = segment_at (divisions d2) (fmerge (divisions d1) (divisions d2)) r
  /\ increasing (divisions d1) /\ increasing (divisions d2)
  /\ m_cDivisions d1 <= length (m_aDivisions d1)
  /\ m_cDivisions d2 <= length (m_aDivisions d2)
  /\ (N.of_nat (m_cDivisions d1) < size_max)%N
  /\ (N.of_nat (m_cDivisions d2) < size_max)%N.

Inductive add_cursors `{PF : Platform}
  : list DimensionInfoStack.t -> list DimensionInfo -> list DimensionInfo -> list nat -> Prop :=
  | add_cursors_nil : add_cursors [] [] [] []
  | add_cursors_cons e d1 d2 r stack ds1 ds2 rs :
      add_aligned e d1 d2 r -> add_cursors stack ds1 ds2 rs ->
      add_cursors (e :: stack) (d1 :: ds1) (d2 :: ds2) (r :: rs).

(** The segments of the left and of the right operand that hold the
    segments [idx] of the union of their divisions. *)
Definition sources1 (ds1 ds2 : list DimensionInfo) (idx : list nat) : list nat :=
  zip_with (fun (dd : DimensionInfo * DimensionInfo) j =>
    segment_at (divisions dd.1) (fmerge (divisions dd.1) (divisions dd.2)) j)
    (zip ds1 ds2) idx.

Definition sources2 (ds1 ds2 : list DimensionInfo) (idx : list nat) : list nat :=
  zip_with (fun (dd : DimensionInfo * DimensionInfo) j =>
    segment_at (divisions dd.2) (fmerge (divisions dd.1) (divisions dd.2)) j)
    (zip ds1 ds2) idx.

(** * Properties *)

(** ** Doubles *)

Lemma double_neq (x y : float) :
  PrimFloat.eqb x x = true -> PrimFloat.eqb x y = false -> x <> y.
Proof. intros Hx Hxy E. subst y. rewrite Hx in Hxy. discriminate. Qed.

Lemma doubles_differ (i : nat) (x y : float) (l1 l2 : list float) :
  l1 !! i = Some x -> l2 !! i = Some y ->
  PrimFloat.eqb x x = true -> PrimFloat.eqb x y = false -> l1 <> l2.
Proof.
  intros H1 H2 Hx Hxy E. subst l2.
  rewrite H1 in H2. apply (double_neq x y Hx Hxy). congruence.
Qed.

(** ** The scenarios *)

(** C1, as the code has it: expanding scenario C over four bins, when it
    succeeds, gives the divisions [0, 1, 2], the scores [7, 7, 9, 9] (a
    division is the last bin of its segment, so bins 0 and 1 keep the
    first score) and the expanded flag, whatever the allocator and the
    content of fresh cells. *)
Theorem Expand_scenario_C (grants : nat -> bool) (fd : nat) (fs : float)
    (t' : SegmentedTensor float) :
  Expand (PF := lp64 grants fd) (SC := double_scores fs) [4] scenario_C
    = Some (false, t') ->
  map divisions (active t') = [[0; 1; 2]]
  /\ scores t' = [7; 7; 9; 9]%float
  /\ m_bExpanded t' = true.
Proof.
  intros H.
  destruct (grants 48) eqn:E1; destruct (grants 32) eqn:E2;
    cbv in H; rewrite ?E1, ?E2 in H; cbv in H; rewrite ?E1, ?E2 in H;
    try discriminate.
  injection H as <-. repeat split.
Qed.

Lemma Expand_scenario_C_witness :
  exists t',
    Expand (PF := lp64 roomy 0) (SC := double_scores 0) [4] scenario_C = Some (false, t')
    /\ map divisions (active t') = [[0; 1; 2]]
    /\ scores t' = [7; 7; 9; 9]%float
    /\ m_bExpanded t' = true.
Proof.
  eexists. split; [vm_compute; reflexivity |].
  apply (Expand_scenario_C roomy 0 0%float). vm_compute. reflexivity.
Defined.

(** The expansion of scenario C succeeds and its scores are not
    [7, 9, 9, 9]. *)
Lemma Expand_scenario_C_not_as_stated :
  exists t',
    Expand (PF := lp64 roomy 0) (SC := double_scores 0) [4] scenario_C = Some (false, t')
    /\ scores t' <> [7; 9; 9; 9]%float.
Proof.
  eexists. split; [vm_compute; reflexivity |].
  apply (doubles_differ 1 7 9); reflexivity.
Qed.

(** C2, as the code has it: adding [B] to [A] in scenario D, when it
    succeeds, gives [divs0 = [1]], [divs1 = [3]] and the scores
    [11, 12, 21, 22]: dimension 0 is the one that varies fastest. *)
Theorem Add_scenario_D (grants : nat -> bool) (fd : nat) (fs : float)
    (t' : SegmentedTensor float) :
  Add (PF := lp64 grants fd) (SC := double_scores fs) scenario_D_A scenario_D_B
    = Some (false, t') ->
  map divisions (active t') = [[1]; [3]]
  /\ scores t' = [11; 12; 21; 22]%float.
Proof.
  intros H.
  destruct (grants 48) eqn:E1;
    cbv in H; rewrite ?E1 in H; cbv in H; rewrite ?E1 in H;
    try discriminate.
  injection H as <-. repeat split.
Qed.

Lemma Add_scenario_D_witness :
  exists t',
    Add (PF := lp64 roomy 0) (SC := double_scores 0) scenario_D_A scenario_D_B
      = Some (false, t')
    /\ map divisions (active t') = [[1]; [3]]
    /\ scores t' = [11; 12; 21; 22]%float.
Proof.
  eexists. split; [vm_compute; reflexivity |].
  apply (Add_scenario_D roomy 0 0%float). vm_compute. reflexivity.
Defined.

(** The sum of scenario D succeeds and its scores are not
    [11, 21, 12, 22]. *)
Lemma Add_scenario_D_not_as_stated :
  exists t',
    Add (PF := lp64 roomy 0) (SC := double_scores 0) scenario_D_A scenario_D_B
      = Some (false, t')
    /\ scores t' <> [11; 21; 12; 22]%float.
Proof.
  eexists. split; [vm_compute; reflexivity |].
  apply (doubles_differ 1 12 21); reflexivity.
Qed.

(** ** The tensor operations *)

Section TensorProperties.
Context `{PF : Platform} {T : Type} `{SC : Scores T}.

Lemma wrap_small (n : N) : (n <= size_max)%N -> wrap n = N.to_nat n.
Proof. intros H. unfold wrap. rewrite N.mod_small; [done | lia]. Qed.

Lemma size_add_small (a b : nat) :
  (N.of_nat (a + b) <= size_max)%N -> size_add a b = a + b.
Proof. intros H. unfold size_add. rewrite wrap_small; lia. Qed.

Lemma size_mul_small (a b : nat) :
  (N.of_nat (a * b) <= size_max)%N -> size_mul a b = a * b.
Proof. intros H. unfold size_mul. rewrite wrap_small; lia. Qed.

Lemma IsMultiplyError_false (a b : nat) :
  IsMultiplyError a b = false <-> (N.of_nat (a * b) <= size_max)%N.
Proof. unfold IsMultiplyError. rewrite N.ltb_ge. lia. Qed.

Lemma IsAddError_false (a b : nat) :
  IsAddError a b = false <-> (N.of_nat (a + b) <= size_max)%N.
Proof. unfold IsAddError. rewrite N.ltb_ge. lia. Qed.

Lemma segments_pos (ds : list DimensionInfo) : 1 <= segments ds.
Proof. induction ds as [|d ds IH]; simpl; [lia | nia]. Qed.

Lemma IsEqual_divisions_same (fuel : nat) (a1 a2 : list nat) (p e : nat) :
  1 <= fuel -> p + fuel = e ->
  (forall j, p <= j < e -> is_Some (a1 !! j) /\ a1 !! j = a2 !! j) ->
  IsEqual_divisions fuel a1 a2 p p e = Some true.
Proof.
  revert p. induction fuel as [|fuel IH]; intros p Hf He Hj; [lia |].
  cbn [IsEqual_divisions]. unfold load.
  destruct (Hj p) as [[x Hx] Hx2]; [lia |].
  rewrite <- Hx2, Hx. cbn.
  rewrite bool_decide_eq_false_2 by (intros K; apply K; done).
  case_bool_decide as Hend; [| done].
  apply IH; [lia | lia |]. intros j ?. apply Hj. lia.
Qed.

Lemma IsEqual_values_same (fuel : nat) (a1 a2 : list T) (p e : nat) :
  1 <= fuel -> p + fuel = e ->
  (forall j, p <= j < e ->
     exists x y, a1 !! j = Some x /\ a2 !! j = Some y /\ score_neq x y = false) ->
  IsEqual_values fuel a1 a2 p p e = Some true.
Proof.
  revert p. induction fuel as [|fuel IH]; intros p Hf He Hj; [lia |].
  cbn [IsEqual_values]. unfold load.
  destruct (Hj p) as (x & y & Hx & Hy & Hxy); [lia |].
  rewrite Hx, Hy. cbn. rewrite Hxy.
  case_bool_decide as Hend; [| done].
  apply IH; [lia | lia |]. intros j ?. apply Hj. lia.
Qed.

Lemma take_eq_lookup {A} (k : nat) (a1 a2 : list A) :
  k <= length a1 -> take k a1 = take k a2 ->
  forall j, j < k -> is_Some (a1 !! j) /\ a1 !! j = a2 !! j.
Proof.
  intros Hk E j Hj. split.
  - apply lookup_lt_is_Some. lia.
  - rewrite <- (lookup_take_lt a1 k j), <- (lookup_take_lt a2 k j) by lia. by rewrite E.
Qed.

Lemma IsEqual_dimensions_same (todo i : nat) (ds1 ds2 : list DimensionInfo) (c : nat) :
  length (take todo (drop i ds1)) = todo ->
  Forall2 same_dimension (take todo (drop i ds1)) (take todo (drop i ds2)) ->
  (N.of_nat (c * segments (take todo (drop i ds1))) <= size_max)%N ->
  1 <= c ->
  IsEqual_dimensions todo i ds1 ds2 c
  = Some (Some (c * segments (take todo (drop i ds1)))).
Proof.
  revert i c. induction todo as [|todo IH]; intros i c Hlen Hsame Hbound Hc.
  - rewrite take_0. cbn. do 2 f_equal. lia.
  - destruct (drop i ds1) as [|d1 r1] eqn:E1; [done |].
    destruct (drop i ds2) as [|d2 r2] eqn:E2; [by inversion Hsame |].
    assert (ds1 !! i = Some d1) as L1.
    { rewrite <- (Nat.add_0_r i), <- lookup_drop, E1. done. }
    assert (ds2 !! i = Some d2) as L2.
    { rewrite <- (Nat.add_0_r i), <- lookup_drop, E2. done. }
    assert (drop (i + 1) ds1 = r1) as R1.
    { rewrite Nat.add_1_r. erewrite drop_S in E1 by done. congruence. }
    assert (drop (i + 1) ds2 = r2) as R2.
    { rewrite Nat.add_1_r. erewrite drop_S in E2 by done. congruence. }
    rewrite !firstn_cons in *. cbn [length] in Hlen.
    apply Forall2_cons_1 in Hsame as [(Hk & Hk1 & Hk2 & Hdiv) Hsame].
    cbn [IsEqual_dimensions]. unfold load. rewrite L1, L2. cbn [mbind option_bind].
    rewrite bool_decide_eq_false_2 by (intros K; apply K; done).
    cbn [segments foldr] in Hbound |- *. fold (segments (take todo r1)) in Hbound |- *.
    pose proof (segments_pos (take todo r1)) as Hpos.
    case_bool_decide as Hz.
    + assert (N.of_nat (c * (m_cDivisions d1 + 1)) <= size_max)%N as Hb by nia.
      assert (N.of_nat (m_cDivisions d1 + 1) <= size_max)%N as Hb1 by nia.
      rewrite size_add_small by done.
      rewrite (proj2 (IsMultiplyError_false _ _) Hb). cbn [negb assert mbind option_bind].
      rewrite IsEqual_divisions_same; [| lia | lia |]; cycle 1.
      { intros j Hj. apply (take_eq_lookup (m_cDivisions d1)); [done | | lia].
        unfold divisions in Hdiv. by rewrite Hk at 2. }
      cbn [mbind option_bind].
      rewrite IH; rewrite ?R1, ?R2; [| lia | done | | lia].
      * do 2 f_equal. lia.
      * rewrite <- Nat.mul_assoc. done.
    + assert (m_cDivisions d1 = 0) as Hz0 by lia.
      rewrite Hz0, Nat.mul_1_l in Hbound. rewrite Hz0, Nat.mul_1_l.
      rewrite IH; rewrite ?R1, ?R2; [done | lia | done | done | lia].
Qed.


Lemma IsEqual_same (this rhs : SegmentedTensor T) :
  m_cDimensions this = m_cDimensions rhs ->
  length (active this) = m_cDimensions this ->
  Forall2 same_dimension (active this) (active rhs) ->
  1 <= m_cVectorLength this ->
  (N.of_nat (m_cVectorLength this * segments (active this)) <= size_max)%N ->
  length (scores this) = m_cVectorLength this * segments (active this) ->
  Forall2 (fun x y => score_neq x y = false) (scores this)
          (take (m_cVectorLength this * segments (active this)) (m_aValues rhs)) ->
  IsEqual this rhs = Some true.
Proof.
  intros HD Hlen Hsame HL Hbound Hn Hscores. unfold IsEqual.
  rewrite bool_decide_eq_false_2 by (intros K; apply K; done).
  unfold active in *. rewrite <- HD in Hsame.
  rewrite (IsEqual_dimensions_same _ 0); rewrite ?drop_0; try done.
  cbn [mbind option_bind].
  pose proof (segments_pos (take (m_cDimensions this) (m_aDimensions this))) as Hpos.
  apply IsEqual_values_same; [nia | lia |].
  intros j [_ Hj].
  unfold scores, active in Hn, Hscores.
  set (n := m_cVectorLength this * _) in *.
  destruct (lookup_lt_is_Some_2 (take n (m_aValues this)) j) as [x Hx]; [lia |].
  destruct (Forall2_lookup_l _ _ _ _ _ Hscores Hx) as (y & Hy & Hxy).
  exists x, y. rewrite lookup_take_lt in Hx, Hy by done. done.
Qed.

Lemma load_Some {A} (buf : list A) p x : load buf p = Some x <-> buf !! p = Some x.
Proof. done. Qed.

Lemma store_Some {A} (buf : list A) p x buf' :
  store buf p x = Some buf' <-> p < length buf /\ buf' = <[p:=x]> buf.
Proof. unfold store. case_decide; split; intros; destruct_and?; simplify_eq; auto; lia. Qed.

Lemma Reset_dimensions_Some (todo i : nat) (ds ds' : list DimensionInfo) :
  Reset_dimensions todo i ds = Some ds' ->
  length ds' = length ds
  /\ (todo = 0 \/ i + todo <= length ds)
  /\ forall j, ds' !! j =
       if bool_decide (i <= j < i + todo) then set_cDivisions 0 <$> ds !! j else ds !! j.
Proof.
  revert i ds. induction todo as [|todo IH]; intros i ds H.
  - cbn in H. injection H as <-. split; [done |]. split; [by left |].
    intros j. rewrite bool_decide_eq_false_2 by lia. done.
  - cbn [Reset_dimensions] in H.
    destruct (load ds i) as [d|] eqn:Hd; [| done]. cbn [mbind option_bind] in H.
    destruct (store ds i _) as [ds1|] eqn:Hst; [| done]. cbn [mbind option_bind] in H.
    apply store_Some in Hst as [Hlt ->].
    apply IH in H as (Hlen & Hin & Hlk). rewrite length_insert in Hlen, Hin.
    split; [done |]. split; [right; lia |].
    intros j. rewrite Hlk.
    destruct (decide (j = i)) as [-> | Hne].
    + rewrite bool_decide_eq_false_2 by lia. rewrite bool_decide_eq_true_2 by lia.
      rewrite list_lookup_insert_eq by done. unfold load in Hd. by rewrite Hd.
    + rewrite list_lookup_insert_ne by done.
      repeat case_bool_decide; try done; lia.
Qed.

Lemma Allocate_dimensions_Some (n : nat) (ds : list DimensionInfo) :
  Allocate_dimensions n = Some ds ->
  ds = replicate n {| m_cDivisions := 0;
                      m_aDivisions := replicate 1 division_indeterminate;
                      m_cDivisionCapacity := 1 |}.
Proof.
  revert ds. induction n as [|n IH]; intros ds H; cbn [Allocate_dimensions] in H.
  - by injection H as <-.
  - destruct (heap_grants _); [| done].
    destruct (Allocate_dimensions n) as [ds0|]; [| done].
    cbn in H. injection H as <-. cbn. f_equal. by apply IH.
Qed.

Lemma segments_zero (ds : list DimensionInfo) :
  Forall (fun d => m_cDivisions d = 0) ds -> segments ds = 1.
Proof. induction 1 as [|d ds Hd _ IH]; cbn; [done |]. fold (segments ds). rewrite Hd, IH. done. Qed.

Lemma assert_Some b : assert b = Some tt <-> b = true.
Proof. destruct b; simpl; split; congruence. Qed.

(** C5: a tensor whose active dimension count is [Dmax], once [Reset],
    compares equal to what [Allocate] returns for the same [Dmax] and [L]:
    in both every active division count is 0 and the first [L] scores are
    zero.  (Zero must not differ from itself under [!=], as is the case
    for a double.) *)
Theorem Reset_compares_equal_to_fresh (t r a : SegmentedTensor T) :
  m_cDimensions t = m_cDimensionsMax t ->
  Reset t = Some r ->
  Allocate (m_cDimensionsMax t) (m_cVectorLength t) = Some (Some a) ->
  score_neq score_zero score_zero = false ->
  IsEqual r a = Some true
  /\ Forall (fun d => m_cDivisions d = 0) (active r)
  /\ Forall (fun d => m_cDivisions d = 0) (active a)
  /\ take (m_cVectorLength t) (m_aValues r) = replicate (m_cVectorLength t) score_zero
  /\ take (m_cVectorLength t) (m_aValues a) = replicate (m_cVectorLength t) score_zero.
Proof.
  intros HD Hr Ha Hz.
  unfold Reset in Hr.
  destruct (Reset_dimensions _ _ _) as [ds|] eqn:Hds; [| done]. cbn [mbind option_bind] in Hr.
  unfold memset_zero in Hr. case_decide as HL; [| done]. cbn in Hr. injection Hr as <-.
  apply Reset_dimensions_Some in Hds as (Hlen & Hin & Hlk).
  unfold Allocate in Ha.
  destruct (assert (bool_decide (m_cDimensionsMax t <= k_cDimensionsMax))); [| done].
  cbn [mbind option_bind] in Ha.
  destruct (assert (bool_decide (1 <= m_cVectorLength t))) as [[]|] eqn:HL1; [| done].
  cbn [mbind option_bind] in Ha. apply assert_Some, bool_decide_eq_true in HL1.
  destruct (IsMultiplyError (m_cVectorLength t) 2) eqn:Hov; [done |].
  destruct (IsMultiplyError sizeof_TValues _); [done |].
  destruct (negb (heap_grants _)); [done |].
  destruct (negb (heap_grants _)); [done |].
  destruct (Allocate_dimensions _) as [dsa|] eqn:Hdsa; [| done].
  injection Ha as <-. apply Allocate_dimensions_Some in Hdsa. subst dsa.
  set (L := m_cVectorLength t) in *. set (D := m_cDimensions t) in *.
  assert (Forall (fun d => m_cDivisions d = 0) (take D ds)) as Zr.
  { apply Forall_forall. intros d Hd. apply list_elem_of_lookup in Hd as [j Hj].
    pose proof (lookup_lt_Some _ _ _ Hj) as Hjl. rewrite length_take in Hjl.
    rewrite lookup_take_lt in Hj by lia. rewrite Hlk in Hj.
    rewrite bool_decide_eq_true_2 in Hj by lia.
    destruct (m_aDimensions t !! j); simplify_eq/=. done. }
  assert (Forall (fun d => m_cDivisions d = 0)
            (take (m_cDimensionsMax t)
               (replicate (m_cDimensionsMax t)
                  {| m_cDivisions := 0;
                     m_aDivisions := replicate 1 division_indeterminate;
                     m_cDivisionCapacity := 1 |}))) as Za.
  { apply Forall_take, Forall_replicate. done. }
  assert (length (take D ds) = D) as HlenD.
  { rewrite length_take. destruct Hin as [Hin | Hin]; lia. }
  split; [| split; [| split; [| split ] ] ].
  - apply IsEqual_same; unfold scores, active;
      cbn [m_cDimensions m_aDimensions m_cVectorLength m_aValues]; fold L; fold D.
    + done.
    + done.
    + apply Forall2_same_length_lookup. split.
      * rewrite HlenD, length_take, length_replicate. lia.
      * intros j d1 d2 H1 H2.
        rewrite Forall_forall in Zr, Za.
        assert (m_cDivisions d1 = 0) as K1 by (apply Zr; eapply list_elem_of_lookup_2; done).
        assert (m_cDivisions d2 = 0) as K2 by (apply Za; eapply list_elem_of_lookup_2; done).
        unfold same_dimension, divisions. rewrite K1, K2. rewrite !take_0.
        repeat split; lia.
    + done.
    + rewrite (segments_zero _ Zr). apply IsMultiplyError_false in Hov. lia.
    + rewrite (segments_zero _ Zr). rewrite length_take, length_app, length_replicate. lia.
    + rewrite (segments_zero _ Zr), Nat.mul_1_r.
      rewrite !take_app_length' by (by rewrite length_replicate).
      apply Forall2_same_length_lookup. split; [done |].
      intros j x y Hx Hy. apply lookup_replicate in Hx as [-> _].
      apply lookup_replicate in Hy as [-> _]. done.
  - done.
  - done.
  - cbn [m_aValues]. rewrite take_app_length' by (by rewrite length_replicate). done.
  - cbn [m_aValues]. rewrite take_app_length' by (by rewrite length_replicate). done.
Qed.


Lemma IsEqual_divisions_true (fuel : nat) (a1 a2 : list nat) (p e : nat) :
  IsEqual_divisions fuel a1 a2 p p e = Some true ->
  p < e /\ e <= p + fuel
  /\ forall j, p <= j < e -> is_Some (a1 !! j) /\ a1 !! j = a2 !! j.
Proof.
  revert p. induction fuel as [|fuel IH]; intros p H; [done |].
  cbn [IsEqual_divisions] in H. unfold load in H.
  destruct (a1 !! p) as [x|] eqn:Hx; [| done].
  destruct (a2 !! p) as [y|] eqn:Hy; [| done]. cbn [mbind option_bind] in H.
  case_bool_decide as Hxy; [done |].
  assert (x = y) as -> by (destruct (decide (x = y)); [done | by destruct Hxy]).
  case_bool_decide as Hend.
  - apply IH in H as (H1 & H2 & H3). split; [lia |]. split; [lia |].
    intros j Hj. destruct (decide (j = p)) as [-> | ?].
    + rewrite Hx, Hy. eauto.
    + apply H3. lia.
  - split; [lia |]. split; [lia |]. intros j Hj.
    assert (j = p) as -> by lia. rewrite Hx, Hy. eauto.
Qed.

Lemma IsEqual_values_true (fuel : nat) (a1 a2 : list T) (p e : nat) :
  IsEqual_values fuel a1 a2 p p e = Some true ->
  p < e /\ e <= p + fuel
  /\ forall j, p <= j < e ->
       exists x y, a1 !! j = Some x /\ a2 !! j = Some y /\ score_neq x y = false.
Proof.
  revert p. induction fuel as [|fuel IH]; intros p H; [done |].
  cbn [IsEqual_values] in H. unfold load in H.
  destruct (a1 !! p) as [x|] eqn:Hx; [| done].
  destruct (a2 !! p) as [y|] eqn:Hy; [| done]. cbn [mbind option_bind] in H.
  destruct (score_neq x y) eqn:Hxy; [done |].
  case_bool_decide as Hend.
  - apply IH in H as (H1 & H2 & H3). split; [lia |]. split; [lia |].
    intros j Hj. destruct (decide (j = p)) as [-> | ?].
    + eauto.
    + apply H3. lia.
  - split; [lia |]. split; [lia |]. intros j Hj.
    assert (j = p) as -> by lia. eauto.
Qed.

Lemma well_formed_dimension_succ (d : DimensionInfo) :
  well_formed_dimension d -> 1 <= m_cDivisions d ->
  (N.of_nat (m_cDivisions d + 1) <= size_max)%N.
Proof.
  intros (Hk & _ & Hb) H1. pose proof sizeof_TDivisions_wide. nia.
Qed.

Lemma IsEqual_dimensions_true (todo i : nat) (ds1 ds2 : list DimensionInfo) (c c' : nat) :
  Forall well_formed_dimension (take todo (drop i ds1)) ->
  IsEqual_dimensions todo i ds1 ds2 c = Some (Some c') ->
  length (take todo (drop i ds1)) = todo
  /\ Forall2 same_dimension (take todo (drop i ds1)) (take todo (drop i ds2))
  /\ c' = c * segments (take todo (drop i ds1)).
Proof.
  revert i c. induction todo as [|todo IH]; intros i c Hwf H.
  - cbn in H. injection H as <-. rewrite !take_0. cbn. split; [done |].
    split; [constructor | lia].
  - cbn [IsEqual_dimensions] in H. unfold load in H.
    destruct (ds1 !! i) as [d1|] eqn:L1; [| done].
    destruct (ds2 !! i) as [d2|] eqn:L2; [| done]. cbn [mbind option_bind] in H.
    rewrite (drop_S _ _ _ L1) in Hwf |- *. rewrite (drop_S _ _ _ L2).
    rewrite !firstn_cons in *. apply Forall_cons_1 in Hwf as [Hwf1 Hwf].
    cbn [length segments foldr]. fold (segments (take todo (drop (S i) ds1))).
    case_bool_decide as Hk; [done |].
    assert (m_cDivisions d1 = m_cDivisions d2) as Hk'
      by (destruct (decide (m_cDivisions d1 = m_cDivisions d2)); [done | by destruct Hk]).
    rewrite Nat.add_1_r in H.
    case_bool_decide as Hz.
    + rewrite size_add_small in H by (apply well_formed_dimension_succ; [done | lia]).
      destruct (assert _); [| done]. cbn [mbind option_bind] in H.
      destruct (IsEqual_divisions _ _ _ _ _ _) as [[]|] eqn:Hdiv; cbn [mbind option_bind] in H;
        [| done | done].
      apply IsEqual_divisions_true in Hdiv as (_ & _ & Hdiv).
      apply IH in H as (H1 & H2 & H3); [| done].
      split; [lia |]. split; [| lia].
      constructor; [| done]. unfold same_dimension.
      assert (m_cDivisions d1 <= length (m_aDivisions d1)) as B1 by apply Hwf1.
      assert (m_cDivisions d2 <= length (m_aDivisions d2)) as B2.
      { rewrite <- Hk'. destruct (m_cDivisions d1) as [|k] eqn:E; [lia |].
        destruct (Hdiv k) as [[x Hx] Hx2]; [lia |]. rewrite Hx in Hx2.
        symmetry in Hx2. apply lookup_lt_Some in Hx2. lia. }
      repeat split; try done.
      unfold divisions. rewrite <- Hk'. apply list_eq. intros j.
      destruct (decide (j < m_cDivisions d1)).
      * rewrite !lookup_take_lt by done. apply Hdiv. lia.
      * rewrite !lookup_take_ge by lia. done.
    + assert (m_cDivisions d1 = 0) as Hz0 by lia.
      apply IH in H as (H1 & H2 & H3); [| done].
      split; [lia |]. split; [| rewrite Hz0; lia].
      constructor; [| done]. unfold same_dimension, divisions.
      rewrite <- Hk', Hz0, !take_0. repeat split; lia.
Qed.

(** C9: on a well-formed tensor, [IsEqual] answers [true] exactly when the
    two tensors agree on the dimension count, the division counts and
    sequences, and the meaningful scores.  Nothing else is read: not the
    expanded flags, not the capacities, not the cells beyond the counts. *)
Theorem IsEqual_compares_content (this rhs : SegmentedTensor T) :
  well_formed this ->
  IsEqual this rhs = Some true <-> agree this rhs.
Proof.
  intros [HL HD Hdiv Hcap Hval Hbytes]. split.
  - unfold IsEqual. case_bool_decide as HDD; [done |].
    assert (m_cDimensions this = m_cDimensions rhs) as HDeq
      by (destruct (decide (m_cDimensions this = m_cDimensions rhs)); [done | by destruct HDD]).
    destruct (IsEqual_dimensions _ _ _ _ _) as [[c|]|] eqn:Hdims; cbn [mbind option_bind];
      [| done | done].
    intros Hv.
    apply IsEqual_dimensions_true in Hdims as (H1 & H2 & ->); [| by rewrite drop_0].
    rewrite drop_0 in *.
    apply IsEqual_values_true in Hv as (_ & _ & Hv).
    unfold agree, active, scores. rewrite <- HDeq. split; [done |]. split; [done |].
    unfold active in Hval.
    set (n := m_cVectorLength this * _) in *.
    apply Forall2_same_length_lookup. split.
    + rewrite !length_take.
      destruct n as [|n']; [lia |].
      destruct (Hv n') as (x & y & Hx & Hy & _); [lia |].
      apply lookup_lt_Some in Hx, Hy. lia.
    + intros j x y Hx Hy.
      pose proof (lookup_lt_Some _ _ _ Hx) as Hj. rewrite length_take in Hj.
      rewrite lookup_take_lt in Hx, Hy by lia.
      destruct (Hv j) as (x' & y' & Hx' & Hy' & Hxy); [lia |]. congruence.
  - intros (HDeq & Hsame & Hscores).
    pose proof sizeof_TValues_pos.
    apply IsEqual_same; try done.
    + unfold active. rewrite length_take. lia.
    + nia.
    + unfold scores. rewrite length_take. lia.
Qed.



Lemma realloc_lookup {A} (fresh : A) buf n j x :
  j < n -> buf !! j = Some x -> realloc fresh buf n !! j = Some x.
Proof.
  intros Hj Hx. unfold realloc.
  rewrite lookup_app_l.
  - by rewrite lookup_take_lt.
  - rewrite length_take. apply lookup_lt_Some in Hx. lia.
Qed.

(** C6: [SetCountDivisions (i, K)] on dimension [i], which holds [d].
    - Where it may be called (the index within the dimensions, and a
      tensor that is not expanded or a [K] within both the count and the
      capacity), the call returns.
    - When [K] exceeds the capacity of a tensor that is not expanded and
      [K + K/2] or its size in bytes overflows, or the allocator refuses
      the request, the call returns [true].
    - Whenever it returns [true] the tensor is unchanged.
    - When it returns [false] only dimension [i] has changed, and it
      records [K].  If [K] exceeded the capacity, the buffer is one of
      [K + K/2] cells and [K + K/2] is the recorded capacity; otherwise
      buffer and capacity are the old ones.  Every cell of the old buffer
      keeps its content. *)
Theorem SetCountDivisions_grows (t : SegmentedTensor T) (iDimension cDivisions : nat)
    (d : DimensionInfo) :
  m_aDimensions t !! iDimension = Some d ->
  (iDimension < m_cDimensions t ->
   m_bExpanded t = false
   \/ (cDivisions <= m_cDivisions d /\ cDivisions <= m_cDivisionCapacity d) ->
   exists bad t', SetCountDivisions iDimension cDivisions t = Some (bad, t'))
  /\ (iDimension < m_cDimensions t -> m_bExpanded t = false ->
      m_cDivisionCapacity d < cDivisions ->
      IsAddError cDivisions (cDivisions / 2)
      || IsMultiplyError sizeof_TDivisions (cDivisions + cDivisions / 2)
      || negb (heap_grants (sizeof_TDivisions * (cDivisions + cDivisions / 2))) = true ->
      SetCountDivisions iDimension cDivisions t = Some (true, t))
  /\ (forall t', SetCountDivisions iDimension cDivisions t = Some (true, t') -> t' = t)
  /\ (forall t', SetCountDivisions iDimension cDivisions t = Some (false, t') ->
      exists d',
        t' = with_dimensions (<[iDimension := d']> (m_aDimensions t)) t
        /\ m_aDimensions t' !! iDimension = Some d'
        /\ m_cDivisions d' = cDivisions
        /\ (m_cDivisionCapacity d < cDivisions ->
            m_cDivisionCapacity d' = cDivisions + cDivisions / 2
            /\ length (m_aDivisions d') = cDivisions + cDivisions / 2)
        /\ (cDivisions <= m_cDivisionCapacity d ->
            m_cDivisionCapacity d' = m_cDivisionCapacity d
            /\ m_aDivisions d' = m_aDivisions d)
        /\ (forall j x, j < m_cDivisionCapacity d ->
            m_aDivisions d !! j = Some x -> m_aDivisions d' !! j = Some x)).
Proof.
  intros Hd. pose proof (lookup_lt_Some _ _ _ Hd) as Hlt.
  unfold SetCountDivisions, load. rewrite Hd.
  split; [| split; [| split]].
  - intros Hi Hpre. rewrite (bool_decide_eq_true_2 _ Hi). cbn -[Nat.div].
    unfold store. destruct (decide (iDimension < length (m_aDimensions t))); [| lia].
    destruct Hpre as [Hexp | [HK Hcap]].
    + rewrite Hexp. cbn -[Nat.div]. case_bool_decide.
      * destruct (IsAddError _ _); [by eauto |].
        destruct (IsMultiplyError _ _); [by eauto |].
        destruct (heap_grants _); cbn -[Nat.div]; by eauto.
      * cbn. by eauto.
    + rewrite (bool_decide_eq_true_2 _ HK), orb_true_r. cbn -[Nat.div].
      rewrite bool_decide_eq_false_2 by lia. cbn. by eauto.
  - intros Hi Hexp Hcap Hov. rewrite (bool_decide_eq_true_2 _ Hi), Hexp.
    cbn -[Nat.div]. rewrite (bool_decide_eq_true_2 _ Hcap). cbn -[Nat.div].
    destruct (IsAddError _ _); [done |].
    destruct (IsMultiplyError _ _); [done |]. cbn -[Nat.div] in Hov. by rewrite Hov.
  - intros t'. destruct (assert (bool_decide _)); [| done]. cbn -[Nat.div].
    destruct (assert (_ || _)); [| done]. cbn -[Nat.div]. case_bool_decide.
    + destruct (assert _); [| done]. cbn -[Nat.div].
      destruct (IsAddError _ _); [congruence |].
      destruct (IsMultiplyError _ _); [congruence |].
      destruct (heap_grants _); cbn -[Nat.div]; [| congruence].
      destruct (store _ _ _); cbn; congruence.
    + destruct (store _ _ _); cbn; congruence.
  - intros t'. destruct (assert (bool_decide _)); [| done]. cbn -[Nat.div].
    destruct (assert (_ || _)); [| done]. cbn -[Nat.div]. case_bool_decide as Hcap.
    + destruct (assert _); [| done]. cbn -[Nat.div].
      destruct (IsAddError _ _); [congruence |].
      destruct (IsMultiplyError _ _); [congruence |].
      destruct (heap_grants _); cbn -[Nat.div]; [| congruence].
      destruct (store _ _ _) as [ds|] eqn:Hst; cbn -[Nat.div]; [| congruence].
      intros [= <-]. apply store_Some in Hst as [_ ->].
      eexists. split; [reflexivity |].
      split; [apply list_lookup_insert_eq; done |]. cbn -[Nat.div].
      split; [done |]. split.
      { intros _. split; [done |]. unfold realloc.
        rewrite length_app, length_take, length_replicate. lia. }
      split; [lia |].
      intros j x Hj Hx. apply realloc_lookup; [lia | done].
    + destruct (store _ _ _) as [ds|] eqn:Hst; cbn; [| congruence].
      intros [= <-]. apply store_Some in Hst as [_ ->].
      eexists. split; [reflexivity |].
      split; [apply list_lookup_insert_eq; done |]. cbn.
      split; [done |]. split; [lia |]. split; done.
Qed.

End TensorProperties.

Lemma scenario_C_well_formed (grants : nat -> bool) (fd : nat) :
  well_formed (PF := lp64 grants fd) scenario_C.
Proof.
  split.
  - vm_compute; lia.
  - vm_compute; lia.
  - constructor; [| constructor]. split; [| split].
    + vm_compute; lia.
    + reflexivity.
    + vm_compute. reflexivity.
  - reflexivity.
  - vm_compute; lia.
  - vm_compute. discriminate.
Qed.

Lemma Reset_compares_equal_to_fresh_witness :
  exists r a,
    Reset (SC := double_scores 0) scenario_C = Some r
    /\ Allocate (PF := lp64 roomy 0) (SC := double_scores 0) 1 1 = Some (Some a)
    /\ IsEqual (PF := lp64 roomy 0) (SC := double_scores 0) r a = Some true.
Proof.
  eexists _, _. split; [vm_compute; reflexivity |]. split; [vm_compute; reflexivity |].
  apply (Reset_compares_equal_to_fresh (PF := lp64 roomy 0) (SC := double_scores 0)
           scenario_C); reflexivity.
Defined.

Lemma IsEqual_compares_content_witness :
  IsEqual (PF := lp64 roomy 0) (SC := double_scores 0) scenario_C scenario_C_roomy
    = Some true
  /\ m_bExpanded scenario_C <> m_bExpanded scenario_C_roomy
  /\ m_cValueCapacity scenario_C <> m_cValueCapacity scenario_C_roomy.
Proof.
  split; [| split; discriminate].
  apply (IsEqual_compares_content (PF := lp64 roomy 0) (SC := double_scores 0)
           scenario_C scenario_C_roomy (scenario_C_well_formed roomy 0)).
  split; [reflexivity |]. split.
  - repeat constructor.
  - repeat constructor.
Defined.

Lemma SetCountDivisions_grows_witness :
  exists t' d',
    SetCountDivisions (PF := lp64 roomy 0) 0 3 scenario_C = Some (false, t')
    /\ m_aDimensions t' !! 0 = Some d'
    /\ m_cDivisions d' = 3
    /\ m_cDivisionCapacity d' = 4
    /\ length (m_aDivisions d') = 4
    /\ m_aDivisions d' !! 0 = Some 1.
Proof.
  destruct (SetCountDivisions_grows (PF := lp64 roomy 0) scenario_C 0 3
              {| m_cDivisions := 1; m_aDivisions := [1]; m_cDivisionCapacity := 1 |}
              eq_refl)
    as (_ & _ & _ & H).
  destruct (SetCountDivisions (PF := lp64 roomy 0) 0 3 scenario_C) as [[[] t']|] eqn:E;
    [discriminate E | | discriminate E].
  destruct (H t' eq_refl) as (d' & _ & H1 & H2 & H3 & _ & H5).
  destruct H3 as [H3 H4]; [vm_compute; lia |].
  exists t', d'. split; [reflexivity |]. split; [exact H1 |]. split; [exact H2 |].
  split; [exact H3 |]. split; [exact H4 |]. apply H5; [vm_compute; lia | reflexivity].
Defined.

(** ** Merging division sequences *)

Lemma rmerge_nil_l (l : list nat) : rmerge [] l = l.
Proof. by destruct l. Qed.

Lemma rmerge_nil_r (l : list nat) : rmerge l [] = l.
Proof. by destruct l. Qed.

Lemma rmerge_cons (d1 d2 : nat) (l1 l2 : list nat) :
  rmerge (d1 :: l1) (d2 :: l2)
  = if bool_decide (d2 <= d1) then
      if bool_decide (d1 <= d2) then d2 :: rmerge l1 l2
      else d1 :: rmerge l1 (d2 :: l2)
    else d2 :: rmerge (d1 :: l1) l2.
Proof. reflexivity. Qed.

Lemma fmerge_nil_l (l : list nat) : fmerge [] l = l.
Proof. by destruct l. Qed.

Lemma fmerge_nil_r (l : list nat) : fmerge l [] = l.
Proof. by destruct l. Qed.

Lemma fmerge_cons (d1 d2 : nat) (l1 l2 : list nat) :
  fmerge (d1 :: l1) (d2 :: l2)
  = if bool_decide (d1 <= d2) then
      if bool_decide (d2 <= d1) then d1 :: fmerge l1 l2
      else d1 :: fmerge l1 (d2 :: l2)
    else d2 :: fmerge (d1 :: l1) l2.
Proof. reflexivity. Qed.

Lemma length_rmerge (l1 l2 : list nat) :
  length l1 <= length (rmerge l1 l2) /\ length l2 <= length (rmerge l1 l2).
Proof.
  revert l2. induction l1 as [|d1 l1 IH1]; intros l2; [rewrite rmerge_nil_l; cbn; lia |].
  induction l2 as [|d2 l2 IH2]; [rewrite rmerge_nil_r; cbn; lia |].
  rewrite rmerge_cons. repeat case_bool_decide; cbn [length].
  - destruct (IH1 l2). lia.
  - destruct (IH1 (d2 :: l2)). cbn [length] in *. lia.
  - cbn [length] in IH2. lia.
Qed.

Lemma rmerge_same_length_l (l1 l2 : list nat) :
  length (rmerge l1 l2) = length l1 -> rmerge l1 l2 = l1.
Proof.
  revert l2. induction l1 as [|d1 l1 IH1]; intros l2.
  - rewrite rmerge_nil_l. by destruct l2.
  - induction l2 as [|d2 l2 IH2]; [by rewrite rmerge_nil_r |].
    rewrite rmerge_cons. repeat case_bool_decide; cbn [length]; intros E.
    + assert (d1 = d2) as -> by lia. f_equal. apply IH1. lia.
    + f_equal. apply IH1. lia.
    + destruct (length_rmerge (d1 :: l1) l2). cbn [length] in *. lia.
Qed.

Lemma rmerge_same_length_r (l1 l2 : list nat) :
  length (rmerge l1 l2) = length l2 -> rmerge l1 l2 = l2.
Proof.
  revert l2. induction l1 as [|d1 l1 IH1]; intros l2.
  - by rewrite rmerge_nil_l.
  - induction l2 as [|d2 l2 IH2]; [by rewrite rmerge_nil_r |].
    rewrite rmerge_cons. repeat case_bool_decide; cbn [length]; intros E.
    + f_equal. apply IH1. lia.
    + destruct (length_rmerge l1 (d2 :: l2)). cbn [length] in *. lia.
    + f_equal. apply IH2. lia.
Qed.

Lemma elem_of_rmerge (l1 l2 : list nat) (x : nat) :
  x ∈ rmerge l1 l2 <-> x ∈ l1 \/ x ∈ l2.
Proof.
  revert l2. induction l1 as [|d1 l1 IH1]; intros l2.
  - rewrite rmerge_nil_l, elem_of_nil. tauto.
  - induction l2 as [|d2 l2 IH2]; [rewrite rmerge_nil_r, elem_of_nil; tauto |].
    rewrite rmerge_cons. repeat case_bool_decide.
    + assert (d1 = d2) as -> by lia. rewrite !elem_of_cons, IH1. tauto.
    + rewrite !elem_of_cons, IH1, elem_of_cons. tauto.
    + rewrite !elem_of_cons, IH2, elem_of_cons. tauto.
Qed.

Lemma elem_of_fmerge (l1 l2 : list nat) (x : nat) :
  x ∈ fmerge l1 l2 <-> x ∈ l1 \/ x ∈ l2.
Proof.
  revert l2. induction l1 as [|d1 l1 IH1]; intros l2.
  - rewrite fmerge_nil_l, elem_of_nil. tauto.
  - induction l2 as [|d2 l2 IH2]; [rewrite fmerge_nil_r, elem_of_nil; tauto |].
    rewrite fmerge_cons. repeat case_bool_decide.
    + assert (d1 = d2) as -> by lia. rewrite !elem_of_cons, IH1. tauto.
    + rewrite !elem_of_cons, IH1, elem_of_cons. tauto.
    + rewrite !elem_of_cons, IH2, elem_of_cons. tauto.
Qed.

Lemma fmerge_increasing (l1 l2 : list nat) :
  increasing l1 -> increasing l2 -> increasing (fmerge l1 l2).
Proof.
  unfold increasing. revert l2. induction l1 as [|d1 l1 IH1]; intros l2 H1 H2.
  - by rewrite fmerge_nil_l.
  - induction l2 as [|d2 l2 IH2]; [by rewrite fmerge_nil_r |].
    apply StronglySorted_cons in H1 as [F1 S1].
    pose proof H2 as H2'. apply StronglySorted_cons in H2' as [F2 S2].
    rewrite Forall_forall in F1, F2.
    rewrite fmerge_cons. repeat case_bool_decide.
    + assert (d1 = d2) as -> by lia. apply StronglySorted_cons. split; [| by apply IH1].
      apply Forall_forall. intros x [Hx | Hx]%elem_of_fmerge; auto.
    + apply StronglySorted_cons. split; [| by apply IH1].
      apply Forall_forall. intros x [Hx | Hx]%elem_of_fmerge; [auto |].
      apply elem_of_cons in Hx as [-> | Hx]; [lia |]. specialize (F2 x Hx). lia.
    + apply StronglySorted_cons. split.
      * apply Forall_forall. intros x [Hx | Hx]%elem_of_fmerge; [| auto].
        apply elem_of_cons in Hx as [-> | Hx]; [lia |]. specialize (F1 x Hx). lia.
      * apply IH2. done.
Qed.

Lemma rmerge_decreasing (l1 l2 : list nat) :
  StronglySorted gt l1 -> StronglySorted gt l2 -> StronglySorted gt (rmerge l1 l2).
Proof.
  revert l2. induction l1 as [|d1 l1 IH1]; intros l2 H1 H2.
  - by rewrite rmerge_nil_l.
  - induction l2 as [|d2 l2 IH2]; [by rewrite rmerge_nil_r |].
    apply StronglySorted_cons in H1 as [F1 S1].
    pose proof H2 as H2'. apply StronglySorted_cons in H2' as [F2 S2].
    rewrite Forall_forall in F1, F2.
    rewrite rmerge_cons. repeat case_bool_decide.
    + assert (d1 = d2) as -> by lia. apply StronglySorted_cons. split; [| by apply IH1].
      apply Forall_forall. intros x [Hx | Hx]%elem_of_rmerge; auto.
    + apply StronglySorted_cons. split; [| by apply IH1].
      apply Forall_forall. intros x [Hx | Hx]%elem_of_rmerge; [auto |].
      apply elem_of_cons in Hx as [-> | Hx]; [lia |]. specialize (F2 x Hx). lia.
    + apply StronglySorted_cons. split.
      * apply Forall_forall. intros x [Hx | Hx]%elem_of_rmerge; [| auto].
        apply elem_of_cons in Hx as [-> | Hx]; [lia |]. specialize (F1 x Hx). lia.
      * apply IH2. done.
Qed.

Lemma increasing_reverse (l : list nat) :
  increasing l <-> StronglySorted gt (reverse l).
Proof.
  unfold increasing. induction l as [|x l IH].
  - rewrite reverse_nil. split; constructor.
  - rewrite reverse_cons, StronglySorted_cons, StronglySorted_app, IH, Forall_forall.
    split.
    + intros [F S]. split; [| split; [done | repeat constructor]].
      intros x1 x2 H1 ->%list_elem_of_singleton. rewrite elem_of_reverse in H1. specialize (F _ H1). lia.
    + intros (F & S & _). split; [| done].
      intros y Hy. specialize (F y x). 
      assert (y > x); [| lia]. apply F; [by apply elem_of_reverse | by apply list_elem_of_singleton].
Qed.

Lemma increasing_NoDup (l : list nat) : increasing l -> NoDup l.
Proof.
  induction 1 as [|x l _ IH F]; constructor; [| done].
  rewrite Forall_forall in F. intros Hx. specialize (F _ Hx). lia.
Qed.

Lemma increasing_unique (l1 l2 : list nat) :
  increasing l1 -> increasing l2 -> (forall x, x ∈ l1 <-> x ∈ l2) -> l1 = l2.
Proof.
  intros H1 H2 E.
  apply (StronglySorted_unique_strong lt); [intros; lia | done | done |].
  apply NoDup_Permutation; auto using increasing_NoDup.
Qed.

Lemma sorted_union_unique (a b r r' : list nat) :
  sorted_union a b r -> sorted_union b a r' -> r = r'.
Proof.
  intros [S1 E1] [S2 E2]. apply increasing_unique; [done | done |].
  intros x. rewrite E1, E2. tauto.
Qed.

Lemma rmerge_sorted_union (l1 l2 : list nat) :
  increasing l1 -> increasing l2 ->
  sorted_union l1 l2 (reverse (rmerge (reverse l1) (reverse l2))).
Proof.
  intros H1 H2. split.
  - apply increasing_reverse. rewrite reverse_involutive.
    apply rmerge_decreasing; by apply increasing_reverse.
  - intros x. rewrite elem_of_reverse, elem_of_rmerge, !elem_of_reverse. done.
Qed.

Lemma fmerge_sorted_union (l1 l2 : list nat) :
  increasing l1 -> increasing l2 -> sorted_union l1 l2 (fmerge l1 l2).
Proof.
  intros H1 H2. split; [by apply fmerge_increasing |]. intros x. apply elem_of_fmerge.
Qed.

Lemma fmerge_rmerge (l1 l2 : list nat) :
  increasing l1 -> increasing l2 ->
  fmerge l1 l2 = reverse (rmerge (reverse l1) (reverse l2)).
Proof.
  intros H1 H2.
  destruct (fmerge_sorted_union l1 l2 H1 H2) as [S1 E1].
  destruct (rmerge_sorted_union l1 l2 H1 H2) as [S2 E2].
  apply increasing_unique; [done | done |]. intros x. rewrite E1, E2. done.
Qed.

Lemma rmerge_comm (l1 l2 : list nat) : rmerge l1 l2 = rmerge l2 l1.
Proof.
  revert l2. induction l1 as [|d1 l1 IH1]; intros l2.
  - by rewrite rmerge_nil_l, rmerge_nil_r.
  - induction l2 as [|d2 l2 IH2]; [by rewrite rmerge_nil_l, rmerge_nil_r |].
    rewrite !rmerge_cons. repeat case_bool_decide; try lia.
    + assert (d1 = d2) as -> by lia. by rewrite IH1.
    + by rewrite IH1.
    + by rewrite IH2.
Qed.

Lemma fmerge_comm (l1 l2 : list nat) : fmerge l1 l2 = fmerge l2 l1.
Proof.
  revert l2. induction l1 as [|d1 l1 IH1]; intros l2.
  - by rewrite fmerge_nil_l, fmerge_nil_r.
  - induction l2 as [|d2 l2 IH2]; [by rewrite fmerge_nil_l, fmerge_nil_r |].
    rewrite !fmerge_cons. repeat case_bool_decide; try lia.
    + assert (d1 = d2) as -> by lia. by rewrite IH1.
    + by rewrite IH1.
    + by rewrite IH2.
Qed.

Lemma length_fmerge_le (l1 l2 : list nat) :
  length (fmerge l1 l2) <= length l1 + length l2.
Proof.
  revert l2. induction l1 as [|d1 l1 IH1]; intros l2; [rewrite fmerge_nil_l; cbn; lia |].
  induction l2 as [|d2 l2 IH2]; [rewrite fmerge_nil_r; cbn; lia |].
  rewrite fmerge_cons. repeat case_bool_decide; cbn [length].
  - specialize (IH1 l2). lia.
  - specialize (IH1 (d2 :: l2)). cbn [length] in *. lia.
  - cbn [length] in IH2. lia.
Qed.

(** ** Add *)

(** [bind H] opens the first step of a run [H : (x ← m; k x) = Some r]:
    the step succeeded, with a result that is named. *)
Ltac bind H :=
  match type of H with
  | mbind _ ?m = Some _ =>
      let E := fresh "E" in
      let x := fresh "x" in
      destruct m as [x|] eqn:E; cbn [mbind option_bind] in H; [| discriminate H];
      try match type of x with unit => destruct x end
  end.

Lemma ptr_sub_Some (p n q : nat) : ptr_sub p n = Some q <-> n <= p /\ q = p - n.
Proof. unfold ptr_sub. case_decide; split; intros; destruct_and?; simplify_eq; auto; lia. Qed.

Lemma reverse_take_S {A} (l : list A) (p : nat) (x : A) :
  l !! p = Some x -> reverse (take (S p) l) = x :: reverse (take p l).
Proof. intros H. erewrite take_S_r by done. by rewrite reverse_snoc. Qed.

Section AddProperties.
Context `{PF : Platform} {T : Type} `{SC : Scores T}.

Lemma rlen_ge (a1 a2 : list nat) (p1 p2 : nat) :
  p1 <= length a1 -> p2 <= length a2 ->
  p1 <= rlen a1 a2 p1 p2 /\ p2 <= rlen a1 a2 p1 p2.
Proof.
  intros H1 H2. unfold rlen.
  pose proof (length_rmerge (reverse (take p1 a1)) (reverse (take p2 a2))) as H.
  rewrite !length_reverse, !length_take in H. lia.
Qed.

Lemma rlen_step (a1 a2 : list nat) (p1 p2 d1 d2 : nat) :
  a1 !! p1 = Some d1 -> a2 !! p2 = Some d2 ->
  rlen a1 a2 (S p1) (S p2)
  = S (rlen a1 a2 (if bool_decide (d2 <= d1) then p1 else S p1)
                  (if bool_decide (d1 <= d2) then p2 else S p2)).
Proof.
  intros H1 H2. unfold rlen.
  rewrite (reverse_take_S a1 p1 d1), (reverse_take_S a2 p2 d2) by done.
  rewrite rmerge_cons.
  repeat case_bool_decide; try lia; cbn [length];
    rewrite ?(reverse_take_S a1 p1 d1), ?(reverse_take_S a2 p2 d2) by done; done.
Qed.

(** The backward merge writes the union in place. *)
Lemma Add_merge_divisions_Some (fuel : nat) (a a2 : list nat) (p1 p2 pTop : nat)
    (out : list nat) :
  p1 <= length a -> p2 <= length a2 -> pTop = rlen a a2 p1 p2 ->
  Add_merge_divisions fuel a a2 p1 p2 pTop = Some out ->
  out = reverse (rmerge (reverse (take p1 a)) (reverse (take p2 a2))) ++ drop pTop a.
Proof.
  revert a p1 p2 pTop. induction fuel as [|fuel IH]; intros a p1 p2 pTop H1 H2 HT H; [done |].
  cbn [Add_merge_divisions] in H.
  bind H. bind H.
  case_bool_decide as Hp1.
  { injection H as <-. subst p1. unfold rlen in HT.
    rewrite rmerge_same_length_l.
    - by rewrite reverse_involutive, take_drop.
    - rewrite <- HT at 1. rewrite length_reverse, length_take. lia. }
  case_bool_decide as Hp2.
  { bind H. unfold memcpy in H. case_decide; [| done]. injection H as <-.
    subst p2. unfold rlen in HT.
    rewrite rmerge_same_length_r.
    - by rewrite reverse_involutive.
    - rewrite <- HT at 1. rewrite length_reverse, length_take. lia. }
  bind H. apply ptr_sub_Some in E1 as [Hp1' ->].
  bind H. apply ptr_sub_Some in E1 as [Hp2' ->].
  bind H. rename x into d1. rename E1 into Hd1.
  bind H. rename x into d2. rename E1 into Hd2.
  bind H. apply ptr_sub_Some in E1 as [HpT ->].
  bind H. apply store_Some in E1 as [Hlen ->].
  destruct p1 as [|p1]; [lia |]. destruct p2 as [|p2]; [lia |].
  replace (S p1 - 1) with p1 in * by lia. replace (S p2 - 1) with p2 in * by lia.
  unfold load in Hd1, Hd2.
  pose proof (rlen_step a a2 p1 p2 d1 d2 Hd1 Hd2) as Hstep.
  set (p1' := if bool_decide (d2 <= d1) then p1 else S p1) in *.
  set (p2' := if bool_decide (d1 <= d2) then p2 else S p2) in *.
  assert (p1' <= length a /\ p2' <= length a2) as [Hl1 Hl2].
  { subst p1' p2'. repeat case_bool_decide; lia. }
  destruct (rlen_ge a a2 p1' p2' Hl1 Hl2) as [Hg1 Hg2].
  assert (pTop - 1 = rlen a a2 p1' p2') as HT' by lia.
  apply IH in H; [| by rewrite length_insert | done |]; cycle 1.
  { unfold rlen. rewrite take_insert_ge by lia. done. }
  rewrite take_insert_ge in H by lia. subst out.
  unfold rlen in HT'. 
  rewrite (reverse_take_S a p1 d1), (reverse_take_S a2 p2 d2) by done.
  rewrite rmerge_cons. rewrite drop_insert_ge by lia.
  rewrite Nat.sub_diag. 
  assert (drop (pTop - 1) a = a !!! (pTop - 1) :: drop pTop a) as Hdrop.
  { destruct (lookup_lt_is_Some_2 a (pTop - 1) Hlen) as [x Hx].
    erewrite drop_S by done. rewrite (list_lookup_total_correct _ _ _ Hx).
    do 2 f_equal. lia. }
  rewrite Hdrop. cbn [insert list_insert].
  subst p1' p2'.
  repeat case_bool_decide; try lia; rewrite reverse_cons, <- app_assoc; cbn [app];
    rewrite ?(reverse_take_S a p1 d1), ?(reverse_take_S a2 p2 d2) by done;
    done.
Qed.


Lemma Add_count_divisions_Some (fuel : nat) (a1 a2 : list nat) (K1 K2 p1 p2 c r : nat) :
  p1 <= K1 -> K1 <= length a1 -> p2 <= K2 -> K2 <= length a2 ->
  (N.of_nat (c + (K1 - p1) + (K2 - p2)) <= size_max)%N ->
  Add_count_divisions fuel a1 a2 K1 K2 p1 p2 c = Some r ->
  r = c + length (fmerge (drop p1 (take K1 a1)) (drop p2 (take K2 a2))).
Proof.
  revert p1 p2 c. induction fuel as [|fuel IH]; intros p1 p2 c H1 HK1 H2 HK2 Hb H; [done |].
  cbn [Add_count_divisions] in H.
  case_bool_decide as E2.
  { injection H as <-. subst p2. rewrite size_add_small by lia.
    rewrite (drop_ge (take K2 a2)) by (rewrite length_take; lia).
    rewrite fmerge_nil_r, length_drop, length_take. lia. }
  case_bool_decide as E1.
  { injection H as <-. subst p1. rewrite size_add_small by lia.
    rewrite (drop_ge (take K1 a1)) by (rewrite length_take; lia).
    rewrite fmerge_nil_l, length_drop, length_take. lia. }
  bind H. rename x into d1. bind H. rename x into d2. unfold load in *.
  rewrite size_add_small in H by lia.
  assert (drop p1 (take K1 a1) = d1 :: drop (S p1) (take K1 a1)) as ->.
  { apply drop_S. rewrite lookup_take_lt by lia. done. }
  assert (drop p2 (take K2 a2) = d2 :: drop (S p2) (take K2 a2)) as ->.
  { apply drop_S. rewrite lookup_take_lt by lia. done. }
  rewrite fmerge_cons.
  assert (drop p1 (take K1 a1) = d1 :: drop (S p1) (take K1 a1)) as D1.
  { apply drop_S. rewrite lookup_take_lt by lia. done. }
  assert (drop p2 (take K2 a2) = d2 :: drop (S p2) (take K2 a2)) as D2.
  { apply drop_S. rewrite lookup_take_lt by lia. done. }
  repeat case_bool_decide; try lia; apply IH in H; try lia;
    rewrite ?Nat.add_1_r, ?D1, ?D2 in H; cbn [length]; lia.
Qed.

Lemma Add_count_Some (ds1 ds2 : list DimensionInfo) (c1 c2 cN : nat)
    (stack : list DimensionInfoStack.t) (v1 v2 vN : nat) :
  Forall readable ds1 -> Forall readable ds2 ->
  (N.of_nat (c1 * segments ds1) <= size_max)%N ->
  (N.of_nat (c2 * segments ds2) <= size_max)%N ->
  Add_count ds1 ds2 c1 c2 cN = Some (stack, v1, v2, vN) ->
  stack = initial_stack ds1 ds2 /\ length ds1 = length ds2
  /\ v1 = c1 * segments ds1 /\ v2 = c2 * segments ds2 /\ vN = cN * segments_top stack.
Proof.
  revert ds2 c1 c2 cN stack v1 v2 vN.
  induction ds1 as [|d1 ds1 IH]; intros [|d2 ds2] c1 c2 cN stack v1 v2 vN F1 F2 B1 B2 H;
    try done.
  { cbn in H. injection H as <- <- <- <-. cbn. repeat split; lia. }
  apply Forall_cons in F1 as [(K1 & S1 & I1) F1].
  apply Forall_cons in F2 as [(K2 & S2 & I2) F2].
  cbn [Add_count] in H. bind H. rename x into cNew.
  apply Add_count_divisions_Some in E; [| lia | done | lia | done | lia].
  rewrite !drop_0 in E. cbn [Nat.add] in E.
  fold (divisions d1) in E. fold (divisions d2) in E.
  assert (cNew <= m_cDivisions d1 + m_cDivisions d2) as Hle.
  { pose proof (length_fmerge_le (divisions d1) (divisions d2)) as Hle.
    rewrite <- E in Hle. unfold divisions in Hle. rewrite !length_take in Hle. lia. }
  rewrite fmerge_rmerge, length_reverse in E by done.
  change (cNew = rlen (m_aDivisions d1) (m_aDivisions d2) (m_cDivisions d1) (m_cDivisions d2))
    in E.
  bind H. bind H. destruct x as [[[s w1] w2] wN]. injection H as <- <- <- <-.
  pose proof (segments_pos ds1) as P1. pose proof (segments_pos ds2) as P2.
  cbn [segments foldr] in B1, B2. fold (segments ds1) in B1. fold (segments ds2) in B2.
  rewrite !size_add_small in E1 by lia.
  rewrite !size_mul_small in E1 by nia.
  apply IH in E1 as (-> & Hlen & -> & -> & ->); [| done | done | |].
  - cbn [initial_stack zip_with segments segments_top foldr length
         DimensionInfoStack.m_cNewDivisions].
    fold (segments ds1). fold (segments ds2). fold (initial_stack ds1 ds2).
    fold (segments_top (initial_stack ds1 ds2)).
    rewrite <- E. repeat split; lia.
  - rewrite <- Nat.mul_assoc. done.
  - rewrite <- Nat.mul_assoc. done.
Qed.


Lemma rlen_0_r (a1 a2 : list nat) (p1 : nat) : p1 <= length a1 -> rlen a1 a2 p1 0 = p1.
Proof.
  intros H. unfold rlen. rewrite take_0, reverse_nil, rmerge_nil_r, length_reverse, length_take.
  lia.
Qed.

Lemma rlen_0_l (a1 a2 : list nat) (p2 : nat) : p2 <= length a2 -> rlen a1 a2 0 p2 = p2.
Proof.
  intros H. unfold rlen. rewrite take_0, reverse_nil, rmerge_nil_l, length_reverse, length_take.
  lia.
Qed.

Lemma rlen_comm (a1 a2 : list nat) (p1 p2 : nat) : rlen a1 a2 p1 p2 = rlen a2 a1 p2 p1.
Proof. unfold rlen. by rewrite rmerge_comm. Qed.

(** One step of the cursors: the stack stays valid, the counts stay, each
    operand's pointer moves as its offset does, and the result's offset
    goes down by one cell. *)
Lemma Add_next_Some (stack : list DimensionInfoStack.t) (ds1 ds2 : list DimensionInfo)
    (pV1 pV2 m1 m2 mT : nat) (stack' : list DimensionInfoStack.t) (pV1' pV2' : nat) :
  valid_stack stack ds1 ds2 ->
  Add_next stack ds1 ds2 pV1 pV2 m1 m2 = Some (stack', pV1', pV2') ->
  valid_stack stack' ds1 ds2
  /\ map DimensionInfoStack.m_cNewDivisions stack'
     = map DimensionInfoStack.m_cNewDivisions stack
  /\ pV1' + offset1 stack ds1 m1 = pV1 + offset1 stack' ds1 m1
  /\ pV2' + offset1 (map swap stack) ds2 m2 = pV2 + offset1 (map swap stack') ds2 m2
  /\ offsetTop stack' ds1 ds2 mT + mT = offsetTop stack ds1 ds2 mT.
Proof.
  intros V. revert pV1 pV2 m1 m2 mT stack' pV1' pV2'.
  induction V as [|e d1 d2 stack ds1 ds2 (Hp1 & Hp2 & HK1 & HK2 & Hb & HcN) V IH];
    intros pV1 pV2 m1 m2 mT stack' pV1' pV2' H; [done |].
  cbn [Add_next] in H. destruct e as [p1 p2 cNew].
  cbn [DimensionInfoStack.m_pDivision1 DimensionInfoStack.m_pDivision2
       DimensionInfoStack.m_cNewDivisions] in *.
  cbn [offset1 offsetTop map swap DimensionInfoStack.m_pDivision1
       DimensionInfoStack.m_pDivision2 DimensionInfoStack.m_cNewDivisions].
  case_bool_decide as P1; case_bool_decide as P2.
  - bind H. apply ptr_sub_Some in E as [_ ->].
    bind H. apply ptr_sub_Some in E as [_ ->].
    bind H. rename x into v1. rename E into L1.
    bind H. rename x into v2. rename E into L2.
    bind H. rename x into q1. rename E into Q1.
    bind H. rename x into q2. rename E into Q2.
    injection H as <- <- <-. unfold load in L1, L2.
    destruct p1 as [|p1]; [lia |]. destruct p2 as [|p2]; [lia |].
    replace (S p1 - 1) with p1 in * by lia. replace (S p2 - 1) with p2 in * by lia.
    rewrite (rlen_step _ _ _ _ _ _ L1 L2).
    split; [| split; [done |]].
    { constructor; [| done]. repeat split; cbn; try done; repeat case_bool_decide; lia. }
    repeat case_bool_decide; try lia;
      repeat match goal with
             | H : ptr_sub _ _ = Some _ |- _ => apply ptr_sub_Some in H as [? ->]
             | H : Some _ = Some _ |- _ => injection H as <-
             end;
      cbn [offset1 offsetTop map swap DimensionInfoStack.m_pDivision1
           DimensionInfoStack.m_pDivision2 DimensionInfoStack.m_cNewDivisions];
      repeat split; lia.
  - bind H. apply ptr_sub_Some in E as [? ->].
    bind H. apply ptr_sub_Some in E as [_ ->].
    injection H as <- <- <-.
    assert (p2 = 0) as -> by lia. destruct p1 as [|p1]; [lia |].
    replace (S p1 - 1) with p1 in * by lia.
    rewrite !rlen_0_r by lia.
    split; [| split; [done |]].
    { constructor; [| done]. repeat split; cbn; try done; lia. }
    cbn [offset1 offsetTop map swap DimensionInfoStack.m_pDivision1
         DimensionInfoStack.m_pDivision2 DimensionInfoStack.m_cNewDivisions].
    rewrite !rlen_0_r by lia. repeat split; lia.
  - bind H. apply ptr_sub_Some in E as [? ->].
    bind H. apply ptr_sub_Some in E as [_ ->].
    injection H as <- <- <-.
    assert (p1 = 0) as -> by lia. destruct p2 as [|p2]; [lia |].
    replace (S p2 - 1) with p2 in * by lia.
    rewrite !rlen_0_l by lia.
    split; [| split; [done |]].
    { constructor; [| done]. repeat split; cbn; try done; lia. }
    cbn [offset1 offsetTop map swap DimensionInfoStack.m_pDivision1
         DimensionInfoStack.m_pDivision2 DimensionInfoStack.m_cNewDivisions].
    rewrite !rlen_0_l by lia. repeat split; lia.
  - bind H. apply ptr_sub_Some in E as [? ->].
    bind H. apply ptr_sub_Some in E as [? ->].
    bind H. bind H. bind H. destruct x as [[s' w1] w2]. injection H as <- <- <-.
    assert (p1 = 0) as -> by lia. assert (p2 = 0) as -> by lia.
    rewrite !size_add_small in E1 by lia.
    apply (IH _ _ _ _ (mT * (1 + cNew))) in E1 as (V' & Hc & Ho1 & Ho2 & HT).
    split; [| split].
    { constructor; [| done]. repeat split; cbn; try done; lia. }
    { cbn [map DimensionInfoStack.m_cNewDivisions]. by rewrite Hc. }
    cbn [offset1 offsetTop map swap DimensionInfoStack.m_pDivision1
         DimensionInfoStack.m_pDivision2 DimensionInfoStack.m_cNewDivisions].
    rewrite rlen_0_r by lia. rewrite <- HcN.
    repeat split; nia.
Qed.


Lemma Add_values_stack (fuel L : nat) (stack : list DimensionInfoStack.t)
    (ds1 ds2 : list DimensionInfo) (pV1 pV2 pTop : nat) (a a2 : list T)
    (stack' : list DimensionInfoStack.t) (pV1' pV2' : nat) (a' : list T) :
  valid_stack stack ds1 ds2 ->
  Add_values fuel L stack ds1 ds2 pV1 pV2 pTop a a2 = Some (stack', pV1', pV2', a') ->
  valid_stack stack' ds1 ds2
  /\ map DimensionInfoStack.m_cNewDivisions stack'
     = map DimensionInfoStack.m_cNewDivisions stack.
Proof.
  revert stack pV1 pV2 pTop a.
  induction fuel as [|fuel IH]; intros stack pV1 pV2 pTop a V H; [done |].
  cbn [Add_values] in H. bind H. bind H. destruct x0 as [pT b].
  case_bool_decide; [by injection H as <- <- <- <- |].
  bind H. destruct x0 as [[s w1] w2].
  apply (Add_next_Some _ _ _ _ _ _ _ 0) in E1 as (V' & Hc & _); [| done].
  apply IH in H as [V'' Hc']; [| done]. split; [done | congruence].
Qed.

Lemma realloc_take {A} (fresh : A) (buf : list A) (n k : nat) :
  k <= n -> k <= length buf -> take k (realloc fresh buf n) = take k buf.
Proof.
  intros Hn Hk. unfold realloc.
  rewrite take_app_le by (rewrite length_take; lia). rewrite take_take. f_equal. lia.
Qed.

Lemma length_realloc {A} (fresh : A) (buf : list A) (n : nat) :
  length (realloc fresh buf n) = n.
Proof. unfold realloc. rewrite length_app, length_take, length_replicate. lia. Qed.

Lemma SetCountDivisions_false (i c : nat) (t t' : SegmentedTensor T) (d : DimensionInfo) :
  m_aDimensions t !! i = Some d ->
  m_cDivisions d <= length (m_aDivisions d) ->
  m_cDivisionCapacity d = length (m_aDivisions d) ->
  SetCountDivisions i c t = Some (false, t') ->
  exists d',
    t' = with_dimensions (<[i:=d']> (m_aDimensions t)) t
    /\ i < m_cDimensions t
    /\ i < length (m_aDimensions t)
    /\ m_cDivisions d' = c
    /\ c <= length (m_aDivisions d')
    /\ m_cDivisionCapacity d' = length (m_aDivisions d')
    /\ take (m_cDivisions d) (m_aDivisions d') = take (m_cDivisions d) (m_aDivisions d).
Proof.
  intros Hd HK Hcap H. unfold SetCountDivisions, load in H. rewrite Hd in H.
  bind H. apply assert_Some, bool_decide_eq_true in E.
  cbn [mbind option_bind] in H. bind H.
  case_bool_decide as Hgrow.
  - bind H.
    destruct (IsAddError _ _); [done |]. destruct (IsMultiplyError _ _); [done |].
    destruct (heap_grants _); cbn [negb] in H; [| done].
    bind H. apply store_Some in E2 as [Hi ->]. injection H as <-.
    eexists. split; [reflexivity |]. cbn [m_cDivisions m_aDivisions m_cDivisionCapacity].
    rewrite length_realloc. repeat split; try lia.
    apply realloc_take; lia.
  - bind H. apply store_Some in E1 as [Hi ->]. injection H as <-.
    eexists. split; [reflexivity |]. cbn. repeat split; lia.
Qed.

(** The last loop of [Add] leaves, in every dimension from [i] on, the
    count on the stack and the union of the two division sequences. *)
Lemma Add_divisions_Some (todo i : nat) (stack : list DimensionInfoStack.t)
    (ds2 : list DimensionInfo) (t R : SegmentedTensor T) :
  (forall j e d1 d2, i <= j < i + todo ->
     stack !! j = Some e -> m_aDimensions t !! j = Some d1 -> ds2 !! j = Some d2 ->
     m_cDivisions d1 <= length (m_aDivisions d1)
     /\ m_cDivisionCapacity d1 = length (m_aDivisions d1)
     /\ m_cDivisions d2 <= length (m_aDivisions d2)
     /\ DimensionInfoStack.m_cNewDivisions e
        = rlen (m_aDivisions d1) (m_aDivisions d2) (m_cDivisions d1) (m_cDivisions d2)) ->
  Add_divisions todo i stack ds2 t = Some (false, R) ->
  m_cDimensions R = m_cDimensions t
  /\ m_cVectorLength R = m_cVectorLength t
  /\ m_aValues R = m_aValues t
  /\ (todo = 0 \/ i + todo <= m_cDimensions t)
  /\ (forall j, j < i -> m_aDimensions R !! j = m_aDimensions t !! j)
  /\ (forall j e d1 d2, i <= j < i + todo ->
        stack !! j = Some e -> m_aDimensions t !! j = Some d1 -> ds2 !! j = Some d2 ->
        exists dR, m_aDimensions R !! j = Some dR
          /\ m_cDivisions dR = DimensionInfoStack.m_cNewDivisions e
          /\ divisions dR
             = reverse (rmerge (reverse (divisions d1)) (reverse (divisions d2)))).
Proof.
  revert i t. induction todo as [|todo IH]; intros i t Hv H.
  { cbn in H. injection H as <-. repeat split; try done; [by left | intros; lia]. }
  cbn [Add_divisions] in H.
  bind H. rename x into e. bind H. rename x into d1. bind H. rename x into d2.
  unfold load in E, E0, E1.
  destruct (Hv i e d1 d2) as (HK1 & Hcap & HK2 & HcN); [lia | done | done | done |].
  bind H. destruct x as [[] t']; [done |].
  destruct (SetCountDivisions_false _ _ _ _ _ E0 HK1 Hcap E2)
    as (d' & -> & HiD & Hi & Hc' & Hlen' & Hcap' & Htake).
  cbn [with_dimensions m_aDimensions] in H. unfold load in H.
  rewrite list_lookup_insert_eq in H by done. cbn [mbind option_bind] in H.
  bind H. rename x into a.
  destruct (rlen_ge (m_aDivisions d1) (m_aDivisions d2) _ _ HK1 HK2) as [Hg1 Hg2].
  apply Add_merge_divisions_Some in E3; [| lia | lia |]; cycle 1.
  { unfold rlen. rewrite Htake. done. }
  rewrite Htake in E3. fold (divisions d1) in E3. fold (divisions d2) in E3.
  bind H. apply store_Some in E4 as [_ ->]. rewrite list_insert_insert_eq in H.
  apply IH in H; cycle 1.
  { intros j e' d1' d2' Hj He' Hd1' Hd2'. cbn [with_dimensions m_aDimensions] in Hd1'.
    rewrite list_lookup_insert_ne in Hd1' by lia. apply (Hv j e'); try done. lia. }
  cbn [with_dimensions m_aDimensions m_cDimensions m_cVectorLength m_aValues] in H.
  destruct H as (HD & HL & HVal & Hbound & Hlow & Hhigh).
  split; [done |]. split; [done |]. split; [done |]. split; [right; lia |].
  split.
  { intros j Hj. rewrite Hlow by lia. by rewrite list_lookup_insert_ne by lia. }
  intros j e' d1' d2' Hj He' Hd1' Hd2'.
  destruct (decide (j = i)) as [-> | Hne].
  - rewrite Hlow by lia. rewrite list_lookup_insert_eq by done.
    assert (e' = e) as -> by congruence. assert (d1' = d1) as -> by congruence.
    assert (d2' = d2) as -> by congruence.
    eexists. split; [reflexivity |].
    cbn [set_aDivisions m_cDivisions]. split; [done |].
    unfold divisions at 1. cbn [set_aDivisions m_cDivisions m_aDivisions]. subst a.
    rewrite take_app_length'; [done |].
    rewrite length_reverse. rewrite Hc', HcN. unfold rlen, divisions. done.
  - apply (Hhigh j e'); try done; [lia |].
    by rewrite list_lookup_insert_ne by lia.
Qed.


Lemma valid_stack_lookup (stack : list DimensionInfoStack.t) (ds1 ds2 : list DimensionInfo)
    (j : nat) (d1 : DimensionInfo) :
  valid_stack stack ds1 ds2 -> ds1 !! j = Some d1 ->
  exists e d2, stack !! j = Some e /\ ds2 !! j = Some d2 /\ valid e d1 d2.
Proof.
  intros V. revert j. induction V as [|e d1' d2 stack ds1 ds2 Hv V IH]; intros j H; [done |].
  destruct j as [|j]; cbn in *.
  - injection H as <-. by exists e, d2.
  - by apply IH.
Qed.

Lemma initial_stack_valid (ds1 ds2 : list DimensionInfo) :
  Forall readable ds1 -> Forall readable ds2 -> length ds1 = length ds2 ->
  valid_stack (initial_stack ds1 ds2) ds1 ds2.
Proof.
  intros F1. revert ds2. induction F1 as [|d1 ds1 (K1 & B1 & _) F1 IH]; intros ds2 F2 Hlen.
  - destruct ds2; [constructor | done].
  - destruct F2 as [|d2 ds2 (K2 & B2 & _) F2]; [done |].
    cbn [initial_stack zip_with]. constructor.
    + repeat split; cbn; try done. lia.
    + apply IH; [done |]. cbn in Hlen. lia.
Qed.

Lemma well_formed_readable (t : SegmentedTensor T) :
  well_formed t -> Forall (fun d => increasing (divisions d)) (active t) ->
  Forall readable (active t).
Proof.
  intros W I. pose proof (wf_divisions t W) as F.
  rewrite Forall_forall in F, I |- *. intros d Hd.
  destruct (F d Hd) as (K & _ & B). pose proof sizeof_TDivisions_wide.
  repeat split; [done | nia | by apply I].
Qed.

Lemma well_formed_segments (t : SegmentedTensor T) :
  well_formed t -> (N.of_nat (m_cVectorLength t * segments (active t)) <= size_max)%N.
Proof.
  intros W. pose proof (wf_vector t W). pose proof (wf_values t W).
  pose proof (wf_values_bytes t W). pose proof sizeof_TValues_pos. nia.
Qed.

Lemma EnsureValueCapacity_false (c : nat) (t t' : SegmentedTensor T) :
  m_cValueCapacity t = length (m_aValues t) ->
  EnsureValueCapacity c t = Some (false, t') ->
  exists cap a,
    t' = with_values cap a t
    /\ c <= length a
    /\ forall j, j < c -> j < length (m_aValues t) -> a !! j = m_aValues t !! j.
Proof.
  intros Hcap H. unfold EnsureValueCapacity in H. case_bool_decide as Hgrow.
  - bind H. destruct (IsAddError _ _); [done |]. destruct (IsMultiplyError _ _); [done |].
    destruct (heap_grants _); cbn [negb] in H; [| done]. injection H as <-.
    eexists _, _. split; [reflexivity |]. rewrite length_realloc. split; [lia |].
    intros j Hj Hl. destruct (lookup_lt_is_Some_2 _ _ Hl) as [x Hx].
    rewrite Hx. apply realloc_lookup; [lia | done].
  - injection H as <-. exists (m_cValueCapacity t), (m_aValues t).
    split; [by destruct t |]. split; [lia | done].
Qed.

Lemma Forall3_take_lookup {A B C} (P : A -> B -> C -> Prop) (n : nat)
    (l : list A) (k : list B) (k' : list C) :
  (forall j, j < n -> exists x y z,
     l !! j = Some x /\ k !! j = Some y /\ k' !! j = Some z /\ P x y z) ->
  Forall3 P (take n l) (take n k) (take n k').
Proof.
  revert l k k'. induction n as [|n IH]; intros l k k' H.
  - rewrite !take_0. constructor.
  - destruct (H 0) as (x & y & z & Hx & Hy & Hz & HP); [lia |].
    destruct l as [|x' l]; [done |]. destruct k as [|y' k]; [done |].
    destruct k' as [|z' k']; [done |]. cbn in Hx, Hy, Hz. simplify_eq.
    rewrite !firstn_cons. constructor; [done |]. apply IH.
    intros j Hj. destruct (H (S j)) as (x' & y' & z' & ?); [lia |]. by exists x', y', z'.
Qed.

(** What a successful [Add] with at least one dimension goes through. *)
Lemma Add_Some (this rhs R : SegmentedTensor T) :
  well_formed this -> well_formed rhs ->
  Forall (fun d => increasing (divisions d)) (active this) ->
  Forall (fun d => increasing (divisions d)) (active rhs) ->
  0 <> m_cDimensions this ->
  Add this rhs = Some (false, R) ->
  let L := m_cVectorLength this in
  let stack := initial_stack (active this) (active rhs) in
  exists cap a stack' aValues,
    m_cDimensions this = m_cDimensions rhs
    /\ valid_stack stack (active this) (active rhs)
    /\ (N.of_nat (L * segments_top stack) <= size_max)%N
    /\ L * segments_top stack <= length a
    /\ (forall j, j < L * segments_top stack -> j < length (m_aValues this) ->
          a !! j = m_aValues this !! j)
    /\ Add_values (segments_top stack) L stack (active this) (active rhs)
         (L * segments (active this)) (size_mul L (segments (active rhs)))
         (L * segments_top stack) a (m_aValues rhs)
       = Some (stack', L, L, aValues)
    /\ valid_stack stack' (active this) (active rhs)
    /\ map DimensionInfoStack.m_cNewDivisions stack'
       = map DimensionInfoStack.m_cNewDivisions stack
    /\ Add_divisions (m_cDimensions this) 0 stack' (m_aDimensions rhs)
         (with_values cap aValues this) = Some (false, R).
Proof.
  intros W1 W2 I1 I2 HD H L stack. unfold Add in H.
  bind H. apply assert_Some, bool_decide_eq_true in E.
  rewrite bool_decide_eq_false_2 in H by done.
  bind H. rename x into ds1. bind H. rename x into ds2.
  unfold cells in E0, E1. case_decide; [| done]. case_decide; [| done].
  injection E0 as <-. injection E1 as <-.
  assert (take (m_cDimensions this) (m_aDimensions rhs) = active rhs) as Hrhs.
  { unfold active. by rewrite E. }
  fold (active this) in H. rewrite Hrhs in H.
  pose proof (well_formed_readable _ W1 I1) as R1.
  pose proof (well_formed_readable _ W2 I2) as R2.
  pose proof (well_formed_segments _ W1) as B1.
  pose proof (well_formed_segments _ W2) as B2.
  pose proof (wf_vector _ W1) as HL. fold L in HL, B1.
  pose proof (wf_vector _ W2) as HL2.
  bind H. clear E0 x.
  bind H. destruct x as [[[s0 c1] c2] cN].
  apply Add_count_Some in E0 as (-> & Hlen & -> & -> & ->); [| done | done | nia | nia].
  fold stack in H |- *. rewrite !Nat.mul_1_l in H.
  destruct (IsMultiplyError _ _) eqn:HM; [done |]. apply IsMultiplyError_false in HM.
  bind H. destruct x as [[] this']; [done |].
  apply EnsureValueCapacity_false in E0 as (cap & a & -> & Hlen_a & Hpre);
    [| by apply wf_capacity].
  cbn [with_values m_cVectorLength m_aValues m_cDimensions m_aDimensions
       m_cValueCapacity] in H.
  fold L in H, HM.
  rewrite (size_mul_small L (segments (active this))) in H by lia.
  rewrite (size_mul_small L (segments_top stack)) in H by lia.
  bind H. destruct x as [[[stack' p1] p2] aValues].
  bind H. apply assert_Some, bool_decide_eq_true in E1 as ->.
  bind H. apply assert_Some, bool_decide_eq_true in E1 as ->.
  pose proof (initial_stack_valid _ _ R1 R2 Hlen) as V. fold stack in V.
  destruct (Add_values_stack _ _ _ _ _ _ _ _ _ _ _ _ _ _ V E0) as [V' Hc].
  exists cap, a, stack', aValues.
  split; [done |]. split; [done |]. split; [lia |]. split; [lia |]. split; [| done].
  intros j Hj. apply Hpre. lia.
Qed.


(** The result of a successful [Add] with at least one dimension: the
    scores are those of the value loop, the counts those of the stack, and
    every division sequence is the backward merge of the operands'. *)
Lemma Add_result (this rhs R : SegmentedTensor T) :
  well_formed this -> well_formed rhs ->
  Forall (fun d => increasing (divisions d)) (active this) ->
  Forall (fun d => increasing (divisions d)) (active rhs) ->
  0 <> m_cDimensions this ->
  Add this rhs = Some (false, R) ->
  let L := m_cVectorLength this in
  let stack := initial_stack (active this) (active rhs) in
  exists a stack',
    m_cDimensions this = m_cDimensions rhs
    /\ valid_stack stack (active this) (active rhs)
    /\ (forall j, j < L * segments_top stack -> j < length (m_aValues this) ->
          a !! j = m_aValues this !! j)
    /\ Add_values (segments_top stack) L stack (active this) (active rhs)
         (L * segments (active this)) (size_mul L (segments (active rhs)))
         (L * segments_top stack) a (m_aValues rhs)
       = Some (stack', L, L, m_aValues R)
    /\ m_cDimensions R = m_cDimensions this
    /\ m_cVectorLength R = m_cVectorLength this
    /\ Forall3 (fun d1 d2 dR =>
         m_cDivisions dR
         = rlen (m_aDivisions d1) (m_aDivisions d2) (m_cDivisions d1) (m_cDivisions d2)
         /\ divisions dR
            = reverse (rmerge (reverse (divisions d1)) (reverse (divisions d2))))
       (active this) (active rhs) (active R).
Proof.
  intros W1 W2 I1 I2 HD H L stack.
  destruct (Add_Some _ _ _ W1 W2 I1 I2 HD H)
    as (cap & a & stack' & aValues & HDD & V & _ & _ & Hpre & Hval & V' & Hc & Hdiv).
  apply Add_divisions_Some in Hdiv; cycle 1.
  { intros j e d1 d2 Hj He Hd1 Hd2. cbn [with_values m_aDimensions] in Hd1.
    assert (active this !! j = Some d1) as Ha1.
    { unfold active. rewrite lookup_take_lt by lia. done. }
    destruct (valid_stack_lookup _ _ _ _ _ V' Ha1) as (e' & d2' & He' & Hd2' & Hv).
    unfold active in Hd2'. rewrite lookup_take_lt in Hd2' by lia.
    assert (e' = e) as -> by congruence. assert (d2' = d2) as -> by congruence.
    destruct Hv as (_ & _ & HK1 & HK2 & _ & HcN).
    pose proof (wf_divisions _ W1) as F. rewrite Forall_forall in F.
    destruct (F d1) as (_ & Hcap & _); [by eapply list_elem_of_lookup_2 |]. done. }
  cbn [with_values m_aDimensions m_cDimensions m_cVectorLength m_aValues] in Hdiv.
  destruct Hdiv as (HDR & HLR & HVR & _ & _ & Hhigh).
  exists a, stack'. rewrite HVR.
  split; [done |]. split; [done |]. split; [done |]. split; [done |].
  split; [done |]. split; [done |].
  unfold active at 3. rewrite HDR. unfold active. rewrite <- HDD.
  apply Forall3_take_lookup. intros j Hj.
  pose proof (wf_dimensions _ W1) as Hlen1.
  destruct (lookup_lt_is_Some_2 (m_aDimensions this) j) as [d1 Hd1]; [lia |].
  assert (active this !! j = Some d1) as Ha1.
  { unfold active. rewrite lookup_take_lt by lia. done. }
  destruct (valid_stack_lookup _ _ _ _ _ V' Ha1) as (e & d2 & He & Hd2 & Hv).
  unfold active in Hd2. rewrite lookup_take_lt in Hd2 by lia.
  destruct (Hhigh j e d1 d2) as (dR & HdR & HcR & HdivR); [lia | done | done | done |].
  exists d1, d2, dR. repeat split; try done.
  destruct Hv as (_ & _ & _ & _ & _ & HcN). congruence.
Qed.

(** The dimensions of the result of [Add], for any number of dimensions. *)
Lemma Add_dimensions (this rhs R : SegmentedTensor T) :
  well_formed this -> well_formed rhs ->
  Forall (fun d => increasing (divisions d)) (active this) ->
  Forall (fun d => increasing (divisions d)) (active rhs) ->
  Add this rhs = Some (false, R) ->
  Forall3 (fun d1 d2 dR =>
     m_cDivisions dR
     = rlen (m_aDivisions d1) (m_aDivisions d2) (m_cDivisions d1) (m_cDivisions d2)
     /\ divisions dR = reverse (rmerge (reverse (divisions d1)) (reverse (divisions d2))))
    (active this) (active rhs) (active R).
Proof.
  intros W1 W2 I1 I2 H.
  destruct (decide (0 = m_cDimensions this)) as [HD | HD].
  { unfold Add in H. bind H. apply assert_Some, bool_decide_eq_true in E.
    rewrite bool_decide_eq_true_2 in H by done. bind H. bind H. injection H as <-.
    unfold active. cbn [with_values m_cDimensions m_aDimensions].
    rewrite <- E, <- HD, !take_0. constructor. }
  by destruct (Add_result _ _ _ W1 W2 I1 I2 HD H) as (a & stack' & _ & _ & _ & _ & _ & _ & F).
Qed.

(** C4: in the result of a successful [Add] on well-formed operands whose
    division sequences are strictly increasing, the division sequence of
    every dimension is strictly increasing and holds the division points
    of the two operands along that dimension, and no other: it is their
    sorted union. *)
Theorem Add_divisions_sorted_union (this rhs R : SegmentedTensor T) :
  well_formed this -> well_formed rhs ->
  Forall (fun d => increasing (divisions d)) (active this) ->
  Forall (fun d => increasing (divisions d)) (active rhs) ->
  Add this rhs = Some (false, R) ->
  Forall3 (fun d1 d2 dR => sorted_union (divisions d1) (divisions d2) (divisions dR))
          (active this) (active rhs) (active R).
Proof.
  intros W1 W2 I1 I2 H.
  pose proof (Add_dimensions _ _ _ W1 W2 I1 I2 H) as F.
  revert I1 I2 F. generalize (active this) (active rhs) (active R).
  intros l1 l2 lR I1 I2 F. induction F as [|d1 d2 dR l1 l2 lR [_ Hd] F IH]; [constructor |].
  apply Forall_cons in I1 as [J1 I1]. apply Forall_cons in I2 as [J2 I2].
  constructor; [| by apply IH]. rewrite Hd. by apply rmerge_sorted_union.
Qed.

Lemma ptr_sub_le (p n : nat) : n <= p -> ptr_sub p n = Some (p - n).
Proof. intros H. by apply ptr_sub_Some. Qed.

Lemma Add_next_swap (stack : list DimensionInfoStack.t) (ds1 ds2 : list DimensionInfo)
    (pV1 pV2 m1 m2 : nat) :
  Add_next (map swap stack) ds2 ds1 pV2 pV1 m2 m1
  = '(s, q1, q2) ← Add_next stack ds1 ds2 pV1 pV2 m1 m2; Some (map swap s, q2, q1).
Proof.
  revert ds1 ds2 pV1 pV2 m1 m2.
  induction stack as [|e stack IH]; intros [|d1 ds1] [|d2 ds2] pV1 pV2 m1 m2; try done.
  destruct e as [p1 p2 cNew].
  cbn [Add_next map swap DimensionInfoStack.m_pDivision1 DimensionInfoStack.m_pDivision2
       DimensionInfoStack.m_cNewDivisions].
  case_bool_decide as P1; case_bool_decide as P2.
  - assert (ptr_sub p1 1 = Some (p1 - 1)) as -> by (apply ptr_sub_Some; lia).
    assert (ptr_sub p2 1 = Some (p2 - 1)) as -> by (apply ptr_sub_Some; lia).
    cbn [mbind option_bind].
    destruct (load (m_aDivisions d1) (p1 - 1)) as [v1|]; cbn [mbind option_bind];
      destruct (load (m_aDivisions d2) (p2 - 1)) as [v2|]; cbn [mbind option_bind];
      try done.
    repeat case_bool_decide; unfold ptr_sub; repeat case_decide; done.
  - unfold ptr_sub; repeat case_decide; try done; lia.
  - unfold ptr_sub; repeat case_decide; try done; lia.
  - destruct (ptr_sub pV1 m1) as [q1|], (ptr_sub pV2 m2) as [q2|]; try done.
    cbn [mbind option_bind].
    destruct (IsMultiplyError m1 _), (IsMultiplyError m2 _); try done.
    cbn [negb assert mbind option_bind]. rewrite IH.
    destruct (Add_next stack ds1 ds2 _ _ _ _) as [[[s r1] r2]|]; done.
Qed.

Lemma Add_cell_swap (fuel pM1 pM2 pT pTE : nat) (bufA bufB vals1 vals2 : list T) (N : nat)
    (rA rB : nat) (outA outB : list T) :
  (forall x y : T, score_add x y = score_add y x) ->
  pM1 <= pT -> pM2 <= pT ->
  (forall j, j < pT -> j < length vals1 -> bufA !! j = vals1 !! j) ->
  (forall j, j < pT -> j < length vals2 -> bufB !! j = vals2 !! j) ->
  (forall j, pT <= j -> j < N -> bufA !! j = bufB !! j) ->
  Add_cell fuel pM1 pM2 pT pTE bufA vals2 = Some (rA, outA) ->
  Add_cell fuel pM2 pM1 pT pTE bufB vals1 = Some (rB, outB) ->
  rA = pTE /\ rB = pTE
  /\ (forall j, j < pTE -> j < length vals1 -> outA !! j = vals1 !! j)
  /\ (forall j, j < pTE -> j < length vals2 -> outB !! j = vals2 !! j)
  /\ (forall j, pTE <= j -> j < N -> outA !! j = outB !! j).
Proof.
  intros comm. revert pM1 pM2 pT bufA bufB.
  induction fuel as [|fuel IH]; intros pM1 pM2 pT bufA bufB H1 H2 IA IB IAB HA HB; [done |].
  cbn [Add_cell] in HA, HB.
  bind HA. apply ptr_sub_Some in E as [G1 ->].
  bind HA. apply ptr_sub_Some in E as [G2 ->].
  bind HA. apply ptr_sub_Some in E as [GT ->].
  bind HA. rename x into xa. rename E into Lxa.
  bind HA. rename x into ya. rename E into Lya.
  bind HA. apply store_Some in E as [SA ->].
  rewrite ?ptr_sub_le in HB by lia. cbn [mbind option_bind] in HB.
  bind HB. rename x into xb. rename E into Lxb.
  bind HB. rename x into yb. rename E into Lyb.
  bind HB. apply store_Some in E as [SB ->].
  unfold load in *.
  assert (xa = yb) as ->.
  { pose proof (lookup_lt_Some _ _ _ Lyb). rewrite IA in Lxa by lia. congruence. }
  assert (xb = ya) as ->.
  { pose proof (lookup_lt_Some _ _ _ Lya). rewrite IB in Lxb by lia. congruence. }
  rewrite (comm ya yb) in HB.
  assert (forall j, j < pT - 1 -> j < length vals1 ->
            <[pT - 1:=score_add yb ya]> bufA !! j = vals1 !! j) as IA'.
  { intros j Hj Hl. rewrite list_lookup_insert_ne by lia. apply IA; lia. }
  assert (forall j, j < pT - 1 -> j < length vals2 ->
            <[pT - 1:=score_add yb ya]> bufB !! j = vals2 !! j) as IB'.
  { intros j Hj Hl. rewrite list_lookup_insert_ne by lia. apply IB; lia. }
  assert (forall j, pT - 1 <= j -> j < N ->
            <[pT - 1:=score_add yb ya]> bufA !! j
            = <[pT - 1:=score_add yb ya]> bufB !! j) as IAB'.
  { intros j Hj Hl. destruct (decide (j = pT - 1)) as [-> | Hne].
    - by rewrite !list_lookup_insert_eq.
    - rewrite !list_lookup_insert_ne by lia. apply IAB; lia. }
  case_bool_decide as Hend.
  - eapply IH; [| | | | | exact HA | exact HB]; try done; lia.
  - injection HA as <- <-. injection HB as <- <-.
    assert (pTE = pT - 1) as -> by (destruct (decide (pTE = pT - 1)); [done | tauto]).
    done.
Qed.

Lemma offset1_le_offsetTop (stack : list DimensionInfoStack.t)
    (ds1 ds2 : list DimensionInfo) (m1 m2 mT : nat) :
  valid_stack stack ds1 ds2 -> m1 <= mT -> m2 <= mT ->
  offset1 stack ds1 m1 <= offsetTop stack ds1 ds2 mT
  /\ offset1 (map swap stack) ds2 m2 <= offsetTop stack ds1 ds2 mT.
Proof.
  intros V. revert m1 m2 mT.
  induction V as [|e d1 d2 stack ds1 ds2 (Hp1 & Hp2 & HK1 & HK2 & Hb & HcN) V IH];
    intros m1 m2 mT H1 H2; [cbn; lia |].
  cbn [offset1 offsetTop map swap DimensionInfoStack.m_pDivision1
       DimensionInfoStack.m_pDivision2 DimensionInfoStack.m_cNewDivisions].
  destruct (rlen_ge (m_aDivisions d1) (m_aDivisions d2)
              (DimensionInfoStack.m_pDivision1 e) (DimensionInfoStack.m_pDivision2 e))
    as [G1 G2]; [lia | lia |].
  destruct (rlen_ge (m_aDivisions d1) (m_aDivisions d2) (m_cDivisions d1) (m_cDivisions d2))
    as [G3 G4]; [lia | lia |].
  rewrite <- HcN in G3, G4.
  destruct (IH (m1 * (1 + m_cDivisions d1)) (m2 * (1 + m_cDivisions d2))
               (mT * (1 + DimensionInfoStack.m_cNewDivisions e))) as [I1 I2]; [nia | nia |].
  split; nia.
Qed.

Lemma initial_stack_swap (ds1 ds2 : list DimensionInfo) :
  map swap (initial_stack ds1 ds2) = initial_stack ds2 ds1.
Proof.
  revert ds2. induction ds1 as [|d1 ds1 IH]; intros [|d2 ds2]; try done.
  cbn [initial_stack zip_with map swap DimensionInfoStack.m_pDivision1
       DimensionInfoStack.m_pDivision2 DimensionInfoStack.m_cNewDivisions].
  fold (initial_stack ds1 ds2). fold (initial_stack ds2 ds1).
  rewrite IH, rlen_comm. done.
Qed.

Lemma segments_top_swap (stack : list DimensionInfoStack.t) :
  segments_top (map swap stack) = segments_top stack.
Proof.
  induction stack as [|e stack IH]; [done |]. cbn [map segments_top foldr].
  fold (segments_top (map swap stack)). fold (segments_top stack). by rewrite IH.
Qed.

Lemma offset1_initial (ds1 ds2 : list DimensionInfo) (m : nat) :
  length ds1 = length ds2 ->
  m + offset1 (initial_stack ds1 ds2) ds1 m = m * segments ds1.
Proof.
  revert ds2 m. induction ds1 as [|d1 ds1 IH]; intros [|d2 ds2] m Hlen; try done.
  { cbn. lia. }
  cbn [initial_stack zip_with offset1 segments foldr DimensionInfoStack.m_pDivision1].
  fold (initial_stack ds1 ds2). fold (segments ds1).
  specialize (IH ds2 (m * (1 + m_cDivisions d1))). cbn [length] in Hlen. nia.
Qed.

Lemma offsetTop_initial (ds1 ds2 : list DimensionInfo) (m : nat) :
  m + offsetTop (initial_stack ds1 ds2) ds1 ds2 m = m * segments_top (initial_stack ds1 ds2).
Proof.
  revert ds2 m. induction ds1 as [|d1 ds1 IH]; intros [|d2 ds2] m; try (cbn; lia).
  cbn [initial_stack zip_with offsetTop segments_top foldr DimensionInfoStack.m_pDivision1
       DimensionInfoStack.m_pDivision2 DimensionInfoStack.m_cNewDivisions].
  fold (initial_stack ds1 ds2). fold (segments_top (initial_stack ds1 ds2)).
  specialize (IH ds2 (m * (1 + rlen (m_aDivisions d1) (m_aDivisions d2)
                                  (m_cDivisions d1) (m_cDivisions d2)))).
  nia.
Qed.

(** The value loops of [Add] on exchanged operands write the same cells. *)
Lemma Add_values_swap (fuel L : nat) (stack : list DimensionInfoStack.t)
    (ds1 ds2 : list DimensionInfo) (pV1 pV2 pTop : nat) (bufA bufB vals1 vals2 : list T)
    (N : nat) (rA rB : list DimensionInfoStack.t * nat * nat * list T) :
  (forall x y : T, score_add x y = score_add y x) ->
  valid_stack stack ds1 ds2 ->
  pV1 = L + offset1 stack ds1 L ->
  pV2 = L + offset1 (map swap stack) ds2 L ->
  pTop = L + offsetTop stack ds1 ds2 L ->
  (forall j, j < pTop -> j < length vals1 -> bufA !! j = vals1 !! j) ->
  (forall j, j < pTop -> j < length vals2 -> bufB !! j = vals2 !! j) ->
  (forall j, pTop <= j -> j < N -> bufA !! j = bufB !! j) ->
  Add_values fuel L stack ds1 ds2 pV1 pV2 pTop bufA vals2 = Some rA ->
  Add_values fuel L (map swap stack) ds2 ds1 pV2 pV1 pTop bufB vals1 = Some rB ->
  forall j, j < N -> rA.2 !! j = rB.2 !! j.
Proof.
  intros comm. revert stack pV1 pV2 pTop bufA bufB.
  induction fuel as [|fuel IH];
    intros stack pV1 pV2 pTop bufA bufB V H1 H2 HT IA IB IAB HA HB; [done |].
  cbn [Add_values] in HA, HB.
  bind HA. apply ptr_sub_Some in E as [GL ->].
  rewrite ?ptr_sub_le in HB by lia. cbn [mbind option_bind] in HB.
  bind HA. destruct x as [pTa a']. bind HB. destruct x as [pTb b'].
  destruct (offset1_le_offsetTop stack ds1 ds2 L L L V) as [O1 O2]; [lia | lia |].
  assert (pV1 <= pTop) as G1 by lia. assert (pV2 <= pTop) as G2 by lia.
  destruct (Add_cell_swap _ _ _ _ _ _ _ _ _ N _ _ _ _ comm G1 G2 IA IB IAB E E0)
    as (-> & -> & IA' & IB' & IAB').
  case_bool_decide as Hz.
  { injection HA as <-. injection HB as <-. cbn. intros j Hj. apply IAB'; lia. }
  bind HA. destruct x as [[s q1] q2].
  rewrite Add_next_swap, E1 in HB. cbn [mbind option_bind] in HB.
  destruct (Add_next_Some _ _ _ _ _ _ _ L _ _ _ V E1) as (V' & _ & Q1 & Q2 & QT).
  eapply (IH s q1 q2 (pTop - L)); [done | lia | lia | lia | | | | exact HA | exact HB];
    done.
Qed.

Lemma take_ext {A} (n : nat) (l k : list A) :
  (forall j, j < n -> l !! j = k !! j) -> take n l = take n k.
Proof.
  intros H. apply list_eq. intros j.
  destruct (decide (j < n)).
  - rewrite !lookup_take_lt by done. by apply H.
  - rewrite !lookup_take_ge by lia. done.
Qed.

Lemma Add_scores_swap (fuel p e : nat) (bufA bufB vals1 vals2 outA outB : list T) :
  (forall x y : T, score_add x y = score_add y x) ->
  (forall j, p <= j -> bufA !! j = vals1 !! j) ->
  (forall j, p <= j -> bufB !! j = vals2 !! j) ->
  (forall j, j < p -> bufA !! j = bufB !! j) ->
  Add_scores fuel p p e bufA vals2 = Some outA ->
  Add_scores fuel p p e bufB vals1 = Some outB ->
  forall j, j < e -> outA !! j = outB !! j.
Proof.
  intros comm. revert p bufA bufB.
  induction fuel as [|fuel IH]; intros p bufA bufB IA IB IAB HA HB; [done |].
  cbn [Add_scores] in HA, HB.
  bind HA. rename x into xa. rename E into Lxa.
  bind HA. rename x into ya. rename E into Lya.
  bind HA. apply store_Some in E as [SA ->].
  bind HB. rename x into xb. rename E into Lxb.
  rewrite ?Lxa in HB. cbn [mbind option_bind] in HB.
  bind HB. rename x into yb. rename E into Lyb.
  bind HB. apply store_Some in E as [SB ->].
  unfold load in *.
  assert (xa = yb) as -> by (rewrite IA in Lxa by lia; congruence).
  assert (xb = ya) as -> by (rewrite IB in Lxb by lia; congruence).
  rewrite (comm ya yb) in HB.
  assert (forall j, j < p + 1 ->
            <[p:=score_add yb ya]> bufA !! j = <[p:=score_add yb ya]> bufB !! j) as IAB'.
  { intros j Hj. destruct (decide (j = p)) as [-> | Hne].
    - by rewrite !list_lookup_insert_eq.
    - rewrite !list_lookup_insert_ne by lia. apply IAB; lia. }
  case_bool_decide as Hend.
  - eapply (IH (p + 1)); [| | | exact HA | exact HB]; try done.
    + intros j Hj. rewrite list_lookup_insert_ne by lia. apply IA; lia.
    + intros j Hj. rewrite list_lookup_insert_ne by lia. apply IB; lia.
  - injection HA as <-. injection HB as <-.
    assert (e = p + 1) as -> by (destruct (decide (e = p + 1)); [done | tauto]).
    done.
Qed.

Lemma segments_top_initial (ds1 ds2 dsR : list DimensionInfo) :
  Forall3 (fun d1 d2 dR =>
     m_cDivisions dR
     = rlen (m_aDivisions d1) (m_aDivisions d2) (m_cDivisions d1) (m_cDivisions d2)
     /\ divisions dR = reverse (rmerge (reverse (divisions d1)) (reverse (divisions d2))))
    ds1 ds2 dsR ->
  segments dsR = segments_top (initial_stack ds1 ds2)
  /\ map divisions dsR
     = zip_with (fun d1 d2 =>
         reverse (rmerge (reverse (divisions d1)) (reverse (divisions d2)))) ds1 ds2.
Proof.
  induction 1 as [|d1 d2 dR ds1 ds2 dsR [Hc Hd] F [IH1 IH2]]; [done |].
  cbn [segments segments_top initial_stack zip_with foldr map
       DimensionInfoStack.m_cNewDivisions].
  fold (segments dsR). fold (initial_stack ds1 ds2).
  fold (segments_top (initial_stack ds1 ds2)).
  rewrite IH1, IH2, Hc, Hd. done.
Qed.

Lemma zip_with_comm {A B} (f : A -> A -> B) (l k : list A) :
  (forall x y, f x y = f y x) -> zip_with f l k = zip_with f k l.
Proof.
  intros Hf. revert k. induction l as [|x l IH]; intros [|y k]; try done.
  cbn. by rewrite Hf, IH.
Qed.

(** C3: for well-formed tensors [A] and [B] with the same vector length
    and strictly increasing division sequences, and scores whose [+] is
    commutative, when [A.Add (B)] and [B.Add (A)] both succeed the two
    results have the same division sequence in every dimension and the
    same meaningful scores. *)
Theorem Add_commutes (A B R1 R2 : SegmentedTensor T) :
  (forall x y : T, score_add x y = score_add y x) ->
  well_formed A -> well_formed B ->
  m_cVectorLength A = m_cVectorLength B ->
  Forall (fun d => increasing (divisions d)) (active A) ->
  Forall (fun d => increasing (divisions d)) (active B) ->
  Add A B = Some (false, R1) -> Add B A = Some (false, R2) ->
  map divisions (active R1) = map divisions (active R2) /\ scores R1 = scores R2.
Proof.
  intros comm WA WB HL IA IB H1 H2.
  destruct (decide (0 = m_cDimensions A)) as [HD | HD].
  { unfold Add in H1, H2.
    bind H1. apply assert_Some, bool_decide_eq_true in E.
    rewrite bool_decide_eq_true_2 in H1 by done.
    bind H2. rewrite bool_decide_eq_true_2 in H2 by congruence.
    bind H1. bind H1. rename x into out1. injection H1 as <-.
    bind H2. bind H2. rename x into out2. injection H2 as <-.
    unfold scores, active. cbn [with_values m_cDimensions m_aDimensions m_cVectorLength
                                m_aValues].
    rewrite <- E, <- HD, !take_0. split; [done |]. cbn [segments foldr].
    rewrite <- HL in *. rewrite Nat.mul_1_r. apply take_ext.
    eapply (Add_scores_swap _ 0); [exact comm | | | | exact E2 | exact E4]; try done.
    intros; lia. }
  destruct (Add_result _ _ _ WA WB IA IB HD H1)
    as (a & sA & HDD & V & HpreA & HvalA & HD1 & HL1 & F1).
  assert (0 <> m_cDimensions B) as HD' by congruence.
  destruct (Add_result _ _ _ WB WA IB IA HD' H2)
    as (b & sB & _ & _ & HpreB & HvalB & HD2 & HL2 & F2).
  destruct (segments_top_initial _ _ _ F1) as [S1 M1].
  destruct (segments_top_initial _ _ _ F2) as [S2 M2].
  split.
  { rewrite M1, M2. apply zip_with_comm. intros d1 d2. by rewrite rmerge_comm. }
  unfold scores. rewrite S1, S2, HL1, HL2, <- HL.
  rewrite <- (initial_stack_swap (active A) (active B)), segments_top_swap.
  rewrite <- HL, <- (initial_stack_swap (active A) (active B)), segments_top_swap
    in HvalB, HpreB.
  set (L := m_cVectorLength A) in *.
  set (stack := initial_stack (active A) (active B)) in *.
  pose proof (well_formed_segments _ WA) as BA.
  pose proof (well_formed_segments _ WB) as BB. rewrite <- HL in BB. fold L in BA, BB.
  rewrite size_mul_small in HvalA, HvalB by done.
  assert (length (active A) = length (active B)) as Hlen.
  { unfold active. rewrite !length_take, <- HDD.
    pose proof (wf_dimensions _ WA). pose proof (wf_dimensions _ WB). lia. }
  apply take_ext. intros j Hj.
  apply (Add_values_swap (segments_top stack) L stack (active A) (active B)
           (L * segments (active A)) (L * segments (active B)) (L * segments_top stack)
           a b (m_aValues A) (m_aValues B)
           (L * segments_top stack) (sA, L, L, m_aValues R1) (sB, L, L, m_aValues R2)
           comm V); [| | | | | | exact HvalA | exact HvalB | exact Hj].
  - symmetry. by apply offset1_initial.
  - unfold stack. rewrite initial_stack_swap. symmetry. by apply offset1_initial.
  - symmetry. apply offsetTop_initial.
  - exact HpreA.
  - exact HpreB.
  - intros; lia.
Qed.

End AddProperties.

(** Addition of doubles is commutative. *)
Lemma double_add_comm (x y : float) : PrimFloat.add x y = PrimFloat.add y x.
Proof.
  apply Prim2SF_inj. rewrite !add_spec. unfold SF64add.
  destruct (Prim2SF x) as [[]|[]| |[] mx ex], (Prim2SF y) as [[]|[]| |[] my ey];
    try reflexivity; cbn [SFadd]; rewrite Z.min_comm, Z.add_comm; reflexivity.
Qed.

Lemma scenario_D_A_well_formed (grants : nat -> bool) (fd : nat) :
  well_formed (PF := lp64 grants fd) scenario_D_A.
Proof.
  split.
  - vm_compute; lia.
  - vm_compute; lia.
  - repeat constructor; vm_compute; lia.
  - reflexivity.
  - vm_compute; lia.
  - vm_compute. discriminate.
Qed.

Lemma scenario_D_B_well_formed (grants : nat -> bool) (fd : nat) :
  well_formed (PF := lp64 grants fd) scenario_D_B.
Proof.
  split.
  - vm_compute; lia.
  - vm_compute; lia.
  - repeat constructor; vm_compute; lia.
  - reflexivity.
  - vm_compute; lia.
  - vm_compute. discriminate.
Qed.

Lemma scenario_D_A_increasing :
  Forall (fun d => increasing (divisions d)) (active scenario_D_A).
Proof. repeat constructor. Qed.

Lemma scenario_D_B_increasing :
  Forall (fun d => increasing (divisions d)) (active scenario_D_B).
Proof. repeat constructor. Qed.

Lemma Add_divisions_sorted_union_witness :
  exists R,
    Add (PF := lp64 roomy 0) (SC := double_scores 0) scenario_D_A scenario_D_B
      = Some (false, R)
    /\ Forall3 (fun d1 d2 dR => sorted_union (divisions d1) (divisions d2) (divisions dR))
         (active scenario_D_A) (active scenario_D_B) (active R).
Proof.
  eexists. split; [vm_compute; reflexivity |].
  apply (Add_divisions_sorted_union (PF := lp64 roomy 0) (SC := double_scores 0)
           scenario_D_A scenario_D_B _
           (scenario_D_A_well_formed roomy 0) (scenario_D_B_well_formed roomy 0)
           scenario_D_A_increasing scenario_D_B_increasing).
  vm_compute. reflexivity.
Defined.

Lemma Add_commutes_witness :
  exists R1 R2,
    Add (PF := lp64 roomy 0) (SC := double_scores 0) scenario_D_A scenario_D_B
      = Some (false, R1)
    /\ Add (PF := lp64 roomy 0) (SC := double_scores 0) scenario_D_B scenario_D_A
      = Some (false, R2)
    /\ map divisions (active R1) = map divisions (active R2)
    /\ scores R1 = scores R2.
Proof.
  eexists _, _. split; [vm_compute; reflexivity |]. split; [vm_compute; reflexivity |].
  apply (Add_commutes (PF := lp64 roomy 0) (SC := double_scores 0)
           scenario_D_A scenario_D_B _ _ double_add_comm
           (scenario_D_A_well_formed roomy 0) (scenario_D_B_well_formed roomy 0)
           eq_refl scenario_D_A_increasing scenario_D_B_increasing).
  - vm_compute. reflexivity.
  - vm_compute. reflexivity.
Defined.

(** ** Allocate, Reset, EnsureValueCapacity, Multiply, Copy, AddExpanded, IsEqual *)

Section MoreTensorProperties.
Context `{PF : Platform} {T : Type} `{SC : Scores T}.

Lemma Reset_dimensions_total (todo i : nat) (ds : list DimensionInfo) :
  i + todo <= length ds -> is_Some (Reset_dimensions todo i ds).
Proof.
  revert i ds. induction todo as [|todo IH]; intros i ds H; [by eexists |].
  cbn [Reset_dimensions]. unfold load.
  destruct (lookup_lt_is_Some_2 ds i) as [d Hd]; [lia |]. rewrite Hd. cbn [mbind option_bind].
  unfold store. rewrite decide_True by lia. cbn [mbind option_bind].
  apply IH. rewrite length_insert. lia.
Qed.

(** X1: [Reset] is idempotent: whenever it returns, running it again on
    the result returns the same tensor. *)
Theorem Reset_idempotent (t r : SegmentedTensor T) :
  Reset t = Some r -> Reset r = Some r.
Proof.
  intros H. unfold Reset in H. bind H. rename x into ds. bind H. rename x into a.
  injection H as <-. unfold memset_zero in E0. case_decide as HL; [| done].
  injection E0 as <-.
  pose proof (Reset_dimensions_Some _ _ _ _ E) as (Hlen & Hin & Hlk).
  unfold Reset.
  cbn [m_cDimensions m_aDimensions m_aValues m_cVectorLength m_cValueCapacity
       m_cDimensionsMax].
  destruct (Reset_dimensions_total (m_cDimensions t) 0 ds) as [ds' Hds'].
  { destruct Hin as [-> | ?]; lia. }
  rewrite Hds'. cbn [mbind option_bind].
  pose proof (Reset_dimensions_Some _ _ _ _ Hds') as (Hlen' & _ & Hlk').
  assert (ds' = ds) as ->.
  { apply list_eq. intros j. rewrite Hlk', Hlk. case_bool_decide; [| done].
    by destruct (m_aDimensions t !! j). }
  unfold memset_zero. rewrite decide_True; cycle 1.
  { rewrite length_app, length_replicate, length_drop. lia. }
  cbn [mbind option_bind]. do 2 f_equal.
  rewrite drop_app_length'; [done | by rewrite length_replicate].
Qed.

(** X2: [EnsureValueCapacity (c)].  With enough capacity nothing changes.
    A failure leaves the tensor as it was.  After a success that had to
    grow, the capacity is [c + c/2], the buffer has that many cells and
    every cell of the old buffer keeps its content; nothing but the score
    buffer and its capacity changes.  When [c + c/2] or its size in bytes
    overflows, or the allocator refuses, the call fails. *)
Theorem EnsureValueCapacity_spec (c : nat) (t : SegmentedTensor T) :
  (c <= m_cValueCapacity t -> EnsureValueCapacity c t = Some (false, t))
  /\ (forall t', EnsureValueCapacity c t = Some (true, t') -> t' = t)
  /\ (forall t', EnsureValueCapacity c t = Some (false, t') ->
        m_cValueCapacity t < c ->
        t' = with_values (c + c / 2) (m_aValues t') t
        /\ length (m_aValues t') = c + c / 2
        /\ (forall j x, m_aValues t !! j = Some x -> j < c + c / 2 ->
              m_aValues t' !! j = Some x))
  /\ (m_cValueCapacity t < c -> m_bExpanded t = false ->
      IsAddError c (c / 2) || IsMultiplyError sizeof_TValues (c + c / 2)
      || negb (heap_grants (sizeof_TValues * (c + c / 2))) = true ->
      EnsureValueCapacity c t = Some (true, t)).
Proof.
  unfold EnsureValueCapacity. split; [| split; [| split]].
  - intros H. by rewrite bool_decide_eq_false_2 by lia.
  - intros t' H. case_bool_decide; [| congruence].
    bind H. destruct (IsAddError _ _); [congruence |].
    destruct (IsMultiplyError _ _); [congruence |].
    destruct (heap_grants _); cbn [negb] in H; congruence.
  - intros t' H Hgrow. rewrite bool_decide_eq_true_2 in H by done.
    bind H. destruct (IsAddError _ _); [congruence |].
    destruct (IsMultiplyError _ _); [congruence |].
    destruct (heap_grants _); cbn [negb] in H; [| congruence].
    injection H as <-. cbn [with_values m_aValues]. split; [done |].
    split; [apply length_realloc |].
    intros j x Hx Hj. by apply realloc_lookup.
  - intros Hgrow Hexp Hov. rewrite bool_decide_eq_true_2 by done. rewrite Hexp.
    cbn [negb assert mbind option_bind].
    destruct (IsAddError _ _); [done |]. destruct (IsMultiplyError _ _); [done |].
    cbn [orb] in Hov. by rewrite Hov.
Qed.

Lemma Allocate_dimensions_is_Some (n : nat) :
  is_Some (Allocate_dimensions n) <-> n = 0 \/ heap_grants (sizeof_TDivisions * 1) = true.
Proof.
  induction n as [|n IH]; cbn [Allocate_dimensions].
  - split; [by left | by eexists].
  - destruct (heap_grants _).
    + split; [by right |]. intros _.
      destruct IH as [_ [ds ->]]; [by right |]. by eexists.
    + split; [by intros [? ?] | intros [? | ?]; done].
Qed.

(** X3: when [Allocate] may be called ([Dmax <= k_cDimensionsMax],
    [1 <= L]) it always returns, and it returns [nullptr] exactly when
    [2 L] or its size in bytes overflows, or the allocator refuses the
    struct, the score buffer or, with at least one dimension, a division
    buffer. *)
Theorem Allocate_nullptr (cDimensionsMax cVectorLength : nat) :
  cDimensionsMax <= k_cDimensionsMax -> 1 <= cVectorLength ->
  let region :=
    size_add (size_sub sizeof_SegmentedTensor sizeof_DimensionInfo)
             (size_mul sizeof_DimensionInfo cDimensionsMax) in
  (exists r, Allocate (T := T) cDimensionsMax cVectorLength = Some r)
  /\ (Allocate (T := T) cDimensionsMax cVectorLength = Some None <->
      IsMultiplyError cVectorLength 2 = true
      \/ IsMultiplyError sizeof_TValues (cVectorLength * 2) = true
      \/ heap_grants region = false
      \/ heap_grants (sizeof_TValues * (cVectorLength * 2)) = false
      \/ (0 < cDimensionsMax /\ heap_grants (sizeof_TDivisions * 1) = false)).
Proof.
  intros HD HL region. unfold Allocate. fold region.
  rewrite !bool_decide_eq_true_2 by done. cbn [assert mbind option_bind].
  destruct (IsMultiplyError cVectorLength 2); [split; [by eexists | tauto] |].
  destruct (IsMultiplyError sizeof_TValues _); [split; [by eexists | tauto] |].
  destruct (heap_grants region); cbn [negb]; [| split; [by eexists | tauto]].
  destruct (heap_grants (sizeof_TValues * _)); cbn [negb]; [| split; [by eexists | tauto]].
  pose proof (Allocate_dimensions_is_Some cDimensionsMax) as HA.
  destruct (Allocate_dimensions cDimensionsMax) as [ds|].
  - split; [by eexists |]. split; [done |].
    intros [? | [? | [? | [? | [Hpos Hg]]]]]; try done.
    destruct HA as [[-> | Hg'] _]; [by eexists | lia | congruence].
  - split; [by eexists |]. split; [| done]. intros _.
    do 4 right. destruct (heap_grants (sizeof_TDivisions * 1)).
    + destruct HA as [_ [? ?]]; [by right | done].
    + split; [| done]. destruct cDimensionsMax; [| lia].
      destruct HA as [_ [? ?]]; [by left | done].
Qed.

(** X4: the tensor [Allocate] returns satisfies the invariants of the data
    model (when one division cell takes fewer than [size_max] bytes): it
    has [Dmax] active dimensions without divisions, each with a one-cell
    buffer, [2 L] score cells of which the first [L] are zero, and it is
    not expanded. *)
Theorem Allocate_well_formed (cDimensionsMax cVectorLength : nat) (t : SegmentedTensor T) :
  (N.of_nat sizeof_TDivisions < size_max)%N ->
  Allocate cDimensionsMax cVectorLength = Some (Some t) ->
  well_formed t
  /\ m_cDimensions t = cDimensionsMax
  /\ m_cDimensionsMax t = cDimensionsMax
  /\ m_cVectorLength t = cVectorLength
  /\ m_cValueCapacity t = cVectorLength * 2
  /\ m_bExpanded t = false
  /\ Forall (fun d => m_cDivisions d = 0 /\ m_cDivisionCapacity d = 1) (active t)
  /\ scores t = replicate cVectorLength score_zero.
Proof.
  intros Hsz H. unfold Allocate in H.
  bind H. apply assert_Some, bool_decide_eq_true in E.
  bind H. apply assert_Some, bool_decide_eq_true in E0.
  destruct (IsMultiplyError cVectorLength 2) eqn:M1; [done |].
  destruct (IsMultiplyError sizeof_TValues _) eqn:M2; [done |].
  apply IsMultiplyError_false in M1, M2.
  destruct (heap_grants _); cbn [negb] in H; [| done].
  destruct (heap_grants _); cbn [negb] in H; [| done].
  destruct (Allocate_dimensions cDimensionsMax) as [ds|] eqn:A; [| done].
  apply Allocate_dimensions_Some in A. injection H as <-.
  assert (length ds = cDimensionsMax) as Hlen by (by rewrite A, length_replicate).
  assert (Forall (fun d => m_cDivisions d = 0 /\ m_cDivisionCapacity d = 1
                           /\ length (m_aDivisions d) = 1) ds) as Hds.
  { rewrite A. apply Forall_replicate. done. }
  clear A.
  assert (forall cap (a : list T), active {| m_cValueCapacity := cap;
                    m_cVectorLength := cVectorLength;
                    m_cDimensionsMax := cDimensionsMax;
                    m_cDimensions := cDimensionsMax;
                    m_aValues := a;
                    m_bExpanded := false;
                    m_aDimensions := ds |} = ds) as Hact.
  { intros cap a. unfold active. cbn [m_cDimensions m_aDimensions].
    rewrite take_ge; [done | lia]. }
  rewrite Hact.
  assert (segments ds = 1) as Hseg.
  { apply segments_zero. eapply Forall_impl; [exact Hds |]. by intros d [? _]. }
  split; [| repeat split].
  - split; rewrite ?Hact;
      cbn [m_cVectorLength m_cDimensions m_aDimensions m_cValueCapacity m_aValues].
    + done.
    + lia.
    + eapply Forall_impl; [exact Hds |]. intros d (HK & Hcap & Hl).
      repeat split; [lia | lia |]. rewrite Hl, Nat.mul_1_r. done.
    + rewrite length_app, !length_replicate. lia.
    + rewrite Hseg, length_app, !length_replicate. lia.
    + rewrite length_app, !length_replicate.
      replace (cVectorLength + (cVectorLength * 2 - cVectorLength))
        with (cVectorLength * 2) by lia. done.
  - eapply Forall_impl; [exact Hds |]. by intros d (? & ? & _).
  - unfold scores. rewrite Hact, Hseg. cbn [m_cVectorLength m_aValues].
    rewrite Nat.mul_1_r. rewrite take_app_length'; [done | by rewrite length_replicate].
Qed.

Lemma Multiply_count_Some (todo i : nat) (ds : list DimensionInfo) (c : nat) :
  i + todo <= length ds ->
  (N.of_nat (c * segments (take todo (drop i ds))) <= size_max)%N ->
  1 <= c ->
  Multiply_count todo i ds c = Some (c * segments (take todo (drop i ds))).
Proof.
  revert i c. induction todo as [|todo IH]; intros i c Hlen Hb Hc.
  - rewrite take_0. cbn. f_equal. lia.
  - destruct (lookup_lt_is_Some_2 ds i) as [d Hd]; [lia |].
    rewrite (drop_S _ _ _ Hd) in Hb |- *. rewrite firstn_cons in Hb |- *.
    cbn [segments foldr] in Hb |- *. fold (segments (take todo (drop (S i) ds))) in Hb |- *.
    pose proof (segments_pos (take todo (drop (S i) ds))) as Hpos.
    cbn [Multiply_count]. unfold load. rewrite Hd. cbn [mbind option_bind].
    rewrite size_add_small by nia.
    rewrite (proj2 (IsMultiplyError_false _ _)) by nia. cbn [negb assert mbind option_bind].
    rewrite (Nat.add_1_r i). rewrite IH; [f_equal; lia | lia | | lia].
    rewrite <- Nat.mul_assoc. done.
Qed.

Lemma Multiply_cells_Some (fuel : nat) (v : T) (p e : nat) (a : list T) :
  p < e -> e <= length a -> e - p <= fuel ->
  exists a', Multiply_cells fuel v p e a = Some a'
    /\ length a' = length a
    /\ forall j, a' !! j
         = if bool_decide (p <= j < e) then (fun x => score_mul x v) <$> a !! j
           else a !! j.
Proof.
  revert p a. induction fuel as [|fuel IH]; intros p a Hp He Hf; [lia |].
  cbn [Multiply_cells]. unfold load, store.
  destruct (lookup_lt_is_Some_2 a p) as [x Hx]; [lia |]. rewrite Hx.
  cbn [mbind option_bind]. rewrite decide_True by lia. cbn [mbind option_bind].
  case_bool_decide as Hend.
  - destruct (IH (p + 1) (<[p:=score_mul x v]> a)) as (a' & -> & Hlen & Hlk);
      [lia | by rewrite length_insert | lia |].
    exists a'. split; [done |]. rewrite length_insert in Hlen. split; [done |].
    intros j. rewrite Hlk. destruct (decide (j = p)) as [-> | Hne].
    + rewrite bool_decide_eq_false_2 by lia. rewrite bool_decide_eq_true_2 by lia.
      rewrite list_lookup_insert_eq by lia. by rewrite Hx.
    + rewrite list_lookup_insert_ne by done. repeat case_bool_decide; try done; lia.
  - exists (<[p:=score_mul x v]> a). split; [done |]. split; [by rewrite length_insert |].
    assert (e = p + 1) as -> by (destruct (decide (e = p + 1)); [done | tauto]).
    intros j. destruct (decide (j = p)) as [-> | Hne].
    + rewrite bool_decide_eq_true_2 by lia. rewrite list_lookup_insert_eq by lia.
      by rewrite Hx.
    + rewrite list_lookup_insert_ne by done. rewrite bool_decide_eq_false_2 by lia. done.
Qed.

Lemma well_formed_with_values (t : SegmentedTensor T) (a : list T) :
  well_formed t -> length a = length (m_aValues t) ->
  well_formed (with_values (m_cValueCapacity t) a t).
Proof.
  intros [W1 W2 W3 W4 W5 W6] Hlen. split; cbn; rewrite ?Hlen; done.
Qed.

(** X5: on a well-formed tensor [Multiply (v)] returns; it multiplies each
    of the [L * prod (K_i + 1)] meaningful scores by [v] and changes
    nothing else: the dimensions, the cells of the score buffer past the
    meaningful ones and the invariants of the data model stay. *)
Theorem Multiply_scales (v : T) (t : SegmentedTensor T) :
  well_formed t ->
  exists a,
    Multiply v t = Some (with_values (m_cValueCapacity t) a t)
    /\ scores (with_values (m_cValueCapacity t) a t)
       = (fun x => score_mul x v) <$> scores t
    /\ drop (m_cVectorLength t * segments (active t)) a
       = drop (m_cVectorLength t * segments (active t)) (m_aValues t)
    /\ well_formed (with_values (m_cValueCapacity t) a t).
Proof.
  intros W. pose proof W as [W1 W2 W3 W4 W5 W6].
  pose proof (well_formed_segments t W) as Hb.
  pose proof (segments_pos (active t)) as Hpos.
  unfold Multiply. rewrite (Multiply_count_Some _ 0); rewrite ?drop_0; [| lia | | lia].
  2: { fold (active t). nia. }
  fold (active t). cbn [mbind option_bind]. rewrite Nat.mul_1_l.
  rewrite size_mul_small by (rewrite Nat.mul_comm; done).
  destruct (Multiply_cells_Some (segments (active t) * m_cVectorLength t) v 0
              (segments (active t) * m_cVectorLength t) (m_aValues t))
    as (a & -> & Hlen & Hlk); [nia | lia | lia |].
  cbn [mbind option_bind]. exists a. split; [done |].
  replace (segments (active t) * m_cVectorLength t)
    with (m_cVectorLength t * segments (active t)) in Hlk by lia.
  split; [| split].
  - unfold scores, active. cbn [with_values m_cVectorLength m_cDimensions m_aDimensions
                                m_aValues].
    fold (active t). apply list_eq. intros j. rewrite list_lookup_fmap.
    destruct (decide (j < m_cVectorLength t * segments (active t))).
    + rewrite !lookup_take_lt by done. rewrite Hlk.
      by rewrite bool_decide_eq_true_2 by lia.
    + rewrite !lookup_take_ge by lia. done.
  - apply list_eq. intros j. rewrite !lookup_drop, Hlk.
    by rewrite bool_decide_eq_false_2 by lia.
  - by apply well_formed_with_values.
Qed.

Lemma SetCountDivisions_count (i c : nat) (t t' : SegmentedTensor T) :
  SetCountDivisions i c t = Some (false, t') ->
  exists d', t' = with_dimensions (<[i:=d']> (m_aDimensions t)) t
    /\ i < m_cDimensions t /\ i < length (m_aDimensions t) /\ m_cDivisions d' = c.
Proof.
  intros H. unfold SetCountDivisions in H.
  bind H. apply assert_Some, bool_decide_eq_true in E.
  bind H. rename x into d. bind H.
  case_bool_decide as Hgrow.
  - bind H.
    destruct (IsAddError _ _); [done |]. destruct (IsMultiplyError _ _); [done |].
    destruct (heap_grants _); cbn [negb] in H; [| done].
    bind H. apply store_Some in E3 as [Hi ->]. injection H as <-.
    eexists. split; [reflexivity |]. done.
  - bind H. apply store_Some in E2 as [Hi ->]. injection H as <-.
    eexists. split; [reflexivity |]. done.
Qed.

Lemma memcpy_Some {A} (dst src out : list A) (n : nat) :
  memcpy dst src n = Some out <->
  n <= length dst /\ n <= length src /\ out = take n src ++ drop n dst.
Proof.
  unfold memcpy. case_decide; split; intros; destruct_and?; simplify_eq; auto; tauto.
Qed.

(** The dimensions [Copy] leaves: the counts and the division sequences of
    [rhs]; the loop yields the number of scores of [rhs]. *)
Lemma Copy_dimensions_Some (todo i : nat) (ds2 : list DimensionInfo) (c c' : nat)
    (t t' : SegmentedTensor T) :
  (forall j d2, i <= j < i + todo -> ds2 !! j = Some d2 ->
     (N.of_nat (m_cDivisions d2) < size_max)%N) ->
  Copy_dimensions todo i ds2 c t = Some (false, c', t') ->
  m_cDimensions t' = m_cDimensions t
  /\ m_cVectorLength t' = m_cVectorLength t
  /\ m_cValueCapacity t' = m_cValueCapacity t
  /\ m_aValues t' = m_aValues t
  /\ m_bExpanded t' = m_bExpanded t
  /\ (todo = 0 \/ i + todo <= m_cDimensions t)
  /\ c' = c * segments (take todo (drop i ds2))
  /\ (forall j, j < i -> m_aDimensions t' !! j = m_aDimensions t !! j)
  /\ (forall j, i <= j < i + todo ->
        exists d2 d', ds2 !! j = Some d2 /\ m_aDimensions t' !! j = Some d'
          /\ same_dimension d' d2).
Proof.
  revert i c t. induction todo as [|todo IH]; intros i c t Hb H.
  { cbn in H. injection H as <- <-. rewrite take_0. cbn.
    repeat split; try done; [by left | lia | intros; lia]. }
  cbn [Copy_dimensions] in H. bind H. rename x into d2. unfold load in E.
  bind H. apply assert_Some, negb_true_iff, IsMultiplyError_false in E0.
  bind H. destruct x as [[] t1]; [done |].
  apply SetCountDivisions_count in E1 as (d' & -> & HiD & Hi & Hc).
  bind H. bind H. rename x into d1. bind H. rename x into a. bind H.
  cbn [with_dimensions m_aDimensions] in E2, E4. unfold load in E2.
  rewrite list_lookup_insert_eq in E2 by done. injection E2 as <-.
  apply memcpy_Some in E3 as (Hl1 & Hl2 & ->).
  apply store_Some in E4 as [_ ->]. rewrite list_insert_insert_eq in H.
  pose proof (Hb i d2 ltac:(lia) E) as Hbd.
  rewrite size_add_small in E0, H by lia.
  apply IH in H; cycle 1.
  { intros j d2' Hj. apply Hb. lia. }
  cbn [with_dimensions m_aDimensions m_cDimensions m_cVectorLength m_aValues
       m_cValueCapacity m_bExpanded] in H.
  destruct H as (HD & HL & Hcap & Hval & Hexp & Hbound & Hc' & Hlow & Hhigh).
  split; [done |]. split; [done |]. split; [done |]. split; [done |]. split; [done |].
  split; [right; lia |]. split.
  { rewrite (drop_S _ _ _ E), firstn_cons. cbn [segments foldr].
    fold (segments (take todo (drop (S i) ds2))).
    rewrite Hc'. rewrite (Nat.add_1_r i). lia. }
  split.
  { intros j Hj. rewrite Hlow by lia. by rewrite list_lookup_insert_ne by lia. }
  intros j Hj. destruct (decide (j = i)) as [-> | Hne].
  - exists d2. eexists. split; [done |]. rewrite Hlow by lia.
    rewrite list_lookup_insert_eq by done. split; [reflexivity |].
    unfold same_dimension, divisions. cbn [set_aDivisions m_cDivisions m_aDivisions].
    rewrite Hc. rewrite length_app, length_take, length_drop.
    repeat split; [lia | lia |].
    rewrite take_app_length'; [done |]. rewrite length_take. lia.
  - apply Hhigh. lia.
Qed.

Lemma segments_same (l k : list DimensionInfo) :
  Forall2 same_dimension l k -> segments l = segments k.
Proof.
  induction 1 as [|d1 d2 l k (Hk & _) _ IH]; [done |].
  cbn [segments foldr]. fold (segments l). fold (segments k). by rewrite Hk, IH.
Qed.

(** X6: a successful [Copy] of a well-formed [rhs] with the same vector
    length leaves a tensor with the dimension count, the division
    sequences, the meaningful scores and the expanded flag of [rhs]; when
    no score of [rhs] differs from itself under [!=], [IsEqual] then finds
    the copy equal to [rhs]. *)
Theorem Copy_agrees (this rhs t' : SegmentedTensor T) :
  well_formed rhs ->
  m_cVectorLength this = m_cVectorLength rhs ->
  Copy this rhs = Some (false, t') ->
  m_cDimensions t' = m_cDimensions rhs
  /\ m_cVectorLength t' = m_cVectorLength rhs
  /\ map divisions (active t') = map divisions (active rhs)
  /\ scores t' = scores rhs
  /\ m_bExpanded t' = m_bExpanded rhs
  /\ (Forall (fun x => score_neq x x = false) (scores rhs) -> IsEqual t' rhs = Some true).
Proof.
  intros W HL H. unfold Copy in H.
  bind H. apply assert_Some, bool_decide_eq_true in E.
  bind H. destruct x as [[[] cValues] t1]; [done |].
  apply Copy_dimensions_Some in E0; cycle 1.
  { intros j d2 Hj Hd2. pose proof (wf_divisions _ W) as F. rewrite Forall_forall in F.
    destruct (F d2) as (HK & _ & Hb).
    - apply (list_elem_of_lookup_2 _ j). unfold active. rewrite lookup_take_lt by lia. done.
    - pose proof sizeof_TDivisions_wide. nia. }
  destruct E0 as (HD & HL1 & Hcap & Hval & Hexp & Hbound & -> & _ & Hdims).
  rewrite drop_0 in H.
  assert (take (m_cDimensions this) (m_aDimensions rhs) = active rhs) as Hrhs.
  { unfold active. by rewrite E. }
  rewrite Hrhs in H.
  bind H. destruct x as [[] t2]; [done |].
  bind H. bind H. rename x into a. injection H as <-.
  apply memcpy_Some in E2 as (Hl1 & Hl2 & ->).
  assert (exists cap a2, t2 = with_values cap a2 t1) as (cap & a2 & ->).
  { unfold EnsureValueCapacity in E0. case_bool_decide.
    - bind E0. destruct (IsAddError _ _); [done |]. destruct (IsMultiplyError _ _); [done |].
      destruct (heap_grants _); cbn [negb] in E0; [| done]. injection E0 as <-.
      by eexists _, _.
    - injection E0 as <-. exists (m_cValueCapacity t1), (m_aValues t1). by destruct t1. }
  cbn [with_expanded with_values m_cDimensions m_cVectorLength m_aDimensions m_aValues
       m_bExpanded m_cValueCapacity] in *.
  assert (Forall2 same_dimension (take (m_cDimensions rhs) (m_aDimensions t1)) (active rhs))
    as Hsame.
  { unfold active. apply Forall2_same_length_lookup. split.
    - rewrite !length_take. pose proof (wf_dimensions _ W) as HdR.
      destruct (decide (m_cDimensions this = 0)) as [Hz | Hnz]; [lia |].
      destruct (Hdims (m_cDimensions this - 1)) as (d2 & d' & _ & Hd' & _); [lia |].
      apply lookup_lt_Some in Hd'. lia.
    - intros j d' d2 Hd' Hd2.
      pose proof (lookup_lt_Some _ _ _ Hd2) as Hj. rewrite length_take in Hj.
      rewrite lookup_take_lt in Hd', Hd2 by lia.
      destruct (Hdims j) as (d2' & d'' & ? & ? & ?); [lia |]. congruence. }
  assert (active (with_expanded (m_bExpanded rhs)
            (with_values cap (take (m_cVectorLength this * segments (active rhs))
                                (m_aValues rhs)
                              ++ drop (m_cVectorLength this * segments (active rhs)) a2)
               (with_values cap a2 t1)))
          = take (m_cDimensions rhs) (m_aDimensions t1)) as Hact.
  { unfold active. cbn. by rewrite HD, E. }
  assert (scores (with_expanded (m_bExpanded rhs)
            (with_values cap (take (m_cVectorLength this * segments (active rhs))
                                (m_aValues rhs)
                              ++ drop (m_cVectorLength this * segments (active rhs)) a2)
               (with_values cap a2 t1)))
          = scores rhs) as Hsc.
  { unfold scores at 1. rewrite Hact, (segments_same _ _ Hsame). cbn.
    rewrite HL1, HL. unfold scores.
    rewrite take_app_length'; [done |]. rewrite length_take. rewrite HL in Hl2. lia. }
  split; [congruence |]. split; [congruence |]. split.
  { rewrite Hact. clear -Hsame. induction Hsame as [|d1 d2 l k (_ & _ & _ & Hd) _ IH]; [done |].
    cbn. by rewrite Hd, IH. }
  split; [done |]. split; [done |].
  intros Hrefl. apply IsEqual_same.
  - cbn. congruence.
  - rewrite Hact. cbn. rewrite HD, E. rewrite (Forall2_length _ _ _ Hsame).
    unfold active. rewrite length_take. pose proof (wf_dimensions _ W). lia.
  - by rewrite Hact.
  - cbn. rewrite HL1, HL. by apply wf_vector.
  - rewrite Hact, (segments_same _ _ Hsame). cbn. rewrite HL1, HL.
    by apply well_formed_segments.
  - rewrite Hsc, Hact, (segments_same _ _ Hsame). cbn. rewrite HL1, HL.
    unfold scores. rewrite length_take. pose proof (wf_values _ W). lia.
  - rewrite Hsc, Hact, (segments_same _ _ Hsame). cbn. rewrite HL1, HL.
    fold (scores rhs). apply Forall2_same_length_lookup. split; [done |].
    intros j x y Hx Hy. rewrite Forall_forall in Hrefl.
    assert (x = y) as -> by congruence. apply Hrefl. by eapply list_elem_of_lookup_2.
Qed.

Lemma AddExpanded_count_Some (todo i : nat) (ds : list DimensionInfo) (c : nat) :
  i + todo <= length ds ->
  (N.of_nat (c * segments (take todo (drop i ds))) <= size_max)%N ->
  1 <= c ->
  AddExpanded_count todo i ds c = Some (c * segments (take todo (drop i ds))).
Proof.
  revert i c. induction todo as [|todo IH]; intros i c Hlen Hb Hc.
  - rewrite take_0. cbn. f_equal. lia.
  - destruct (lookup_lt_is_Some_2 ds i) as [d Hd]; [lia |].
    rewrite (drop_S _ _ _ Hd) in Hb |- *. rewrite firstn_cons in Hb |- *.
    cbn [segments foldr] in Hb |- *. fold (segments (take todo (drop (S i) ds))) in Hb |- *.
    pose proof (segments_pos (take todo (drop (S i) ds))) as Hpos.
    cbn [AddExpanded_count]. unfold load. rewrite Hd. cbn [mbind option_bind].
    rewrite size_add_small by nia. rewrite size_mul_small by nia.
    rewrite (Nat.add_1_r i). rewrite IH; [f_equal; lia | lia | | lia].
    rewrite <- Nat.mul_assoc. done.
Qed.

Lemma AddExpanded_scores_Some (fuel p e : nat) (from a : list T) :
  p < e -> e <= length a -> e <= length from -> e - p <= fuel ->
  exists a', AddExpanded_scores fuel p p e from a = Some a'
    /\ length a' = length a
    /\ forall j, a' !! j
         = if bool_decide (p <= j < e)
           then x ← a !! j; y ← from !! j; Some (score_add x y)
           else a !! j.
Proof.
  revert p a. induction fuel as [|fuel IH]; intros p a Hp He Hfrom Hf; [lia |].
  cbn [AddExpanded_scores]. unfold load, store.
  destruct (lookup_lt_is_Some_2 a p) as [x Hx]; [lia |]. rewrite Hx.
  destruct (lookup_lt_is_Some_2 from p) as [y Hy]; [lia |]. rewrite Hy.
  cbn [mbind option_bind]. rewrite decide_True by lia. cbn [mbind option_bind].
  case_bool_decide as Hend.
  - destruct (IH (p + 1) (<[p:=score_add x y]> a)) as (a' & -> & Hlen & Hlk);
      [lia | by rewrite length_insert | lia | lia |].
    exists a'. split; [done |]. rewrite length_insert in Hlen. split; [done |].
    intros j. rewrite Hlk. destruct (decide (j = p)) as [-> | Hne].
    + rewrite bool_decide_eq_false_2 by lia. rewrite bool_decide_eq_true_2 by lia.
      rewrite list_lookup_insert_eq by lia. by rewrite Hx, Hy.
    + rewrite list_lookup_insert_ne by done. repeat case_bool_decide; try done; lia.
  - exists (<[p:=score_add x y]> a). split; [done |]. split; [by rewrite length_insert |].
    assert (e = p + 1) as -> by (destruct (decide (e = p + 1)); [done | tauto]).
    intros j. destruct (decide (j = p)) as [-> | Hne].
    + rewrite bool_decide_eq_true_2 by lia. rewrite list_lookup_insert_eq by lia.
      by rewrite Hx, Hy.
    + rewrite list_lookup_insert_ne by done. rewrite bool_decide_eq_false_2 by lia. done.
Qed.

(** X7: on a well-formed, expanded tensor and an array with at least
    [L * prod (K_i + 1)] scores, [AddExpanded] returns; it adds the array
    to the meaningful scores cell by cell and changes nothing else. *)
Theorem AddExpanded_adds (aFromValues : list T) (t : SegmentedTensor T) :
  well_formed t -> m_bExpanded t = true ->
  m_cVectorLength t * segments (active t) <= length aFromValues ->
  exists a,
    AddExpanded aFromValues t = Some (with_values (m_cValueCapacity t) a t)
    /\ scores (with_values (m_cValueCapacity t) a t)
       = zip_with score_add (scores t)
           (take (m_cVectorLength t * segments (active t)) aFromValues)
    /\ drop (m_cVectorLength t * segments (active t)) a
       = drop (m_cVectorLength t * segments (active t)) (m_aValues t)
    /\ well_formed (with_values (m_cValueCapacity t) a t).
Proof.
  intros W Hexp Hfrom. pose proof W as [W1 W2 W3 W4 W5 W6].
  pose proof (well_formed_segments t W) as Hb.
  pose proof (segments_pos (active t)) as Hpos.
  unfold AddExpanded. rewrite Hexp. cbn [assert mbind option_bind].
  rewrite (AddExpanded_count_Some _ 0); rewrite ?drop_0; [| lia | done | lia].
  fold (active t). cbn [mbind option_bind].
  set (n := m_cVectorLength t * segments (active t)) in *.
  destruct (AddExpanded_scores_Some n 0 n aFromValues (m_aValues t))
    as (a & -> & Hlen & Hlk); [nia | lia | lia | lia |].
  cbn [mbind option_bind]. exists a. split; [done |].
  split; [| split].
  - unfold scores, active. cbn [with_values m_cVectorLength m_cDimensions m_aDimensions
                                m_aValues].
    fold (active t). fold n. apply list_eq. intros j. rewrite lookup_zip_with.
    destruct (decide (j < n)).
    + rewrite !lookup_take_lt by done. rewrite Hlk.
      rewrite bool_decide_eq_true_2 by lia. done.
    + rewrite !lookup_take_ge by lia. done.
  - apply list_eq. intros j. rewrite !lookup_drop, Hlk.
    by rewrite bool_decide_eq_false_2 by lia.
  - by apply well_formed_with_values.
Qed.

Lemma IsEqual_values_self (fuel : nat) (a : list T) (p e : nat) :
  p < e -> e <= length a -> e - p <= fuel ->
  IsEqual_values fuel a a p p e
  = Some (forallb (fun x => negb (score_neq x x)) (take (e - p) (drop p a))).
Proof.
  revert p. induction fuel as [|fuel IH]; intros p Hp He Hf; [lia |].
  cbn [IsEqual_values]. unfold load.
  destruct (lookup_lt_is_Some_2 a p) as [x Hx]; [lia |]. rewrite Hx.
  cbn [mbind option_bind].
  rewrite (drop_S _ _ _ Hx). replace (e - p) with (S (e - (p + 1))) by lia.
  rewrite firstn_cons. cbn [forallb].
  destruct (score_neq x x); [done |]. cbn [negb andb].
  case_bool_decide as Hend.
  - rewrite IH by lia. by rewrite Nat.add_1_r.
  - assert (e = p + 1) as -> by (destruct (decide (e = p + 1)); [done | tauto]).
    by rewrite Nat.sub_diag, take_0.
Qed.

Lemma same_dimension_refl (l : list DimensionInfo) :
  Forall well_formed_dimension l -> Forall2 same_dimension l l.
Proof.
  induction 1 as [|d l (HK & _) _ IH]; constructor; [| done]. by repeat split.
Qed.

(** X8: [IsEqual] of a well-formed tensor with itself always returns, and
    it returns [true] exactly when none of the meaningful scores differs
    from itself under [!=] (as a NaN does). *)
Theorem IsEqual_self (t : SegmentedTensor T) :
  well_formed t ->
  IsEqual t t = Some (forallb (fun x => negb (score_neq x x)) (scores t)).
Proof.
  intros W. pose proof W as [W1 W2 W3 W4 W5 W6].
  pose proof (well_formed_segments t W) as Hb.
  pose proof (segments_pos (active t)) as Hpos.
  unfold IsEqual. rewrite bool_decide_eq_false_2 by (intros K; by apply K).
  rewrite (IsEqual_dimensions_same _ 0); rewrite ?drop_0; fold (active t).
  - cbn [mbind option_bind]. rewrite IsEqual_values_self by nia.
    rewrite Nat.sub_0_r, drop_0. done.
  - unfold active. rewrite length_take. lia.
  - by apply same_dimension_refl.
  - done.
  - done.
Qed.

Lemma Add_scores_Some (fuel p e : nat) (a b : list T) :
  p < e -> e <= length a -> e <= length b -> e - p <= fuel ->
  exists a', Add_scores fuel p p e a b = Some a'
    /\ length a' = length a
    /\ forall j, a' !! j
         = if bool_decide (p <= j < e)
           then x ← a !! j; y ← b !! j; Some (score_add x y)
           else a !! j.
Proof.
  revert p a. induction fuel as [|fuel IH]; intros p a Hp He Hb Hf; [lia |].
  cbn [Add_scores]. unfold load, store.
  destruct (lookup_lt_is_Some_2 a p) as [x Hx]; [lia |]. rewrite Hx.
  destruct (lookup_lt_is_Some_2 b p) as [y Hy]; [lia |]. rewrite Hy.
  cbn [mbind option_bind]. rewrite decide_True by lia. cbn [mbind option_bind].
  case_bool_decide as Hend.
  - destruct (IH (p + 1) (<[p:=score_add x y]> a)) as (a' & -> & Hlen & Hlk);
      [lia | by rewrite length_insert | lia | lia |].
    exists a'. split; [done |]. rewrite length_insert in Hlen. split; [done |].
    intros j. rewrite Hlk. destruct (decide (j = p)) as [-> | Hne].
    + rewrite bool_decide_eq_false_2 by lia. rewrite bool_decide_eq_true_2 by lia.
      rewrite list_lookup_insert_eq by lia. by rewrite Hx, Hy.
    + rewrite list_lookup_insert_ne by done. repeat case_bool_decide; try done; lia.
  - exists (<[p:=score_add x y]> a). split; [done |]. split; [by rewrite length_insert |].
    assert (e = p + 1) as -> by (destruct (decide (e = p + 1)); [done | tauto]).
    intros j. destruct (decide (j = p)) as [-> | Hne].
    + rewrite bool_decide_eq_true_2 by lia. rewrite list_lookup_insert_eq by lia.
      by rewrite Hx, Hy.
    + rewrite list_lookup_insert_ne by done. rewrite bool_decide_eq_false_2 by lia. done.
Qed.

Lemma Add_zero_Some (this rhs : SegmentedTensor T) :
  well_formed this ->
  m_cDimensions this = 0 -> m_cDimensions rhs = 0 ->
  m_cVectorLength this <= length (m_aValues rhs) ->
  exists a,
    Add this rhs = Some (false, with_values (m_cValueCapacity this) a this)
    /\ scores (with_values (m_cValueCapacity this) a this)
       = zip_with score_add (scores this) (take (m_cVectorLength this) (m_aValues rhs))
    /\ drop (m_cVectorLength this) a = drop (m_cVectorLength this) (m_aValues this)
    /\ length a = length (m_aValues this).
Proof.
  intros W HD HD2 Hrhs. pose proof W as [W1 W2 W3 W4 W5 W6].
  assert (segments (active this) = 1) as Hseg.
  { unfold active. by rewrite HD, take_0. }
  rewrite Hseg, Nat.mul_1_r in W5.
  unfold Add. rewrite HD, HD2. cbn [bool_decide decide_rel assert mbind option_bind].
  rewrite !bool_decide_eq_true_2 by lia. cbn [assert mbind option_bind].
  destruct (Add_scores_Some (m_cVectorLength this) 0 (m_cVectorLength this)
              (m_aValues this) (m_aValues rhs)) as (a & -> & Hlen & Hlk); [lia.. |].
  cbn [mbind option_bind]. exists a. split; [done |].
  unfold scores, active.
  cbn [with_values m_cVectorLength m_cDimensions m_aDimensions m_aValues].
  rewrite HD, take_0. cbn [segments foldr]. rewrite Nat.mul_1_r. split; [| split; [| done]].
  - apply list_eq. intros j. rewrite lookup_zip_with.
    destruct (decide (j < m_cVectorLength this)).
    + rewrite !lookup_take_lt by done. rewrite Hlk.
      rewrite bool_decide_eq_true_2 by lia. done.
    + rewrite !lookup_take_ge by lia. done.
  - apply list_eq. intros j. rewrite !lookup_drop, Hlk.
    by rewrite bool_decide_eq_false_2 by lia.
Qed.

(** X9: without dimensions, [Add] on a well-formed tensor and an operand
    with at least [L] scores always succeeds: it adds the first [L] scores
    of [rhs] to those of [this], cell by cell, and changes nothing else. *)
Theorem Add_without_dimensions (this rhs : SegmentedTensor T) :
  well_formed this ->
  m_cDimensions this = 0 -> m_cDimensions rhs = 0 ->
  m_cVectorLength this <= length (m_aValues rhs) ->
  exists a,
    Add this rhs = Some (false, with_values (m_cValueCapacity this) a this)
    /\ scores (with_values (m_cValueCapacity this) a this)
       = zip_with score_add (scores this) (take (m_cVectorLength this) (m_aValues rhs))
    /\ drop (m_cVectorLength this) a = drop (m_cVectorLength this) (m_aValues this).
Proof.
  intros W HD HD2 Hrhs.
  destruct (Add_zero_Some this rhs W HD HD2 Hrhs) as (a & H1 & H2 & H3 & _).
  by exists a.
Qed.

End MoreTensorProperties.

(** ** Add never goes wrong *)

Section AddSafety.
Context `{PF : Platform} {T : Type} `{SC : Scores T}.

Lemma Add_count_divisions_total (fuel : nat) (a1 a2 : list nat) (K1 K2 p1 p2 c : nat) :
  p1 <= K1 -> K1 <= length a1 -> p2 <= K2 -> K2 <= length a2 ->
  (K1 - p1) + (K2 - p2) < fuel ->
  is_Some (Add_count_divisions fuel a1 a2 K1 K2 p1 p2 c).
Proof.
  revert p1 p2 c. induction fuel as [|fuel IH]; intros p1 p2 c H1 HK1 H2 HK2 Hf; [lia |].
  cbn [Add_count_divisions].
  case_bool_decide; [by eexists |]. case_bool_decide; [by eexists |].
  unfold load.
  destruct (lookup_lt_is_Some_2 a1 p1) as [d1 ->]; [lia |].
  destruct (lookup_lt_is_Some_2 a2 p2) as [d2 ->]; [lia |].
  cbn [mbind option_bind]. apply IH; repeat case_bool_decide; lia.
Qed.

Lemma Add_count_total (ds1 ds2 : list DimensionInfo) (c1 c2 cN : nat) :
  Forall readable ds1 -> Forall readable ds2 -> length ds1 = length ds2 ->
  (N.of_nat (c1 * segments ds1) <= size_max)%N ->
  (N.of_nat (c2 * segments ds2) <= size_max)%N ->
  (N.of_nat (cN * segments_top (initial_stack ds1 ds2)) <= size_max)%N ->
  Add_count ds1 ds2 c1 c2 cN
  = Some (initial_stack ds1 ds2, c1 * segments ds1, c2 * segments ds2,
          cN * segments_top (initial_stack ds1 ds2)).
Proof.
  intros F1. revert ds2 c1 c2 cN.
  induction F1 as [|d1 ds1 R1 F1 IH]; intros ds2 c1 c2 cN F2 Hlen B1 B2 BN.
  { destruct ds2; [| done]. cbn. do 2 f_equal; [f_equal; [f_equal |] |]; lia. }
  destruct F2 as [|d2 ds2 R2 F2]; [done |].
  assert (exists r, Add_count (d1 :: ds1) (d2 :: ds2) c1 c2 cN = Some r) as [r Hr].
  { pose proof R1 as (K1 & S1 & I1). pose proof R2 as (K2 & S2 & I2).
    cbn [Add_count].
    destruct (Add_count_divisions_total (m_cDivisions d1 + m_cDivisions d2 + 1)
                (m_aDivisions d1) (m_aDivisions d2) (m_cDivisions d1) (m_cDivisions d2)
                0 0 0) as [cNew HcNew]; [lia.. |].
    rewrite HcNew. cbn [mbind option_bind].
    pose proof HcNew as HcNew'.
    apply Add_count_divisions_Some in HcNew'; [| lia | done | lia | done | lia].
    rewrite !drop_0 in HcNew'. cbn [Nat.add] in HcNew'.
    fold (divisions d1) in HcNew'. fold (divisions d2) in HcNew'.
    assert (cNew <= m_cDivisions d1 + m_cDivisions d2) as Hle.
    { pose proof (length_fmerge_le (divisions d1) (divisions d2)) as Hle.
      rewrite <- HcNew' in Hle. unfold divisions in Hle. rewrite !length_take in Hle. lia. }
    rewrite fmerge_rmerge, length_reverse in HcNew' by done.
    change (cNew = rlen (m_aDivisions d1) (m_aDivisions d2) (m_cDivisions d1)
                     (m_cDivisions d2)) in HcNew'.
    cbn [initial_stack zip_with segments segments_top foldr
         DimensionInfoStack.m_cNewDivisions] in B1, B2, BN.
    fold (segments ds1) in B1. fold (segments ds2) in B2.
    fold (initial_stack ds1 ds2) in BN. fold (segments_top (initial_stack ds1 ds2)) in BN.
    rewrite <- HcNew' in BN.
    pose proof (segments_pos ds1) as P1. pose proof (segments_pos ds2) as P2.
    assert (1 <= segments_top (initial_stack ds1 ds2)) as PT.
    { clear. induction (initial_stack ds1 ds2) as [|e s IHs]; cbn; [lia |].
      fold (segments_top s). nia. }
    rewrite !size_add_small by lia.
    rewrite (proj2 (IsMultiplyError_false _ _)) by nia.
    cbn [negb assert mbind option_bind].
    rewrite !size_mul_small by nia.
    rewrite IH; [by eexists | done | | | |].
    - cbn in Hlen. lia.
    - rewrite <- Nat.mul_assoc. done.
    - rewrite <- Nat.mul_assoc. done.
    - rewrite <- Nat.mul_assoc. done. }
  rewrite Hr. destruct r as [[[s v1] v2] vN].
  apply Add_count_Some in Hr as (-> & _ & -> & -> & ->); [done | | | done | done];
    by constructor.
Qed.

Lemma Add_cell_total (fuel pM1 pM2 pT pTE : nat) (a vals2 : list T) :
  pTE < pT -> pT - pTE <= fuel -> pT - pTE <= pM1 -> pT - pTE <= pM2 ->
  pM1 <= pT -> pT <= length a -> pM2 <= length vals2 ->
  exists a', Add_cell fuel pM1 pM2 pT pTE a vals2 = Some (pTE, a')
    /\ length a' = length a.
Proof.
  revert pM1 pM2 pT a. induction fuel as [|fuel IH];
    intros pM1 pM2 pT a HT Hf H1 H2 H1T HTa H2v; [lia |].
  cbn [Add_cell]. rewrite !ptr_sub_le by lia. cbn [mbind option_bind].
  unfold load, store.
  destruct (lookup_lt_is_Some_2 a (pM1 - 1)) as [x ->]; [lia |].
  destruct (lookup_lt_is_Some_2 vals2 (pM2 - 1)) as [y ->]; [lia |].
  cbn [mbind option_bind]. rewrite decide_True by lia. cbn [mbind option_bind].
  case_bool_decide as Hend.
  - destruct (IH (pM1 - 1) (pM2 - 1) (pT - 1) (<[pT - 1:=score_add x y]> a))
      as (a' & -> & Hlen); rewrite ?length_insert; try lia.
    exists a'. split; [done |]. by rewrite length_insert in Hlen.
  - assert (pTE = pT - 1) as -> by (destruct (decide (pTE = pT - 1)); [done | tauto]).
    eexists. split; [done |]. by rewrite length_insert.
Qed.

Lemma Add_next_total (stack : list DimensionInfoStack.t) (ds1 ds2 : list DimensionInfo)
    (pV1 pV2 m1 m2 mT : nat) :
  valid_stack stack ds1 ds2 ->
  pV1 = m1 + offset1 stack ds1 m1 ->
  pV2 = m2 + offset1 (map swap stack) ds2 m2 ->
  0 < offsetTop stack ds1 ds2 mT ->
  (N.of_nat (m1 * segments ds1) <= size_max)%N ->
  (N.of_nat (m2 * segments ds2) <= size_max)%N ->
  is_Some (Add_next stack ds1 ds2 pV1 pV2 m1 m2).
Proof.
  intros V. revert pV1 pV2 m1 m2 mT.
  induction V as [|e d1 d2 stack ds1 ds2 (Hp1 & Hp2 & HK1 & HK2 & Hb & HcN) V IH];
    intros pV1 pV2 m1 m2 mT H1 H2 HT B1 B2; [cbn in HT; lia |].
  destruct e as [p1 p2 cNew].
  cbn [DimensionInfoStack.m_pDivision1 DimensionInfoStack.m_pDivision2
       DimensionInfoStack.m_cNewDivisions] in *.
  cbn [offset1 offsetTop map swap DimensionInfoStack.m_pDivision1
       DimensionInfoStack.m_pDivision2 DimensionInfoStack.m_cNewDivisions] in H1, H2, HT.
  cbn [segments foldr] in B1, B2. fold (segments ds1) in B1. fold (segments ds2) in B2.
  pose proof (segments_pos ds1) as P1. pose proof (segments_pos ds2) as P2.
  cbn [Add_next DimensionInfoStack.m_pDivision1 DimensionInfoStack.m_pDivision2
       DimensionInfoStack.m_cNewDivisions].
  case_bool_decide as Q1; case_bool_decide as Q2.
  - rewrite !(ptr_sub_le _ 1) by lia. cbn [mbind option_bind]. unfold load.
    destruct (lookup_lt_is_Some_2 (m_aDivisions d1) (p1 - 1)) as [v1 ->]; [lia |].
    destruct (lookup_lt_is_Some_2 (m_aDivisions d2) (p2 - 1)) as [v2 ->]; [lia |].
    cbn [mbind option_bind].
    assert (m1 <= pV1) by nia. assert (m2 <= pV2) by nia.
    repeat case_bool_decide; rewrite ?ptr_sub_le by lia; by eexists.
  - assert (m1 <= pV1) by nia.
    rewrite !ptr_sub_le by lia. by eexists.
  - assert (m2 <= pV2) by nia.
    rewrite !ptr_sub_le by lia. by eexists.
  - assert (p1 = 0) as -> by lia. assert (p2 = 0) as -> by lia.
    rewrite !ptr_sub_le by lia. cbn [mbind option_bind].
    rewrite !size_add_small by lia.
    rewrite !(proj2 (IsMultiplyError_false _ _)) by nia.
    cbn [negb assert mbind option_bind].
    rewrite rlen_0_r in HT by lia.
    destruct (IH (pV1 - m1 + m1 * (1 + m_cDivisions d1))
                 (pV2 - m2 + m2 * (1 + m_cDivisions d2))
                 (m1 * (1 + m_cDivisions d1)) (m2 * (1 + m_cDivisions d2))
                 (mT * (1 + cNew))) as [[[s q1] q2] ->]; [lia | lia | lia | | |].
    + rewrite <- Nat.mul_assoc. replace (1 + m_cDivisions d1) with (m_cDivisions d1 + 1) by lia.
      done.
    + rewrite <- Nat.mul_assoc. replace (1 + m_cDivisions d2) with (m_cDivisions d2 + 1) by lia.
      done.
    + by eexists.
Qed.

Lemma offset1_le_segments (stack : list DimensionInfoStack.t) (ds1 ds2 : list DimensionInfo)
    (m1 m2 : nat) :
  valid_stack stack ds1 ds2 ->
  m1 + offset1 stack ds1 m1 <= m1 * segments ds1
  /\ m2 + offset1 (map swap stack) ds2 m2 <= m2 * segments ds2.
Proof.
  intros V. revert m1 m2.
  induction V as [|e d1 d2 stack ds1 ds2 (Hp1 & Hp2 & _) V IH]; intros m1 m2; [cbn; lia |].
  cbn [offset1 map swap segments foldr DimensionInfoStack.m_pDivision1
       DimensionInfoStack.m_pDivision2].
  fold (segments ds1). fold (segments ds2).
  destruct (IH (m1 * (1 + m_cDivisions d1)) (m2 * (1 + m_cDivisions d2))) as [I1 I2].
  split; nia.
Qed.

(** The value loop of [Add] runs to its end: every read and write stays
    within its buffer, and both operands' pointers end on the first score
    vector. *)
Lemma Add_values_total (fuel L : nat) (stack : list DimensionInfoStack.t)
    (ds1 ds2 : list DimensionInfo) (pV1 pV2 pTop : nat) (a vals2 : list T) :
  valid_stack stack ds1 ds2 -> 1 <= L ->
  pV1 = L + offset1 stack ds1 L ->
  pV2 = L + offset1 (map swap stack) ds2 L ->
  pTop = L + offsetTop stack ds1 ds2 L ->
  pTop <= L * fuel -> pTop <= length a -> L * segments ds2 <= length vals2 ->
  (N.of_nat (L * segments ds1) <= size_max)%N ->
  (N.of_nat (L * segments ds2) <= size_max)%N ->
  exists stack' a',
    Add_values fuel L stack ds1 ds2 pV1 pV2 pTop a vals2 = Some (stack', L, L, a')
    /\ length a' = length a.
Proof.
  revert stack pV1 pV2 pTop a.
  induction fuel as [|fuel IH]; intros stack pV1 pV2 pTop a V HL H1 H2 HT Hf Ha Hv B1 B2;
    [lia |].
  cbn [Add_values]. rewrite ptr_sub_le by lia. cbn [mbind option_bind].
  destruct (offset1_le_offsetTop stack ds1 ds2 L L L V) as [O1 O2]; [lia | lia |].
  destruct (offset1_le_segments stack ds1 ds2 L L V) as [S1 S2].
  destruct (Add_cell_total L pV1 pV2 pTop (pTop - L) a vals2) as (a' & -> & Hlen);
    [lia.. |].
  cbn [mbind option_bind]. case_bool_decide as Hz.
  { exists stack, a'. split; [| done]. do 3 f_equal; [f_equal |]; lia. }
  destruct (Add_next_total stack ds1 ds2 pV1 pV2 L L L V H1 H2) as [[[s q1] q2] Hn];
    [lia | done | done |].
  rewrite Hn. cbn [mbind option_bind].
  destruct (Add_next_Some _ _ _ _ _ _ _ L _ _ _ V Hn) as (V' & _ & Q1 & Q2 & QT).
  destruct (IH s q1 q2 (pTop - L) a') as (stack' & a'' & -> & Hlen'); try done; try lia.
  exists stack', a''. split; [done | congruence].
Qed.

Lemma Add_merge_divisions_total (fuel : nat) (a a2 : list nat) (p1 p2 pTop : nat) :
  p1 <= length a -> p2 <= length a2 -> pTop = rlen a a2 p1 p2 -> pTop <= length a ->
  pTop < fuel ->
  exists out, Add_merge_divisions fuel a a2 p1 p2 pTop = Some out
    /\ length out = length a.
Proof.
  revert a p1 p2 pTop. induction fuel as [|fuel IH]; intros a p1 p2 pTop H1 H2 HT Ha Hf;
    [lia |].
  destruct (rlen_ge a a2 p1 p2 H1 H2) as [G1 G2]. rewrite <- HT in G1, G2.
  cbn [Add_merge_divisions].
  rewrite (bool_decide_eq_true_2 (p1 <= pTop)), (bool_decide_eq_true_2 (p2 <= pTop)) by done.
  cbn [assert mbind option_bind].
  case_bool_decide as E1; [by eexists |].
  case_bool_decide as E2.
  { rewrite bool_decide_eq_true_2 by lia. cbn [assert mbind option_bind].
    unfold memcpy. rewrite decide_True by lia. eexists. split; [done |].
    rewrite length_app, length_take, length_drop. lia. }
  destruct p1 as [|p1]; [rewrite rlen_0_l in HT by lia; lia |].
  destruct p2 as [|p2]; [rewrite rlen_0_r in HT by lia; lia |].
  rewrite !ptr_sub_le by lia. cbn [mbind option_bind].
  replace (S p1 - 1) with p1 by lia. replace (S p2 - 1) with p2 by lia. unfold load.
  destruct (lookup_lt_is_Some_2 a p1) as [d1 Hd1]; [lia |].
  destruct (lookup_lt_is_Some_2 a2 p2) as [d2 Hd2]; [lia |].
  rewrite Hd1, Hd2. cbn [mbind option_bind].
  unfold store. rewrite decide_True by lia. cbn [mbind option_bind].
  pose proof (rlen_step a a2 p1 p2 d1 d2 Hd1 Hd2) as Hstep.
  set (p1' := if bool_decide (d2 <= d1) then p1 else S p1) in *.
  set (p2' := if bool_decide (d1 <= d2) then p2 else S p2) in *.
  assert (p1' <= length a /\ p2' <= length a2) as [Hl1 Hl2].
  { subst p1' p2'. repeat case_bool_decide; lia. }
  destruct (rlen_ge a a2 p1' p2' Hl1 Hl2) as [Hg1 Hg2].
  destruct (IH (<[pTop - 1:=if bool_decide (d1 <= d2) then d2 else d1]> a) p1' p2'
               (pTop - 1)) as (out & -> & Hlen); rewrite ?length_insert; try lia.
  { unfold rlen. rewrite take_insert_ge by lia. fold (rlen a a2 p1' p2'). lia. }
  exists out. split; [done |]. by rewrite length_insert in Hlen.
Qed.

Lemma SetCountDivisions_total (i c : nat) (t : SegmentedTensor T) :
  i < m_cDimensions t -> i < length (m_aDimensions t) -> m_bExpanded t = false ->
  is_Some (SetCountDivisions i c t).
Proof.
  intros HD Hi Hexp. unfold SetCountDivisions, load, store.
  rewrite bool_decide_eq_true_2 by done. cbn [assert mbind option_bind].
  destruct (lookup_lt_is_Some_2 (m_aDimensions t) i Hi) as [d ->].
  rewrite Hexp. cbn [negb orb assert mbind option_bind].
  case_bool_decide.
  - destruct (IsAddError _ _); [by eexists |].
    destruct (IsMultiplyError _ _); [by eexists |].
    destruct (heap_grants _); cbn [negb]; [| by eexists].
    rewrite decide_True by done. by eexists.
  - rewrite decide_True by done. by eexists.
Qed.

Lemma Add_divisions_total (todo i : nat) (stack : list DimensionInfoStack.t)
    (ds2 : list DimensionInfo) (t : SegmentedTensor T) :
  m_bExpanded t = false ->
  i + todo <= m_cDimensions t -> m_cDimensions t <= length (m_aDimensions t) ->
  (forall j, i <= j < i + todo -> exists e d1 d2,
     stack !! j = Some e /\ m_aDimensions t !! j = Some d1 /\ ds2 !! j = Some d2
     /\ m_cDivisions d1 <= length (m_aDivisions d1)
     /\ m_cDivisionCapacity d1 = length (m_aDivisions d1)
     /\ m_cDivisions d2 <= length (m_aDivisions d2)
     /\ DimensionInfoStack.m_cNewDivisions e
        = rlen (m_aDivisions d1) (m_aDivisions d2) (m_cDivisions d1) (m_cDivisions d2)) ->
  is_Some (Add_divisions todo i stack ds2 t).
Proof.
  revert i t. induction todo as [|todo IH]; intros i t Hexp HiD HD Hv; [by eexists |].
  destruct (Hv i) as (e & d1 & d2 & He & Hd1 & Hd2 & HK1 & Hcap & HK2 & HcN); [lia |].
  cbn [Add_divisions]. unfold load. rewrite He, Hd1, Hd2. cbn [mbind option_bind].
  destruct (SetCountDivisions_total i (DimensionInfoStack.m_cNewDivisions e) t)
    as [[bad t1] Hs]; [lia | lia | done |].
  rewrite Hs. cbn [mbind option_bind]. destruct bad; [by eexists |].
  destruct (SetCountDivisions_false _ _ _ _ _ Hd1 HK1 Hcap Hs)
    as (d' & -> & _ & Hi & Hc' & Hlen' & Hcap' & Htake).
  cbn [with_dimensions m_aDimensions]. rewrite list_lookup_insert_eq by done.
  cbn [mbind option_bind].
  destruct (rlen_ge (m_aDivisions d1) (m_aDivisions d2) _ _ HK1 HK2) as [Hg1 Hg2].
  destruct (Add_merge_divisions_total (DimensionInfoStack.m_cNewDivisions e + 1)
              (m_aDivisions d') (m_aDivisions d2) (m_cDivisions d1) (m_cDivisions d2)
              (DimensionInfoStack.m_cNewDivisions e)) as (out & -> & Hout); try lia.
  { unfold rlen. rewrite Htake. done. }
  cbn [mbind option_bind]. unfold store. rewrite length_insert.
  rewrite decide_True by done. cbn [mbind option_bind].
  rewrite list_insert_insert_eq. apply IH; cbn; rewrite ?length_insert; try done; try lia.
  intros j Hj. destruct (Hv j) as (e' & d1' & d2' & ? & ? & ?); [lia |].
  exists e', d1', d2'. rewrite list_lookup_insert_ne by lia. done.
Qed.

(** X10: [Add] never goes wrong on well-formed operands.  For two
    well-formed tensors with the same dimension count, at most
    [k_cDimensionsMax] (the size of the cursor stack [Add] declares), the
    same vector length and strictly increasing division sequences, the
    first of them not expanded, and a result whose number of cells fits
    [size_t] (what the assertion of the first loop asks), [Add] returns:
    no assertion fails, no pointer leaves its buffer or the cursor stack,
    whatever the allocator answers. *)
Theorem Add_safe (this rhs : SegmentedTensor T) :
  well_formed this -> well_formed rhs ->
  m_cDimensions this = m_cDimensions rhs ->
  m_cDimensions this <= k_cDimensionsMax ->
  m_cVectorLength this = m_cVectorLength rhs ->
  Forall (fun d => increasing (divisions d)) (active this) ->
  Forall (fun d => increasing (divisions d)) (active rhs) ->
  m_bExpanded this = false ->
  (N.of_nat (segments_top (initial_stack (active this) (active rhs))) <= size_max)%N ->
  exists bad R, Add this rhs = Some (bad, R).
Proof.
  intros W1 W2 HD Hstack HL I1 I2 Hexp HN.
  destruct (decide (m_cDimensions this = 0)) as [Hz | Hnz].
  { destruct (Add_zero_Some this rhs W1 Hz) as (a & -> & _); [congruence | |].
    - pose proof (wf_values _ W2) as Hv. unfold active in Hv.
      rewrite <- HD, Hz, take_0 in Hv. cbn in Hv. lia.
    - by eexists _, _. }
  pose proof (well_formed_readable _ W1 I1) as R1.
  pose proof (well_formed_readable _ W2 I2) as R2.
  pose proof (well_formed_segments _ W1) as B1.
  pose proof (well_formed_segments _ W2) as B2. rewrite <- HL in B2.
  pose proof (wf_vector _ W1) as HL1.
  pose proof (wf_dimensions _ W1) as HD1. pose proof (wf_dimensions _ W2) as HD2.
  assert (length (active this) = length (active rhs)) as Hlen.
  { unfold active. rewrite !length_take. lia. }
  pose proof (initial_stack_valid _ _ R1 R2 Hlen) as V.
  set (L := m_cVectorLength this) in *.
  set (stack := initial_stack (active this) (active rhs)) in *.
  unfold Add.
  rewrite (bool_decide_eq_true_2 (m_cDimensions this = m_cDimensions rhs)) by done.
  cbn [assert mbind option_bind].
  rewrite (bool_decide_eq_false_2 (0 = m_cDimensions this)) by lia.
  unfold cells. rewrite !decide_True by lia. cbn [mbind option_bind].
  unfold ptr_at. rewrite decide_True by done. cbn [mbind option_bind].
  assert (take (m_cDimensions this) (m_aDimensions rhs) = active rhs) as ->.
  { unfold active. by rewrite HD. }
  fold (active this).
  rewrite Add_count_total; try done; try nia; [| by rewrite Nat.mul_1_l].
  cbn [mbind option_bind]. fold stack. fold L. rewrite !Nat.mul_1_l.
  destruct (IsMultiplyError (segments_top stack) L) eqn:HM; [by eexists _, _ |].
  apply IsMultiplyError_false in HM.
  assert (exists r, EnsureValueCapacity (segments_top stack * L) this = Some r) as [[bad t1] HE].
  { unfold EnsureValueCapacity. rewrite Hexp. cbn [negb assert mbind option_bind].
    case_bool_decide; [| by eexists].
    destruct (IsAddError _ _); [by eexists |].
    destruct (IsMultiplyError _ _); [by eexists |].
    destruct (heap_grants _); by eexists. }
  rewrite HE. cbn [mbind option_bind]. destruct bad; [by eexists _, _ |].
  apply EnsureValueCapacity_false in HE as (cap & a & -> & Hlen_a & Hpre);
    [| by apply wf_capacity].
  cbn [with_values m_cVectorLength m_aValues m_cDimensions m_aDimensions
       m_cValueCapacity]. fold L.
  rewrite !size_mul_small by lia.
  destruct (Add_values_total (segments_top stack) L stack (active this) (active rhs)
              (L * segments (active this)) (L * segments (active rhs))
              (L * segments_top stack) a (m_aValues rhs) V HL1)
    as (stack' & a' & Hval & Hlen'); try done; try lia.
  { symmetry. by apply offset1_initial. }
  { unfold stack. rewrite initial_stack_swap. symmetry. by apply offset1_initial. }
  { symmetry. apply offsetTop_initial. }
  { pose proof (wf_values _ W2) as Hv. rewrite <- HL in Hv. done. }
  rewrite Hval. cbn [mbind option_bind].
  rewrite !bool_decide_eq_true_2 by done. cbn [assert mbind option_bind].
  destruct (Add_values_stack _ _ _ _ _ _ _ _ _ _ _ _ _ _ V Hval) as [V' Hc].
  match goal with
  | |- context [Add_divisions ?n 0 ?s ?d ?t] =>
      destruct (Add_divisions_total n 0 s d t) as [[bad R] ->]
  end; cbn; try done; try lia.
  2: by eexists _, _.
  intros j Hj.
  destruct (lookup_lt_is_Some_2 (m_aDimensions this) j) as [d1 Hd1]; [lia |].
  assert (active this !! j = Some d1) as Ha1.
  { unfold active. rewrite lookup_take_lt by lia. done. }
  destruct (valid_stack_lookup _ _ _ _ _ V' Ha1) as (e & d2 & He & Hd2 & Hv).
  unfold active in Hd2. rewrite lookup_take_lt in Hd2 by lia.
  destruct Hv as (_ & _ & HK1 & HK2 & _ & HcN).
  pose proof (wf_divisions _ W1) as F. rewrite Forall_forall in F.
  destruct (F d1) as (_ & Hcap & _); [by eapply list_elem_of_lookup_2 |].
  by exists e, d1, d2.
Qed.

End AddSafety.

(** ** Add keeps the invariants *)

Section AddInvariant.
Context `{PF : Platform} {T : Type} `{SC : Scores T}.

Lemma Add_cell_length (fuel pM1 pM2 pT pTE : nat) (a vals2 : list T) (r : nat)
    (a' : list T) :
  Add_cell fuel pM1 pM2 pT pTE a vals2 = Some (r, a') -> length a' = length a.
Proof.
  revert pM1 pM2 pT a. induction fuel as [|fuel IH]; intros pM1 pM2 pT a H; [done |].
  cbn [Add_cell] in H. bind H. bind H. bind H. bind H. bind H. bind H.
  apply store_Some in E4 as [_ ->].
  case_bool_decide.
  - apply IH in H. by rewrite length_insert in H.
  - injection H as <- <-. by rewrite length_insert.
Qed.

Lemma Add_values_length (fuel L : nat) (stack : list DimensionInfoStack.t)
    (ds1 ds2 : list DimensionInfo) (pV1 pV2 pTop : nat) (a vals2 : list T)
    (r : list DimensionInfoStack.t * nat * nat * list T) :
  Add_values fuel L stack ds1 ds2 pV1 pV2 pTop a vals2 = Some r ->
  length r.2 = length a.
Proof.
  revert stack pV1 pV2 pTop a. induction fuel as [|fuel IH];
    intros stack pV1 pV2 pTop a H; [done |].
  cbn [Add_values] in H. bind H. bind H. destruct x0 as [pT a'].
  apply Add_cell_length in E0.
  case_bool_decide; [injection H as <-; done |].
  bind H. destruct x0 as [[s q1] q2]. apply IH in H. congruence.
Qed.

Lemma Add_scores_length (fuel p q e : nat) (a b out : list T) :
  Add_scores fuel p q e a b = Some out -> length out = length a.
Proof.
  revert p q a. induction fuel as [|fuel IH]; intros p q a H; [done |].
  cbn [Add_scores] in H. bind H. bind H. bind H. apply store_Some in E1 as [_ ->].
  case_bool_decide.
  - apply IH in H. by rewrite length_insert in H.
  - injection H as <-. by rewrite length_insert.
Qed.

Lemma Add_merge_divisions_length (fuel : nat) (a a2 : list nat) (p1 p2 pTop : nat)
    (out : list nat) :
  Add_merge_divisions fuel a a2 p1 p2 pTop = Some out -> length out = length a.
Proof.
  revert a p1 p2 pTop. induction fuel as [|fuel IH]; intros a p1 p2 pTop H; [done |].
  cbn [Add_merge_divisions] in H. bind H. bind H.
  case_bool_decide; [by injection H as <- |].
  case_bool_decide.
  { bind H. apply memcpy_Some in H as (M1 & M2 & ->).
    rewrite length_app, length_take, length_drop. lia. }
  bind H. bind H. bind H. bind H. bind H. bind H. apply store_Some in E6 as [_ ->].
  apply IH in H. by rewrite length_insert in H.
Qed.

(** What [SetCountDivisions] leaves of a well-formed dimension. *)
Lemma SetCountDivisions_well_formed (i c : nat) (t t' : SegmentedTensor T)
    (d : DimensionInfo) :
  (size_max mod N.of_nat sizeof_TDivisions <> 0)%N ->
  m_aDimensions t !! i = Some d -> well_formed_dimension d ->
  SetCountDivisions i c t = Some (false, t') ->
  exists d', t' = with_dimensions (<[i:=d']> (m_aDimensions t)) t
    /\ m_cDivisions d' = c
    /\ c <= length (m_aDivisions d')
    /\ m_cDivisionCapacity d' = length (m_aDivisions d')
    /\ (N.of_nat (sizeof_TDivisions * length (m_aDivisions d')) < size_max)%N.
Proof.
  intros Hmod Hd (HK & Hcap & Hb) H. unfold SetCountDivisions, load in H. rewrite Hd in H.
  bind H. cbn [mbind option_bind] in H. bind H.
  case_bool_decide as Hgrow.
  - bind H.
    destruct (IsAddError _ _); [done |].
    destruct (IsMultiplyError _ _) eqn:HM; [done |]. apply IsMultiplyError_false in HM.
    destruct (heap_grants _); cbn [negb] in H; [| done].
    bind H. apply store_Some in E2 as [Hi ->]. injection H as <-.
    eexists. split; [reflexivity |]. cbn -[Nat.div].
    rewrite length_realloc. change (Nat.divmod c 1 0 1).1 with (c / 2) in *.
    repeat split; try lia.
    assert (N.of_nat (sizeof_TDivisions * (c + c / 2)) <> size_max)%N; [| lia].
    intros Heq. apply Hmod. rewrite <- Heq, Nat2N.inj_mul, N.mul_comm.
    apply N.Div0.mod_mul.
  - bind H. apply store_Some in E1 as [Hi ->]. injection H as <-.
    eexists. split; [reflexivity |]. cbn. repeat split; lia.
Qed.

Lemma Add_divisions_well_formed (todo i : nat) (stack : list DimensionInfoStack.t)
    (ds2 : list DimensionInfo) (t R : SegmentedTensor T) :
  (size_max mod N.of_nat sizeof_TDivisions <> 0)%N ->
  (forall j d1, i <= j < i + todo -> m_aDimensions t !! j = Some d1 ->
     well_formed_dimension d1) ->
  Add_divisions todo i stack ds2 t = Some (false, R) ->
  m_cValueCapacity R = m_cValueCapacity t
  /\ m_aValues R = m_aValues t
  /\ m_cDimensionsMax R = m_cDimensionsMax t
  /\ m_bExpanded R = m_bExpanded t
  /\ length (m_aDimensions R) = length (m_aDimensions t)
  /\ (forall j, ~ i <= j < i + todo -> m_aDimensions R !! j = m_aDimensions t !! j)
  /\ (forall j dR, i <= j < i + todo -> m_aDimensions R !! j = Some dR ->
        well_formed_dimension dR).
Proof.
  intros Hmod. revert i t. induction todo as [|todo IH]; intros i t Hv H.
  { cbn in H. injection H as <-. repeat split; try done; intros; lia. }
  cbn [Add_divisions] in H.
  bind H. rename x into e. bind H. rename x into d1. bind H. rename x into d2.
  unfold load in E, E0, E1.
  bind H. destruct x as [[] t']; [done |].
  destruct (SetCountDivisions_well_formed _ _ _ _ _ Hmod E0 (Hv i d1 ltac:(lia) E0) E2)
    as (d' & -> & Hc' & Hlen' & Hcap' & Hb').
  assert (i < length (m_aDimensions t)) as Hi by (by eapply lookup_lt_Some).
  cbn [with_dimensions m_aDimensions] in H. unfold load in H.
  rewrite list_lookup_insert_eq in H by done. cbn [mbind option_bind] in H.
  bind H. rename x into a. apply Add_merge_divisions_length in E3.
  bind H. apply store_Some in E4 as [_ ->]. rewrite list_insert_insert_eq in H.
  apply IH in H; cycle 1.
  { intros j d1' Hj Hd1'. cbn [with_dimensions m_aDimensions] in Hd1'.
    rewrite list_lookup_insert_ne in Hd1' by lia. apply (Hv j); [lia | done]. }
  cbn [with_dimensions m_aDimensions m_cDimensions m_cVectorLength m_aValues
       m_cValueCapacity m_cDimensionsMax m_bExpanded] in H.
  destruct H as (Hcap & Hval & Hmax & Hexp & Hlen & Hout & Hin).
  rewrite length_insert in Hlen.
  split; [done |]. split; [done |]. split; [done |]. split; [done |]. split; [done |]. split.
  { intros j Hj. rewrite Hout by lia. by rewrite list_lookup_insert_ne by lia. }
  intros j dR Hj HdR. destruct (decide (j = i)) as [-> | Hne].
  - rewrite Hout in HdR by lia. rewrite list_lookup_insert_eq in HdR by done.
    injection HdR as <-. unfold well_formed_dimension.
    cbn [set_aDivisions m_cDivisions m_aDivisions m_cDivisionCapacity].
    rewrite E3. repeat split; [lia | done | done].
  - apply (Hin j); [lia | done].
Qed.

(** The score buffer [Add] leaves has the recorded capacity and fits
    [size_t]. *)
Lemma Add_capacity (this rhs R : SegmentedTensor T) :
  (size_max mod N.of_nat sizeof_TDivisions <> 0)%N ->
  well_formed this -> Add this rhs = Some (false, R) ->
  m_cValueCapacity R = length (m_aValues R)
  /\ (N.of_nat (sizeof_TValues * length (m_aValues R)) <= size_max)%N
  /\ m_cDimensionsMax R = m_cDimensionsMax this
  /\ m_bExpanded R = m_bExpanded this
  /\ length (m_aDimensions R) = length (m_aDimensions this)
  /\ (forall j dR, j < m_cDimensions this -> m_aDimensions R !! j = Some dR ->
        well_formed_dimension dR).
Proof.
  intros Hmod W H. pose proof W as [W1 W2 W3 W4 W5 W6]. unfold Add in H.
  bind H. case_bool_decide as HD.
  { bind H. bind H. injection H as <-. apply Add_scores_length in E1.
    cbn. rewrite E1. repeat split; try done; intros; lia. }
  bind H. rename x into ds1. bind H. rename x into ds2.
  bind H. match goal with E : ptr_at _ _ = Some ?p |- _ => clear E p end.
  bind H. destruct x as [[[s0 c1] c2] cN].
  destruct (IsMultiplyError _ _); [done |].
  bind H. destruct x as [[] t1]; [done |].
  assert (m_cValueCapacity t1 = length (m_aValues t1)
          /\ (N.of_nat (sizeof_TValues * length (m_aValues t1)) <= size_max)%N
          /\ m_aDimensions t1 = m_aDimensions this
          /\ m_cDimensions t1 = m_cDimensions this
          /\ m_cDimensionsMax t1 = m_cDimensionsMax this
          /\ m_bExpanded t1 = m_bExpanded this) as (C1 & C2 & C3 & C4 & C5 & C6).
  { unfold EnsureValueCapacity in E3. case_bool_decide.
    - bind E3. destruct (IsAddError _ _); [done |].
      destruct (IsMultiplyError _ _) eqn:HM; [done |]. apply IsMultiplyError_false in HM.
      destruct (heap_grants _); cbn [negb] in E3; [| done]. injection E3 as <-.
      cbn. rewrite length_realloc. done.
    - by injection E3 as <-. }
  bind H. destruct x as [[[stack' p1] p2] aValues].
  apply Add_values_length in E4. cbn in E4.
  bind H. bind H.
  apply Add_divisions_well_formed in H; [| done |].
  - cbn [with_values m_cValueCapacity m_aValues m_cDimensionsMax m_bExpanded
         m_aDimensions m_cDimensions] in H.
    destruct H as (Hcap & Hval & Hmax & Hexp & Hlen & _ & Hin).
    rewrite Hcap, Hval, Hmax, Hexp, Hlen, E4, C3, C5, C6.
    split; [done |]. split; [done |]. split; [done |]. split; [done |]. split; [done |].
    intros j dR Hj. apply Hin. lia.
  - intros j d1 Hj Hd1. cbn [with_values m_aDimensions] in Hd1. rewrite C3 in Hd1.
    rewrite Forall_forall in W3. apply W3.
    apply (list_elem_of_lookup_2 _ j). unfold active. rewrite lookup_take_lt by lia. done.
Qed.

Lemma Add_cell_top (fuel pM1 pM2 pT pTE : nat) (a vals2 : list T) (r : nat * list T) :
  Add_cell fuel pM1 pM2 pT pTE a vals2 = Some r -> pT <= length a.
Proof.
  destruct fuel as [|fuel]; [done |]. intros H. cbn [Add_cell] in H.
  bind H. bind H. bind H. apply ptr_sub_Some in E1 as [? ->].
  bind H. bind H. bind H. apply store_Some in E3 as [? _]. lia.
Qed.

Lemma Add_values_top (fuel L : nat) (stack : list DimensionInfoStack.t)
    (ds1 ds2 : list DimensionInfo) (pV1 pV2 pTop : nat) (a vals2 : list T)
    (r : list DimensionInfoStack.t * nat * nat * list T) :
  Add_values fuel L stack ds1 ds2 pV1 pV2 pTop a vals2 = Some r -> pTop <= length a.
Proof.
  destruct fuel as [|fuel]; [done |]. intros H. cbn [Add_values] in H.
  bind H. bind H. by apply Add_cell_top in E0.
Qed.

(** X11: [Add] keeps the invariants of the data model (on a platform where
    [size_max] is not a multiple of the size of a division, as when that
    size is a power of two): the result of a successful [Add] of two
    well-formed tensors with strictly increasing division sequences is
    well formed, its division sequences are strictly increasing, and the
    dimension counts, the vector length and the expanded flag of [this]
    stay. *)
Theorem Add_keeps_invariants (this rhs R : SegmentedTensor T) :
  (size_max mod N.of_nat sizeof_TDivisions <> 0)%N ->
  well_formed this -> well_formed rhs ->
  Forall (fun d => increasing (divisions d)) (active this) ->
  Forall (fun d => increasing (divisions d)) (active rhs) ->
  Add this rhs = Some (false, R) ->
  well_formed R
  /\ Forall (fun d => increasing (divisions d)) (active R)
  /\ m_cDimensions R = m_cDimensions this
  /\ m_cDimensionsMax R = m_cDimensionsMax this
  /\ m_cVectorLength R = m_cVectorLength this
  /\ m_bExpanded R = m_bExpanded this.
Proof.
  intros Hmod W1 W2 I1 I2 H.
  destruct (Add_capacity _ _ _ Hmod W1 H) as (Hcap & Hbytes & Hmax & Hexp & Hlen & Hdims).
  pose proof W1 as [V1 V2 V3 V4 V5 V6].
  assert (m_cDimensions R = m_cDimensions this
          /\ m_cVectorLength R = m_cVectorLength this
          /\ m_cVectorLength R * segments (active R) <= length (m_aValues R)
          /\ Forall (fun d => increasing (divisions d)) (active R)) as (HD & HL & Hval & HI).
  { destruct (decide (0 = m_cDimensions this)) as [Hz | Hnz].
    - unfold Add in H. bind H. rewrite bool_decide_eq_true_2 in H by done.
      bind H. bind H. injection H as <-. apply Add_scores_length in E1.
      unfold active. cbn. rewrite <- Hz, take_0. cbn. rewrite E1.
      unfold active in V5. rewrite <- Hz, take_0 in V5. cbn in V5.
      repeat split; [lia | constructor].
    - destruct (Add_result _ _ _ W1 W2 I1 I2 Hnz H)
        as (a & stack' & HDD & V & _ & Hrun & HD & HL & F).
      destruct (segments_top_initial _ _ _ F) as [Hseg _].
      pose proof (Add_values_top _ _ _ _ _ _ _ _ _ _ _ Hrun) as Htop.
      apply Add_values_length in Hrun. cbn in Hrun.
      split; [done |]. split; [done |]. split; [rewrite HL, Hseg, Hrun; lia |].
      revert I1 I2 F. generalize (active this) (active rhs) (active R).
      intros l1 l2 lR J1 J2 F. clear -J1 J2 F.
      induction F as [|d1 d2 dR l1 l2 lR [_ Hd] F IH]; [constructor |].
      apply Forall_cons in J1 as [K1 J1]. apply Forall_cons in J2 as [K2 J2].
      constructor; [| by apply IH]. rewrite Hd.
      by destruct (rmerge_sorted_union _ _ K1 K2). }
  split; [| done]. split.
  - by rewrite HL.
  - rewrite HD, Hlen. done.
  - apply Forall_lookup. intros j dR Hj. unfold active in Hj.
    apply lookup_take_Some in Hj as [Hj Hlt]. apply (Hdims j); [lia | done].
  - done.
  - done.
  - done.
Qed.

End AddInvariant.

(** ** More on Expand *)

Lemma increasing_lookup_lt (l : list nat) (i j x y : nat) :
  increasing l -> i < j -> l !! i = Some x -> l !! j = Some y -> x < y.
Proof.
  intros Hl. revert i j. induction Hl as [|a l Hl IH Ha]; intros i j Hij Hi Hj; [done |].
  destruct j as [|j]; [lia |]. cbn in Hj. destruct i as [|i].
  - injection Hi as <-. rewrite Forall_forall in Ha.
    apply Ha. by apply list_elem_of_lookup_2 in Hj.
  - cbn in Hi. apply (IH i j); [lia | done | done].
Qed.

Lemma increasing_lookup_gap (l : list nat) (i j x y : nat) :
  increasing l -> i <= j -> l !! i = Some x -> l !! j = Some y -> x + (j - i) <= y.
Proof.
  intros Hl. revert y. induction j as [|j IH]; intros y Hij Hi Hj.
  - assert (i = 0) as -> by lia. rewrite Hi in Hj. injection Hj as ->. lia.
  - destruct (decide (i = S j)) as [-> | Hne].
    + rewrite Hi in Hj. injection Hj as ->. lia.
    + destruct (lookup_lt_is_Some_2 l j) as [z Hz]; [apply lookup_lt_Some in Hj; lia |].
      pose proof (IH z ltac:(lia) Hi Hz).
      pose proof (increasing_lookup_lt l j (S j) z y Hl ltac:(lia) Hz Hj). lia.
Qed.

(** A strictly increasing sequence of [n] numbers below [n] is
    [0, 1, ..., n - 1]. *)
Lemma increasing_full (l : list nat) (n : nat) :
  increasing l -> Forall (fun x => x < n) l -> length l = n -> l = seq 0 n.
Proof.
  intros Hl Hn Hlen. apply list_eq. intros i.
  destruct (decide (i < n)) as [Hi | Hi].
  - rewrite lookup_seq_lt by done. cbn.
    destruct (lookup_lt_is_Some_2 l i) as [x Hx]; [lia |].
    destruct (lookup_lt_is_Some_2 l 0) as [x0 Hx0]; [lia |].
    destruct (lookup_lt_is_Some_2 l (n - 1)) as [xn Hxn]; [lia |].
    pose proof (increasing_lookup_gap l 0 i x0 x Hl ltac:(lia) Hx0 Hx).
    pose proof (increasing_lookup_gap l i (n - 1) x xn Hl ltac:(lia) Hx Hxn).
    rewrite Forall_forall in Hn. apply list_elem_of_lookup_2 in Hxn as Hin.
    specialize (Hn _ Hin). cbn in Hn. rewrite Hx. f_equal. lia.
  - rewrite lookup_seq_ge by lia. apply lookup_ge_None. lia.
Qed.

Section ExpandProperties.
Context `{PF : Platform} {T : Type} `{SC : Scores T}.

Lemma Expand_identity_Some (todo i : nat) (a a' : list nat) :
  Expand_identity todo i a = Some a' ->
  length a' = length a
  /\ (forall j, i <= j < i + todo -> a' !! j = Some j)
  /\ (forall j, j < i -> a' !! j = a !! j).
Proof.
  revert i a. induction todo as [|todo IH]; intros i a H; cbn [Expand_identity] in H.
  - injection H as <-. split; [done |]. split; [intros; lia | done].
  - bind H. apply store_Some in E as [Hi ->]. apply IH in H as (Hlen & Hin & Hout).
    rewrite length_insert in Hlen. split; [done |]. split.
    + intros j Hj. destruct (decide (j = i)) as [-> | Hne].
      * rewrite Hout by lia. by rewrite list_lookup_insert_eq.
      * apply Hin. lia.
    + intros j Hj. rewrite Hout by lia. by rewrite list_lookup_insert_ne by lia.
Qed.

Lemma take_identity (c : nat) (a : list nat) :
  (forall j, j < c -> a !! j = Some j) -> take c a = seq 0 c.
Proof.
  intros Ha. apply list_eq. intros j. destruct (decide (j < c)) as [Hj | Hj].
  - rewrite lookup_take_lt by done. rewrite lookup_seq_lt by done. by apply Ha.
  - rewrite lookup_take_ge by lia. by rewrite lookup_seq_ge by lia.
Qed.

(** The last loop of [Expand]: a dimension whose count is already the new
    one is left as it is; any other gets the new count and the divisions
    [0, 1, ...]. *)
Lemma Expand_divisions_Some (todo i : nat) (ac : list nat) (t t' : SegmentedTensor T) :
  Expand_divisions todo i ac t = Some (false, t') ->
  m_cValueCapacity t' = m_cValueCapacity t
  /\ m_cVectorLength t' = m_cVectorLength t
  /\ m_cDimensionsMax t' = m_cDimensionsMax t
  /\ m_cDimensions t' = m_cDimensions t
  /\ m_aValues t' = m_aValues t
  /\ m_bExpanded t' = m_bExpanded t
  /\ length (m_aDimensions t') = length (m_aDimensions t)
  /\ (forall j, j < i \/ i + todo <= j -> m_aDimensions t' !! j = m_aDimensions t !! j)
  /\ (forall j, i <= j < i + todo ->
        exists c d d',
          ac !! j = Some c /\ m_aDimensions t !! j = Some d
          /\ m_aDimensions t' !! j = Some d'
          /\ m_cDivisions d' = size_sub c 1
          /\ (m_cDivisions d = size_sub c 1 -> d' = d)
          /\ (m_cDivisions d <> size_sub c 1 -> divisions d' = seq 0 (size_sub c 1))).
Proof.
  revert i t. induction todo as [|todo IH]; intros i t H; cbn [Expand_divisions] in H.
  - injection H as <-. repeat (split; [done |]). intros; lia.
  - bind H. rename x into c. bind H. rename x into d. unfold load in E, E0.
    case_bool_decide as Hsame.
    + apply IH in H as (H1 & H2 & H3 & H4 & H5 & H6 & H7 & Hout & Hin).
      repeat (split; [done |]). split.
      * intros j Hj. apply Hout. lia.
      * intros j Hj. destruct (decide (j = i)) as [-> | Hne].
        -- exists c, d, d. rewrite Hout by lia. done.
        -- apply Hin. lia.
    + bind H. destruct x as [bad t1]. destruct bad; [done |].
      apply SetCountDivisions_count in E1 as (d1 & -> & HiD & Hi & Hc1).
      bind H. rename x into d1'. unfold load in E1.
      cbn [with_dimensions m_aDimensions] in E1.
      rewrite list_lookup_insert_eq in E1 by done. injection E1 as <-.
      bind H. rename x into a. bind H. rename x into ds.
      apply store_Some in E2 as [_ ->]. cbn [with_dimensions m_aDimensions] in H.
      rewrite list_insert_insert_eq in H.
      apply Expand_identity_Some in E1 as (Hlen & Hid & _).
      apply IH in H as (H1 & H2 & H3 & H4 & H5 & H6 & H7 & Hout & Hin).
      cbn [with_dimensions m_cValueCapacity m_cVectorLength m_cDimensionsMax m_cDimensions
           m_aValues m_bExpanded m_aDimensions] in *.
      rewrite length_insert in H7.
      repeat (split; [done |]). split.
      * intros j Hj. rewrite Hout by lia. by rewrite list_lookup_insert_ne by lia.
      * intros j Hj. destruct (decide (j = i)) as [-> | Hne].
        -- exists c, d, (set_aDivisions a d1). rewrite Hout by lia.
           rewrite list_lookup_insert_eq by done.
           split; [done |]. split; [done |]. split; [done |]. split; [done |].
           split; [congruence |]. intros _. unfold divisions. cbn. rewrite Hc1.
           apply take_identity. intros k Hk. apply Hid. lia.
        -- destruct (Hin j) as (c' & d' & d'' & Hc' & Hd' & Hd'' & Hrest); [lia |].
           rewrite list_lookup_insert_ne in Hd' by lia.
           exists c', d', d''. done.
Qed.

Lemma size_sub_small (a b : nat) :
  b <= a -> (N.of_nat a <= size_max)%N -> size_sub a b = a - b.
Proof.
  intros Hb Ha. unfold size_sub, wrap.
  rewrite (N.mod_small (N.of_nat b)) by lia.
  replace (N.of_nat a + (size_max + 1) - N.of_nat b)%N
    with (N.of_nat (a - b) + 1 * (size_max + 1))%N by lia.
  rewrite N.Div0.mod_add, N.mod_small by lia. lia.
Qed.

(** *** Segments *)

Lemma filter_none {A} (P : A -> Prop) `{!forall x, Decision (P x)} (l : list A) :
  Forall (fun x => ~ P x) l -> filter P l = [].
Proof.
  induction 1 as [|x l Hx _ IH]; [done |]. by rewrite filter_cons_False.
Qed.

Lemma filter_all {A} (P : A -> Prop) `{!forall x, Decision (P x)} (l : list A) :
  Forall P l -> filter P l = l.
Proof.
  induction 1 as [|x l Hx _ IH]; [done |]. rewrite filter_cons_True by done. by f_equal.
Qed.

Lemma segment_of_lt (divs : list nat) (b j x : nat) :
  increasing divs -> divs !! j = Some x -> (j < segment_of divs b <-> x < b).
Proof.
  intros Hl. revert j. unfold segment_of.
  induction Hl as [|a l Hl IH Ha]; intros j Hj; [done |].
  destruct (decide (a < b)) as [Hab | Hab].
  - rewrite filter_cons_True by done. cbn. destruct j as [|j]; cbn in Hj.
    + injection Hj as ->. split; [done | lia].
    + rewrite <- (IH j Hj). lia.
  - rewrite filter_cons_False by done. rewrite filter_none.
    + cbn. split; [lia |]. intros Hx. destruct j as [|j]; cbn in Hj.
      * injection Hj as ->. lia.
      * rewrite Forall_forall in Ha. apply list_elem_of_lookup_2 in Hj.
        specialize (Ha _ Hj). lia.
    + eapply Forall_impl; [exact Ha |]. cbn. intros; lia.
Qed.

Lemma segment_of_le_length (divs : list nat) (b : nat) :
  segment_of divs b <= length divs.
Proof. apply length_filter. Qed.

(** The segment of a bin, from the divisions around it. *)
Lemma segment_of_char (divs : list nat) (b p : nat) :
  increasing divs -> p <= length divs ->
  (forall j x, j < p -> divs !! j = Some x -> x < b) ->
  (forall j x, p <= j -> divs !! j = Some x -> b <= x) ->
  segment_of divs b = p.
Proof.
  intros Hl Hp Hlo Hhi. pose proof (segment_of_le_length divs b) as Hs.
  destruct (decide (segment_of divs b < p)) as [Hlt | Hge].
  - destruct (lookup_lt_is_Some_2 divs (segment_of divs b)) as [x Hx]; [lia |].
    pose proof (Hlo _ _ Hlt Hx) as Hxb. apply (segment_of_lt divs b _ x Hl Hx) in Hxb. lia.
  - destruct (decide (p < segment_of divs b)) as [Hgt | ?]; [| lia].
    destruct (lookup_lt_is_Some_2 divs p) as [x Hx]; [lia |].
    pose proof (Hhi _ _ (le_n p) Hx) as Hxb.
    apply (segment_of_lt divs b _ x Hl Hx) in Hgt. lia.
Qed.

Lemma segment_of_all (divs : list nat) (b : nat) :
  Forall (fun x => x < b) divs -> segment_of divs b = length divs.
Proof. intros H. unfold segment_of. by rewrite filter_all. Qed.

Lemma segment_of_0 (divs : list nat) : segment_of divs 0 = 0.
Proof.
  unfold segment_of. rewrite filter_none; [done |].
  apply Forall_forall. intros; lia.
Qed.

(** A bin is not below its segment: there are at most [b] divisions
    below bin [b]. *)
Lemma segment_of_le (divs : list nat) (b : nat) :
  increasing divs -> segment_of divs b <= b.
Proof.
  intros Hl. destruct (decide (segment_of divs b = 0)) as [-> | Hne]; [lia |].
  pose proof (segment_of_le_length divs b).
  destruct (lookup_lt_is_Some_2 divs (segment_of divs b - 1)) as [x Hx]; [lia |].
  destruct (lookup_lt_is_Some_2 divs 0) as [x0 Hx0]; [lia |].
  pose proof (increasing_lookup_gap divs 0 (segment_of divs b - 1) x0 x Hl
                ltac:(lia) Hx0 Hx).
  assert (x < b) by (apply (segment_of_lt divs b _ x Hl Hx); lia). lia.
Qed.

(** One bin down: the segment stays, or it is the one before when the
    division before the segment is not below the new bin. *)
Lemma segment_of_pred (divs : list nat) (b d1 : nat) :
  increasing divs -> 0 < b -> 0 < segment_of divs b ->
  divs !! (segment_of divs b - 1) = Some d1 ->
  segment_of divs (b - 1)
  = if bool_decide (b - 1 <= d1) then segment_of divs b - 1 else segment_of divs b.
Proof.
  intros Hl Hb Hp Hd1. pose proof (segment_of_le_length divs b) as Hlen.
  assert (d1 < b) as Hd1b by (apply (segment_of_lt divs b _ d1 Hl Hd1); lia).
  case_bool_decide as Hmove; apply segment_of_char; try done; try lia.
  - intros j x Hj Hx.
    pose proof (increasing_lookup_lt divs j (segment_of divs b - 1) x d1 Hl
                  ltac:(lia) Hx Hd1). lia.
  - intros j x Hj Hx.
    pose proof (increasing_lookup_gap divs (segment_of divs b - 1) j d1 x Hl
                  ltac:(lia) Hd1 Hx). lia.
  - intros j x Hj Hx.
    pose proof (increasing_lookup_gap divs j (segment_of divs b - 1) x d1 Hl
                  ltac:(lia) Hx Hd1). lia.
  - intros j x Hj Hx.
    assert (~ x < b); [| lia]. rewrite <- (segment_of_lt divs b j x Hl Hx). lia.
Qed.

Lemma segment_of_pred_0 (divs : list nat) (b : nat) :
  increasing divs -> segment_of divs b = 0 -> segment_of divs (b - 1) = 0.
Proof.
  intros Hl Hp. apply segment_of_char; [done | lia | intros; lia |].
  intros j x _ Hx. assert (~ x < b); [| lia].
  rewrite <- (segment_of_lt divs b j x Hl Hx). lia.
Qed.

(** *** Flat indices *)

Lemma flat_inj (radix idx idx' : list nat) :
  Forall2 (fun i r => i < r) idx radix -> Forall2 (fun i r => i < r) idx' radix ->
  flat radix idx = flat radix idx' -> idx = idx'.
Proof.
  intros H. revert idx'. induction H as [|i r idx radix Hi H IH]; intros idx' H' Heq.
  - by apply Forall2_nil_inv_r in H'.
  - apply Forall2_cons_inv_r in H' as (i' & idx'' & Hi' & H' & ->). cbn in Heq.
    assert (i = i') as <-.
    { apply (f_equal (fun n => n mod r)) in Heq.
      rewrite !(Nat.mul_comm r), !Nat.Div0.mod_add, !Nat.mod_small in Heq by done. done. }
    f_equal. apply IH; [done |]. nia.
Qed.

Lemma flat_lt (radix idx : list nat) :
  Forall2 (fun i r => i < r) idx radix -> flat radix idx < foldr Nat.mul 1 radix.
Proof. induction 1 as [|i r idx radix Hi H IH]; cbn; [lia | nia]. Qed.

Lemma flat_le (radix radix' idx idx' : list nat) :
  Forall2 le idx idx' -> Forall2 le radix radix' -> flat radix idx <= flat radix' idx'.
Proof.
  intros H. revert radix radix'. induction H as [|i i' idx idx' Hi H IH]; intros radix radix' Hr.
  - destruct Hr; cbn; lia.
  - destruct Hr as [|r r' radix radix' Hr Hrs]; [done |]. cbn.
    specialize (IH _ _ Hrs). nia.
Qed.

Lemma flat_top (ns : list nat) :
  flat (map S ns) ns + 1 = foldr Nat.mul 1 (map S ns).
Proof. induction ns as [|n ns IH]; cbn; [done | nia]. Qed.

End ExpandProperties.

(** *** The loops of [Expand] *)

Section ExpandLoops.
Context `{PF : Platform} {T : Type} `{SC : Scores T}.
Import DimensionInfoStackExpand.

Local Abbreviation radix1 := (map (fun d => S (m_cDivisions d))).
Local Abbreviation segments_of :=
  (zip_with (fun d i => segment_of (divisions d) i)).

(** The copy of one score vector: the cells below [pValue1Move] go to
    the cells below [pValueTop], in place. *)
Lemma Expand_cell_Some (fuel pV1 pTop pEnd q : nat) (a a' : list T) :
  pV1 <= pTop -> pEnd < pTop ->
  Expand_cell fuel pV1 pTop pEnd a = Some (q, a') ->
  q = pEnd
  /\ pTop - pEnd <= pV1
  /\ length a' = length a
  /\ (forall v, v < pTop - pEnd -> a' !! (pEnd + v) = a !! (pV1 - (pTop - pEnd) + v))
  /\ (forall j, j < pEnd \/ pTop <= j -> a' !! j = a !! j).
Proof.
  revert pV1 pTop a. induction fuel as [|fuel IH]; intros pV1 pTop a Hle Hend H; [done |].
  cbn [Expand_cell] in H. bind H. apply ptr_sub_Some in E as [H1 ->].
  bind H. apply ptr_sub_Some in E as [H2 ->]. bind H. rename x into x0. unfold load in E.
  bind H. apply store_Some in E0 as [Hlt ->]. case_bool_decide as Hmore.
  - apply IH in H as (-> & Hn & Hlen & Hin & Hout); [| lia | lia].
    rewrite length_insert in Hlen. split; [done |]. split; [lia |]. split; [done |]. split.
    + intros v Hv. destruct (decide (v = pTop - pEnd - 1)) as [-> | Hne].
      * rewrite Hout by lia. replace (pEnd + (pTop - pEnd - 1)) with (pTop - 1) by lia.
        rewrite list_lookup_insert_eq by done.
        replace (pV1 - (pTop - pEnd) + (pTop - pEnd - 1)) with (pV1 - 1) by lia. done.
      * rewrite Hin by lia. rewrite list_lookup_insert_ne by lia. f_equal. lia.
    + intros j Hj. rewrite Hout by lia. rewrite list_lookup_insert_ne by lia. done.
  - injection H as <- <-. assert (pEnd = pTop - 1) as -> by (destruct (decide (pEnd = pTop - 1)); [done | by destruct Hmore]).
    rewrite length_insert. split; [done |]. split; [lia |]. split; [done |]. split.
    + intros v Hv. assert (v = 0) as -> by lia. rewrite Nat.add_0_r.
      rewrite list_lookup_insert_eq by done.
      replace (pV1 - (pTop - (pTop - 1)) + 0) with (pV1 - 1) by lia. done.
    + intros j Hj. rewrite list_lookup_insert_ne by lia. done.
Qed.

(** One step of the cursors: the bin cursors go to the cell before, the
    division cursors to its segments, and [pValue1] follows. *)
Lemma Expand_next_Some (stack : list DimensionInfoStackExpand.t) (ds : list DimensionInfo)
    (pV1 m : nat) (stack' : list DimensionInfoStackExpand.t) (pV1' : nat) :
  Forall2 expand_valid stack ds ->
  pV1 = m * (flat (radix1 ds) (map m_pDivision1 stack) + 1) ->
  Expand_next stack ds pV1 m = Some (stack', pV1') ->
  Forall2 expand_valid stack' ds
  /\ map m_cNewDivisions stack' = map m_cNewDivisions stack
  /\ pV1' = m * (flat (radix1 ds) (map m_pDivision1 stack') + 1)
  /\ flat (map S (map m_cNewDivisions stack)) (map m_iDivision2 stack') + 1
     = flat (map S (map m_cNewDivisions stack)) (map m_iDivision2 stack).
Proof.
  intros V. revert pV1 m stack' pV1'.
  induction V as [|e d stack ds Ve V IH]; intros pV1 m stack' pV1' HpV1 H; [done |].
  destruct Ve as (Hi2 & Hp & Hinc & Hbound & HK & HN & HKmax).
  pose proof (segment_of_le_length (divisions d) (m_iDivision2 e)) as Hseg.
  assert (length (divisions d) = m_cDivisions d) as Hlen.
  { unfold divisions. rewrite length_take. lia. }
  cbn [Expand_next] in H. cbn [map flat] in HpV1. case_bool_decide as Hp0.
  - bind H. apply assert_Some, bool_decide_eq_true in E.
    bind H. apply ptr_sub_Some in E0 as [_ ->]. bind H. rename x into d1. unfold load in E0.
    assert (divisions d !! (m_pDivision1 e - 1) = Some d1) as Hd1.
    { unfold divisions. rewrite lookup_take_lt by lia. done. }
    rewrite size_sub_small in H by lia.
    rewrite Hp in Hd1, Hp0.
    pose proof (segment_of_pred _ _ _ Hinc E Hp0 Hd1) as Hpred.
    bind H. rename x into q. injection H as <- <-. cbn [map flat m_cNewDivisions m_iDivision2 m_pDivision1].
    split.
    { constructor; [| done]. unfold expand_valid. cbn [m_cNewDivisions m_iDivision2 m_pDivision1].
      split; [lia |]. split; [| done]. rewrite Hpred, Hp. by destruct (bool_decide _). }
    split; [done |]. split; [| lia].
    case_bool_decide as Hmove.
    + apply ptr_sub_Some in E1 as [Hm ->]. rewrite HpV1. rewrite <- Hp in Hp0. nia.
    + injection E1 as <-. rewrite HpV1. done.
  - case_bool_decide as Hi0.
    + injection H as <- <-. cbn [map flat m_cNewDivisions m_iDivision2 m_pDivision1].
      rewrite size_sub_small by lia. assert (m_pDivision1 e = 0) as Hpz by lia.
      split.
      { constructor; [| done]. unfold expand_valid. cbn [m_cNewDivisions m_iDivision2 m_pDivision1].
        split; [lia |]. split; [| done]. rewrite Hpz. symmetry.
        apply segment_of_pred_0; [done | lia]. }
      split; [done |]. split; [done | lia].
    + bind H. apply ptr_sub_Some in E as [Hm ->]. bind H.
      rewrite size_add_small in H by lia.
      bind H. destruct x as [stack'' q]. injection H as <- <-.
      assert (m_pDivision1 e = 0) as Hpz by lia. assert (m_iDivision2 e = 0) as Hiz by lia.
      rewrite Hpz in HpV1.
      apply IH in E0 as (V' & HN' & Hq & Hflat).
      2:{ rewrite HpV1. nia. }
      cbn [map flat m_cNewDivisions m_iDivision2 m_pDivision1].
      split.
      { constructor; [| done]. unfold expand_valid. cbn [m_cNewDivisions m_iDivision2 m_pDivision1].
        split; [lia |]. split; [| done]. rewrite segment_of_all by done. lia. }
      split; [by f_equal |]. split; [rewrite Hq; nia |]. rewrite Hiz. nia.
Qed.

Lemma expand_valid_flat_le (stack : list DimensionInfoStackExpand.t) (ds : list DimensionInfo) :
  Forall2 expand_valid stack ds ->
  flat (radix1 ds) (map m_pDivision1 stack)
  <= flat (map S (map m_cNewDivisions stack)) (map m_iDivision2 stack).
Proof.
  induction 1 as [|e d stack ds Ve V IH]; [done |]. cbn [map flat].
  destruct Ve as (Hi2 & Hp & Hinc & Hbound & HK & _).
  pose proof (segment_of_le _ (m_iDivision2 e) Hinc).
  pose proof (segment_of_le _ (m_cNewDivisions e) Hinc) as HKN.
  rewrite segment_of_all in HKN by done. unfold divisions in HKN at 1.
  rewrite length_take in HKN. nia.
Qed.

Lemma expand_valid_segments (stack : list DimensionInfoStackExpand.t)
    (ds : list DimensionInfo) :
  Forall2 expand_valid stack ds ->
  segments_of ds (map m_iDivision2 stack) = map m_pDivision1 stack.
Proof.
  induction 1 as [|e d stack ds Ve V IH]; [done |]. cbn [map zip_with].
  destruct Ve as (_ & -> & _). by f_equal.
Qed.

Lemma Forall2_le_lt_S (idx ns : list nat) :
  Forall2 le idx ns -> Forall2 (fun i r => i < r) idx (map S ns).
Proof. induction 1; constructor; [lia | done]. Qed.

(** The loop over the cells, from the last cell down: once it ends every
    cell of the new grid holds the score of the old cell of its
    segments. *)
Lemma Expand_values_Some (fuel L : nat) (stack : list DimensionInfoStackExpand.t)
    (ds : list DimensionInfo) (pV1 pTop : nat) (a a0 : list T) (pV1' : nat) (a' : list T) :
  1 <= L -> Forall2 expand_valid stack ds ->
  pV1 = L * (flat (radix1 ds) (map m_pDivision1 stack) + 1) ->
  pTop = L * (flat (map S (map m_cNewDivisions stack)) (map m_iDivision2 stack) + 1) ->
  (forall j, j < pTop -> a !! j = a0 !! j) ->
  (forall idx v,
     Forall2 le idx (map m_cNewDivisions stack) ->
     flat (map S (map m_cNewDivisions stack)) (map m_iDivision2 stack)
     < flat (map S (map m_cNewDivisions stack)) idx ->
     v < L ->
     a !! (L * flat (map S (map m_cNewDivisions stack)) idx + v)
     = a0 !! (L * flat (radix1 ds) (segments_of ds idx) + v)) ->
  Expand_values fuel L stack ds pV1 pTop a = Some (pV1', a') ->
  length a' = length a
  /\ forall idx v,
       Forall2 le idx (map m_cNewDivisions stack) -> v < L ->
       a' !! (L * flat (map S (map m_cNewDivisions stack)) idx + v)
       = a0 !! (L * flat (radix1 ds) (segments_of ds idx) + v).
Proof.
  intros HL. revert stack pV1 pTop a.
  induction fuel as [|fuel IH]; intros stack pV1 pTop a V HpV1 HpTop HA HB H; [done |].
  cbn [Expand_values] in H. bind H. apply ptr_sub_Some in E as [HLtop ->].
  bind H. destruct x as [q a1].
  pose proof (expand_valid_flat_le _ _ V) as HGF.
  pose proof (expand_valid_segments _ _ V) as Hsegs.
  set (F := flat (map S (map m_cNewDivisions stack)) (map m_iDivision2 stack)) in *.
  set (G := flat (radix1 ds) (map m_pDivision1 stack)) in *.
  apply Expand_cell_Some in E as (-> & _ & Hlen & Hin & Hout); [| nia | lia].
  replace (pTop - (pTop - L)) with L in Hin by lia.
  assert (forall idx v, Forall2 le idx (map m_cNewDivisions stack) ->
            F <= flat (map S (map m_cNewDivisions stack)) idx -> v < L ->
            a1 !! (L * flat (map S (map m_cNewDivisions stack)) idx + v)
            = a0 !! (L * flat (radix1 ds) (segments_of ds idx) + v)) as HB1.
  { intros idx v Hidx HF Hv.
    destruct (decide (flat (map S (map m_cNewDivisions stack)) idx = F)) as [Heq | Hne].
    - assert (idx = map m_iDivision2 stack) as ->.
      { apply (flat_inj (map S (map m_cNewDivisions stack))); [| | done].
        - by apply Forall2_le_lt_S.
        - apply Forall2_le_lt_S. clear -V. induction V as [|e d stack ds Ve V IH]; [done |].
          constructor; [| done]. by destruct Ve as [? _]. }
      rewrite Hsegs. fold F G.
      replace (L * F + v) with (pTop - L + v) by nia. rewrite Hin by done.
      rewrite HA by nia. f_equal. nia.
    - rewrite Hout by nia. apply HB; [done | lia | done]. }
  case_bool_decide as Hdone.
  - injection H as <- <-. split; [done |]. intros idx v Hidx Hv.
    apply HB1; [done | nia | done].
  - bind H. destruct x as [stack' q]. 
    apply Expand_next_Some in E as (V' & HN & Hq & HF'); [| done | done].
    fold F in HF'.
    apply IH in H as [Hlen' Hall]; [| done | done | | |].
    + rewrite Hlen', Hlen. split; [done |]. intros idx v Hidx Hv.
      rewrite <- HN. apply Hall; [by rewrite HN | done].
    + rewrite HN. nia.
    + intros j Hj. rewrite Hout by lia. apply HA. lia.
    + intros idx v Hidx HF Hv. rewrite HN in *. apply HB1; [done | lia | done].
Qed.

Lemma product_pos (l : list nat) : 1 <= foldr Nat.mul 1 l -> Forall (fun c => 1 <= c) l.
Proof.
  induction l as [|c l IH]; cbn; [done |]. intros H.
  constructor; [destruct c; [cbn in H |]; lia |]. apply IH.
  destruct (foldr Nat.mul 1 l); [rewrite Nat.mul_0_r in H |]; lia.
Qed.

Lemma product_radix1 (ds : list DimensionInfo) : foldr Nat.mul 1 (radix1 ds) = segments ds.
Proof.
  induction ds as [|d ds IH]; [done |]. unfold segments in *. cbn [foldr map].
  rewrite IH. lia.
Qed.

(** The stack the first loop of [Expand] builds for [c] bins. *)
Local Abbreviation first_entry := (fun (d : DimensionInfo) (c : nat) =>
  {| m_pDivision1 := m_cDivisions d;
     m_iDivision2 := size_sub c 1;
     m_cNewDivisions := size_sub c 1 |}).

Lemma Expand_count_Some (ds : list DimensionInfo) (ac : list nat) (v1 n1 : nat)
    (stack : list DimensionInfoStackExpand.t) (cV cN : nat) :
  Forall (fun d => (N.of_nat (m_cDivisions d) < size_max)%N) ds ->
  Expand_count ds ac v1 n1 = Some (stack, cV, cN) ->
  length ds <= length ac
  /\ cV = v1 * foldr Nat.mul 1 (radix1 ds)
  /\ cN = n1 * foldr Nat.mul 1 (take (length ds) ac)
  /\ stack = zip_with first_entry ds ac.
Proof.
  intros Hds. revert ac v1 n1 stack cV cN.
  induction Hds as [|d ds Hd Hds IH]; intros ac v1 n1 stack cV cN H; cbn [Expand_count] in H.
  - injection H as <- <- <-. rewrite take_0. cbn. split; [lia |]. split; [lia |].
    split; [lia | done].
  - bind H. bind H. rename x into c. destruct ac as [|c' ac]; [done |]. injection E0 as ->.
    bind H. bind H. destruct x as [[stack' cV'] cN']. injection H as <- <- <-.
    cbn [tail] in E1. rewrite size_add_small in E1 by lia.
    apply IH in E1 as (Hlen & -> & -> & ->). cbn. split; [lia |]. split; [lia |].
    split; [lia | done].
Qed.

(** What a successful [Expand] has run through. *)
Lemma Expand_run (ac : list nat) (t t' : SegmentedTensor T) :
  well_formed t -> m_bExpanded t = false ->
  Expand ac t = Some (false, t') ->
  let cs := take (m_cDimensions t) ac in
  exists cap a pV1 aV t2,
    m_cDimensions t <= length ac
    /\ Forall (fun c => 1 <= c) cs
    /\ segments (active t) <= foldr Nat.mul 1 cs
    /\ foldr Nat.mul 1 cs * m_cVectorLength t <= length a
    /\ (forall j, j < length (m_aValues t) -> j < foldr Nat.mul 1 cs * m_cVectorLength t ->
          a !! j = m_aValues t !! j)
    /\ Expand_values (foldr Nat.mul 1 cs) (m_cVectorLength t)
         (zip_with first_entry (active t) ac) (active t)
         (m_cVectorLength t * segments (active t))
         (foldr Nat.mul 1 cs * m_cVectorLength t) a = Some (pV1, aV)
    /\ Expand_divisions (m_cDimensions t) 0 ac (with_values cap aV t) = Some (false, t2)
    /\ t' = with_expanded true t2.
Proof.
  intros W Hexp H cs. unfold Expand in H. rewrite Hexp in H.
  bind H. bind H. bind H. rename x into ds.
  unfold cells in E1. case_decide as HD; [| done]. injection E1 as <-.
  fold (active t) in *.
  bind H. destruct x as [[stack cValues1] cNewValues].
  pose proof (wf_divisions t W) as Hwf.
  assert (length (active t) = m_cDimensions t) as Hact.
  { unfold active. rewrite length_take. lia. }
  apply Expand_count_Some in E1 as (Hlen & -> & -> & ->).
  2:{ eapply Forall_impl; [exact Hwf |]. intros d (HK & _ & Hb).
      pose proof sizeof_TDivisions_wide. cbn. nia. }
  rewrite Hact in *. fold cs in H |- *. rewrite product_radix1, !Nat.mul_1_l in *.
  destruct (IsMultiplyError _ _); [done |].
  bind H. destruct x as [bad t1]. destruct bad; [done |].
  apply EnsureValueCapacity_false in E1 as (cap & a & -> & Hcap & Hkeep); [| by apply wf_capacity].
  bind H. apply assert_Some, bool_decide_eq_true in E1.
  bind H. bind H. destruct x as [pValue1 aValues]. bind H. bind H.
  destruct x as [bad t2]. destruct bad; [done |]. injection H as <-.
  cbn [with_values m_cValueCapacity m_cVectorLength m_cDimensionsMax m_cDimensions
       m_aValues m_bExpanded m_aDimensions] in *.
  exists cap, a, pValue1, aValues, t2.
  split; [done |]. split.
  { apply product_pos. pose proof (segments_pos (active t)). lia. }
  split; [done |]. split; [done |]. split.
  { intros j Hj1 Hj2. apply Hkeep; done. }
  split; [done |]. split; [done | done].
Qed.

Lemma zip_with_take_length {A B C} (f : A -> B -> C) (l : list A) (k : list B) :
  zip_with f l (take (length l) k) = zip_with f l k.
Proof.
  revert k. induction l as [|x l IH]; intros k; [done |].
  destruct k as [|y k]; [done |]. cbn. by rewrite IH.
Qed.

(** The stack of the first loop belongs to the dimensions. *)
Lemma first_entries_valid (ds : list DimensionInfo) (cs : list nat) :
  Forall2 (fun d c => increasing (divisions d) /\ Forall (fun x => x + 1 < c) (divisions d))
    ds cs ->
  Forall well_formed_dimension ds ->
  Forall (fun c => 1 <= c /\ (N.of_nat c <= size_max)%N) cs ->
  Forall2 expand_valid (zip_with first_entry ds cs) ds
  /\ map m_cNewDivisions (zip_with first_entry ds cs) = map pred cs
  /\ map m_iDivision2 (zip_with first_entry ds cs) = map pred cs
  /\ map m_pDivision1 (zip_with first_entry ds cs) = map m_cDivisions ds.
Proof.
  induction 1 as [|d c ds cs [Hinc Hbound] H IH]; intros Hwf Hcs; [done |].
  apply Forall_cons in Hwf as [(HK & _ & Hb) Hwf]. apply Forall_cons in Hcs as [[Hc1 Hcmax] Hcs].
  destruct (IH Hwf Hcs) as (V & H1 & H2 & H3). cbn [zip_with map].
  rewrite H1, H2, H3, size_sub_small by done. replace (c - 1) with (pred c) by lia.
  split; [| done]. constructor; [| done].
  unfold expand_valid. cbn [m_cNewDivisions m_iDivision2 m_pDivision1].
  assert (Forall (fun x => x < pred c) (divisions d)) as Hlt.
  { eapply Forall_impl; [exact Hbound |]. cbn. intros; lia. }
  pose proof sizeof_TDivisions_wide.
  split; [done |]. split.
  { rewrite segment_of_all by done. unfold divisions. rewrite length_take. lia. }
  split; [done |]. split; [done |]. split; [done |]. split; [lia | nia].
Qed.

Lemma map_S_pred (cs : list nat) : Forall (fun c => 1 <= c) cs -> map S (map pred cs) = cs.
Proof. induction 1 as [|c cs Hc _ IH]; [done |]. cbn. rewrite IH. f_equal. lia. Qed.

Lemma segments_of_lt (ds : list DimensionInfo) (idx : list nat) :
  length idx = length ds ->
  Forall2 (fun i r => i < r) (segments_of ds idx) (radix1 ds).
Proof.
  revert idx. induction ds as [|d ds IH]; intros [|i idx] Hlen; try done.
  cbn. constructor; [| apply IH; cbn in Hlen; lia].
  pose proof (segment_of_le_length (divisions d) i) as Hs. unfold divisions in Hs at 2.
  rewrite length_take in Hs. lia.
Qed.

(** X17: the cells of [Expand].  For a well-formed tensor that is not yet
    expanded, whose division sequences are strictly increasing with every
    division below the last bin of its dimension, a successful [Expand]
    to [c_i] bins per dimension leaves in the cell of the bins
    [(b_0, ..., b_(D-1))] the scores of the old cell of their segments:
    along each dimension the segment of a bin is the number of divisions
    below it. *)
Theorem Expand_cells (ac : list nat) (t t' : SegmentedTensor T) (idx : list nat) (v : nat) :
  well_formed t -> m_bExpanded t = false ->
  Forall (fun c => (N.of_nat c <= size_max)%N) ac ->
  Forall2 (fun d c => increasing (divisions d) /\ Forall (fun x => x + 1 < c) (divisions d))
    (active t) (take (m_cDimensions t) ac) ->
  Expand ac t = Some (false, t') ->
  Forall2 (fun b c => b < c) idx (take (m_cDimensions t) ac) ->
  v < m_cVectorLength t ->
  exists x,
    m_aValues t
      !! (m_cVectorLength t
          * flat (map (fun d => S (m_cDivisions d)) (active t))
                 (zip_with (fun d b => segment_of (divisions d) b) (active t) idx)
          + v) = Some x
    /\ m_aValues t' !! (m_cVectorLength t * flat (take (m_cDimensions t) ac) idx + v)
       = Some x.
Proof.
  intros W Hexp Hmax Hpre H Hidx Hv.
  destruct (Expand_run _ _ _ W Hexp H) as (cap & a & pV1 & aV & t2 & HD & Hpos & Hseg & Hlen
                                          & Hkeep & Hrun & Hdiv & ->).
  set (cs := take (m_cDimensions t) ac) in *. set (L := m_cVectorLength t) in *.
  pose proof (wf_vector t W) as HL. pose proof (wf_values t W) as Hval. fold L in HL, Hval.
  assert (length (active t) = m_cDimensions t) as Hact.
  { unfold active. rewrite length_take. pose proof (wf_dimensions t W). lia. }
  assert (Forall (fun c => 1 <= c /\ (N.of_nat c <= size_max)%N) cs) as Hcs.
  { apply Forall_and. split; [done |]. by apply Forall_take. }
  destruct (first_entries_valid _ _ Hpre (wf_divisions t W) Hcs) as (V & HN & Hi2 & Hp).
  rewrite <- (zip_with_take_length _ (active t) ac), Hact in Hrun. fold cs in Hrun.
  apply (Expand_values_Some _ _ _ _ _ _ _ a) in Hrun as [_ Hall]; [| done | done | | | done |].
  - rewrite HN, (map_S_pred _ Hpos) in Hall.
    apply Expand_divisions_Some in Hdiv as (_ & _ & _ & _ & Hvalues & _).
    cbn [with_values with_expanded m_aValues] in *. rewrite Hvalues.
    rewrite Hall; [| | done].
    2:{ clear -Hidx. induction Hidx; constructor; [lia | done]. }
    pose proof (segments_of_lt (active t) idx) as Hlt.
    rewrite (Forall2_length _ _ _ Hidx), Hact in Hlt. unfold cs in Hlt.
    rewrite length_take in Hlt. specialize (Hlt ltac:(lia)).
    apply flat_lt in Hlt. rewrite product_radix1 in Hlt.
    destruct (lookup_lt_is_Some_2 (m_aValues t)
                (L * flat (radix1 (active t)) (segments_of (active t) idx) + v)) as [x Hx];
      [nia |].
    exists x. split; [done |]. rewrite Hkeep; [done | nia | nia].
  - rewrite Hp. rewrite <- (product_radix1 (active t)), <- (map_map m_cDivisions S).
    rewrite <- flat_top. done.
  - rewrite HN, Hi2, (map_S_pred _ Hpos). rewrite <- (map_S_pred cs Hpos) at 1.
    rewrite <- flat_top, (map_S_pred _ Hpos). lia.
  - intros idx' v' Hidx' Hflat. exfalso. rewrite HN, Hi2, (map_S_pred _ Hpos) in Hflat.
    rewrite HN in Hidx'. apply Forall2_le_lt_S in Hidx'. rewrite (map_S_pred _ Hpos) in Hidx'.
    apply flat_lt in Hidx'. pose proof (flat_top (map pred cs)) as Htop.
    rewrite (map_S_pred _ Hpos) in Htop. lia.
Qed.

(** X18: [Expand] leaves every active dimension with one segment per bin.
    For a well-formed tensor that is not yet expanded, whose division
    sequences are strictly increasing with every division below the last
    bin of its dimension, a successful [Expand] to [c_i] bins per
    dimension sets the expanded flag and leaves the divisions
    [0, 1, ..., c_i - 2] in every active dimension, also in a dimension
    that the last loop skips because its count was already [c_i - 1]; the
    dimension count and the vector length stay. *)
Theorem Expand_divisions_identity (ac : list nat) (t t' : SegmentedTensor T) :
  well_formed t -> m_bExpanded t = false ->
  Forall (fun c => (N.of_nat c <= size_max)%N) ac ->
  Forall2 (fun d c => increasing (divisions d) /\ Forall (fun x => x + 1 < c) (divisions d))
    (active t) (take (m_cDimensions t) ac) ->
  Expand ac t = Some (false, t') ->
  m_bExpanded t' = true
  /\ m_cDimensions t' = m_cDimensions t
  /\ m_cVectorLength t' = m_cVectorLength t
  /\ Forall2 (fun d' c => 1 <= c /\ m_cDivisions d' = c - 1 /\ divisions d' = seq 0 (c - 1))
       (active t') (take (m_cDimensions t) ac)
  /\ segments (active t') = foldr Nat.mul 1 (take (m_cDimensions t) ac).
Proof.
  intros W Hexp Hmax Hpre H.
  destruct (Expand_run _ _ _ W Hexp H) as (cap & a & pV1 & aV & t2 & HD & Hpos & Hseg & Hlen
                                          & Hkeep & Hrun & Hdiv & ->).
  apply Expand_divisions_Some in Hdiv as (H1 & H2 & H3 & H4 & H5 & H6 & H7 & Hout & Hin).
  cbn [with_values with_expanded m_cValueCapacity m_cVectorLength m_cDimensionsMax
       m_cDimensions m_aValues m_bExpanded m_aDimensions] in *.
  split; [done |]. split; [done |]. split; [done |].
  pose proof (wf_dimensions t W) as HDl. pose proof (wf_divisions t W) as Hwf.
  assert (Forall2 (fun d' c => 1 <= c /\ m_cDivisions d' = c - 1
                               /\ divisions d' = seq 0 (c - 1))
            (active (with_expanded true t2)) (take (m_cDimensions t) ac)) as Hshape.
  { unfold active. cbn [with_expanded m_cDimensions m_aDimensions]. rewrite H4.
    apply Forall2_same_length_lookup_2.
    { rewrite !length_take. lia. }
    intros j d' c Hd' Hc.
    apply lookup_take_Some in Hd' as [Hd' Hj]. apply lookup_take_Some in Hc as [Hc _].
    destruct (Hin j) as (c0 & d & d'' & Hc0 & Hd & Hd'' & Hcount & Hsame & Hnew); [lia |].
    rewrite Hc in Hc0. injection Hc0 as <-. rewrite Hd' in Hd''. injection Hd'' as <-.
    assert (active t !! j = Some d) as Hact by (by apply lookup_take_Some).
    assert (take (m_cDimensions t) ac !! j = Some c) as Hacj by (by apply lookup_take_Some).
    destruct (Forall2_lookup_lr _ _ _ _ _ _ Hpre Hact Hacj) as [Hinc Hbound].
    rewrite Forall_forall in Hwf. apply list_elem_of_lookup_2 in Hact as Hel.
    destruct (Hwf _ Hel) as (HK & _ & _).
    rewrite Forall_forall in Hmax. apply list_elem_of_lookup_2 in Hc as Hcel.
    specialize (Hmax _ Hcel). cbn in Hmax.
    rewrite Forall_forall in Hpos. apply list_elem_of_lookup_2 in Hacj as Hcel'.
    specialize (Hpos _ Hcel'). cbn in Hpos.
    rewrite size_sub_small in Hcount, Hsame, Hnew by done.
    split; [done |]. split; [done |].
    destruct (decide (m_cDivisions d = c - 1)) as [Heq | Hne]; [| by apply Hnew].
    rewrite (Hsame Heq). apply increasing_full; [done | |].
    - eapply Forall_impl; [exact Hbound |]. cbn. intros; lia.
    - unfold divisions. rewrite length_take. lia. }
  split; [done |].
  clear -Hshape. induction Hshape as [|d c ds cs (Hc & HK & _) _ IH]; [done |].
  unfold segments in *. cbn [foldr]. rewrite IH, HK. f_equal. lia.
Qed.

(** X19: [Expand] is done once.  After a successful [Expand], any further
    [Expand], whatever bin counts it is given, returns at once and leaves
    the tensor as it is. *)
Theorem Expand_idempotent (ac ac' : list nat) (t t' : SegmentedTensor T) :
  Expand ac t = Some (false, t') -> Expand ac' t' = Some (false, t').
Proof.
  intros H. unfold Expand in H. bind H. apply assert_Some, bool_decide_eq_true in E.
  assert (m_cDimensions t' = m_cDimensions t /\ m_bExpanded t' = true) as [HD Hexp].
  { destruct (m_bExpanded t) eqn:Hexp; [by injection H as <- |].
    bind H. bind H. bind H. destruct x0 as [[stack cValues1] cNewValues].
    destruct (IsMultiplyError _ _); [done |].
    bind H. destruct x0 as [bad t1]. destruct bad; [done |].
    assert (m_cDimensions t1 = m_cDimensions t) as HD1.
    { unfold EnsureValueCapacity in E3.
      repeat match type of E3 with
             | (if ?b then _ else _) = _ => destruct b
             | mbind _ _ = _ => bind E3
             end; try done; by injection E3 as <-. }
    bind H. bind H. bind H. destruct x0 as [pValue1 aValues]. bind H. bind H.
    destruct x0 as [bad t2]. destruct bad; [done |]. injection H as <-.
    apply Expand_divisions_Some in E8 as (_ & _ & _ & HD2 & _).
    cbn [with_values with_expanded m_cDimensions m_bExpanded] in *.
    split; [congruence | done]. }
  unfold Expand. rewrite HD, Hexp. rewrite bool_decide_eq_true_2 by done. done.
Qed.

(** *** [Expand] never goes wrong *)

Lemma product_ge (l : list nat) : Forall (fun c => 1 <= c) l -> 1 <= foldr Nat.mul 1 l.
Proof. induction 1 as [|c l Hc _ IH]; cbn; [done | nia]. Qed.

Lemma product_ge_elem (l : list nat) (c : nat) :
  Forall (fun c => 1 <= c) l -> c ∈ l -> c <= foldr Nat.mul 1 l.
Proof.
  induction 1 as [|c' l Hc Hl IH]; intros Hin; [by apply elem_of_nil in Hin |].
  pose proof (product_ge l Hl). cbn [foldr].
  apply elem_of_cons in Hin as [-> | Hin]; [nia |]. specialize (IH Hin). nia.
Qed.

Lemma Expand_count_total (ds : list DimensionInfo) (ac : list nat) (v1 n1 : nat) :
  Forall (fun d => (N.of_nat (m_cDivisions d) < size_max)%N) ds ->
  Forall2 (fun d c => S (m_cDivisions d) <= c) ds (take (length ds) ac) ->
  v1 <= n1 ->
  (N.of_nat (n1 * foldr Nat.mul 1%nat (take (length ds) ac)) <= size_max)%N ->
  is_Some (Expand_count ds ac v1 n1).
Proof.
  intros Hds. revert ac v1 n1.
  induction Hds as [|d ds Hd Hds IH]; intros ac v1 n1 H Hv Hn; cbn [Expand_count];
    [by eexists |].
  destruct ac as [|c ac]; [by apply Forall2_nil_inv_r in H |].
  change (take (length (d :: ds)) (c :: ac)) with (c :: take (length ds) ac) in *.
  apply Forall2_cons in H as [Hc H]. cbn [foldr] in Hn.
  set (P := foldr Nat.mul 1 (take (length ds) ac)) in *.
  assert (1 <= P) as Hrest.
  { apply product_ge. clear -H. set (cs := take (length ds) ac) in *. clearbody cs.
    induction H; constructor; [lia | done]. }
  rewrite size_add_small by lia.
  assert (v1 * (m_cDivisions d + 1) <= n1 * c) as H1 by nia.
  assert (n1 * c <= n1 * (c * P)) as H2 by nia.
  assert (IsMultiplyError v1 (m_cDivisions d + 1) = false) as ->
    by (apply IsMultiplyError_false; lia).
  cbn [negb assert mbind option_bind head].
  assert (IsMultiplyError n1 c = false) as -> by (apply IsMultiplyError_false; lia).
  cbn [negb assert mbind option_bind tail].
  destruct (IH ac (v1 * (m_cDivisions d + 1)) (n1 * c)) as [[[stack cV] cN] ->];
    [done | done | | by eexists].
  fold P. replace (n1 * c * P) with (n1 * (c * P)) by lia. done.
Qed.

Lemma Expand_cell_total (fuel pV1 pTop pEnd : nat) (a : list T) :
  pEnd < pTop -> pTop - pEnd <= fuel -> pTop - pEnd <= pV1 -> pV1 <= pTop ->
  pTop <= length a ->
  is_Some (Expand_cell fuel pV1 pTop pEnd a).
Proof.
  revert pV1 pTop a. induction fuel as [|fuel IH]; intros pV1 pTop a H1 H2 H3 H4 H5; [lia |].
  cbn [Expand_cell]. rewrite !ptr_sub_le by lia. cbn [mbind option_bind]. unfold load.
  destruct (lookup_lt_is_Some_2 a (pV1 - 1)) as [x ->]; [lia |]. cbn [mbind option_bind].
  unfold store. rewrite decide_True by lia. cbn [mbind option_bind].
  case_bool_decide; [| by eexists]. apply IH; rewrite ?length_insert; lia.
Qed.

Lemma flat_0 (ns idx : list nat) :
  length idx = length ns -> flat (map S ns) idx = 0 -> Forall (fun i => i = 0) idx.
Proof.
  revert idx. induction ns as [|n ns IH]; intros [|i idx] Hlen H; try done.
  cbn in H, Hlen. constructor; [lia |]. apply IH; [lia | nia].
Qed.

Lemma Expand_next_total (stack : list DimensionInfoStackExpand.t) (ds : list DimensionInfo)
    (pV1 m : nat) :
  Forall2 expand_valid stack ds ->
  pV1 = m * (flat (radix1 ds) (map m_pDivision1 stack) + 1) ->
  0 < flat (map S (map m_cNewDivisions stack)) (map m_iDivision2 stack) ->
  (N.of_nat (m * foldr Nat.mul 1%nat (radix1 ds)) <= size_max)%N ->
  is_Some (Expand_next stack ds pV1 m).
Proof.
  intros V. revert pV1 m.
  induction V as [|e d stack ds Ve V IH]; intros pV1 m HpV1 HF Hm; [cbn in HF; lia |].
  destruct Ve as (Hi2 & Hp & Hinc & Hbound & HK & HN & HKmax).
  pose proof (segment_of_le_length (divisions d) (m_iDivision2 e)) as Hseg.
  assert (length (divisions d) = m_cDivisions d) as Hlen.
  { unfold divisions. rewrite length_take. lia. }
  assert (1 <= foldr Nat.mul 1 (radix1 ds)) as Hrest.
  { apply product_ge. apply Forall_forall. intros c Hc.
    apply list_elem_of_fmap in Hc as (? & -> & _). lia. }
  cbn [Expand_next]. cbn [map flat foldr] in HpV1, HF, Hm. case_bool_decide as Hp0.
  - assert (0 < m_iDivision2 e) as Hi0.
    { destruct (decide (0 < m_iDivision2 e)); [done |].
      assert (m_iDivision2 e = 0) as Hz by lia. rewrite Hz, segment_of_0 in Hp. lia. }
    rewrite bool_decide_eq_true_2 by done. cbn [assert mbind option_bind].
    rewrite (ptr_sub_le (m_pDivision1 e) 1) by lia. cbn [mbind option_bind]. unfold load.
    destruct (lookup_lt_is_Some_2 (m_aDivisions d) (m_pDivision1 e - 1)) as [d1 ->]; [lia |].
    cbn [mbind option_bind]. case_bool_decide; [| by eexists].
    rewrite (ptr_sub_le pV1 m) by nia. by eexists.
  - case_bool_decide as Hi0; [by eexists |].
    assert (m_pDivision1 e = 0) as Hpz by lia. assert (m_iDivision2 e = 0) as Hiz by lia.
    rewrite Hpz in HpV1. rewrite Hiz in HF.
    rewrite (ptr_sub_le pV1 m) by nia. cbn [mbind option_bind].
    rewrite size_add_small by lia.
    set (P := foldr Nat.mul 1 (radix1 ds)) in *.
    assert (m * (1 + m_cDivisions d) <= m * (S (m_cDivisions d) * P)) as H1 by nia.
    assert (IsMultiplyError m (1 + m_cDivisions d) = false) as ->
      by (apply IsMultiplyError_false; lia).
    cbn [negb assert mbind option_bind].
    destruct (IH (pV1 - m + m * (1 + m_cDivisions d)) (m * (1 + m_cDivisions d)))
      as [[stack' q] ->]; [rewrite HpV1; nia | nia | | by eexists].
    fold P. replace (m * (1 + m_cDivisions d) * P) with (m * (S (m_cDivisions d) * P)) by lia.
    done.
Qed.

Lemma Expand_values_total (fuel L : nat) (stack : list DimensionInfoStackExpand.t)
    (ds : list DimensionInfo) (pV1 pTop : nat) (a : list T) :
  1 <= L -> Forall2 expand_valid stack ds ->
  pV1 = L * (flat (radix1 ds) (map m_pDivision1 stack) + 1) ->
  pTop = L * (flat (map S (map m_cNewDivisions stack)) (map m_iDivision2 stack) + 1) ->
  flat (map S (map m_cNewDivisions stack)) (map m_iDivision2 stack) < fuel ->
  pTop <= length a ->
  (N.of_nat (L * foldr Nat.mul 1%nat (radix1 ds)) <= size_max)%N ->
  exists a', Expand_values fuel L stack ds pV1 pTop a = Some (L, a').
Proof.
  intros HL. revert stack pV1 pTop a.
  induction fuel as [|fuel IH]; intros stack pV1 pTop a V HpV1 HpTop Hfuel Hlen Hmax; [lia |].
  cbn [Expand_values]. rewrite ptr_sub_le by nia. cbn [mbind option_bind].
  pose proof (expand_valid_flat_le _ _ V) as HGF.
  destruct (Expand_cell_total L pV1 pTop (pTop - L) a) as [[q a1] Hcell]; [nia.. | lia |].
  rewrite Hcell. cbn [mbind option_bind].
  apply Expand_cell_Some in Hcell as (-> & _ & Hlen1 & _); [| nia | nia].
  case_bool_decide as Hdone.
  - exists a1. do 2 f_equal. nia.
  - destruct (Expand_next_total stack ds pV1 L V HpV1) as [[stack' q] Hnext]; [nia | done |].
    rewrite Hnext. cbn [mbind option_bind].
    apply Expand_next_Some in Hnext as (V' & HN & Hq & HF'); [| done | done].
    apply IH; [done | done | rewrite HN; nia | rewrite HN; lia | lia | done].
Qed.

Lemma Expand_identity_total (todo i : nat) (a : list nat) :
  i + todo <= length a -> is_Some (Expand_identity todo i a).
Proof.
  revert i a. induction todo as [|todo IH]; intros i a H; cbn [Expand_identity]; [by eexists |].
  unfold store. rewrite decide_True by lia. cbn [mbind option_bind].
  apply IH. rewrite length_insert. lia.
Qed.

Lemma Expand_divisions_total (todo i : nat) (ac : list nat) (t : SegmentedTensor T) :
  i + todo <= m_cDimensions t -> m_cDimensions t <= length (m_aDimensions t) ->
  i + todo <= length ac -> m_bExpanded t = false ->
  (forall j d, i <= j < i + todo -> m_aDimensions t !! j = Some d ->
     m_cDivisions d <= length (m_aDivisions d)
     /\ m_cDivisionCapacity d = length (m_aDivisions d)) ->
  exists bad t', Expand_divisions todo i ac t = Some (bad, t').
Proof.
  revert i t. induction todo as [|todo IH]; intros i t HD Hdims Hac Hexp Hwf;
    cbn [Expand_divisions]; [by eexists _, _ |].
  unfold load. destruct (lookup_lt_is_Some_2 ac i) as [c ->]; [lia |].
  destruct (lookup_lt_is_Some_2 (m_aDimensions t) i) as [d Hd]; [lia |].
  rewrite Hd. cbn [mbind option_bind]. case_bool_decide as Hsame.
  - apply IH; [lia | done | lia | done |]. intros j d' Hj. apply Hwf. lia.
  - destruct (SetCountDivisions_total i (size_sub c 1) t) as [[bad t1] Hset]; [lia.. | done |].
    rewrite Hset. cbn [mbind option_bind]. destruct bad; [by eexists _, _ |].
    destruct (Hwf i d ltac:(lia) Hd) as [HK Hcap].
    apply (SetCountDivisions_false _ _ _ _ d Hd HK Hcap) in Hset
      as (d' & -> & _ & Hi & Hc' & Hlen' & _).
    cbn [with_dimensions m_aDimensions]. rewrite list_lookup_insert_eq by done.
    cbn [mbind option_bind].
    destruct (Expand_identity_total (size_sub c 1) 0 (m_aDivisions d')) as [a ->]; [lia |].
    cbn [mbind option_bind]. unfold store. rewrite decide_True by (rewrite length_insert; lia).
    cbn [mbind option_bind]. rewrite list_insert_insert_eq.
    apply IH; cbn [with_dimensions m_cDimensions m_aDimensions m_bExpanded];
      rewrite ?length_insert; [lia | done | lia | done |].
    intros j dj Hj Hdj. rewrite list_lookup_insert_ne in Hdj by lia. apply (Hwf j); [lia | done].
Qed.

(** X20: [Expand] never goes wrong on a well-formed tensor.  For a
    well-formed tensor that is not expanded, with at least one and at most
    [k_cDimensionsMax] dimensions, strictly increasing division sequences
    and every division below the last bin of its dimension, and bin
    counts of at least 1 whose product fits [size_t] (what the assertion
    of the first loop asks), [Expand] returns, whatever the allocator
    answers: no assertion fails and no pointer leaves its buffer. *)
Theorem Expand_safe (ac : list nat) (t : SegmentedTensor T) :
  well_formed t -> m_bExpanded t = false ->
  1 <= m_cDimensions t <= k_cDimensionsMax ->
  Forall2 (fun d c => increasing (divisions d) /\ Forall (fun x => x + 1 < c) (divisions d))
    (active t) (take (m_cDimensions t) ac) ->
  Forall (fun c => 1 <= c) (take (m_cDimensions t) ac) ->
  (N.of_nat (foldr Nat.mul 1%nat (take (m_cDimensions t) ac)) <= size_max)%N ->
  exists bad t', Expand ac t = Some (bad, t').
Proof.
  intros W Hexp [HD1 HDmax] Hpre Hpos Hfit.
  set (cs := take (m_cDimensions t) ac) in *. set (L := m_cVectorLength t).
  pose proof (wf_vector t W) as HL. pose proof (wf_values t W) as Hval.
  pose proof (wf_dimensions t W) as HDl. pose proof (wf_divisions t W) as Hwf.
  pose proof (well_formed_segments t W) as Hsegmax. fold L in HL, Hval, Hsegmax.
  assert (length (active t) = m_cDimensions t) as Hact.
  { unfold active. rewrite length_take. lia. }
  assert (m_cDimensions t <= length ac) as Hac.
  { pose proof (Forall2_length _ _ _ Hpre) as Hl. unfold cs in Hl.
    rewrite Hact, length_take in Hl. lia. }
  assert (Forall (fun c => 1 <= c /\ (N.of_nat c <= size_max)%N) cs) as Hcs.
  { apply Forall_forall. intros c Hc. rewrite Forall_forall in Hpos.
    split; [by apply Hpos |]. pose proof (product_ge_elem cs c ltac:(by apply Forall_forall) Hc).
    lia. }
  destruct (first_entries_valid _ _ Hpre Hwf Hcs) as (V & HN & Hi2 & Hp).
  assert (Forall2 (fun d c => S (m_cDivisions d) <= c) (active t) cs) as Hradix.
  { clearbody cs. clear -Hpre Hwf Hcs. revert Hpre Hwf Hcs. generalize (active t) cs.
    induction 1 as [|d c ds cs' [Hinc Hbound] _ IH]; intros Hwf Hcs; [done |].
    apply Forall_cons in Hwf as [(HK & _) Hwf]. apply Forall_cons in Hcs as [[Hc _] Hcs].
    constructor; [| by apply IH].
    pose proof (segment_of_le _ (c - 1) Hinc) as Hle.
    rewrite segment_of_all in Hle by (eapply Forall_impl; [exact Hbound |]; cbn; intros; lia).
    unfold divisions in Hle. rewrite length_take in Hle. lia. }
  assert (segments (active t) <= foldr Nat.mul 1 cs) as Hsegs.
  { rewrite <- product_radix1. clear -Hradix. induction Hradix; cbn [map foldr]; [done | nia]. }
  unfold Expand. rewrite bool_decide_eq_true_2 by done. cbn [assert mbind option_bind].
  rewrite Hexp. rewrite bool_decide_eq_true_2 by done. cbn [assert mbind option_bind].
  unfold cells. rewrite decide_True by done. cbn [mbind option_bind]. fold (active t).
  destruct (Expand_count_total (active t) ac 1 1) as [[[stack cV] cN] Hcount].
  { eapply Forall_impl; [exact Hwf |]. intros d (HK & _ & Hb).
    pose proof sizeof_TDivisions_wide. cbn. nia. }
  { by rewrite Hact. }
  { done. }
  { rewrite Hact. fold cs. rewrite Nat.mul_1_l. done. }
  rewrite Hcount. cbn [mbind option_bind].
  apply Expand_count_Some in Hcount as (_ & -> & -> & ->).
  2:{ eapply Forall_impl; [exact Hwf |]. intros d (HK & _ & Hb).
      pose proof sizeof_TDivisions_wide. cbn. nia. }
  rewrite Hact, product_radix1, !Nat.mul_1_l. fold cs L.
  destruct (IsMultiplyError (foldr Nat.mul 1 cs) L) eqn:HM; [by eexists _, _ |].
  destruct (EnsureValueCapacity (foldr Nat.mul 1 cs * L) t) as [[bad t1] |] eqn:Hensure.
  2:{ exfalso. unfold EnsureValueCapacity in Hensure. rewrite Hexp in Hensure.
      cbn [negb assert mbind option_bind] in Hensure.
      repeat match type of Hensure with
             | (if ?b then _ else _) = _ => destruct b
             end; done. }
  cbn [mbind option_bind]. destruct bad; [by eexists _, _ |].
  apply EnsureValueCapacity_false in Hensure as (cap & a & -> & Hcap & _);
    [| by apply wf_capacity].
  cbn [with_values m_cValueCapacity m_cVectorLength m_cDimensionsMax m_cDimensions
       m_aValues m_bExpanded m_aDimensions]. fold L.
  rewrite bool_decide_eq_true_2 by done. cbn [assert mbind option_bind].
  assert (IsMultiplyError L (segments (active t)) = false) as ->
    by (by apply IsMultiplyError_false).
  cbn [negb assert mbind option_bind].
  rewrite <- (zip_with_take_length _ (active t) ac), Hact. fold cs.
  pose proof (flat_top (map pred cs)) as Htop. rewrite (map_S_pred _ Hpos) in Htop.
  pose proof (flat_top (map m_cDivisions (active t))) as Htop1.
  rewrite map_map, product_radix1 in Htop1.
  destruct (Expand_values_total (foldr Nat.mul 1 cs) L (zip_with first_entry (active t) cs)
              (active t) (L * segments (active t)) (foldr Nat.mul 1 cs * L) a)
    as [a' ->]; [done | done | | | | lia | |].
  - rewrite Hp, <- Htop1. done.
  - rewrite HN, Hi2, (map_S_pred _ Hpos), <- Htop. lia.
  - rewrite HN, Hi2, (map_S_pred _ Hpos). lia.
  - by rewrite product_radix1.
  - cbn [mbind option_bind]. rewrite bool_decide_eq_true_2 by done.
    cbn [assert mbind option_bind].
    match goal with
    | |- context [Expand_divisions ?n 0 ?k ?tt] =>
        destruct (Expand_divisions_total n 0 k tt) as (bad & t2 & ->)
    end; cbn [with_values m_cDimensions m_aDimensions m_bExpanded];
      [lia | done | lia | done | | destruct bad; by eexists _, _].
    intros j d Hj Hd. rewrite Forall_forall in Hwf.
    destruct (Hwf d) as (HK & Hc & _); [| done].
    apply (list_elem_of_lookup_2 _ j). apply lookup_take_Some. split; [done | lia].
Qed.

End ExpandLoops.

(** ** What Add computes *)

(** *** Segments of two tensors *)

Lemma increasing_lookup_inv (l : list nat) (i j x y : nat) :
  increasing l -> l !! i = Some x -> l !! j = Some y -> x < y -> i < j.
Proof.
  intros Hl Hi Hj Hxy. destruct (decide (i < j)); [done |].
  pose proof (increasing_lookup_gap l j i y x Hl ltac:(lia) Hj Hi). lia.
Qed.

Lemma segment_at_lt (l U : list nat) (r j x : nat) :
  increasing l -> l !! j = Some x ->
  (j < segment_at l U r <-> match U !! r with Some b => x < b | None => True end).
Proof.
  intros Hl Hj. unfold segment_at. destruct (U !! r) as [b|].
  - by apply segment_of_lt.
  - apply lookup_lt_Some in Hj. tauto.
Qed.

Lemma segment_at_le_length (l U : list nat) (r : nat) : segment_at l U r <= length l.
Proof. unfold segment_at. destruct (U !! r); [apply segment_of_le_length | done]. Qed.

Lemma segment_at_top (l U : list nat) : segment_at l U (length U) = length l.
Proof. unfold segment_at. by rewrite lookup_ge_None_2. Qed.

(** An element of [U] below segment [r]'s bin is at most the bin before. *)
Lemma below_pred (U : list nat) (r x : nat) :
  increasing U -> r <= length U -> x ∈ U ->
  match U !! r with Some b => x < b | None => True end ->
  0 < r /\ exists b', U !! (r - 1) = Some b' /\ x <= b'.
Proof.
  intros HU Hr Hx Hb. apply list_elem_of_lookup_1 in Hx as [i Hi].
  assert (i < r) as Hir.
  { destruct (U !! r) as [b|] eqn:Hbr.
    - by apply (increasing_lookup_inv U i r x b).
    - apply lookup_ge_None in Hbr. apply lookup_lt_Some in Hi. lia. }
  split; [lia |].
  destruct (lookup_lt_is_Some_2 U (r - 1)) as [b' Hb']; [lia |].
  exists b'. split; [done |].
  pose proof (increasing_lookup_gap U i (r - 1) x b' HU ltac:(lia) Hi Hb'). lia.
Qed.

Lemma pred_below (U : list nat) (r b' : nat) :
  increasing U -> 0 < r -> U !! (r - 1) = Some b' ->
  match U !! r with Some b => b' < b | None => True end.
Proof.
  intros HU Hr Hb'. destruct (U !! r) as [b|] eqn:Hb; [| done].
  apply (increasing_lookup_lt U (r - 1) r b' b HU); [lia | done | done].
Qed.

(** One segment of the result down, across the division [b']: the cursor
    of an operand that has this division moves, the cursor of one that
    has not stays. *)
Lemma segment_at_pred_move (l U : list nat) (r b' : nat) :
  increasing l -> U !! (r - 1) = Some b' ->
  0 < segment_at l U r -> l !! (segment_at l U r - 1) = Some b' ->
  segment_at l U (r - 1) = segment_at l U r - 1.
Proof.
  intros Hl Hb' Hp Hd. pose proof (segment_at_le_length l U r) as Hlen.
  unfold segment_at at 1. rewrite Hb'. apply segment_of_char; [done | lia | |].
  - intros j x Hj Hx.
    apply (increasing_lookup_lt l j (segment_at l U r - 1) x b' Hl); [lia | done | done].
  - intros j x Hj Hx.
    pose proof (increasing_lookup_gap l (segment_at l U r - 1) j b' x Hl ltac:(lia) Hd Hx).
    lia.
Qed.

Lemma segment_at_pred_stay (l U : list nat) (r b' : nat) :
  increasing l -> increasing U -> 0 < r -> U !! (r - 1) = Some b' ->
  (segment_at l U r = 0
   \/ exists d, l !! (segment_at l U r - 1) = Some d /\ d < b') ->
  segment_at l U (r - 1) = segment_at l U r.
Proof.
  intros Hl HU Hr Hb' Hd. pose proof (segment_at_le_length l U r) as Hlen.
  pose proof (pred_below U r b' HU Hr Hb') as Hbelow.
  unfold segment_at at 1. rewrite Hb'. apply segment_of_char; [done | lia | |].
  - intros j x Hj Hx. destruct Hd as [Hz | (d & Hd & Hlt)]; [lia |].
    pose proof (increasing_lookup_gap l j (segment_at l U r - 1) x d Hl ltac:(lia) Hx Hd).
    lia.
  - intros j x Hj Hx. pose proof (segment_at_lt l U r j x Hl Hx) as Hiff.
    destruct (U !! r) as [b|].
    + assert (~ x < b) by (rewrite <- Hiff; lia). lia.
    + assert (j < segment_at l U r) by (by apply Hiff). lia.
Qed.

(** The division before segment [r] of the union is the larger of the
    divisions before the two cursors. *)
Lemma union_pred (l1 l2 U : list nat) (r b' : nat) :
  increasing l1 -> increasing l2 -> sorted_union l1 l2 U ->
  0 < r -> r <= length U -> U !! (r - 1) = Some b' ->
  (segment_at l1 U r = 0
   \/ exists d, l1 !! (segment_at l1 U r - 1) = Some d /\ d <= b')
  /\ (segment_at l2 U r = 0
      \/ exists d, l2 !! (segment_at l2 U r - 1) = Some d /\ d <= b')
  /\ ((0 < segment_at l1 U r /\ l1 !! (segment_at l1 U r - 1) = Some b')
      \/ (0 < segment_at l2 U r /\ l2 !! (segment_at l2 U r - 1) = Some b')).
Proof.
  intros H1 H2 [HU Hin] Hr Hlen Hb'.
  assert (forall l, increasing l -> (forall x, x ∈ l -> x ∈ U) ->
            (segment_at l U r = 0
             \/ exists d, l !! (segment_at l U r - 1) = Some d /\ d <= b')
            /\ (b' ∈ l -> 0 < segment_at l U r /\ l !! (segment_at l U r - 1) = Some b'))
    as Hone.
  { intros l Hl Hsub. pose proof (segment_at_le_length l U r) as Hp.
    assert (segment_at l U r = 0
            \/ exists d, l !! (segment_at l U r - 1) = Some d /\ d <= b') as Hle.
    { destruct (decide (segment_at l U r = 0)) as [? | Hnz]; [by left | right].
      destruct (lookup_lt_is_Some_2 l (segment_at l U r - 1)) as [d Hd]; [lia |].
      exists d. split; [done |].
      destruct (below_pred U r d HU Hlen) as (_ & b'' & Hb'' & Hdb).
      - apply Hsub. by apply (list_elem_of_lookup_2 _ (segment_at l U r - 1)).
      - apply (segment_at_lt l U r _ d Hl Hd). lia.
      - rewrite Hb' in Hb''. by injection Hb'' as <-. }
    split; [done |]. intros Hb. apply list_elem_of_lookup_1 in Hb as [j Hj].
    assert (j < segment_at l U r) as Hjp.
    { apply (segment_at_lt l U r j b' Hl Hj). by apply pred_below. }
    split; [lia |]. destruct Hle as [? | (d & Hd & Hdb)]; [lia |].
    pose proof (increasing_lookup_gap l j (segment_at l U r - 1) b' d Hl ltac:(lia) Hj Hd).
    assert (d = b') as -> by lia. done. }
  destruct (Hone l1 H1) as [Hle1 Hhas1]; [intros x Hx; apply Hin; by left |].
  destruct (Hone l2 H2) as [Hle2 Hhas2]; [intros x Hx; apply Hin; by right |].
  split; [done |]. split; [done |].
  assert (b' ∈ U) as HbU by (by apply (list_elem_of_lookup_2 _ (r - 1))).
  apply Hin in HbU as [Hb | Hb]; [left; by apply Hhas1 | right; by apply Hhas2].
Qed.

(** A cursor above the first segment: so is the result. *)
Lemma cursor_pos (l U : list nat) (r : nat) :
  increasing l -> increasing U -> (forall x, x ∈ l -> x ∈ U) -> r <= length U ->
  0 < segment_at l U r -> 0 < r.
Proof.
  intros Hl HU Hsub Hr Hp. pose proof (segment_at_le_length l U r) as Hlen.
  destruct (lookup_lt_is_Some_2 l (segment_at l U r - 1)) as [d Hd]; [lia |].
  destruct (below_pred U r d HU Hr) as [? _]; [| | done].
  - apply Hsub. by apply (list_elem_of_lookup_2 _ (segment_at l U r - 1)).
  - apply (segment_at_lt l U r _ d Hl Hd). lia.
Qed.

(** Both cursors at the first segment: so is the result. *)
Lemma cursors_zero (l1 l2 U : list nat) (r : nat) :
  increasing l1 -> increasing l2 -> sorted_union l1 l2 U -> r <= length U ->
  segment_at l1 U r = 0 -> segment_at l2 U r = 0 -> r = 0.
Proof.
  intros H1 H2 HU Hr Hp1 Hp2. destruct (decide (r = 0)) as [? | Hnz]; [done |].
  destruct (lookup_lt_is_Some_2 U (r - 1)) as [b' Hb']; [lia |].
  destruct (union_pred l1 l2 U r b' H1 H2 HU) as (_ & _ & [[? _] | [? _]]); try done; lia.
Qed.

Lemma sub_index_le (l U : list nat) (j i x : nat) :
  increasing l -> increasing U -> (forall y, y ∈ l -> y ∈ U) ->
  l !! j = Some x -> U !! i = Some x -> j <= i.
Proof.
  intros Hl HU Hsub. revert i x. induction j as [|j IH]; intros i x Hj Hi; [lia |].
  destruct (lookup_lt_is_Some_2 l j) as [y Hy]; [apply lookup_lt_Some in Hj; lia |].
  pose proof (increasing_lookup_lt l j (S j) y x Hl ltac:(lia) Hy Hj) as Hyx.
  assert (y ∈ U) as HyU by (apply Hsub; by apply (list_elem_of_lookup_2 _ j)).
  apply list_elem_of_lookup_1 in HyU as [i' Hi'].
  pose proof (increasing_lookup_inv U i' i y x HU Hi' Hi Hyx).
  specialize (IH i' y Hy Hi'). lia.
Qed.

(** A segment of the result is not below the segments that hold it. *)
Lemma segment_at_le (l U : list nat) (r : nat) :
  increasing l -> increasing U -> (forall y, y ∈ l -> y ∈ U) -> r <= length U ->
  segment_at l U r <= r.
Proof.
  intros Hl HU Hsub Hr. pose proof (segment_at_le_length l U r) as Hlen.
  destruct (decide (segment_at l U r = 0)) as [-> | Hnz]; [lia |].
  destruct (lookup_lt_is_Some_2 l (segment_at l U r - 1)) as [d Hd]; [lia |].
  assert (d ∈ U) as HdU by (apply Hsub; by apply (list_elem_of_lookup_2 _ (segment_at l U r - 1))).
  apply list_elem_of_lookup_1 in HdU as [i Hi].
  pose proof (sub_index_le l U _ i d Hl HU Hsub Hd Hi).
  assert (i < r); [| lia].
  assert (match U !! r with Some b => d < b | None => True end) as Hb
    by (apply (segment_at_lt l U r _ d Hl Hd); lia).
  destruct (U !! r) as [b|] eqn:Hbr.
  - by apply (increasing_lookup_inv U i r d b).
  - apply lookup_ge_None in Hbr. apply lookup_lt_Some in Hi. lia.
Qed.

(** *** The loops of [Add] *)

Section AddCells.
Context `{PF : Platform} {T : Type} `{SC : Scores T}.
Import DimensionInfoStack.

(** The sum of one score vector of each operand, written in place. *)
Lemma Add_cell_cells (fuel pV1 pV2 pTop pEnd q : nat) (a a2 a' : list T) :
  pV1 <= pTop -> pEnd < pTop ->
  Add_cell fuel pV1 pV2 pTop pEnd a a2 = Some (q, a') ->
  q = pEnd
  /\ pTop - pEnd <= pV1 /\ pTop - pEnd <= pV2
  /\ length a' = length a
  /\ (forall v, v < pTop - pEnd ->
        exists x y,
          a !! (pV1 - (pTop - pEnd) + v) = Some x
          /\ a2 !! (pV2 - (pTop - pEnd) + v) = Some y
          /\ a' !! (pEnd + v) = Some (score_add x y))
  /\ (forall j, j < pEnd \/ pTop <= j -> a' !! j = a !! j).
Proof.
  revert pV1 pV2 pTop a. induction fuel as [|fuel IH]; intros pV1 pV2 pTop a Hle Hend H; [done |].
  cbn [Add_cell] in H. bind H. apply ptr_sub_Some in E as [H1 ->].
  bind H. apply ptr_sub_Some in E as [H2 ->].
  bind H. apply ptr_sub_Some in E as [H3 ->].
  bind H. rename x into x0. bind H. rename x into y0. unfold load in E, E0.
  bind H. apply store_Some in E1 as [Hlt ->]. case_bool_decide as Hmore.
  - apply IH in H as (-> & Hn1 & Hn2 & Hlen & Hin & Hout); [| lia | lia].
    rewrite length_insert in Hlen. split; [done |]. split; [lia |]. split; [lia |].
    split; [done |]. split.
    + intros v Hv. destruct (decide (v = pTop - pEnd - 1)) as [-> | Hne].
      * exists x0, y0. rewrite Hout by lia.
        replace (pEnd + (pTop - pEnd - 1)) with (pTop - 1) by lia.
        rewrite list_lookup_insert_eq by done.
        replace (pV1 - (pTop - pEnd) + (pTop - pEnd - 1)) with (pV1 - 1) by lia.
        replace (pV2 - (pTop - pEnd) + (pTop - pEnd - 1)) with (pV2 - 1) by lia. done.
      * destruct (Hin v ltac:(lia)) as (xv & yv & Hx & Hy & Hxy).
        exists xv, yv. rewrite list_lookup_insert_ne in Hx by lia.
        replace (pV1 - (pTop - pEnd) + v) with (pV1 - 1 - (pTop - 1 - pEnd) + v) by lia.
        replace (pV2 - (pTop - pEnd) + v) with (pV2 - 1 - (pTop - 1 - pEnd) + v) by lia.
        done.
    + intros j Hj. rewrite Hout by lia. rewrite list_lookup_insert_ne by lia. done.
  - injection H as <- <-.
    assert (pEnd = pTop - 1) as -> by (destruct (decide (pEnd = pTop - 1)); [done | by destruct Hmore]).
    rewrite length_insert. split; [done |]. split; [lia |]. split; [lia |].
    split; [done |]. split.
    + intros v Hv. assert (v = 0) as -> by lia. exists x0, y0. rewrite !Nat.add_0_r.
      rewrite list_lookup_insert_eq by done.
      replace (pV1 - (pTop - (pTop - 1))) with (pV1 - 1) by lia.
      replace (pV2 - (pTop - (pTop - 1))) with (pV2 - 1) by lia. done.
    + intros j Hj. rewrite list_lookup_insert_ne by lia. done.
Qed.

Lemma add_aligned_union (e : DimensionInfoStack.t) (d1 d2 : DimensionInfo) (r : nat) :
  add_aligned e d1 d2 r ->
  sorted_union (divisions d1) (divisions d2) (fmerge (divisions d1) (divisions d2))
  /\ length (divisions d1) = m_cDivisions d1
  /\ length (divisions d2) = m_cDivisions d2.
Proof.
  intros (_ & _ & _ & _ & H1 & H2 & HK1 & HK2 & _).
  split; [by apply fmerge_sorted_union |]. unfold divisions. rewrite !length_take. lia.
Qed.

(** One step of the cursors of [Add]: the result goes to the segment
    before along the dimension that moves, both operands' cursors to the
    segments that hold it, and [pValue1], [pValue2] follow. *)
Lemma Add_next_cells (stack : list DimensionInfoStack.t) (ds1 ds2 : list DimensionInfo)
    (rs : list nat) (pV1 pV2 m1 m2 : nat) (stack' : list DimensionInfoStack.t)
    (pV1' pV2' : nat) :
  add_cursors stack ds1 ds2 rs ->
  pV1 = m1 * (cell_of ds1 (map m_pDivision1 stack) + 1) ->
  pV2 = m2 * (cell_of ds2 (map m_pDivision2 stack) + 1) ->
  Add_next stack ds1 ds2 pV1 pV2 m1 m2 = Some (stack', pV1', pV2') ->
  exists rs',
    add_cursors stack' ds1 ds2 rs'
    /\ map m_cNewDivisions stack' = map m_cNewDivisions stack
    /\ pV1' = m1 * (cell_of ds1 (map m_pDivision1 stack') + 1)
    /\ pV2' = m2 * (cell_of ds2 (map m_pDivision2 stack') + 1)
    /\ flat (map S (map m_cNewDivisions stack)) rs' + 1
       = flat (map S (map m_cNewDivisions stack)) rs.
Proof.
  intros V. revert pV1 pV2 m1 m2 stack' pV1' pV2'. unfold cell_of.
  induction V as [|e d1 d2 r stack ds1 ds2 rs Ve V IH];
    intros pV1 pV2 m1 m2 stack' pV1' pV2' HpV1 HpV2 H; [done |].
  destruct (add_aligned_union _ _ _ _ Ve) as ([HU Hin] & Hlen1 & Hlen2).
  pose proof Ve as (Hr & HN & Hp1 & Hp2 & Hinc1 & Hinc2 & HK1 & HK2 & Hmax1 & Hmax2).
  set (U := fmerge (divisions d1) (divisions d2)) in *.
  pose proof (segment_at_le_length (divisions d1) U r) as Hs1.
  pose proof (segment_at_le_length (divisions d2) U r) as Hs2.
  assert (forall x, x ∈ divisions d1 -> x ∈ U) as Hsub1 by (intros x Hx; apply Hin; by left).
  assert (forall x, x ∈ divisions d2 -> x ∈ U) as Hsub2 by (intros x Hx; apply Hin; by right).
  cbn [Add_next] in H. cbn [map flat] in HpV1, HpV2.
  assert (forall p dv, 0 < p -> p <= m_cDivisions d1 ->
            m_aDivisions d1 !! (p - 1) = Some dv -> divisions d1 !! (p - 1) = Some dv) as Hdiv1.
  { intros p dv Hp Hle Hdv. unfold divisions. rewrite lookup_take_lt by lia. done. }
  assert (forall p dv, 0 < p -> p <= m_cDivisions d2 ->
            m_aDivisions d2 !! (p - 1) = Some dv -> divisions d2 !! (p - 1) = Some dv) as Hdiv2.
  { intros p dv Hp Hle Hdv. unfold divisions. rewrite lookup_take_lt by lia. done. }
  (* the step along this dimension, when the result is above its first segment *)
  assert (0 < r -> forall p1' p2',
            p1' = segment_at (divisions d1) U (r - 1) ->
            p2' = segment_at (divisions d2) U (r - 1) ->
            add_cursors ({| m_pDivision1 := p1'; m_pDivision2 := p2';
                            m_cNewDivisions := m_cNewDivisions e |} :: stack)
              (d1 :: ds1) (d2 :: ds2) (r - 1 :: rs)) as Hstep.
  { intros Hr0 p1' p2' -> ->. constructor; [| done].
    unfold add_aligned. cbn [m_pDivision1 m_pDivision2 m_cNewDivisions]. fold U.
    split; [lia |]. done. }
  case_bool_decide as Hp1pos.
  - assert (0 < r) as Hr0.
    { rewrite Hp1 in Hp1pos. by apply (cursor_pos (divisions d1) U r). }
    destruct (lookup_lt_is_Some_2 U (r - 1)) as [b' Hb']; [lia |].
    destruct (union_pred _ _ U r b' Hinc1 Hinc2 (conj HU Hin) Hr0 Hr Hb')
      as (Hle1 & Hle2 & Hhas).
    case_bool_decide as Hp2pos.
    + bind H. apply ptr_sub_Some in E as [_ ->]. bind H. apply ptr_sub_Some in E as [_ ->].
      bind H. rename x into d1v. bind H. rename x into d2v. unfold load in E, E0.
      apply Hdiv1 in E; [| done | lia]. apply Hdiv2 in E0; [| done | lia].
      rewrite Hp1 in E. rewrite Hp2 in E0.
      destruct Hle1 as [? | (d & Hd & Hd1)]; [lia |]. rewrite E in Hd. injection Hd as <-.
      destruct Hle2 as [? | (d & Hd & Hd2)]; [lia |]. rewrite E0 in Hd. injection Hd as <-.
      assert (b' = d1v \/ b' = d2v) as Hmax.
      { destruct Hhas as [[_ Hh] | [_ Hh]]; [left | right]; congruence. }
      bind H. rename x into q1. bind H. rename x into q2. injection H as <- <- <-.
      assert (segment_at (divisions d1) U (r - 1)
              = if bool_decide (d2v <= d1v) then segment_at (divisions d1) U r - 1
                else segment_at (divisions d1) U r) as Hnew1.
      { destruct (decide (d2v <= d1v)) as [Hm | Hm].
        - rewrite (bool_decide_eq_true_2 _ Hm).
          apply (segment_at_pred_move _ _ _ b'); [done | done | lia |]. rewrite E. f_equal. lia.
        - rewrite (bool_decide_eq_false_2 _ Hm). apply (segment_at_pred_stay _ _ _ b'); try done.
          right. exists d1v. split; [done | lia]. }
      assert (segment_at (divisions d2) U (r - 1)
              = if bool_decide (d1v <= d2v) then segment_at (divisions d2) U r - 1
                else segment_at (divisions d2) U r) as Hnew2.
      { destruct (decide (d1v <= d2v)) as [Hm | Hm].
        - rewrite (bool_decide_eq_true_2 _ Hm).
          apply (segment_at_pred_move _ _ _ b'); [done | done | lia |]. rewrite E0. f_equal. lia.
        - rewrite (bool_decide_eq_false_2 _ Hm). apply (segment_at_pred_stay _ _ _ b'); try done.
          right. exists d2v. split; [done | lia]. }
      exists (r - 1 :: rs). cbn [map flat m_pDivision1 m_pDivision2 m_cNewDivisions].
      split.
      { apply Hstep; [done | by rewrite Hp1 | by rewrite Hp2]. }
      split; [done |]. split; [| split; [| lia]].
      * destruct (bool_decide (d2v <= d1v));
          [apply ptr_sub_Some in E1 as [? ->]; rewrite HpV1; nia
          | injection E1 as <-; rewrite HpV1; done].
      * destruct (bool_decide (d1v <= d2v));
          [apply ptr_sub_Some in E2 as [? ->]; rewrite HpV2; nia
          | injection E2 as <-; rewrite HpV2; done].
    + bind H. apply ptr_sub_Some in E as [Hm ->]. bind H. apply ptr_sub_Some in E as [_ ->].
      injection H as <- <- <-.
      assert (segment_at (divisions d2) U r = 0) as Hz2 by lia.
      destruct Hhas as [[_ Hh] | [? _]]; [| lia].
      exists (r - 1 :: rs). cbn [map flat m_pDivision1 m_pDivision2 m_cNewDivisions].
      split.
      { apply Hstep; [done | |].
        - rewrite Hp1. symmetry. apply (segment_at_pred_move _ _ _ b'); [done | done | lia | done].
        - rewrite Hp2. symmetry. apply (segment_at_pred_stay _ _ _ b'); try done. by left. }
      split; [done |]. split; [rewrite HpV1; nia |]. split; [done | lia].
  - assert (segment_at (divisions d1) U r = 0) as Hz1 by lia.
    case_bool_decide as Hp2pos.
    + assert (0 < r) as Hr0.
      { rewrite Hp2 in Hp2pos. by apply (cursor_pos (divisions d2) U r). }
      destruct (lookup_lt_is_Some_2 U (r - 1)) as [b' Hb']; [lia |].
      destruct (union_pred _ _ U r b' Hinc1 Hinc2 (conj HU Hin) Hr0 Hr Hb')
        as (Hle1 & Hle2 & Hhas).
      bind H. apply ptr_sub_Some in E as [Hm ->]. bind H. apply ptr_sub_Some in E as [_ ->].
      injection H as <- <- <-.
      destruct Hhas as [[? _] | [_ Hh]]; [lia |].
      exists (r - 1 :: rs). cbn [map flat m_pDivision1 m_pDivision2 m_cNewDivisions].
      split.
      { apply Hstep; [done | |].
        - rewrite Hp1. symmetry. apply (segment_at_pred_stay _ _ _ b'); try done. by left.
        - rewrite Hp2. symmetry. apply (segment_at_pred_move _ _ _ b'); [done | done | lia | done]. }
      split; [done |]. split; [done |]. split; [rewrite HpV2; nia | lia].
    + assert (segment_at (divisions d2) U r = 0) as Hz2 by lia.
      assert (r = 0) as -> by (by apply (cursors_zero (divisions d1) (divisions d2) U)).
      bind H. apply ptr_sub_Some in E as [Hm1 ->]. bind H. apply ptr_sub_Some in E as [Hm2 ->].
      bind H. bind H. rewrite !size_add_small in H by lia.
      bind H. destruct x as [[stack'' q1] q2]. injection H as <- <- <-.
      rewrite Hp1, Hz1 in HpV1. rewrite Hp2, Hz2 in HpV2.
      apply IH in E1 as (rs' & V' & HN' & Hq1 & Hq2 & Hflat);
        [| rewrite HpV1; nia | rewrite HpV2; nia].
      exists (length U :: rs'). cbn [map flat m_pDivision1 m_pDivision2 m_cNewDivisions].
      split.
      { constructor; [| done]. unfold add_aligned.
        cbn [m_pDivision1 m_pDivision2 m_cNewDivisions]. fold U.
        rewrite !segment_at_top. split; [done |]. done. }
      split; [by f_equal |]. split; [rewrite Hq1; nia |]. split; [rewrite Hq2; nia |].
      rewrite HN. nia.
Qed.

Lemma add_cursors_sources (stack : list DimensionInfoStack.t) (ds1 ds2 : list DimensionInfo)
    (rs : list nat) :
  add_cursors stack ds1 ds2 rs ->
  sources1 ds1 ds2 rs = map m_pDivision1 stack
  /\ sources2 ds1 ds2 rs = map m_pDivision2 stack
  /\ Forall2 le rs (map m_cNewDivisions stack).
Proof.
  unfold sources1, sources2.
  induction 1 as [|e d1 d2 r stack ds1 ds2 rs Ve V (IH1 & IH2 & IH3)]; [done |].
  destruct Ve as (Hr & HN & Hp1 & Hp2 & _). cbn [zip zip_with map fst snd].
  rewrite IH1, IH2, Hp1, Hp2, HN. split; [done |]. split; [done |]. by constructor.
Qed.

Lemma add_cursors_le (stack : list DimensionInfoStack.t) (ds1 ds2 : list DimensionInfo)
    (rs : list nat) :
  add_cursors stack ds1 ds2 rs ->
  cell_of ds1 (map m_pDivision1 stack) <= flat (map S (map m_cNewDivisions stack)) rs
  /\ cell_of ds2 (map m_pDivision2 stack) <= flat (map S (map m_cNewDivisions stack)) rs.
Proof.
  unfold cell_of.
  induction 1 as [|e d1 d2 r stack ds1 ds2 rs Ve V [IH1 IH2]]; [done |].
  destruct (add_aligned_union _ _ _ _ Ve) as ([HU Hin] & Hlen1 & Hlen2).
  destruct Ve as (Hr & HN & Hp1 & Hp2 & Hinc1 & Hinc2 & _).
  set (U := fmerge (divisions d1) (divisions d2)) in *.
  assert (forall x, x ∈ divisions d1 -> x ∈ U) as Hsub1 by (intros x Hx; apply Hin; by left).
  assert (forall x, x ∈ divisions d2 -> x ∈ U) as Hsub2 by (intros x Hx; apply Hin; by right).
  pose proof (segment_at_le _ U r Hinc1 HU Hsub1 Hr) as Hle1.
  pose proof (segment_at_le _ U r Hinc2 HU Hsub2 Hr) as Hle2.
  pose proof (segment_at_le _ U (length U) Hinc1 HU Hsub1 (le_n _)) as HK1.
  pose proof (segment_at_le _ U (length U) Hinc2 HU Hsub2 (le_n _)) as HK2.
  rewrite segment_at_top in HK1, HK2. cbn [map flat]. rewrite Hp1, Hp2, HN. nia.
Qed.

(** The loop over the cells of the result, from the last cell down: once
    it ends every cell holds the sum of the cells of the operands that
    hold it. *)
Lemma Add_values_cells (fuel L : nat) (stack : list DimensionInfoStack.t)
    (ds1 ds2 : list DimensionInfo) (rs : list nat) (pV1 pV2 pTop : nat) (a a0 a2 : list T)
    (stack' : list DimensionInfoStack.t) (pV1' pV2' : nat) (a' : list T) :
  1 <= L -> add_cursors stack ds1 ds2 rs ->
  pV1 = L * (cell_of ds1 (map m_pDivision1 stack) + 1) ->
  pV2 = L * (cell_of ds2 (map m_pDivision2 stack) + 1) ->
  pTop = L * (flat (map S (map m_cNewDivisions stack)) rs + 1) ->
  (forall j, j < pTop -> a !! j = a0 !! j) ->
  (forall idx v,
     Forall2 le idx (map m_cNewDivisions stack) ->
     flat (map S (map m_cNewDivisions stack)) rs
     < flat (map S (map m_cNewDivisions stack)) idx ->
     v < L ->
     exists x y,
       a0 !! (L * cell_of ds1 (sources1 ds1 ds2 idx) + v) = Some x
       /\ a2 !! (L * cell_of ds2 (sources2 ds1 ds2 idx) + v) = Some y
       /\ a !! (L * flat (map S (map m_cNewDivisions stack)) idx + v)
          = Some (score_add x y)) ->
  Add_values fuel L stack ds1 ds2 pV1 pV2 pTop a a2 = Some (stack', pV1', pV2', a') ->
  forall idx v,
    Forall2 le idx (map m_cNewDivisions stack) -> v < L ->
    exists x y,
      a0 !! (L * cell_of ds1 (sources1 ds1 ds2 idx) + v) = Some x
      /\ a2 !! (L * cell_of ds2 (sources2 ds1 ds2 idx) + v) = Some y
      /\ a' !! (L * flat (map S (map m_cNewDivisions stack)) idx + v)
         = Some (score_add x y).
Proof.
  intros HL. revert stack rs pV1 pV2 pTop a.
  induction fuel as [|fuel IH]; intros stack rs pV1 pV2 pTop a V HpV1 HpV2 HpTop HA HB H;
    [done |].
  cbn [Add_values] in H. bind H. apply ptr_sub_Some in E as [HLtop ->].
  bind H. destruct x as [q a1].
  destruct (add_cursors_le _ _ _ _ V) as [HG1 HG2].
  destruct (add_cursors_sources _ _ _ _ V) as (Hs1 & Hs2 & Hrs).
  set (F := flat (map S (map m_cNewDivisions stack)) rs) in *.
  set (G1 := cell_of ds1 (map m_pDivision1 stack)) in *.
  set (G2 := cell_of ds2 (map m_pDivision2 stack)) in *.
  apply Add_cell_cells in E as (-> & _ & _ & Hlen & Hin & Hout); [| nia | lia].
  replace (pTop - (pTop - L)) with L in Hin by lia.
  assert (forall idx v, Forall2 le idx (map m_cNewDivisions stack) ->
            F <= flat (map S (map m_cNewDivisions stack)) idx -> v < L ->
            exists x y,
              a0 !! (L * cell_of ds1 (sources1 ds1 ds2 idx) + v) = Some x
              /\ a2 !! (L * cell_of ds2 (sources2 ds1 ds2 idx) + v) = Some y
              /\ a1 !! (L * flat (map S (map m_cNewDivisions stack)) idx + v)
                 = Some (score_add x y)) as HB1.
  { intros idx v Hidx HF Hv.
    destruct (decide (flat (map S (map m_cNewDivisions stack)) idx = F)) as [Heq | Hne].
    - assert (idx = rs) as ->.
      { apply (flat_inj (map S (map m_cNewDivisions stack))); [| | done];
          by apply Forall2_le_lt_S. }
      rewrite Hs1, Hs2. fold F G1 G2.
      destruct (Hin v Hv) as (x & y & Hx & Hy & Hxy). exists x, y.
      rewrite HA in Hx by nia.
      replace (L * G1 + v) with (pV1 - L + v) by nia.
      replace (L * G2 + v) with (pV2 - L + v) by nia.
      replace (L * F + v) with (pTop - L + v) by nia. done.
    - destruct (HB idx v Hidx ltac:(lia) Hv) as (x & y & Hx & Hy & Hxy).
      exists x, y. rewrite Hout by nia. done. }
  case_bool_decide as Hdone.
  - injection H as <- <- <- <-. intros idx v Hidx Hv. apply HB1; [done | nia | done].
  - bind H. destruct x as [[stack1 q1] q2].
    apply Add_next_cells with (rs := rs) in E as (rs' & V' & HN & Hq1 & Hq2 & HF');
      [| done | done | done].
    fold F in HF'.
    intros idx v Hidx Hv. rewrite <- HN in Hidx |- *.
    eapply (IH stack1 rs'); [done | done | done | | | | exact H | done | done].
    + rewrite HN. nia.
    + intros j Hj. rewrite Hout by lia. apply HA. lia.
    + intros idx' v' Hidx' HF Hv'. rewrite HN in *. apply HB1; [done | lia | done].
Qed.

Lemma segments_flat (ds : list DimensionInfo) :
  segments ds = cell_of ds (map m_cDivisions ds) + 1.
Proof.
  unfold cell_of, segments. induction ds as [|d ds IH]; [done |].
  cbn [foldr map flat]. rewrite IH. unfold cell_of. nia.
Qed.

Lemma segments_top_flat (stack : list DimensionInfoStack.t) :
  segments_top stack
  = flat (map S (map m_cNewDivisions stack)) (map m_cNewDivisions stack) + 1.
Proof.
  unfold segments_top. induction stack as [|e stack IH]; [done |].
  cbn [foldr map flat]. rewrite IH. nia.
Qed.

(** The stack of the first loop has every cursor at the last segment. *)
Lemma initial_cursors (ds1 ds2 : list DimensionInfo) :
  Forall readable ds1 -> Forall readable ds2 -> length ds1 = length ds2 ->
  add_cursors (initial_stack ds1 ds2) ds1 ds2
    (map m_cNewDivisions (initial_stack ds1 ds2))
  /\ map m_pDivision1 (initial_stack ds1 ds2) = map m_cDivisions ds1
  /\ map m_pDivision2 (initial_stack ds1 ds2) = map m_cDivisions ds2.
Proof.
  intros F1. revert ds2.
  induction F1 as [|d1 ds1 (K1 & B1 & I1) F1 IH]; intros ds2 F2 Hlen.
  - destruct ds2; [| done]. split; [constructor | done].
  - destruct F2 as [|d2 ds2 (K2 & B2 & I2) F2]; [done |].
    destruct (IH ds2 F2) as (V & E1 & E2); [cbn in Hlen; lia |].
    cbn [initial_stack zip_with map m_pDivision1 m_pDivision2 m_cNewDivisions].
    fold (initial_stack ds1 ds2). rewrite E1, E2. split; [| done].
    constructor; [| done].
    assert (rlen (m_aDivisions d1) (m_aDivisions d2) (m_cDivisions d1) (m_cDivisions d2)
            = length (fmerge (divisions d1) (divisions d2))) as Hrlen.
    { rewrite (fmerge_rmerge _ _ I1 I2), length_reverse. done. }
    unfold add_aligned. cbn [m_pDivision1 m_pDivision2 m_cNewDivisions].
    rewrite Hrlen, !segment_at_top. unfold divisions. rewrite !length_take.
    repeat split; try done; lia.
Qed.

(** How the segments of the result, and the segments of the operands that
    hold them, read on the initial stack. *)
Lemma result_segments (ds1 ds2 dsR : list DimensionInfo) (idx : list nat) :
  Forall readable ds1 -> Forall readable ds2 ->
  Forall3 (fun d1 d2 dR =>
     m_cDivisions dR
     = rlen (m_aDivisions d1) (m_aDivisions d2) (m_cDivisions d1) (m_cDivisions d2)
     /\ divisions dR = reverse (rmerge (reverse (divisions d1)) (reverse (divisions d2))))
    ds1 ds2 dsR ->
  Forall2 (fun j dR => j <= m_cDivisions dR) idx dsR ->
  Forall2 le idx (map m_cNewDivisions (initial_stack ds1 ds2))
  /\ cell_of dsR idx = flat (map S (map m_cNewDivisions (initial_stack ds1 ds2))) idx
  /\ sources1 ds1 ds2 idx = segments_at ds1 dsR idx
  /\ sources2 ds1 ds2 idx = segments_at ds2 dsR idx
  /\ cell_of ds1 (segments_at ds1 dsR idx) < segments ds1
  /\ cell_of ds2 (segments_at ds2 dsR idx) < segments ds2.
Proof.
  intros F1 F2 F3. revert idx. unfold sources1, sources2.
  induction F3 as [|d1 d2 dR ds1 ds2 dsR [Hc Hd] F3 IH]; intros idx Hidx.
  - apply Forall2_nil_inv_r in Hidx as ->. unfold cell_of, segments. cbn.
    repeat split; [constructor | lia | lia].
  - apply Forall2_cons_inv_r in Hidx as (j & idx' & Hj & Hidx & ->).
    apply Forall_cons in F1 as [(K1 & B1 & I1) F1].
    apply Forall_cons in F2 as [(K2 & B2 & I2) F2].
    destruct (IH F1 F2 idx' Hidx) as (IH1 & IH2 & IH3 & IH4 & IH5 & IH6).
    unfold cell_of in *.
    cbn [initial_stack zip_with zip map m_cNewDivisions flat segments_at segments foldr
         fst snd].
    fold (initial_stack ds1 ds2). fold (segments ds1). fold (segments ds2).
    rewrite IH2, IH3, IH4, <- Hc. rewrite <- (fmerge_rmerge _ _ I1 I2) in Hd. rewrite Hd.
    pose proof (segment_at_le_length (divisions d1) (divisions dR) j) as HS1.
    pose proof (segment_at_le_length (divisions d2) (divisions dR) j) as HS2.
    assert (length (divisions d1) = m_cDivisions d1) as HK1
      by (unfold divisions; rewrite length_take; lia).
    assert (length (divisions d2) = m_cDivisions d2) as HK2
      by (unfold divisions; rewrite length_take; lia).
    rewrite HK1 in HS1. rewrite HK2 in HS2. rewrite Hd in HS1, HS2.
    repeat split; [by constructor | nia | nia].
Qed.

(** X21: a successful [Add] of two tensors with at least one dimension
    and strictly increasing divisions is the sum on the union of the
    divisions: every score of every cell of the result is the sum of the
    scores of the cell of the left operand and of the cell of the right
    operand that hold it.  The right operand is read with the vector
    length of the left one. *)
Theorem Add_cells (this rhs R : SegmentedTensor T) (idx : list nat) (v : nat) :
  well_formed this -> well_formed rhs ->
  Forall (fun d => increasing (divisions d)) (active this) ->
  Forall (fun d => increasing (divisions d)) (active rhs) ->
  0 <> m_cDimensions this ->
  Add this rhs = Some (false, R) ->
  Forall2 (fun j dR => j <= m_cDivisions dR) idx (active R) ->
  v < m_cVectorLength this ->
  exists x y,
    m_aValues this
      !! (m_cVectorLength this
          * cell_of (active this) (segments_at (active this) (active R) idx) + v) = Some x
    /\ m_aValues rhs
         !! (m_cVectorLength this
             * cell_of (active rhs) (segments_at (active rhs) (active R) idx) + v) = Some y
    /\ m_aValues R !! (m_cVectorLength this * cell_of (active R) idx + v)
       = Some (score_add x y).
Proof.
  intros W1 W2 I1 I2 HD H Hidx Hv.
  destruct (Add_Some _ _ _ W1 W2 I1 I2 HD H) as (_ & _ & _ & _ & _ & _ & Hmax & _).
  destruct (Add_result _ _ _ W1 W2 I1 I2 HD H)
    as (a & stack' & HDD & _ & Hpre & Hval & _ & _ & F3).
  cbv zeta in Hmax, Hpre, Hval.
  set (L := m_cVectorLength this) in *.
  set (stack := initial_stack (active this) (active rhs)) in *.
  pose proof (wf_vector _ W1) as HL. fold L in HL.
  pose proof (well_formed_readable _ W1 I1) as R1.
  pose proof (well_formed_readable _ W2 I2) as R2.
  assert (length (active this) = length (active rhs)) as Hlen.
  { by apply Forall3_length_lm in F3. }
  destruct (initial_cursors _ _ R1 R2 Hlen) as (V & E1 & E2). fold stack in V, E1, E2.
  destruct (add_cursors_le _ _ _ _ V) as [HG1 HG2]. rewrite E1 in HG1. rewrite E2 in HG2.
  pose proof (segments_flat (active this)) as HS1.
  pose proof (segments_flat (active rhs)) as HS2.
  pose proof (segments_top_flat stack) as HST.
  destruct (result_segments _ _ _ idx R1 R2 F3 Hidx) as (Hle & Hcell & Hs1 & Hs2 & Hlt1 & Hlt2).
  fold stack in Hle, Hcell.
  rewrite size_mul_small in Hval by nia.
  assert (L * segments (active this)
          = L * (cell_of (active this) (map m_pDivision1 stack) + 1)) as HpV1
    by (rewrite E1; lia).
  assert (L * segments (active rhs)
          = L * (cell_of (active rhs) (map m_pDivision2 stack) + 1)) as HpV2
    by (rewrite E2; lia).
  assert (L * segments_top stack
          = L * (flat (map S (map m_cNewDivisions stack)) (map m_cNewDivisions stack) + 1))
    as HpTop by lia.
  destruct (Add_values_cells _ L stack (active this) (active rhs) _ _ _ _ a a (m_aValues rhs)
              _ _ _ _ HL V HpV1 HpV2 HpTop (fun j _ => eq_refl)
              ltac:(intros idx' v' Hidx' Hc _; apply Forall2_le_lt_S, flat_lt in Hidx';
                    rewrite <- flat_top in Hidx'; lia)
              Hval idx v Hle Hv)
    as (x & y & Hx & Hy & Hxy).
  exists x, y. rewrite Hs1 in Hx. rewrite Hs2 in Hy. rewrite <- Hcell in Hxy.
  pose proof (wf_values _ W1) as HW. fold L in HW.
  rewrite Hpre in Hx by nia. done.
Qed.

End AddCells.

Lemma scenario_C_roomy_well_formed (grants : nat -> bool) (fd : nat) :
  well_formed (PF := lp64 grants fd) scenario_C_roomy.
Proof.
  split.
  - vm_compute; lia.
  - vm_compute; lia.
  - repeat constructor; vm_compute; lia.
  - reflexivity.
  - vm_compute; lia.
  - vm_compute. discriminate.
Qed.

Lemma demo_scalar_well_formed (grants : nat -> bool) (fd : nat) (score : float) :
  well_formed (PF := lp64 grants fd) (demo_scalar score).
Proof.
  split.
  - vm_compute; lia.
  - vm_compute; lia.
  - constructor.
  - reflexivity.
  - vm_compute; lia.
  - vm_compute. discriminate.
Qed.

Lemma Reset_idempotent_witness :
  exists r,
    Reset (SC := double_scores 0) scenario_C = Some r
    /\ Reset (SC := double_scores 0) r = Some r.
Proof.
  eexists. split; [vm_compute; reflexivity |].
  apply (Reset_idempotent (SC := double_scores 0) scenario_C). vm_compute. reflexivity.
Defined.

Lemma Allocate_nullptr_witness :
  Allocate (PF := lp64 (fun cBytes => negb (cBytes =? 8)) 0) (SC := double_scores 0) 1 1
  = Some None
  /\ exists r, Allocate (PF := lp64 roomy 0) (SC := double_scores 0) 0 1 = Some (Some r).
Proof.
  split.
  - apply (Allocate_nullptr (PF := lp64 (fun cBytes => negb (cBytes =? 8)) 0)
             (SC := double_scores 0) 1 1); [vm_compute; lia | vm_compute; lia |].
    right. right. right. right. split; [lia | reflexivity].
  - destruct (Allocate_nullptr (PF := lp64 roomy 0) (SC := double_scores 0) 0 1)
      as [[[r|] Hr] Hnull]; [vm_compute; lia | vm_compute; lia | by exists r |].
    apply Hnull in Hr. vm_compute in Hr.
    destruct Hr as [Hr | [Hr | [Hr | [Hr | [Hr _]]]]]; [discriminate.. | lia].
Defined.

Lemma Allocate_well_formed_witness :
  exists t,
    Allocate (PF := lp64 roomy 0) (SC := double_scores 0) 2 3 = Some (Some t)
    /\ well_formed (PF := lp64 roomy 0) t
    /\ scores t = [0; 0; 0]%float.
Proof.
  eexists. split; [vm_compute; reflexivity |].
  destruct (Allocate_well_formed (PF := lp64 roomy 0) (SC := double_scores 0) 2 3 _
              ltac:(vm_compute; reflexivity) ltac:(vm_compute; reflexivity))
    as (W & _ & _ & _ & _ & _ & _ & S).
  split; [exact W | exact S].
Defined.

Lemma Multiply_scales_witness :
  exists a,
    Multiply (PF := lp64 roomy 0) (SC := double_scores 0) 2%float scenario_C
    = Some (with_values (m_cValueCapacity scenario_C) a scenario_C)
    /\ scores (with_values (m_cValueCapacity scenario_C) a scenario_C) = [14; 18]%float.
Proof.
  destruct (Multiply_scales (PF := lp64 roomy 0) (SC := double_scores 0) 2%float scenario_C
              (scenario_C_well_formed roomy 0)) as (a & H1 & H2 & _).
  exists a. split; [exact H1 |]. rewrite H2. vm_compute. reflexivity.
Defined.

Lemma Copy_agrees_witness :
  exists t',
    Copy (PF := lp64 roomy 0) (SC := double_scores 0) (demo_tensor 5) scenario_C
    = Some (false, t')
    /\ map divisions (active t') = [[1]]
    /\ scores t' = [7; 9]%float
    /\ IsEqual (PF := lp64 roomy 0) (SC := double_scores 0) t' scenario_C = Some true.
Proof.
  eexists. split; [vm_compute; reflexivity |].
  destruct (Copy_agrees (PF := lp64 roomy 0) (SC := double_scores 0) (demo_tensor 5)
              scenario_C _ (scenario_C_well_formed roomy 0) eq_refl
              ltac:(vm_compute; reflexivity)) as (_ & _ & H3 & H4 & _ & H6).
  split; [exact H3 |]. split; [exact H4 |]. apply H6. repeat constructor.
Defined.

Lemma AddExpanded_adds_witness :
  exists a,
    AddExpanded (PF := lp64 roomy 0) (SC := double_scores 0) [1; 2]%float scenario_C_roomy
    = Some (with_values (m_cValueCapacity scenario_C_roomy) a scenario_C_roomy)
    /\ scores (with_values (m_cValueCapacity scenario_C_roomy) a scenario_C_roomy) = [8; 11]%float
    /\ drop 2 a = [3; 3; 3]%float.
Proof.
  destruct (AddExpanded_adds (PF := lp64 roomy 0) (SC := double_scores 0) [1; 2]%float
              scenario_C_roomy (scenario_C_roomy_well_formed roomy 0) eq_refl
              ltac:(vm_compute; lia)) as (a & H1 & H2 & H3 & _).
  exists a. split; [exact H1 |]. split; [rewrite H2; vm_compute; reflexivity | exact H3].
Defined.

Lemma IsEqual_self_witness :
  IsEqual (PF := lp64 roomy 0) (SC := double_scores 0) scenario_C scenario_C = Some true
  /\ IsEqual (PF := lp64 roomy 0) (SC := double_scores 0)
       (demo_tensor PrimFloat.nan) (demo_tensor PrimFloat.nan) = Some false.
Proof.
  split.
  - apply (IsEqual_self (PF := lp64 roomy 0) (SC := double_scores 0) scenario_C
             (scenario_C_well_formed roomy 0)).
  - apply (IsEqual_self (PF := lp64 roomy 0) (SC := double_scores 0)
             (demo_tensor PrimFloat.nan)).
    split; [vm_compute; lia | vm_compute; lia | repeat constructor; vm_compute; lia
           | reflexivity | vm_compute; lia | vm_compute; discriminate].
Defined.

Lemma Add_without_dimensions_witness :
  exists a,
    Add (PF := lp64 roomy 0) (SC := double_scores 0) (demo_scalar 5) (demo_scalar 6)
    = Some (false, with_values (m_cValueCapacity (demo_scalar 5)) a (demo_scalar 5))
    /\ scores (with_values (m_cValueCapacity (demo_scalar 5)) a (demo_scalar 5)) = [11]%float.
Proof.
  destruct (Add_without_dimensions (PF := lp64 roomy 0) (SC := double_scores 0)
              (demo_scalar 5) (demo_scalar 6) (demo_scalar_well_formed roomy 0 5)
              eq_refl eq_refl ltac:(vm_compute; lia)) as (a & H1 & H2 & _).
  exists a. split; [exact H1 |]. rewrite H2. vm_compute. reflexivity.
Defined.

Lemma Add_safe_witness :
  exists bad R,
    Add (PF := lp64 roomy 0) (SC := double_scores 0) scenario_D_A scenario_D_B
    = Some (bad, R).
Proof.
  apply (Add_safe (PF := lp64 roomy 0) (SC := double_scores 0)
           scenario_D_A scenario_D_B
           (scenario_D_A_well_formed _ 0) (scenario_D_B_well_formed _ 0)
           eq_refl ltac:(vm_compute; lia) eq_refl
           scenario_D_A_increasing scenario_D_B_increasing eq_refl).
  vm_compute. discriminate.
Defined.

Lemma Add_keeps_invariants_witness :
  exists R,
    Add (PF := lp64 roomy 0) (SC := double_scores 0) scenario_D_A scenario_D_B
    = Some (false, R)
    /\ well_formed (PF := lp64 roomy 0) R
    /\ Forall (fun d => increasing (divisions d)) (active R).
Proof.
  eexists. split; [vm_compute; reflexivity |].
  destruct (Add_keeps_invariants (PF := lp64 roomy 0) (SC := double_scores 0)
              scenario_D_A scenario_D_B _ ltac:(vm_compute; discriminate)
              (scenario_D_A_well_formed roomy 0) (scenario_D_B_well_formed roomy 0)
              scenario_D_A_increasing scenario_D_B_increasing
              ltac:(vm_compute; reflexivity)) as (W & I & _).
  split; [exact W | exact I].
Defined.

Lemma scenario_C_bins :
  Forall2 (fun d c => increasing (divisions d) /\ Forall (fun x => x + 1 < c) (divisions d))
    (active scenario_C) (take (m_cDimensions scenario_C) [4]).
Proof. repeat constructor. Qed.

Lemma Expand_cells_witness :
  exists t',
    Expand (PF := lp64 roomy 0) (SC := double_scores 0) [4] scenario_C = Some (false, t')
    /\ m_aValues t' !! 1 = m_aValues scenario_C !! 0
    /\ m_aValues t' !! 2 = m_aValues scenario_C !! 1.
Proof.
  eexists. split; [vm_compute; reflexivity |]. split.
  - destruct (Expand_cells (PF := lp64 roomy 0) (SC := double_scores 0) [4] scenario_C _
                [1] 0 (scenario_C_well_formed roomy 0) eq_refl
                ltac:(repeat constructor; vm_compute; discriminate) scenario_C_bins
                ltac:(vm_compute; reflexivity) ltac:(repeat constructor) ltac:(vm_compute; lia))
      as (x & H1 & H2).
    transitivity (Some x); [exact H2 | symmetry; exact H1].
  - destruct (Expand_cells (PF := lp64 roomy 0) (SC := double_scores 0) [4] scenario_C _
                [2] 0 (scenario_C_well_formed roomy 0) eq_refl
                ltac:(repeat constructor; vm_compute; discriminate) scenario_C_bins
                ltac:(vm_compute; reflexivity) ltac:(repeat constructor) ltac:(vm_compute; lia))
      as (x & H1 & H2).
    transitivity (Some x); [exact H2 | symmetry; exact H1].
Defined.

Lemma Expand_divisions_identity_witness :
  exists t',
    Expand (PF := lp64 roomy 0) (SC := double_scores 0) [4] scenario_C = Some (false, t')
    /\ m_bExpanded t' = true
    /\ Forall2 (fun d' c => 1 <= c /\ m_cDivisions d' = c - 1 /\ divisions d' = seq 0 (c - 1))
         (active t') [4].
Proof.
  eexists. split; [vm_compute; reflexivity |].
  destruct (Expand_divisions_identity (PF := lp64 roomy 0) (SC := double_scores 0) [4]
              scenario_C _ (scenario_C_well_formed roomy 0) eq_refl
              ltac:(repeat constructor; vm_compute; discriminate) scenario_C_bins
              ltac:(vm_compute; reflexivity)) as (H1 & _ & _ & H4 & _).
  split; [exact H1 | exact H4].
Defined.

Lemma Expand_idempotent_witness :
  exists t',
    Expand (PF := lp64 roomy 0) (SC := double_scores 0) [4] scenario_C = Some (false, t')
    /\ Expand (PF := lp64 roomy 0) (SC := double_scores 0) [7] t' = Some (false, t').
Proof.
  eexists. split; [vm_compute; reflexivity |].
  apply (Expand_idempotent (PF := lp64 roomy 0) (SC := double_scores 0) [4] [7] scenario_C).
  vm_compute. reflexivity.
Defined.

Lemma Expand_safe_witness :
  exists bad t',
    Expand (PF := lp64 (fun _ => false) 0) (SC := double_scores 0) [4] scenario_C
    = Some (bad, t').
Proof.
  apply (Expand_safe (PF := lp64 (fun _ => false) 0) (SC := double_scores 0) [4] scenario_C
           (scenario_C_well_formed _ 0) eq_refl).
  - vm_compute. lia.
  - exact scenario_C_bins.
  - repeat constructor.
  - vm_compute. discriminate.
Defined.

Lemma Add_cells_witness :
  exists R (x y : float),
    Add (PF := lp64 roomy 0) (SC := double_scores 0) scenario_D_A scenario_D_B
    = Some (false, R)
    /\ m_aValues scenario_D_A
         !! (1 * cell_of (active scenario_D_A)
                   (segments_at (active scenario_D_A) (active R) [1; 1]) + 0) = Some x
    /\ m_aValues scenario_D_B
         !! (1 * cell_of (active scenario_D_B)
                   (segments_at (active scenario_D_B) (active R) [1; 1]) + 0) = Some y
    /\ m_aValues R !! (1 * cell_of (active R) [1; 1] + 0)
       = Some (score_add (Scores := double_scores 0) x y).
Proof.
  destruct (Add_cells (PF := lp64 roomy 0) (SC := double_scores 0)
              scenario_D_A scenario_D_B
              (default scenario_D_A
                 (snd <$> Add (PF := lp64 roomy 0) (SC := double_scores 0)
                            scenario_D_A scenario_D_B))
              [1; 1] 0
              (scenario_D_A_well_formed roomy 0) (scenario_D_B_well_formed roomy 0)
              scenario_D_A_increasing scenario_D_B_increasing
              ltac:(vm_compute; discriminate) ltac:(vm_compute; reflexivity)
              ltac:(vm_compute; repeat constructor) ltac:(vm_compute; lia))
    as (x & y & Hx & Hy & Hxy).
  eexists _, x, y. split; [vm_compute; reflexivity |]. split; [exact Hx |].
  split; [exact Hy | exact Hxy].
Defined.


(** ** The round orchestrator *)

Lemma SF_infinity : Prim2SF PrimFloat.infinity = S754_infinity false.
Proof. vm_compute. reflexivity. Qed.
Lemma SF_zero : Prim2SF 0 = S754_zero false.
Proof. vm_compute. reflexivity. Qed.
Lemma SF_double_max : Prim2SF double_max = S754_finite false 9007199254740991 971.
Proof. vm_compute. reflexivity. Qed.

Lemma double_not_infinite (g : float) :
  PrimFloat.leb 0 g = true -> PrimFloat.leb g double_max = true ->
  PrimFloat.is_infinity g = false.
Proof.
  unfold PrimFloat.is_infinity.
  rewrite !FloatAxioms.leb_spec, FloatAxioms.eqb_spec, FloatAxioms.abs_spec.
  rewrite SF_infinity, SF_zero, SF_double_max.
  destruct (Prim2SF g) as [s | [] | | s m e]; intros H0 Hmax.
  - reflexivity.
  - discriminate H0.
  - discriminate Hmax.
  - reflexivity.
  - reflexivity.
Qed.

Lemma double_not_infinity (g : float) :
  PrimFloat.is_infinity g = false -> PrimFloat.eqb PrimFloat.infinity g = false.
Proof.
  unfold PrimFloat.is_infinity.
  rewrite !FloatAxioms.eqb_spec, FloatAxioms.abs_spec.
  rewrite SF_infinity.
  destruct (Prim2SF g) as [s | [] | | s m e]; intros H.
  - reflexivity.
  - reflexivity.
  - discriminate H.
  - reflexivity.
  - reflexivity.
Qed.

Lemma Run_bind_unfold {S A B} (m : Run S A) (k : A -> Run S B) (s : S) :
  (m ≫= k) s
  = match m s with
    | Some (Next a, s') => k a s'
    | Some (Leave e, s') => Some (Leave e, s')
    | None => None
    end.
Proof. reflexivity. Qed.

Ltac run_in H :=
  repeat (progress
    (rewrite ?Run_bind_unfold in H;
     cbn [mret Run_ret leave EBM_ASSERT read write lift when
          GetCore GetTermUpdate GetInnerTermUpdate
          pBoosterShell the_world pRng avgGainOut
          with_shell with_world with_rng with_avgGainOut
          BoosterShell.GetBoosterCore BoosterShell.m_iTerm BoosterShell.GetTermUpdate
          BoosterShell.GetInnerTermUpdate BoosterShell.SetTermIndex
          BoosterShell.SetTermUpdate BoosterShell.SetInnerTermUpdate
          negb orb andb fst snd] in H)).

Ltac run :=
  repeat (progress
    (rewrite ?Run_bind_unfold;
     cbn [mret Run_ret leave EBM_ASSERT read write lift when
          GetCore GetTermUpdate GetInnerTermUpdate
          pBoosterShell the_world pRng avgGainOut
          with_shell with_world with_rng with_avgGainOut
          BoosterShell.GetBoosterCore BoosterShell.m_iTerm BoosterShell.GetTermUpdate
          BoosterShell.GetInnerTermUpdate BoosterShell.SetTermIndex
          BoosterShell.SetTermUpdate BoosterShell.SetInnerTermUpdate
          negb orb andb fst snd])).

Section OrchestratorProperties.
Context `{PF : Platform} {tensor world rng : Type}.
Context `{TO : TensorOps tensor} `{CO : Collaborators tensor world rng}.

(** C10: the sentinel is written through [avgGainOut] before anything is
    validated, so a call with a null handle, a negative term index or a
    term index at or above the term count returns [Error_IllegalParamVal]
    with the sentinel in the output cell (when there is one). *)
Theorem GenerateTermUpdate_illegal_parameter (rng_in : option rng)
    (boosterHandle : option (BoosterShell.t tensor)) (w : world)
    (indexTerm flags : Z) (learningRate : float) (minSamplesLeaf : Z)
    (minHessian : float) (leavesMax direction : option (list Z))
    (avgGainOut_in : option float) :
  match boosterHandle with
  | None => True
  | Some shell =>
      (indexTerm < 0)%Z
      \/ (IntEbm_of_size_t (BoosterCore.GetCountTerms (BoosterShell.GetBoosterCore shell))
          <= indexTerm)%Z
  end ->
  exists out,
    GenerateTermUpdate rng_in boosterHandle w indexTerm flags learningRate minSamplesLeaf
      minHessian leavesMax direction avgGainOut_in = Some out
    /\ returned out = Error_IllegalParamVal
    /\ avgGainOut_after out = (fun _ => k_illegalGainDouble) <$> avgGainOut_in.
Proof.
  intros H. unfold GenerateTermUpdate. destruct boosterHandle as [shell|].
  - unfold GenerateTermUpdate_body, GenerateTermUpdate_begin. run.
    destruct (Z.ltb_spec indexTerm 0) as [Hneg | Hpos].
    + run. eexists. split; [reflexivity | split; reflexivity].
    + destruct H as [H | H]; [lia |].
      apply Z.leb_le in H. run. rewrite H. run.
      eexists. split; [reflexivity | split; reflexivity].
  - eexists. split; [reflexivity | split; reflexivity].
Qed.

Lemma Run_bind_Next {S A B} (m : Run S A) (k : A -> Run S B) (s s' : S) (b : B) :
  (m ≫= k) s = Some (Next b, s') ->
  exists a s1, m s = Some (Next a, s1) /\ k a s1 = Some (Next b, s').
Proof.
  rewrite Run_bind_unfold. destruct (m s) as [[[a | e] s1] |]; [eauto | done | done].
Qed.

Lemma EBM_ASSERT_Next {S} (b : bool) (s s' : S) (u : unit) :
  EBM_ASSERT b s = Some (Next u, s') -> b = true /\ s' = s.
Proof. unfold EBM_ASSERT. destruct b; [| done]. intros [= _ ->]. done. Qed.

Lemma mret_Next {S A} (a b : A) (s s' : S) :
  (mret a : Run S A) s = Some (Next b, s') -> b = a /\ s' = s.
Proof. intros [= -> ->]. done. Qed.

Lemma GenerateTermUpdate_bags_gain (todo iBag : nat) (pTerm : Term.t)
    (iTerm cScores cTensorBins cInnerBagsAfterZero cRealDimensions : nat)
    (cBytesMainBins : nat) (flags : Z) (leavesMax : option (list Z))
    (significantDirection : Z) (cSignificantBinCount iDimensionImportant : nat)
    (cSamplesLeafMin : nat) (minHessian : float) (lastDimensionLeavesMax : Z)
    (gainMultiple gainAvg0 gainAvg : float) (m m' : Memory) :
  GenerateTermUpdate_bags todo iBag pTerm iTerm cScores cTensorBins
    cInnerBagsAfterZero cRealDimensions cBytesMainBins flags leavesMax
    significantDirection cSignificantBinCount iDimensionImportant
    cSamplesLeafMin minHessian lastDimensionLeavesMax gainMultiple gainAvg0 m
  = Some (Next gainAvg, m') ->
  PrimFloat.is_nan gainAvg0 = false -> PrimFloat.leb 0 gainAvg0 = true ->
  PrimFloat.is_nan gainAvg = false /\ PrimFloat.leb 0 gainAvg = true.
Proof.
  revert iBag gainAvg0 m. induction todo as [|todo IH]; intros iBag gainAvg0 m H Hn0 Hp0.
  - done.
  - cbn [GenerateTermUpdate_bags] in H.
    apply Run_bind_Next in H as (? & m1 & _ & H).
    apply Run_bind_Next in H as (core & m2 & _ & H).
    apply Run_bind_Next in H as (? & m3 & _ & H).
    apply Run_bind_Next in H as (? & m4 & _ & H).
    apply Run_bind_Next in H as (g1 & m5 & Hg & H).
    assert (PrimFloat.is_nan g1 = false /\ PrimFloat.leb 0 g1 = true) as [Hn1 Hp1].
    { destruct (bool_decide (1 = cTensorBins)).
      - apply Run_bind_Next in Hg as (? & ? & _ & Hg).
        apply mret_Next in Hg as [-> _]. done.
      - apply Run_bind_Next in Hg as (? & ? & _ & Hg).
        apply Run_bind_Next in Hg as ([error gain] & ? & _ & Hg).
        destruct (bool_decide (Error_None ≠ error)); [done |].
        apply Run_bind_Next in Hg as (? & ? & _ & Hg).
        apply Run_bind_Next in Hg as (? & ? & _ & Hg).
        apply Run_bind_Next in Hg as (? & ? & Ha1 & Hg).
        apply Run_bind_Next in Hg as (? & ? & Ha2 & Hg).
        apply EBM_ASSERT_Next in Ha1 as [Ha1 _], Ha2 as [Ha2 _].
        apply mret_Next in Hg as [-> _].
        split; [by apply negb_true_iff in Ha1 | done]. }
    apply Run_bind_Next in H as (update & m6 & _ & H).
    apply Run_bind_Next in H as (inner & m7 & _ & H).
    apply Run_bind_Next in H as ([error update'] & m8 & _ & H).
    apply Run_bind_Next in H as (? & m9 & _ & H).
    destruct (bool_decide (Error_None ≠ error)); [done |].
    destruct (bool_decide (cInnerBagsAfterZero ≠ iBag + 1)).
    + eapply IH; done.
    + apply mret_Next in H as [-> _]. done.
Qed.


Lemma double_eqb_refl (k : float) :
  PrimFloat.is_nan k = false -> PrimFloat.eqb k k = true.
Proof. unfold PrimFloat.is_nan. by intros ?%negb_false_iff. Qed.

End OrchestratorProperties.

Lemma GenerateTermUpdate_illegal_parameter_witness :
  exists out,
    GenerateTermUpdate (PF := lp64 roomy 0)
      (TO := SegmentedTensor_ops (PF := lp64 roomy 0) 0)
      (CO := demo_collaborators 3 4)
      None (Some demo_shell) tt 1 0 0.5 1 1 (Some [2%Z]) None (Some 123%float)
    = Some out
    /\ returned out = Error_IllegalParamVal
    /\ avgGainOut_after out = Some (PrimFloat.opp double_max).
Proof.
  apply (GenerateTermUpdate_illegal_parameter (PF := lp64 roomy 0)
           (TO := SegmentedTensor_ops (PF := lp64 roomy 0) 0)
           (CO := demo_collaborators 3 4)
           None (Some demo_shell) tt 1 0 0.5 1 1 (Some [2%Z]) None (Some 123%float)).
  right. vm_compute. discriminate.
Defined.

(** ** What a round leaves behind *)

Section Frame.
Context `{PF : Platform} {tensor world rng : Type}.
Context `{TO : TensorOps tensor} `{CO : Collaborators tensor world rng}.

Local Abbreviation Mem := (Memory (tensor := tensor) (world := world) (rng := rng)).

Global Instance kept_preorder : PreOrder (kept (tensor := tensor) (world := world) (rng := rng)).
Proof.
  split.
  - intros s. done.
  - intros s1 s2 s3 (K1 & K2 & K3) (J1 & J2 & J3). unfold kept. rewrite J1, J2, J3. done.
Qed.

Lemma frames_bind (R : relation Mem) `{!PreOrder R} {A B} (m : Run Mem A) (k : A -> Run Mem B) :
  frames R m -> (forall a, frames R (k a)) -> frames R (m ≫= k).
Proof.
  intros Hm Hk s r s' H. rewrite Run_bind_unfold in H.
  destruct (m s) as [[[a | e] s1] |] eqn:E; [| | done].
  - destruct (Hm _ _ _ E) as [K _]. destruct (Hk a _ _ _ H) as [J Hr].
    split; [by transitivity s1 | done].
  - injection H as <- <-. destruct (Hm _ _ _ E) as [K Hr].
    split; [done |]. intros [= ->]. done.
Qed.

Lemma frames_ret (R : relation Mem) `{!PreOrder R} {A} (a : A) : frames R (mret a : Run Mem A).
Proof. intros s r s' [= <- <-]. done. Qed.

Lemma frames_leave (R : relation Mem) `{!PreOrder R} {A} (e : ErrorEbm) : e <> Error_None -> frames R (leave e : Run Mem A).
Proof. intros He s r s' [= <- <-]. split; [done |]. intros [= ->]. done. Qed.

Lemma frames_assert (R : relation Mem) `{!PreOrder R} (b : bool) : frames R (EBM_ASSERT b : Run Mem unit).
Proof. intros s r s' H. unfold EBM_ASSERT in H. destruct b; [| done]. by injection H as <- <-. Qed.

Lemma frames_read (R : relation Mem) `{!PreOrder R} {A} (f : Mem -> A) : frames R (read f).
Proof. intros s r s' [= <- <-]. done. Qed.

Lemma frames_lift (R : relation Mem) `{!PreOrder R} {A} (o : option A) : frames R (lift o : Run Mem A).
Proof. intros s r s' H. unfold lift in H. destruct o; [| done]. by injection H as <- <-. Qed.

Lemma frames_write (R : relation Mem) `{!PreOrder R} (f : Mem -> Mem) : (forall s, R s (f s)) -> frames R (write f).
Proof. intros Hf s r s' [= <- <-]. done. Qed.

Ltac preorder := lazymatch goal with |- PreOrder _ => apply _ | |- _ => idtac end.

Ltac steady_step :=
  lazymatch goal with
  | |- frames _ (mbind _ _) => apply frames_bind; [.. | intros ?]; preorder
  | |- frames _ (mret _) => apply frames_ret; preorder
  | |- frames _ (EBM_ASSERT _) => apply frames_assert; preorder
  | |- frames _ (read _) => apply frames_read; preorder
  | |- frames _ GetCore => apply frames_read; preorder
  | |- frames _ GetTermUpdate => apply frames_read; preorder
  | |- frames _ GetInnerTermUpdate => apply frames_read; preorder
  | |- frames _ (lift _) => apply frames_lift; preorder
  | |- frames _ (write _) => apply frames_write; [preorder; intros ?; done ..]
  | |- frames _ (leave _) => apply frames_leave; [preorder; congruence ..]
  | |- frames _ (if bool_decide _ then _ else _) => case_bool_decide
  | |- frames _ (if ?b then _ else _) => destruct b
  | |- frames _ (match ?x with _ => _ end) => destruct x
  end.

Ltac steady := repeat steady_step.

Lemma BoostZeroDimensional_scores_kept (todo iScore : nat) (f : nat -> float) :
  frames kept (BoostZeroDimensional_scores (world := world) (rng := rng) todo iScore f).
Proof.
  revert iScore. induction todo as [|todo IH]; intros iScore; cbn [BoostZeroDimensional_scores].
  - steady.
  - steady. apply IH.
Qed.

Lemma BoostZeroDimensional_kept (flags : Z) :
  frames kept (BoostZeroDimensional flags).
Proof.
  unfold BoostZeroDimensional. steady; apply BoostZeroDimensional_scores_kept.
Qed.

Lemma BoostSingleDimensional_kept (flags : Z) (cBins : nat) (weightTotal : float)
    (iDimension cSamplesLeafMin : nat) (hessianMin : float) (countLeavesMax : Z)
    (direction : Z) :
  frames kept (BoostSingleDimensional flags cBins weightTotal iDimension cSamplesLeafMin
            hessianMin countLeavesMax direction).
Proof. unfold BoostSingleDimensional. steady. Qed.

Lemma BoostMultiDimensional_bins_kept (features : list FeatureBoosting.t) :
  frames kept (BoostMultiDimensional_bins (tensor := tensor) (world := world) (rng := rng) features).
Proof.
  induction features as [|pFeature features IH]; cbn [BoostMultiDimensional_bins].
  - steady.
  - steady. apply IH.
Qed.

Lemma BoostMultiDimensional_kept (flags : Z) (iTerm cSamplesLeafMin : nat)
    (hessianMin gain : float) :
  frames kept (BoostMultiDimensional flags iTerm cSamplesLeafMin hessianMin gain).
Proof.
  unfold BoostMultiDimensional. steady. apply BoostMultiDimensional_bins_kept.
Qed.

Lemma BoostRandom_kept (iTerm : nat) (flags : Z) (aLeavesMax : option (list Z))
    (significantDirection : Z) :
  frames kept (BoostRandom iTerm flags aLeavesMax significantDirection).
Proof. unfold BoostRandom. steady. Qed.

Lemma GenerateTermUpdate_dimensions_kept (features : list FeatureBoosting.t)
    (pLeavesMax : list Z) (direction : option (list Z)) (iDimensionInit : nat)
    (cTensorBins cRealDimensions : nat) (acc : Z * nat * Z * nat) :
  frames kept (GenerateTermUpdate_dimensions (tensor := tensor) features pLeavesMax direction
            iDimensionInit cTensorBins cRealDimensions acc).
Proof.
  revert pLeavesMax direction iDimensionInit acc.
  induction features as [|pFeature features IH]; intros pLeavesMax direction i acc;
    cbn [GenerateTermUpdate_dimensions].
  - steady.
  - destruct acc as [[[a b] c] d]. steady; apply IH.
Qed.

Lemma GenerateTermUpdate_lanes_kept (todo i : nat) (bLast bParallelBins : bool)
    (cScores cTensorBins cBytesPerFastBin cSIMDPack iTerm iBag : nat)
    (bUInt64Src bDoubleSrc : bool) (pFastBins : nat) :
  frames kept (GenerateTermUpdate_lanes (tensor := tensor) (rng := rng) todo i bLast bParallelBins
            cScores cTensorBins cBytesPerFastBin cSIMDPack iTerm iBag bUInt64Src bDoubleSrc
            pFastBins).
Proof.
  revert i pFastBins. induction todo as [|todo IH]; intros i pFastBins;
    cbn [GenerateTermUpdate_lanes].
  - steady.
  - steady. apply IH.
Qed.

Lemma GenerateTermUpdate_subsets_kept (subsets : list DataSubsetBoosting.t)
    (iSubset : nat) (pTerm : Term.t) (cScores cTensorBins iTerm iBag : nat) :
  frames kept (GenerateTermUpdate_subsets (tensor := tensor) (rng := rng) subsets iSubset pTerm
            cScores cTensorBins iTerm iBag).
Proof.
  revert iSubset. induction subsets as [|pSubset subsets IH]; intros iSubset;
    cbn [GenerateTermUpdate_subsets].
  - steady.
  - steady; try apply GenerateTermUpdate_lanes_kept; apply IH.
Qed.

Lemma GenerateTermUpdate_bags_kept (todo iBag : nat) (pTerm : Term.t)
    (iTerm cScores cTensorBins cInnerBagsAfterZero cRealDimensions : nat)
    (cBytesMainBins : nat) (flags : Z) (leavesMax : option (list Z))
    (significantDirection : Z) (cSignificantBinCount iDimensionImportant : nat)
    (cSamplesLeafMin : nat) (minHessian : float) (lastDimensionLeavesMax : Z)
    (gainMultiple gainAvg : float) :
  frames kept (GenerateTermUpdate_bags todo iBag pTerm iTerm cScores cTensorBins
            cInnerBagsAfterZero cRealDimensions cBytesMainBins flags leavesMax
            significantDirection cSignificantBinCount iDimensionImportant
            cSamplesLeafMin minHessian lastDimensionLeavesMax gainMultiple gainAvg).
Proof.
  revert iBag gainAvg. induction todo as [|todo IH]; intros iBag gainAvg;
    cbn [GenerateTermUpdate_bags].
  - steady.
  - steady;
      try apply GenerateTermUpdate_subsets_kept;
      try apply BoostZeroDimensional_kept;
      try apply BoostRandom_kept;
      try apply BoostSingleDimensional_kept;
      try apply BoostMultiDimensional_kept;
      try apply IH.
Qed.

Lemma GenerateTermUpdate_reset_update_kept (cDimensions : nat) :
  frames kept (GenerateTermUpdate_reset_update (world := world) (rng := rng) cDimensions).
Proof. unfold GenerateTermUpdate_reset_update. steady. Qed.

Lemma GenerateTermUpdate_finish_kept (cDimensions cScores : nat)
    (multiple gainAvg : float) :
  frames kept (GenerateTermUpdate_finish cDimensions cScores multiple gainAvg).
Proof.
  unfold GenerateTermUpdate_finish. steady; apply GenerateTermUpdate_reset_update_kept.
Qed.

Lemma GenerateTermUpdate_gains_kept (rng_in : option rng) (l : Locals.t)
    (flags : Z) (learningRate : float) (leavesMax : option (list Z)) :
  frames kept (GenerateTermUpdate_gains rng_in l flags learningRate leavesMax).
Proof.
  unfold GenerateTermUpdate_gains. steady; apply GenerateTermUpdate_bags_kept.
Qed.

Lemma GenerateTermUpdate_boost_kept (rng_in : option rng) (l : Locals.t)
    (flags : Z) (learningRate : float) (leavesMax : option (list Z)) :
  frames kept (GenerateTermUpdate_boost rng_in l flags learningRate leavesMax).
Proof.
  unfold GenerateTermUpdate_boost. steady;
    [apply GenerateTermUpdate_gains_kept | apply GenerateTermUpdate_finish_kept].
Qed.

Lemma settles_bind {A} (iTerm : nat) (m : Run Mem A) (k : A -> Run Mem ErrorEbm) :
  frames kept m -> (forall a, settles iTerm (k a)) -> settles iTerm (m ≫= k).
Proof.
  intros Hm Hk s r s' H. rewrite Run_bind_unfold in H.
  destruct (m s) as [[[a | e] s1] |] eqn:E; [| | done].
  - destruct (Hm _ _ _ E) as [(K1 & K2 & K3) _].
    destruct (Hk a _ _ _ H) as (J1 & J2 & J3).
    rewrite <- K1, <- K2, <- K3. done.
  - injection H as <- <-. destruct (Hm _ _ _ E) as [(K1 & K2 & K3) Hr].
    split; [done |]. split; [done |]. intros ->. done.
Qed.

Lemma settles_leave (iTerm : nat) (e : ErrorEbm) :
  e <> Error_None -> settles iTerm (leave e : Run Mem ErrorEbm).
Proof. intros He s r s' [= <- <-]. done. Qed.

Lemma settles_exit (iTerm : nat) (gain : float) :
  settles iTerm
    (write (with_avgGainOut gain);;
     write (with_shell (BoosterShell.SetTermIndex iTerm));;
     leave Error_None : Run Mem ErrorEbm).
Proof.
  intros s r s' H. run_in H. injection H as <- <-. cbn.
  split; [done |]. split; [done |]. intros _. split; [done |]. by exists gain.
Qed.

Lemma GenerateTermUpdate_return_settles (iTerm : nat) (gainAvg : float) :
  settles iTerm (GenerateTermUpdate_return iTerm gainAvg : Run Mem ErrorEbm).
Proof.
  intros s r s' H. unfold GenerateTermUpdate_return in H. run_in H.
  destruct (PrimFloat.is_nan gainAvg); [done |]. run_in H.
  destruct (PrimFloat.eqb PrimFloat.infinity gainAvg); [done |]. run_in H.
  destruct (PrimFloat.eqb k_illegalGainDouble gainAvg || PrimFloat.leb 0 gainAvg); [| done].
  run_in H. injection H as <- <-. cbn.
  split; [done |]. split; [done |]. intros _. split; [done |]. by exists gainAvg.
Qed.

Ltac settle_step :=
  lazymatch goal with
  | |- settles _ (mbind _ (write (with_avgGainOut _))) => apply settles_exit
  | |- settles _ (mbind _ _) => apply settles_bind; [| intros ?]
  | |- settles _ (leave _) => apply settles_leave; congruence
  | |- settles _ (GenerateTermUpdate_return _ _) => apply GenerateTermUpdate_return_settles
  | |- settles _ (if bool_decide _ then _ else _) => case_bool_decide
  | |- settles _ (if ?b then _ else _) => destruct b
  | |- settles _ (match ?x with _ => _ end) => destruct x
  | |- frames _ _ => steady_step
  end.

Lemma GenerateTermUpdate_dimensions_reads (features : list FeatureBoosting.t)
    (pLeavesMax : list Z) (direction : option (list Z)) (iDimensionInit : nat)
    (cTensorBins cRealDimensions : nat) (acc : Z * nat * Z * nat)
    (s : Mem) (r : Flow (Z * nat * Z * nat)) (s' : Mem) :
  GenerateTermUpdate_dimensions features pLeavesMax direction iDimensionInit cTensorBins
    cRealDimensions acc s = Some (r, s') ->
  s' = s /\ exists a, r = Next a.
Proof.
  revert pLeavesMax direction iDimensionInit acc s.
  induction features as [|pFeature features IH];
    intros pLeavesMax direction i acc s H; cbn [GenerateTermUpdate_dimensions] in H.
  - injection H as <- <-. eauto.
  - destruct acc as [[[a b] c] d]. rewrite Run_bind_unfold in H.
    destruct direction as [dir|].
    + unfold lift at 1 in H. destruct (head dir); [| done].
      rewrite Run_bind_unfold in H. case_bool_decide.
      * run_in H. destruct (bool_decide (2 <= cTensorBins)); [| done]. run_in H.
        destruct (bool_decide (2 <= cRealDimensions) || (0 =? a)%Z); [| done]. run_in H.
        destruct (head pLeavesMax); [| done]. run_in H. by apply IH in H.
      * run_in H. by apply IH in H.
    + cbn [mret Run_ret] in H. rewrite Run_bind_unfold in H. case_bool_decide.
      * run_in H. destruct (bool_decide (2 <= cTensorBins)); [| done]. run_in H.
        destruct (bool_decide (2 <= cRealDimensions) || (0 =? a)%Z); [| done]. run_in H.
        destruct (head pLeavesMax); [| done]. run_in H. by apply IH in H.
      * run_in H. by apply IH in H.
Qed.

(** What [GenerateTermUpdate_begin] has done when it ends.  It leaves the
    function with [Error_IllegalParamVal] for a term index out of range
    and with [Error_None] when there is nothing to boost; otherwise it
    yields the locals of a legal term with scores and tensor bins, and
    has cleared the round update tensor. *)
Lemma GenerateTermUpdate_begin_inv (indexTerm minSamplesLeaf : Z) (minHessian : float)
    (leavesMax direction : option (list Z)) (s : Mem) (r : Flow Locals.t) (s' : Mem) :
  GenerateTermUpdate_begin indexTerm minSamplesLeaf minHessian leavesMax direction s
  = Some (r, s') ->
  let core := BoosterShell.GetBoosterCore (pBoosterShell s) in
  match r with
  | Leave e =>
      (e = Error_IllegalParamVal
       /\ ((indexTerm < 0)%Z
           \/ (IntEbm_of_size_t (BoosterCore.GetCountTerms core) <= indexTerm)%Z)
       /\ s' = with_shell (BoosterShell.SetTermIndex k_illegalTermIndex) s)
      \/ (e = Error_None
          /\ (0 <= indexTerm < IntEbm_of_size_t (BoosterCore.GetCountTerms core))%Z
          /\ (exists pTerm,
                BoosterCore.GetTerms core !! Z.to_nat indexTerm = Some pTerm
                /\ (0 = BoosterCore.GetCountScores core
                    \/ 0 = Term.GetCountTensorBins pTerm))
          /\ s' = with_shell (BoosterShell.SetTermIndex (Z.to_nat indexTerm))
                    (with_avgGainOut 0
                       (with_shell (BoosterShell.SetTermIndex k_illegalTermIndex) s)))
  | Next l =>
      (0 <= indexTerm < IntEbm_of_size_t (BoosterCore.GetCountTerms core))%Z
      /\ BoosterCore.GetTerms core !! Z.to_nat indexTerm = Some (Locals.pTerm l)
      /\ Locals.pBoosterCore l = core
      /\ Locals.iTerm l = Z.to_nat indexTerm
      /\ Locals.cScores l = BoosterCore.GetCountScores core
      /\ 0 <> Locals.cScores l
      /\ Locals.cTensorBins l = Term.GetCountTensorBins (Locals.pTerm l)
      /\ 0 <> Locals.cTensorBins l
      /\ Locals.cDimensions l = Term.GetCountDimensions (Locals.pTerm l)
      /\ exists sized cleared,
           Tensor_SetCountDimensions (Locals.cDimensions l)
             (BoosterShell.GetTermUpdate (pBoosterShell s)) = Some sized
           /\ Tensor_Reset sized = Some cleared
           /\ s' = with_shell (BoosterShell.SetTermUpdate cleared)
                     (with_shell (BoosterShell.SetTermIndex k_illegalTermIndex) s)
  end.
Proof.
  intros E core. subst core. unfold GenerateTermUpdate_begin in E. run_in E.
  destruct (Z.ltb_spec indexTerm 0) as [Hneg | Hpos]; run_in E.
  { injection E as <- <-. left. eauto. }
  destruct (Z.leb_spec
              (IntEbm_of_size_t
                 (BoosterCore.GetCountTerms (BoosterShell.GetBoosterCore (pBoosterShell s))))
              indexTerm) as [Hbig | Hsmall]; run_in E.
  { injection E as <- <-. left. eauto. }
  destruct (BoosterCore.GetTerms (BoosterShell.GetBoosterCore (pBoosterShell s))
              !! Z.to_nat indexTerm) as [pTerm|] eqn:Hterm; [| done].
  run_in E.
  case_bool_decide as Hs; run_in E.
  { injection E as <- <-. right. eauto 10. }
  case_bool_decide as Hb; run_in E.
  { injection E as <- <-. right. eauto 10. }
  match type of E with
  | match ?X ?s1 with _ => _ end = _ =>
      assert (forall x, X s1 = Some x -> x.2 = s1 /\ exists acc, x.1 = Next acc) as HX;
      [| destruct (X s1) as [[[acc | ?] s2] |];
         [destruct (HX _ eq_refl) as [Hs2 _]; cbn in Hs2; subst s2; clear HX
         | by destruct (HX _ eq_refl) as [_ [? ?]]
         | done]]
  end.
  { intros [rx sx] EX. cbn [fst snd]. destruct leavesMax as [pLeavesMax|].
    - case_bool_decide.
      + run_in EX.
        destruct (bool_decide (1 <= Term.GetCountDimensions pTerm)); [| done]. run_in EX.
        destruct (cells (Term.GetCountDimensions pTerm) (Term.GetTermFeatures pTerm));
          [| done].
        run_in EX.
        match type of EX with
        | match ?D with _ => _ end = _ =>
            destruct D as [[[acc | ?] s2] |] eqn:ED; [| | done];
            apply GenerateTermUpdate_dimensions_reads in ED as [-> [? ?]]; [| done]
        end.
        run_in EX. destruct (bool_decide (2 <= acc.1.1.2)); [| done]. run_in EX.
        injection EX as <- <-. eauto.
      + injection EX as <- <-. eauto.
    - injection EX as <- <-. eauto. }
  destruct acc as [[[last cSignificant] significantDirection] iDimensionImportant].
  run_in E.
  destruct (bool_decide (1 <= Term.GetCountTensorBins pTerm)); [| done]. run_in E.
  destruct (bool_decide (2 <= Term.GetCountTensorBins pTerm) || (0 =? last)%Z); [| done].
  unfold GenerateTermUpdate_reset_update in E. run_in E.
  destruct (Tensor_SetCountDimensions (Term.GetCountDimensions pTerm)
              (BoosterShell.GetTermUpdate (pBoosterShell s))) as [sized|] eqn:Hsized; [| done].
  run_in E.
  destruct (Tensor_Reset sized) as [cleared|] eqn:Hcleared; [| done].
  run_in E. injection E as <- <-. cbn.
  repeat (split; [done |]). exists sized, cleared. done.
Qed.

Lemma GenerateTermUpdate_body_settles (rng_in : option rng) (indexTerm flags : Z)
    (learningRate : float) (minSamplesLeaf : Z) (minHessian : float)
    (leavesMax direction : option (list Z)) (s : Mem) (r : Flow ErrorEbm) (s' : Mem) :
  GenerateTermUpdate_body rng_in indexTerm flags learningRate minSamplesLeaf minHessian
    leavesMax direction s = Some (r, s') ->
  BoosterShell.GetBoosterCore (pBoosterShell s') = BoosterShell.GetBoosterCore (pBoosterShell s)
  /\ (match r with Next e | Leave e => e end <> Error_None ->
      BoosterShell.m_iTerm (pBoosterShell s') = k_illegalTermIndex
      /\ avgGainOut s' = avgGainOut s)
  /\ (match r with Next e | Leave e => e end = Error_None ->
      BoosterShell.m_iTerm (pBoosterShell s') = Z.to_nat indexTerm
      /\ (0 <= indexTerm
          < IntEbm_of_size_t
              (BoosterCore.GetCountTerms (BoosterShell.GetBoosterCore (pBoosterShell s))))%Z
      /\ exists gain, avgGainOut s' = (fun _ => gain) <$> avgGainOut s).
Proof.
  intros H. unfold GenerateTermUpdate_body in H. rewrite Run_bind_unfold in H.
  match type of H with
  | match ?B with _ => _ end = _ => destruct B as [[[l | e] s1] |] eqn:E; [| | done]
  end.
  - apply GenerateTermUpdate_begin_inv in E. cbn zeta in E.
    destruct E as (Hidx & _ & _ & HiTerm & _ & _ & _ & _ & _ & sized & cleared & _ & _ & ->).
    match type of H with
    | ?m ?s1 = _ => assert (settles (Locals.iTerm l) m) as Hm
    end.
    { repeat settle_step. apply GenerateTermUpdate_boost_kept. }
    apply Hm in H. cbn in H. destruct H as (H1 & H2 & H3). rewrite HiTerm in H3.
    split; [done |]. split; [done |]. intros He. destruct (H3 He) as [? ?]. done.
  - injection H as <- <-. apply GenerateTermUpdate_begin_inv in E. cbn zeta in E.
    destruct E as [(-> & _ & ->) | (-> & Hidx & _ & ->)]; cbn.
    + done.
    + split; [done |]. split; [done |]. intros _. split; [done |]. split; [done |].
      by exists 0%float.
Qed.

(** X12: whatever goes wrong, the outputs say so: a call that returns an
    error leaves the sentinel in the cell behind [avgGainOut] (when there
    is one) and the illegal term index in the shell (when there is one),
    however far the round went before the error. *)
Theorem GenerateTermUpdate_error_outputs (rng_in : option rng)
    (boosterHandle : option (BoosterShell.t tensor)) (w : world)
    (indexTerm flags : Z) (learningRate : float) (minSamplesLeaf : Z)
    (minHessian : float) (leavesMax direction : option (list Z))
    (avgGainOut_in : option float) (out : Outcome) :
  GenerateTermUpdate rng_in boosterHandle w indexTerm flags learningRate minSamplesLeaf
    minHessian leavesMax direction avgGainOut_in = Some out ->
  returned out <> Error_None ->
  avgGainOut_after out = (fun _ => k_illegalGainDouble) <$> avgGainOut_in
  /\ forall shell, shell_after out = Some shell ->
       BoosterShell.m_iTerm shell = k_illegalTermIndex.
Proof.
  intros H He. unfold GenerateTermUpdate in H. destruct boosterHandle as [shell0|].
  - match type of H with
    | context [GenerateTermUpdate_body ?a ?b ?c ?d ?e ?f ?g ?h ?s] =>
        destruct (GenerateTermUpdate_body a b c d e f g h s) as [[r s']|] eqn:E
    end; [| done].
    cbn [mbind option_bind] in H. injection H as <-. cbn in He |- *.
    apply GenerateTermUpdate_body_settles in E as (_ & E & _).
    destruct (E He) as [E1 E2]. split; [done |]. intros shell [= <-]. done.
  - injection H as <-. cbn. done.
Qed.

(** X13: [Error_None] is returned only for a legal term index on a booster
    that exists, and it comes with that index committed in the shell, an
    unchanged booster core, and a gain written through [avgGainOut] (when
    there is a cell). *)
Theorem GenerateTermUpdate_success_outputs (rng_in : option rng)
    (boosterHandle : option (BoosterShell.t tensor)) (w : world)
    (indexTerm flags : Z) (learningRate : float) (minSamplesLeaf : Z)
    (minHessian : float) (leavesMax direction : option (list Z))
    (avgGainOut_in : option float) (out : Outcome) :
  GenerateTermUpdate rng_in boosterHandle w indexTerm flags learningRate minSamplesLeaf
    minHessian leavesMax direction avgGainOut_in = Some out ->
  returned out = Error_None ->
  exists shell shell' gain,
    boosterHandle = Some shell
    /\ (0 <= indexTerm
        < IntEbm_of_size_t (BoosterCore.GetCountTerms (BoosterShell.GetBoosterCore shell)))%Z
    /\ shell_after out = Some shell'
    /\ BoosterShell.m_iTerm shell' = Z.to_nat indexTerm
    /\ BoosterShell.GetBoosterCore shell' = BoosterShell.GetBoosterCore shell
    /\ avgGainOut_after out = (fun _ => gain) <$> avgGainOut_in.
Proof.
  intros H He. unfold GenerateTermUpdate in H. destruct boosterHandle as [shell0|].
  - match type of H with
    | context [GenerateTermUpdate_body ?a ?b ?c ?d ?e ?f ?g ?h ?s] =>
        destruct (GenerateTermUpdate_body a b c d e f g h s) as [[r s']|] eqn:E
    end; [| done].
    cbn [mbind option_bind] in H. injection H as <-. cbn in He |- *.
    apply GenerateTermUpdate_body_settles in E as (E0 & _ & E).
    destruct (E He) as (E1 & E2 & gain & E3). cbn in E0, E2, E3.
    exists shell0, (pBoosterShell s'), gain. rewrite E3.
    split; [done |]. split; [done |]. split; [done |]. split; [done |]. split; [done |].
    by destruct avgGainOut_in.
  - injection H as <-. done.
Qed.

(** X14: nothing to boost.  For a legal term index, a booster without
    scores or a term without tensor bins ends the call at once: it returns
    [Error_None], writes the gain 0, commits the term index, and leaves
    both update tensors, the world and the generator alone. *)
Theorem GenerateTermUpdate_nothing_to_boost (rng_in : option rng)
    (shell : BoosterShell.t tensor) (w : world)
    (indexTerm flags : Z) (learningRate : float) (minSamplesLeaf : Z)
    (minHessian : float) (leavesMax direction : option (list Z))
    (avgGainOut_in : option float) (pTerm : Term.t) :
  (0 <= indexTerm
   < IntEbm_of_size_t (BoosterCore.GetCountTerms (BoosterShell.GetBoosterCore shell)))%Z ->
  BoosterCore.GetTerms (BoosterShell.GetBoosterCore shell) !! Z.to_nat indexTerm
  = Some pTerm ->
  BoosterCore.GetCountScores (BoosterShell.GetBoosterCore shell) = 0
  \/ Term.GetCountTensorBins pTerm = 0 ->
  GenerateTermUpdate rng_in (Some shell) w indexTerm flags learningRate minSamplesLeaf
    minHessian leavesMax direction avgGainOut_in
  = Some {| returned := Error_None;
            shell_after := Some (BoosterShell.SetTermIndex (Z.to_nat indexTerm) shell);
            world_after := w;
            rng_after := None;
            avgGainOut_after := (fun _ => 0%float) <$> avgGainOut_in |}.
Proof.
  intros [Hlo Hhi] Hterm Hnone.
  unfold GenerateTermUpdate, GenerateTermUpdate_body, GenerateTermUpdate_begin. run.
  destruct (Z.ltb_spec indexTerm 0) as [? | _]; [lia |]. run.
  destruct (Z.leb_spec
              (IntEbm_of_size_t (BoosterCore.GetCountTerms (BoosterShell.GetBoosterCore shell)))
              indexTerm) as [? | _]; [lia |]. run.
  rewrite Hterm. run.
  assert ((fun _ : float => 0%float) <$> ((fun _ : float => k_illegalGainDouble) <$> avgGainOut_in)
          = (fun _ => 0%float) <$> avgGainOut_in) as Hcell by (by destruct avgGainOut_in).
  case_bool_decide as Hs; run.
  - cbn. by rewrite Hcell.
  - case_bool_decide as Hb; run.
    + cbn. by rewrite Hcell.
    + destruct Hnone; congruence.
Qed.

(** A call that gets past the parameter checks and the two early exits
    has cleared the round update tensor and goes on with the boosting on
    the samples. *)
Lemma GenerateTermUpdate_body_begin (rng_in : option rng) (indexTerm flags : Z)
    (learningRate : float) (minSamplesLeaf : Z) (minHessian : float)
    (leavesMax direction : option (list Z)) (s : Mem) (r : Flow ErrorEbm) (s' : Mem) :
  let pBoosterCore := BoosterShell.GetBoosterCore (pBoosterShell s) in
  (0 <= indexTerm < IntEbm_of_size_t (BoosterCore.GetCountTerms pBoosterCore))%Z ->
  0 <> BoosterCore.GetCountScores pBoosterCore ->
  (forall pTerm, BoosterCore.GetTerms pBoosterCore !! Z.to_nat indexTerm = Some pTerm ->
     0 <> Term.GetCountTensorBins pTerm) ->
  GenerateTermUpdate_body rng_in indexTerm flags learningRate minSamplesLeaf minHessian
    leavesMax direction s = Some (r, s') ->
  exists l,
    (BoosterCore.GetTerms pBoosterCore !! Z.to_nat indexTerm = Some (Locals.pTerm l)
     /\ Locals.pBoosterCore l = pBoosterCore
     /\ Locals.iTerm l = Z.to_nat indexTerm
     /\ Locals.cDimensions l = Term.GetCountDimensions (Locals.pTerm l))
    /\ exists sized cleared,
         Tensor_SetCountDimensions (Locals.cDimensions l)
           (BoosterShell.GetTermUpdate (pBoosterShell s)) = Some sized
         /\ Tensor_Reset sized = Some cleared
         /\ (gainAvg ←
               (if bool_decide
                     (0 ≠ DataSetBoosting.GetCountSamples
                            (BoosterCore.GetTrainingSet (Locals.pBoosterCore l)))
                then GenerateTermUpdate_boost rng_in l flags learningRate leavesMax
                else mret 0%float);
             GenerateTermUpdate_return (Locals.iTerm l) gainAvg)
              (with_shell (BoosterShell.SetTermUpdate cleared)
                 (with_shell (BoosterShell.SetTermIndex k_illegalTermIndex) s))
            = Some (r, s').
Proof.
  intros pBoosterCore Hidx Hs Hb H. subst pBoosterCore.
  unfold GenerateTermUpdate_body in H. rewrite Run_bind_unfold in H.
  match type of H with
  | match ?B with _ => _ end = _ => destruct B as [[[l | e] s1] |] eqn:E; [| | done]
  end.
  - apply GenerateTermUpdate_begin_inv in E. cbn zeta in E.
    destruct E as (_ & Hterm & Hcore & HiTerm & _ & _ & _ & _ & Hdim
                   & sized & cleared & Hsized & Hcleared & ->).
    exists l. split; [done |]. exists sized, cleared. done.
  - apply GenerateTermUpdate_begin_inv in E. cbn zeta in E.
    destruct E as [(_ & Hbad & _) | (_ & _ & (pTerm & Hterm & Hnone) & _)]; [lia |].
    destruct Hnone as [? | ?]; [done |]. by destruct (Hb pTerm Hterm).
Qed.

(** X15: no samples.  On a training set without samples, a call with a
    legal term index, on a booster with scores and a term with tensor
    bins, that returns has returned [Error_None] with the gain 0: it has
    drawn no seed, has left the world and the inner update tensor alone,
    and the round update tensor is the old one cleared by
    [SetCountDimensions] and [Reset]. *)
Theorem GenerateTermUpdate_no_samples (rng_in : option rng)
    (shell : BoosterShell.t tensor) (w : world)
    (indexTerm flags : Z) (learningRate : float) (minSamplesLeaf : Z)
    (minHessian : float) (leavesMax direction : option (list Z))
    (avgGainOut_in : option float) (pTerm : Term.t) (out : Outcome) :
  (0 <= indexTerm
   < IntEbm_of_size_t (BoosterCore.GetCountTerms (BoosterShell.GetBoosterCore shell)))%Z ->
  BoosterCore.GetTerms (BoosterShell.GetBoosterCore shell) !! Z.to_nat indexTerm
  = Some pTerm ->
  0 <> BoosterCore.GetCountScores (BoosterShell.GetBoosterCore shell) ->
  0 <> Term.GetCountTensorBins pTerm ->
  DataSetBoosting.GetCountSamples
    (BoosterCore.GetTrainingSet (BoosterShell.GetBoosterCore shell)) = 0 ->
  GenerateTermUpdate rng_in (Some shell) w indexTerm flags learningRate minSamplesLeaf
    minHessian leavesMax direction avgGainOut_in = Some out ->
  returned out = Error_None
  /\ world_after out = w
  /\ rng_after out = None
  /\ avgGainOut_after out = (fun _ => 0%float) <$> avgGainOut_in
  /\ exists sized cleared,
       Tensor_SetCountDimensions (Term.GetCountDimensions pTerm)
         (BoosterShell.GetTermUpdate shell) = Some sized
       /\ Tensor_Reset sized = Some cleared
       /\ shell_after out
          = Some (BoosterShell.SetTermIndex (Z.to_nat indexTerm)
                    (BoosterShell.SetTermUpdate cleared shell)).
Proof.
  intros Hidx Hterm Hs Hb Hnone H.
  assert ((fun _ : float => 0%float) <$> ((fun _ : float => k_illegalGainDouble) <$> avgGainOut_in)
          = (fun _ => 0%float) <$> avgGainOut_in) as Hcell by (by destruct avgGainOut_in).
  unfold GenerateTermUpdate in H.
  match type of H with
  | context [GenerateTermUpdate_body ?a ?b ?c ?d ?e ?f ?g ?h ?s] =>
      destruct (GenerateTermUpdate_body a b c d e f g h s) as [[r s']|] eqn:E
  end; [| done].
  cbn [mbind option_bind] in H. injection H as <-.
  cbn [returned world_after rng_after avgGainOut_after shell_after].
  apply GenerateTermUpdate_body_begin in E
    as (l & Hl & sized & cleared & Hsized & Hcleared & E);
    [| done | done
     | intros pT HpT; cbn in HpT; rewrite Hterm in HpT; by injection HpT as <-].
  cbn [pBoosterShell BoosterShell.GetBoosterCore BoosterShell.GetTermUpdate] in *.
  destruct Hl as (Hterm' & Hcore & HiTerm & Hdim). rewrite Hterm in Hterm'.
  injection Hterm' as ->. rewrite Hdim in Hsized.
  rewrite Hcore, HiTerm, Hnone in E.
  rewrite (bool_decide_eq_false_2 (0 ≠ 0)) in E by (intros Hc; by apply Hc).
  unfold GenerateTermUpdate_return in E. run_in E.
  change (PrimFloat.is_nan 0) with false in E.
  change (PrimFloat.eqb PrimFloat.infinity 0) with false in E.
  change (PrimFloat.leb 0 0) with true in E. rewrite orb_true_r in E. run_in E.
  injection E as <- <-. cbn. rewrite Hcell. eauto 10.
Qed.

(** X16: a seed that cannot be drawn.  When the caller gives no generator
    and [std::random_device] throws, a call that got past the parameter
    checks and the early exits returns [Error_OutOfMemory] for
    [std::bad_alloc] and [Error_UnexpectedInternal] for anything else; the
    round update tensor has been cleared, and the world, the generator and
    the inner update tensor are as they were. *)
Theorem GenerateTermUpdate_seed_failure (shell : BoosterShell.t tensor) (w : world)
    (indexTerm flags : Z) (learningRate : float) (minSamplesLeaf : Z)
    (minHessian : float) (leavesMax direction : option (list Z))
    (avgGainOut_in : option float) (pTerm : Term.t) (out : Outcome) :
  (0 <= indexTerm
   < IntEbm_of_size_t (BoosterCore.GetCountTerms (BoosterShell.GetBoosterCore shell)))%Z ->
  BoosterCore.GetTerms (BoosterShell.GetBoosterCore shell) !! Z.to_nat indexTerm
  = Some pTerm ->
  0 <> BoosterCore.GetCountScores (BoosterShell.GetBoosterCore shell) ->
  0 <> Term.GetCountTensorBins pTerm ->
  0 <> DataSetBoosting.GetCountSamples
         (BoosterCore.GetTrainingSet (BoosterShell.GetBoosterCore shell)) ->
  (forall seed, RandomNondeterministic_Next w <> Seeded seed) ->
  GenerateTermUpdate None (Some shell) w indexTerm flags learningRate minSamplesLeaf
    minHessian leavesMax direction avgGainOut_in = Some out ->
  returned out
  = match RandomNondeterministic_Next w with
    | Threw_bad_alloc => Error_OutOfMemory
    | _ => Error_UnexpectedInternal
    end
  /\ world_after out = w
  /\ rng_after out = None
  /\ exists sized cleared,
       Tensor_SetCountDimensions (Term.GetCountDimensions pTerm)
         (BoosterShell.GetTermUpdate shell) = Some sized
       /\ Tensor_Reset sized = Some cleared
       /\ shell_after out
          = Some (BoosterShell.SetTermIndex k_illegalTermIndex
                    (BoosterShell.SetTermUpdate cleared shell)).
Proof.
  intros Hidx Hterm Hs Hb Hsamples Hseed H.
  unfold GenerateTermUpdate in H.
  match type of H with
  | context [GenerateTermUpdate_body ?a ?b ?c ?d ?e ?f ?g ?h ?s] =>
      destruct (GenerateTermUpdate_body a b c d e f g h s) as [[r s']|] eqn:E
  end; [| done].
  cbn [mbind option_bind] in H. injection H as <-.
  cbn [returned world_after rng_after avgGainOut_after shell_after].
  apply GenerateTermUpdate_body_begin in E
    as (l & Hl & sized & cleared & Hsized & Hcleared & E);
    [| done | done
     | intros pT HpT; cbn in HpT; rewrite Hterm in HpT; by injection HpT as <-].
  cbn [pBoosterShell BoosterShell.GetBoosterCore BoosterShell.GetTermUpdate] in *.
  destruct Hl as (Hterm' & Hcore & HiTerm & Hdim). rewrite Hterm in Hterm'.
  injection Hterm' as ->. rewrite Hdim in Hsized.
  rewrite Hcore in E. rewrite (bool_decide_eq_true_2 _ Hsamples) in E.
  unfold GenerateTermUpdate_boost, GenerateTermUpdate_gains in E. run_in E.
  destruct (RandomNondeterministic_Next w) as [seed | |] eqn:Hnext.
  - by destruct (Hseed seed).
  - run_in E. injection E as <- <-. cbn. eauto 10.
  - run_in E. injection E as <- <-. cbn. eauto 10.
Qed.

(** *** The end of the boosting on the samples *)

Lemma GenerateTermUpdate_gains_gain (rng_in : option rng) (l : Locals.t)
    (flags : Z) (learningRate : float) (leavesMax : option (list Z))
    (multiple gainAvg : float) (m m' : Mem) :
  GenerateTermUpdate_gains rng_in l flags learningRate leavesMax m
  = Some (Next (multiple, gainAvg), m') ->
  PrimFloat.is_nan gainAvg = false /\ PrimFloat.leb 0 gainAvg = true.
Proof.
  intros H. unfold GenerateTermUpdate_gains in H. cbv zeta in H.
  do 10 (apply Run_bind_Next in H as (? & ? & _ & H)).
  apply Run_bind_Next in H as (g & m1 & Hbags & H).
  apply mret_Next in H as [[= _ <-] _].
  by apply GenerateTermUpdate_bags_gain in Hbags.
Qed.

(** C7: a call that reaches the end of the loop over the inner bags with
    the memory [m1], and in which scaling the round update tensor of [m1]
    by the final multiplier (halved exactly when there are two scores)
    reports a NaN or an infinity, returns [Error_None] with the tensor
    reset, the term index committed and the sentinel behind [avgGainOut].
    The call is given by the run of its first part, which yields the
    locals, and of the boosting on the samples up to the end of the loop,
    which yields the multiplier and the gain.  The sentinel is neither NaN
    nor infinite. *)
Theorem GenerateTermUpdate_poisoned_update (rng_in : option rng)
    (shell : BoosterShell.t tensor) (w : world)
    (indexTerm flags : Z) (learningRate : float) (minSamplesLeaf : Z)
    (minHessian : float) (leavesMax direction : option (list Z))
    (avgGainOut_in : option float)
    (l : Locals.t) (m0 m1 : Mem) (multiple gainAvg : float)
    (scaled sized cleared : tensor) :
  GenerateTermUpdate_begin indexTerm minSamplesLeaf minHessian leavesMax direction
    {| pBoosterShell := shell; the_world := w; pRng := None;
       avgGainOut := (fun _ => k_illegalGainDouble) <$> avgGainOut_in |}
  = Some (Next l, m0) ->
  0 <> DataSetBoosting.GetCountSamples
         (BoosterCore.GetTrainingSet (BoosterShell.GetBoosterCore shell)) ->
  GenerateTermUpdate_gains rng_in l flags learningRate leavesMax m0
  = Some (Next (multiple, gainAvg), m1) ->
  (if bool_decide (2 = Locals.cScores l)
   then Tensor_MultiplyAndCheckForIssues (PrimFloat.mul multiple 0.5)
          (BoosterShell.GetTermUpdate (pBoosterShell m1))
   else Tensor_MultiplyAndCheckForIssues multiple
          (BoosterShell.GetTermUpdate (pBoosterShell m1)))
  = Some (true, scaled) ->
  Tensor_SetCountDimensions (Locals.cDimensions l) scaled = Some sized ->
  Tensor_Reset sized = Some cleared ->
  PrimFloat.is_nan k_illegalGainDouble = false ->
  PrimFloat.eqb PrimFloat.infinity k_illegalGainDouble = false ->
  GenerateTermUpdate rng_in (Some shell) w indexTerm flags learningRate minSamplesLeaf
    minHessian leavesMax direction avgGainOut_in
  = Some {| returned := Error_None;
            shell_after :=
              Some (BoosterShell.SetTermIndex (Z.to_nat indexTerm)
                      (BoosterShell.SetTermUpdate cleared (pBoosterShell m1)));
            world_after := the_world m1;
            rng_after := pRng m1;
            avgGainOut_after := (fun _ => k_illegalGainDouble) <$> avgGainOut_in |}.
Proof.
  intros Hbegin Hsamples Hgains Hmul Hsize Hreset Hk1 Hk2.
  pose proof (GenerateTermUpdate_begin_inv _ _ _ _ _ _ _ _ Hbegin) as Hinv.
  cbn zeta in Hinv.
  destruct Hinv as (_ & _ & Hcore & HiTerm & _ & _ & _ & _ & _ & ? & ? & _ & _ & Hm0).
  destruct (GenerateTermUpdate_gains_kept _ _ _ _ _ _ _ _ Hgains) as [(_ & _ & Hcell) _].
  destruct (GenerateTermUpdate_gains_gain _ _ _ _ _ _ _ _ _ Hgains) as [Hn Hp].
  rewrite Hm0 in Hcell. cbn in Hcell, Hcore.
  unfold GenerateTermUpdate, GenerateTermUpdate_body.
  rewrite Run_bind_unfold, Hbegin, Hcore, (bool_decide_eq_true_2 _ Hsamples), HiTerm.
  unfold GenerateTermUpdate_boost. rewrite !Run_bind_unfold, Hgains.
  unfold GenerateTermUpdate_finish, GenerateTermUpdate_return,
    GenerateTermUpdate_reset_update.
  run. rewrite Hn, Hp. run.
  destruct (PrimFloat.leb gainAvg double_max) eqn:Hmax; run.
  - rewrite ?Hn, ?Hp, ?(double_not_infinite _ Hp Hmax). run.
    destruct (bool_decide (2 = Locals.cScores l)); rewrite Hmul; run;
      rewrite Hsize; run; rewrite Hreset; run;
      rewrite Hk1, Hk2, (double_eqb_refl _ Hk1); run;
      cbn; rewrite Hcell; by destruct avgGainOut_in.
  - destruct (bool_decide (2 = Locals.cScores l)); rewrite Hmul; run;
      rewrite Hsize; run; rewrite Hreset; run;
      rewrite Hk1, Hk2, (double_eqb_refl _ Hk1); run;
      cbn; rewrite Hcell; by destruct avgGainOut_in.
Qed.

(** C8, as the code has it: a call that reaches the end of the loop over
    the inner bags with a gain above every finite double returns
    [Error_None] with the sentinel behind [avgGainOut] and the term index
    committed; the overflow itself leaves the round update tensor alone,
    which is then scaled like any other update and reset only if the
    scaling reports a NaN or an infinity.  The call is given as in C7. *)
Theorem GenerateTermUpdate_gain_overflow (rng_in : option rng)
    (shell : BoosterShell.t tensor) (w : world)
    (indexTerm flags : Z) (learningRate : float) (minSamplesLeaf : Z)
    (minHessian : float) (leavesMax direction : option (list Z))
    (avgGainOut_in : option float)
    (l : Locals.t) (m0 m1 : Mem) (multiple gainAvg : float)
    (bBad : bool) (scaled final : tensor) :
  GenerateTermUpdate_begin indexTerm minSamplesLeaf minHessian leavesMax direction
    {| pBoosterShell := shell; the_world := w; pRng := None;
       avgGainOut := (fun _ => k_illegalGainDouble) <$> avgGainOut_in |}
  = Some (Next l, m0) ->
  0 <> DataSetBoosting.GetCountSamples
         (BoosterCore.GetTrainingSet (BoosterShell.GetBoosterCore shell)) ->
  GenerateTermUpdate_gains rng_in l flags learningRate leavesMax m0
  = Some (Next (multiple, gainAvg), m1) ->
  PrimFloat.leb gainAvg double_max = false ->
  (if bool_decide (2 = Locals.cScores l)
   then Tensor_MultiplyAndCheckForIssues (PrimFloat.mul multiple 0.5)
          (BoosterShell.GetTermUpdate (pBoosterShell m1))
   else Tensor_MultiplyAndCheckForIssues multiple
          (BoosterShell.GetTermUpdate (pBoosterShell m1)))
  = Some (bBad, scaled) ->
  (if bBad
   then sized ← Tensor_SetCountDimensions (Locals.cDimensions l) scaled; Tensor_Reset sized
   else Some scaled) = Some final ->
  PrimFloat.is_nan k_illegalGainDouble = false ->
  PrimFloat.eqb PrimFloat.infinity k_illegalGainDouble = false ->
  GenerateTermUpdate rng_in (Some shell) w indexTerm flags learningRate minSamplesLeaf
    minHessian leavesMax direction avgGainOut_in
  = Some {| returned := Error_None;
            shell_after :=
              Some (BoosterShell.SetTermIndex (Z.to_nat indexTerm)
                      (BoosterShell.SetTermUpdate final (pBoosterShell m1)));
            world_after := the_world m1;
            rng_after := pRng m1;
            avgGainOut_after := (fun _ => k_illegalGainDouble) <$> avgGainOut_in |}.
Proof.
  intros Hbegin Hsamples Hgains Hmax Hmul Hfinal Hk1 Hk2.
  pose proof (GenerateTermUpdate_begin_inv _ _ _ _ _ _ _ _ Hbegin) as Hinv.
  cbn zeta in Hinv.
  destruct Hinv as (_ & _ & Hcore & HiTerm & _ & _ & _ & _ & _ & ? & ? & _ & _ & Hm0).
  destruct (GenerateTermUpdate_gains_kept _ _ _ _ _ _ _ _ Hgains) as [(_ & _ & Hcell) _].
  destruct (GenerateTermUpdate_gains_gain _ _ _ _ _ _ _ _ _ Hgains) as [Hn Hp].
  rewrite Hm0 in Hcell. cbn in Hcell, Hcore.
  unfold GenerateTermUpdate, GenerateTermUpdate_body.
  rewrite Run_bind_unfold, Hbegin, Hcore, (bool_decide_eq_true_2 _ Hsamples), HiTerm.
  unfold GenerateTermUpdate_boost. rewrite !Run_bind_unfold, Hgains.
  unfold GenerateTermUpdate_finish, GenerateTermUpdate_return,
    GenerateTermUpdate_reset_update.
  run. rewrite Hn, Hp. run. rewrite Hmax. run.
  destruct bBad.
  - destruct (Tensor_SetCountDimensions (Locals.cDimensions l) scaled) as [sized|] eqn:Hsize;
      [| done]. cbn [mbind option_bind] in Hfinal.
    destruct (bool_decide (2 = Locals.cScores l)); rewrite Hmul; run;
      rewrite Hsize; run; rewrite Hfinal; run;
      rewrite Hk1, Hk2, (double_eqb_refl _ Hk1); run;
      cbn; rewrite Hcell; by destruct avgGainOut_in.
  - injection Hfinal as <-.
    destruct (bool_decide (2 = Locals.cScores l)); rewrite Hmul; run;
      rewrite Hk1, Hk2, (double_eqb_refl _ Hk1); run;
      cbn; rewrite Hcell; by destruct avgGainOut_in.
Qed.

End Frame.

Lemma GenerateTermUpdate_poisoned_update_witness :
  exists out shell',
    demo_run 3 double_max 2 = Some out
    /\ returned out = Error_None
    /\ avgGainOut_after out = Some (PrimFloat.opp double_max)
    /\ shell_after out = Some shell'
    /\ BoosterShell.m_iTerm shell' = 0
    /\ scores (BoosterShell.GetTermUpdate shell') = [0%float].
Proof.
  eexists _, _. split.
  - unfold demo_run.
    eapply (GenerateTermUpdate_poisoned_update (PF := lp64 roomy 0)
              (TO := SegmentedTensor_ops (PF := lp64 roomy 0) 0)
              (CO := demo_collaborators 3 double_max));
      [vm_compute; reflexivity | vm_compute; discriminate | vm_compute; reflexivity
      | vm_compute; reflexivity | vm_compute; reflexivity | vm_compute; reflexivity
      | reflexivity | reflexivity ].
  - split; [reflexivity |]. split; [reflexivity |]. split; [reflexivity |].
    split; [reflexivity |]. vm_compute. reflexivity.
Defined.

Lemma GenerateTermUpdate_gain_overflow_witness :
  exists out shell',
    demo_run PrimFloat.infinity 4 0.5 = Some out
    /\ returned out = Error_None
    /\ avgGainOut_after out = Some (PrimFloat.opp double_max)
    /\ shell_after out = Some shell'
    /\ BoosterShell.m_iTerm shell' = 0
    /\ scores (BoosterShell.GetTermUpdate shell') = [2%float].
Proof.
  eexists _, _. split.
  - unfold demo_run.
    eapply (GenerateTermUpdate_gain_overflow (PF := lp64 roomy 0)
              (TO := SegmentedTensor_ops (PF := lp64 roomy 0) 0)
              (CO := demo_collaborators PrimFloat.infinity 4));
      [vm_compute; reflexivity | vm_compute; discriminate | vm_compute; reflexivity
      | reflexivity | vm_compute; reflexivity | vm_compute; reflexivity
      | reflexivity | reflexivity ].
  - split; [reflexivity |]. split; [reflexivity |]. split; [reflexivity |].
    split; [reflexivity |]. vm_compute. reflexivity.
Defined.

(** A round whose accumulated gain is above every finite double, and in
    which the update the bags left, [1.79e308], is not kept after scaling by
    2: the scaling overflows and the tensor is reset to zero.  The last
    part is the whole call. *)
Lemma GenerateTermUpdate_gain_overflow_not_as_stated :
  exists gainAvg m1 scaled m2,
    demo_bags PrimFloat.infinity double_max = Some (Next gainAvg, m1)
    /\ PrimFloat.leb gainAvg double_max = false
    /\ scores (BoosterShell.GetTermUpdate (pBoosterShell m1)) = [double_max]
    /\ MultiplyAndCheckForIssues (PF := lp64 roomy 0) 0 2
         (BoosterShell.GetTermUpdate (pBoosterShell m1)) = Some (true, scaled)
    /\ demo_end PrimFloat.infinity double_max 2 gainAvg m1 = Some (Next Error_None, m2)
    /\ scores (BoosterShell.GetTermUpdate (pBoosterShell m2)) = [0%float]
    /\ BoosterShell.GetTermUpdate (pBoosterShell m2) <> scaled
    /\ BoosterShell.GetTermUpdate (pBoosterShell m2)
       <> BoosterShell.GetTermUpdate (pBoosterShell m1)
    /\ demo_run PrimFloat.infinity double_max 2
       = Some {| returned := Error_None;
                 shell_after := Some (pBoosterShell m2);
                 world_after := tt;
                 rng_after := Some tt;
                 avgGainOut_after := Some (PrimFloat.opp double_max) |}.
Proof.
  eexists _, _, _, _. split; [vm_compute; reflexivity |].
  split; [reflexivity |]. split; [reflexivity |].
  split; [vm_compute; reflexivity |].
  split; [vm_compute; reflexivity |].
  split; [reflexivity |].
  split; [| split; [| vm_compute; reflexivity]];
    intros E; apply (f_equal m_aValues) in E; revert E.
  - apply (doubles_differ 0 0 PrimFloat.infinity); reflexivity.
  - apply (doubles_differ 0 0 double_max); reflexivity.
Qed.

Lemma GenerateTermUpdate_error_outputs_witness :
  exists out shell,
    demo_call Threw_bad_alloc 1 1 0 = Some out
    /\ returned out = Error_OutOfMemory
    /\ avgGainOut_after out = Some (PrimFloat.opp double_max)
    /\ shell_after out = Some shell
    /\ BoosterShell.m_iTerm shell = 9.
Proof.
  eexists _, _. split; [vm_compute; reflexivity |]. split; [reflexivity |].
  destruct (GenerateTermUpdate_error_outputs (PF := lp64 roomy 0)
              (TO := SegmentedTensor_ops (PF := lp64 roomy 0) 0)
              (CO := demo_collaborators_seed Threw_bad_alloc)
              None (Some (demo_shell_with 1 1)) tt 0 0 0.5 1 1 (Some [2%Z]) None
              (Some 123%float) _ ltac:(vm_compute; reflexivity) ltac:(discriminate))
    as [H1 H2].
  split; [exact H1 |]. split; [reflexivity |]. apply H2. reflexivity.
Defined.

Lemma GenerateTermUpdate_success_outputs_witness :
  exists out shell' gain,
    demo_call (Seeded 0) 1 1 0 = Some out
    /\ returned out = Error_None
    /\ shell_after out = Some shell'
    /\ BoosterShell.m_iTerm shell' = 0
    /\ avgGainOut_after out = Some gain.
Proof.
  destruct (GenerateTermUpdate_success_outputs (PF := lp64 roomy 0)
              (TO := SegmentedTensor_ops (PF := lp64 roomy 0) 0)
              (CO := demo_collaborators_seed (Seeded 0))
              None (Some (demo_shell_with 1 1)) tt 0 0 0.5 1 1 (Some [2%Z]) None
              (Some 123%float) _ ltac:(vm_compute; reflexivity) ltac:(reflexivity))
    as (shell & shell' & gain & _ & _ & H3 & H4 & _ & H6).
  eexists _, shell', gain. split; [vm_compute; reflexivity |].
  split; [reflexivity |]. split; [exact H3 |]. split; [exact H4 | exact H6].
Defined.

Lemma GenerateTermUpdate_nothing_to_boost_witness :
  demo_call (Seeded 0) 0 1 0
  = Some {| returned := Error_None;
            shell_after := Some (BoosterShell.SetTermIndex 0 (demo_shell_with 0 1));
            world_after := tt;
            rng_after := None;
            avgGainOut_after := Some 0%float |}.
Proof.
  apply (GenerateTermUpdate_nothing_to_boost (PF := lp64 roomy 0)
           (TO := SegmentedTensor_ops (PF := lp64 roomy 0) 0)
           (CO := demo_collaborators_seed (Seeded 0))
           None (demo_shell_with 0 1) tt 0 0 0.5 1 1 (Some [2%Z]) None (Some 123%float)
           demo_term).
  - vm_compute. split; [discriminate | reflexivity].
  - reflexivity.
  - left. reflexivity.
Defined.

Lemma GenerateTermUpdate_no_samples_witness :
  exists out cleared,
    demo_call (Seeded 0) 1 0 0 = Some out
    /\ returned out = Error_None
    /\ rng_after out = None
    /\ avgGainOut_after out = Some 0%float
    /\ shell_after out
       = Some (BoosterShell.SetTermIndex 0
                 (BoosterShell.SetTermUpdate cleared (demo_shell_with 1 0)))
    /\ scores cleared = [0%float].
Proof.
  destruct (GenerateTermUpdate_no_samples (PF := lp64 roomy 0)
              (TO := SegmentedTensor_ops (PF := lp64 roomy 0) 0)
              (CO := demo_collaborators_seed (Seeded 0))
              None (demo_shell_with 1 0) tt 0 0 0.5 1 1 (Some [2%Z]) None (Some 123%float)
              demo_term _
              ltac:(vm_compute; split; [discriminate | reflexivity])
              ltac:(reflexivity) ltac:(vm_compute; lia) ltac:(vm_compute; lia)
              ltac:(reflexivity) ltac:(vm_compute; reflexivity))
    as (H1 & _ & H3 & H4 & sized & cleared & Hs & Hc & H5).
  eexists _, cleared. split; [vm_compute; reflexivity |].
  split; [exact H1 |]. split; [exact H3 |]. split; [exact H4 |]. split; [exact H5 |].
  vm_compute in Hs. injection Hs as <-. vm_compute in Hc. injection Hc as <-.
  reflexivity.
Defined.

Lemma GenerateTermUpdate_seed_failure_witness :
  exists out,
    demo_call Threw_other 1 1 0 = Some out
    /\ returned out = Error_UnexpectedInternal
    /\ rng_after out = None.
Proof.
  destruct (GenerateTermUpdate_seed_failure (PF := lp64 roomy 0)
              (TO := SegmentedTensor_ops (PF := lp64 roomy 0) 0)
              (CO := demo_collaborators_seed Threw_other)
              (demo_shell_with 1 1) tt 0 0 0.5 1 1 (Some [2%Z]) None (Some 123%float)
              demo_term _
              ltac:(vm_compute; split; [discriminate | reflexivity])
              ltac:(reflexivity) ltac:(vm_compute; lia) ltac:(vm_compute; lia)
              ltac:(vm_compute; lia) ltac:(discriminate) ltac:(vm_compute; reflexivity))
    as (H1 & _ & H3 & _).
  eexists. split; [vm_compute; reflexivity |]. split; [exact H1 | exact H3].
Defined.
